(** * imageset-packer: a shallow embedding of the core and its checked properties

    The development follows the Go sources of the repository:
    - [GoInt]     : Go's [int] on a 64-bit target, as [Z] with the wrap-around
                    of every arithmetic operation written out;
    - [Packer]    : internal/packer (MaxRects bin, size search, [Pack]);
    - [Bcn]       : internal/bcn (RGB565, reference colours, BC1 blocks);
    - [Dds]       : internal/dds (header reader and canonical RGBA8 header);
    - [Edds]      : internal/edds (block decompression, chunk stream);
    - [Imageset]  : internal/imageset (names, writer, line parser).

    A function of the source that may loop for ever (the doubling loops of the
    size search once a size wraps around) returns [option]: [None] stands for
    a run that does not return. *)

From Stdlib Require Import String Ascii.
From Stdlib Require Import ZArith List Bool Lia Permutation Sorted.
From Stdlib Require Import Floats.
From Stdlib Require DecimalPos.
Import ListNotations.
Local Open Scope Z_scope.

(* ===================================================================== *)
(** * Go's [int] *)
(* ===================================================================== *)

Module GoInt.

Definition int_min : Z := - 2 ^ 63.
Definition int_max : Z := 2 ^ 63 - 1.

(** The value a 64-bit two's complement register holds for the integer [z]. *)
Definition wrap (z : Z) : Z := (z + 2 ^ 63) mod 2 ^ 64 - 2 ^ 63.

Definition in_range (z : Z) : Prop := int_min <= z <= int_max.

Definition add (a b : Z) : Z := wrap (a + b).
Definition sub (a b : Z) : Z := wrap (a - b).
Definition mul (a b : Z) : Z := wrap (a * b).
Definition neg (a : Z) : Z := wrap (- a).
(** [a << 1] and [a *= 2]. *)
Definition dbl (a : Z) : Z := wrap (2 * a).

End GoInt.

Infix "+!" := GoInt.add (at level 50, left associativity) : Z_scope.
Infix "-!" := GoInt.sub (at level 50, left associativity) : Z_scope.
Infix "*!" := GoInt.mul (at level 40, left associativity) : Z_scope.

(** Go's [float64(n)] for an [int] [n]: the nearest binary64 value. *)
Definition float64_of_int (z : Z) : float :=
  SF2Prim (binary_normalize prec emax z 0 false).

(** [math.MaxFloat64]. *)
Definition MaxFloat64 : float := 0x1.fffffffffffffp+1023%float.

(* ===================================================================== *)
(** * internal/packer *)
(* ===================================================================== *)

Module Packer.

(** ** Types (config.go) *)

(** [type Rule int]: any integer can be stored in a [Config]. *)
Definition Rule := Z.
Definition BestShortSideFit : Rule := 0.
Definition BestLongSideFit : Rule := 1.
Definition BestAreaFit : Rule := 2.
Definition BottomLeft : Rule := 3.
Definition ContactPoint : Rule := 4.

Record Config := mkConfig {
  MinSize : Z;
  MaxSize : Z;
  Gap : Z;
  AspectPenalty : float;
  CfgRule : Rule;
  PreferHeight : bool;
  ForceSquare : bool;
  AllowRotate : bool
}.

(** The pixel source of an image plays no part in sizes and positions and is
    left out, as is the atlas image of a [Result]. *)
Record ImageInfo := mkImageInfo {
  Name : string;
  Width : Z;
  Height : Z
}.

Record Placement := mkPlacement {
  PName : string;
  PX : Z;
  PY : Z;
  PWidth : Z;
  PHeight : Z;
  PRotated : bool
}.

Record Result := mkResult {
  Placements : list Placement;
  RWidth : Z;
  RHeight : Z
}.

(** ** MaxRects bin (maxrects.go) *)

Record mrRect := mkRect {
  X : Z; Y : Z; W : Z; H : Z;
  Rotated : bool
}.

Definition zeroRect : mrRect := mkRect 0 0 0 0 false.

Record maxRects := mkMaxRects {
  used : list mrRect;
  free : list mrRect;
  mw : Z;
  mh : Z;
  allowRotate : bool
}.

Definition newMaxRects (w h : Z) (rot : bool) : maxRects :=
  mkMaxRects [] [mkRect 0 0 w h false] w h rot.

Definition commonInterval (a0 a1 b0 b1 : Z) : Z :=
  if (a1 <=? b0) || (b1 <=? a0) then 0
  else
    let e := if b1 <? a1 then b1 else a1 in
    let s := if a0 <? b0 then b0 else a0 in
    e -! s.

Definition contactStep (x y w h : Z) (score : Z) (u : mrRect) : Z :=
  let score :=
    if (X u =? x +! w) || (X u +! W u =? x)
    then score +! commonInterval (Y u) (Y u +! H u) y (y +! h) else score in
  if (Y u =? y +! h) || (Y u +! H u =? y)
  then score +! commonInterval (X u) (X u +! W u) x (x +! w) else score.

Definition contactScore (m : maxRects) (x y w h : Z) : Z :=
  let score := 0 in
  let score := if (x =? 0) || (x +! w =? mw m) then score +! h else score in
  let score := if (y =? 0) || (y +! h =? mh m) then score +! w else score in
  fold_left (contactStep x y w h) (used m) score.

Definition absInt (v : Z) : Z := if v <? 0 then GoInt.neg v else v.

Definition score (m : maxRects) (rule : Rule) (fr : mrRect) (rw rh : Z) : Z * Z :=
  let leftoverH := absInt (W fr -! rw) in
  let leftoverV := absInt (H fr -! rh) in
  let shortSide := if leftoverV <? leftoverH then leftoverV else leftoverH in
  let longSide := if leftoverV <? leftoverH then leftoverH else leftoverV in
  if rule =? BestShortSideFit then (shortSide, longSide)
  else if rule =? BestLongSideFit then (longSide, shortSide)
  else if rule =? BestAreaFit then (W fr *! H fr -! rw *! rh, shortSide)
  else if rule =? BottomLeft then (Y fr +! rh, X fr)
  else if rule =? ContactPoint then (GoInt.neg (contactScore m (X fr) (Y fr) rw rh), 0)
  else (2 ^ 30, 2 ^ 30).

(** The running best of [Insert]'s scan: [best], [pri], [sec], [found]. *)
Definition scanState : Type := mrRect * Z * Z * bool.

Definition better (p s pri sec : Z) : bool :=
  (p <? pri) || ((p =? pri) && (s <? sec)).

Definition insertStep (m : maxRects) (w h : Z) (rule : Rule)
    (st : scanState) (fr : mrRect) : scanState :=
  let st1 :=
    let '(_, pri, sec, _) := st in
    if (w <=? W fr) && (h <=? H fr) then
      let '(p1, s1) := score m rule fr w h in
      if better p1 s1 pri sec
      then (mkRect (X fr) (Y fr) w h false, p1, s1, true) else st
    else st in
  let '(_, pri, sec, _) := st1 in
  if allowRotate m && (h <=? W fr) && (w <=? H fr) then
    let '(p2, s2) := score m rule fr h w in
    if better p2 s2 pri sec
    then (mkRect (X fr) (Y fr) h w true, p2, s2, true) else st1
  else st1.

Definition insertScan (m : maxRects) (w h : Z) (rule : Rule) : scanState :=
  fold_left (insertStep m w h rule) (free m) (zeroRect, 2 ^ 30, 2 ^ 30, false).

(** [splitFree]: [None] when the free rectangle does not overlap [u] (the
    source returns false), otherwise the residual slabs it appends. *)
Definition splitFree (fr u : mrRect) : option (list mrRect) :=
  if (X fr +! W fr <=? X u) || (X u +! W u <=? X fr)
     || (Y fr +! H fr <=? Y u) || (Y u +! H u <=? Y fr)
  then None
  else
    let hs :=
      if (X u <? X fr +! W fr) && (X fr <? X u +! W u) then
        (if (Y fr <? Y u) && (Y u <? Y fr +! H fr)
         then [mkRect (X fr) (Y fr) (W fr) (Y u -! Y fr) false] else [])
        ++
        (if Y u +! H u <? Y fr +! H fr
         then [mkRect (X fr) (Y u +! H u) (W fr)
                      (Y fr +! H fr -! (Y u +! H u)) false] else [])
      else [] in
    let vs :=
      if (Y u <? Y fr +! H fr) && (Y fr <? Y u +! H u) then
        (if (X fr <? X u) && (X u <? X fr +! W fr)
         then [mkRect (X fr) (Y fr) (X u -! X fr) (H fr) false] else [])
        ++
        (if X u +! W u <? X fr +! W fr
         then [mkRect (X u +! W u) (Y fr)
                      (X fr +! W fr -! (X u +! W u)) (H fr) false] else [])
      else [] in
    Some (hs ++ vs).

(** The loop of [place]: the free list is [done ++ todo] and the index [i] is
    [length done].  A split rectangle is removed and its residuals join the
    end of the list, where the loop visits them in turn. *)
Fixpoint splitLoop (fuel : nat) (u : mrRect) (done todo : list mrRect)
    : option (list mrRect) :=
  match todo with
  | [] => Some done
  | fr :: rest =>
      match fuel with
      | O => None
      | S fuel' =>
          match splitFree fr u with
          | Some pieces => splitLoop fuel' u done (rest ++ pieces)
          | None => splitLoop fuel' u (done ++ [fr]) rest
          end
      end
  end.

Definition containedIn (a b : mrRect) : bool :=
  (X b <=? X a) && (Y b <=? Y a)
  && (X a +! W a <=? X b +! W b) && (Y a +! H a <=? Y b +! H b).

(** Inner loop of [pruneFree] for a fixed [a = free[i]]: scans the rest of the
    list, dropping what [a] contains; stops as soon as [a] itself is contained
    (then [a] is removed and the flag is true). *)
Fixpoint pruneInner (a : mrRect) (rest : list mrRect) : bool * list mrRect :=
  match rest with
  | [] => (false, [])
  | b :: tl =>
      if containedIn a b then (true, b :: tl)
      else if containedIn b a then pruneInner a tl
      else let '(r, l) := pruneInner a tl in (r, b :: l)
  end.

(** Outer loop of [pruneFree]; [n] bounds the length of the list. *)
Fixpoint pruneOuter (n : nat) (l : list mrRect) : list mrRect :=
  match n, l with
  | S n', a :: rest =>
      let '(removed, rest') := pruneInner a rest in
      if removed then pruneOuter n' rest' else a :: pruneOuter n' rest'
  | _, _ => l
  end.

Definition pruneFree (l : list mrRect) : list mrRect :=
  pruneOuter (length l) l.

(** [place]: every free rectangle is visited once and yields at most four
    residuals, which are never split again, so [5 * len + 1] steps are enough. *)
Definition place (m : maxRects) (u : mrRect) : option maxRects :=
  match splitLoop (5 * length (free m) + 1) u [] (free m) with
  | Some fr =>
      Some (mkMaxRects (used m ++ [u]) (pruneFree fr) (mw m) (mh m) (allowRotate m))
  | None => None
  end.

Definition Insert (m : maxRects) (w h : Z) (rule : Rule)
    : option (maxRects * (mrRect * bool)) :=
  let '(best, _, _, found) := insertScan m w h rule in
  if negb found then Some (m, (zeroRect, false))
  else match place m best with
       | Some m' => Some (m', (best, true))
       | None => None
       end.

(** ** util.go *)

(** Every doubling loop of the package multiplies a counter by two until it
    passes a bound.  After 64 doublings a 64-bit counter is 0 and stays 0, so
    a loop that has not left after 65 rounds never leaves. *)
Definition loopFuel : nat := 65.

Fixpoint nextPowerOfTwo_loop (fuel : nat) (p n : Z) : option Z :=
  if p <? n then
    match fuel with
    | O => None
    | S fuel' => nextPowerOfTwo_loop fuel' (GoInt.dbl p) n
    end
  else Some p.

Definition nextPowerOfTwo (n : Z) : option Z :=
  if n <=? 0 then Some 1
  else if Z.land n (n -! 1) =? 0 then Some n
  else nextPowerOfTwo_loop loopFuel 1 n.

Fixpoint powerOfTwoCeil_loop (fuel : nat) (p v n : Z) : option Z :=
  if v <? n then
    match fuel with
    | O => None
    | S fuel' => powerOfTwoCeil_loop fuel' (p +! 1) (GoInt.dbl v) n
    end
  else Some p.

Definition powerOfTwoCeil (n : Z) : option Z :=
  if n <=? 0 then Some 0 else powerOfTwoCeil_loop loopFuel 0 1 n.

Definition absPowerDiff (a b : Z) : option Z :=
  match powerOfTwoCeil a with
  | None => None
  | Some pa =>
      match powerOfTwoCeil b with
      | None => None
      | Some pb => let d := pa -! pb in Some (if d <? 0 then GoInt.neg d else d)
      end
  end.

(** ** sort.go *)

Definition padded (cfg : Config) (v : Z) : Z := v +! 2 *! Gap cfg.

(** The [less] closure handed to [sort.Slice]. *)
Definition lessForPacking (cfg : Config) (a b : ImageInfo) : bool :=
  let wi := padded cfg (Width a) in
  let hi := padded cfg (Height a) in
  let wj := padded cfg (Width b) in
  let hj := padded cfg (Height b) in
  let mi := if wi <? hi then hi else wi in
  let mj := if wj <? hj then hj else wj in
  if negb (mi =? mj) then mj <? mi
  else
    let ai := wi *! hi in
    let aj := wj *! hj in
    if negb (ai =? aj) then aj <? ai
    else if negb (hi =? hj) then hj <? hi
    else wj <? wi.

(** ** size.go *)

Definition clampRule (rule : Rule) : Rule :=
  if (rule <? BestShortSideFit) || (ContactPoint <? rule)
  then BestShortSideFit else rule.

Fixpoint canFit_loop (bin : maxRects) (images : list ImageInfo)
    (cfg : Config) (rule : Rule) : option bool :=
  match images with
  | [] => Some true
  | im :: rest =>
      let pw := padded cfg (Width im) in
      let ph := padded cfg (Height im) in
      match Insert bin pw ph rule with
      | None => None
      | Some (bin', (_, ok)) =>
          if negb ok then Some false else canFit_loop bin' rest cfg rule
      end
  end.

Definition canFitMaxRects (images : list ImageInfo) (w h : Z) (cfg : Config)
    (rule : Rule) : option bool :=
  canFit_loop (newMaxRects w h (AllowRotate cfg)) images cfg rule.

(** The variables the [try] closure of [findOptimalSize] updates:
    [bestW], [bestH], [bestScore]. *)
Definition searchState : Type := Z * Z * float.

Definition tryCandidate (images : list ImageInfo) (cfg : Config) (rule : Rule)
    (st : searchState) (w h : Z) : option searchState :=
  let '(_, _, bestScore) := st in
  if (MaxSize cfg <? w) || (MaxSize cfg <? h) then Some st
  else
    let shapeOk :=
      if ForceSquare cfg then Some (w =? h)
      else match absPowerDiff w h with
           | None => None
           | Some d => Some (d <=? 1)
           end in
    match shapeOk with
    | None => None
    | Some false => Some st
    | Some true =>
        match canFitMaxRects images w h cfg rule with
        | None => None
        | Some false => Some st
        | Some true =>
            let aspect := (float64_of_int (Z.max w h) / float64_of_int (Z.min w h))%float in
            let score :=
              (float64_of_int (w *! h) * (1 + AspectPenalty cfg * (aspect - 1)))%float in
            if (score <? bestScore)%float
               || ((score =? bestScore)%float
                   && ((negb (PreferHeight cfg) && (h <=? w))
                       || (PreferHeight cfg && (w <=? h))))
            then Some (w, h, score) else Some st
        end
    end.

(** [for s := size; s <= cfg.MaxSize; s *= 2 { body s }]. *)
Fixpoint sizeLoop {S : Type} (fuel : nat) (maxSize : Z)
    (body : S -> Z -> option S) (st : S) (s : Z) : option S :=
  if s <=? maxSize then
    match fuel with
    | O => None
    | S fuel' =>
        match body st s with
        | None => None
        | Some st' => sizeLoop fuel' maxSize body st' (GoInt.dbl s)
        end
    end
  else Some st.

Definition maxPadded (cfg : Config) (images : list ImageInfo) : Z * Z :=
  fold_left (fun '(minW, minH) im =>
               let w := padded cfg (Width im) in
               let h := padded cfg (Height im) in
               (if minW <? w then w else minW, if minH <? h then h else minH))
            images (0, 0).

Definition startSize (cfg : Config) (images : list ImageInfo) : option Z :=
  let '(minW, minH) := maxPadded cfg images in
  let size := Some (MinSize cfg) in
  let size :=
    match size with
    | Some sz => if sz <? minW then nextPowerOfTwo minW else Some sz
    | None => None
    end in
  match size with
  | Some sz => if sz <? minH then nextPowerOfTwo minH else Some sz
  | None => None
  end.

Definition findOptimalSize (images : list ImageInfo) (cfg : Config)
    : option (Z * Z) :=
  match startSize cfg images with
  | None => None
  | Some size =>
      let rule := clampRule (CfgRule cfg) in
      let try := tryCandidate images cfg rule in
      let st0 : searchState := (size, size, MaxFloat64) in
      let final :=
        if ForceSquare cfg then
          sizeLoop loopFuel (MaxSize cfg) (fun st s => try st s s) st0 size
        else if PreferHeight cfg then
          sizeLoop loopFuel (MaxSize cfg)
            (fun st w =>
               sizeLoop loopFuel (MaxSize cfg) (fun st h => try st w h) st size)
            st0 size
        else
          sizeLoop loopFuel (MaxSize cfg)
            (fun st h =>
               sizeLoop loopFuel (MaxSize cfg) (fun st w => try st w h) st size)
            st0 size in
      match final with
      | None => None
      | Some (bestW, bestH, _) => Some (bestW, bestH)
      end
  end.

(** ** pack.go *)

Inductive PackError :=
| ErrInvalidConfig
| ErrExceedsMaxSize (w h : Z)
| ErrFailedToPlace (name : string).

Definition validateConfig (cfg : Config) : bool :=
  negb ((MinSize cfg <=? 0) || (MaxSize cfg <=? 0) || (MaxSize cfg <? MinSize cfg))
  && negb (Gap cfg <? 0).

(** The placement loop of [Pack]. *)
Fixpoint placeAll (cfg : Config) (rule : Rule) (bin : maxRects)
    (imgs : list ImageInfo) (acc : list Placement)
    : option (list Placement + PackError) :=
  match imgs with
  | [] => Some (inl acc)
  | im :: rest =>
      let pw := padded cfg (Width im) in
      let ph := padded cfg (Height im) in
      match Insert bin pw ph rule with
      | None => None
      | Some (bin', (rect, ok)) =>
          if negb ok then Some (inr (ErrFailedToPlace (Name im)))
          else
            let x := X rect +! Gap cfg in
            let y := Y rect +! Gap cfg in
            placeAll cfg rule bin' rest
              (acc ++ [mkPlacement (Name im) x y (Width im) (Height im) (Rotated rect)])
      end
  end.

Section WithSort.

(** [sort.Slice] of Go's standard library, applied to a slice of images with
    a [less] on its elements. *)
Variable sort_Slice : (ImageInfo -> ImageInfo -> bool) -> list ImageInfo -> list ImageInfo.

Definition sortImagesForPacking (images : list ImageInfo) (cfg : Config)
    : list ImageInfo :=
  sort_Slice (lessForPacking cfg) images.

Definition Pack (images : list ImageInfo) (cfg : Config)
    : option (Result + PackError) :=
  if negb (validateConfig cfg) then Some (inr ErrInvalidConfig)
  else
    match images with
    | [] => Some (inl (mkResult [] (MinSize cfg) (MinSize cfg)))
    | _ =>
        let imgs := sortImagesForPacking images cfg in
        match findOptimalSize imgs cfg with
        | None => None
        | Some (w, h) =>
            if (MaxSize cfg <? w) || (MaxSize cfg <? h)
            then Some (inr (ErrExceedsMaxSize w h))
            else
              let bin := newMaxRects w h (AllowRotate cfg) in
              let rule := clampRule (CfgRule cfg) in
              match placeAll cfg rule bin imgs [] with
              | None => None
              | Some (inr e) => Some (inr e)
              | Some (inl placements) => Some (inl (mkResult placements w h))
              end
        end
    end.

End WithSort.

(** The insertion sort [sort.Slice] runs on short slices: each element moves
    left past the elements it is less than. *)
Fixpoint insertLeft {A : Type} (less : A -> A -> bool) (sorted_rev : list A) (x : A)
    : list A :=
  match sorted_rev with
  | [] => [x]
  | y :: tl => if less x y then y :: insertLeft less tl x else x :: sorted_rev
  end.

Definition insertionSort {A : Type} (less : A -> A -> bool) (l : list A) : list A :=
  rev (fold_left (insertLeft less) l []).

End Packer.

(* ===================================================================== *)
(** * Specification vocabulary for the packer *)
(* ===================================================================== *)

Module PackerSpec.
Import GoInt Packer.

(** ** Geometry of the bin *)

Definition inside (r : mrRect) (px py : Z) : Prop :=
  X r <= px < X r + W r /\ Y r <= py < Y r + H r.

Definition rectDisjoint (a b : mrRect) : Prop :=
  forall px py, inside a px py -> inside b px py -> False.

Definition freeOk (bw bh : Z) (fr : mrRect) : Prop :=
  0 <= X fr /\ 0 <= Y fr /\ 0 <= W fr /\ 0 <= H fr
  /\ X fr + W fr <= bw /\ Y fr + H fr <= bh.

Definition usedOk (bw bh : Z) (u : mrRect) : Prop :=
  0 <= X u /\ 0 <= Y u /\ int_min <= W u /\ int_min <= H u
  /\ X u + W u <= bw /\ Y u + H u <= bh.

Definition usedDisjoint (us : list mrRect) : Prop :=
  forall i j a b, i <> j -> nth_error us i = Some a -> nth_error us j = Some b ->
    rectDisjoint a b.

Record binInv (m : maxRects) : Prop := {
  inv_w : 0 <= mw m <= int_max;
  inv_h : 0 <= mh m <= int_max;
  inv_free : Forall (freeOk (mw m) (mh m)) (free m);
  inv_used : Forall (usedOk (mw m) (mh m)) (used m);
  inv_sep : forall fr u, In fr (free m) -> In u (used m) -> rectDisjoint fr u;
  inv_disj : usedDisjoint (used m)
}.

(** [Insert]'s scan only ever proposes a corner of a free rectangle that is
    large enough for the requested orientation. *)
Definition proposal (m : maxRects) (w h : Z) (best : mrRect) : Prop :=
  exists fr, In fr (free m) /\ X best = X fr /\ Y best = Y fr
    /\ ((W best = w /\ H best = h /\ Rotated best = false /\ w <= W fr /\ h <= H fr)
        \/ (W best = h /\ H best = w /\ Rotated best = true
            /\ allowRotate m = true /\ h <= W fr /\ w <= H fr)).

(** ** Placements *)

Definition placedW (p : Placement) : Z := if PRotated p then PHeight p else PWidth p.
Definition placedH (p : Placement) : Z := if PRotated p then PWidth p else PHeight p.

Definition covers (p : Placement) (px py : Z) : Prop :=
  PX p <= px < PX p + placedW p /\ PY p <= py < PY p + placedH p.

Definition inAtlas (aw ah : Z) (p : Placement) : Prop :=
  0 <= PX p /\ 0 <= PY p /\ PX p + placedW p <= aw /\ PY p + placedH p <= ah.

Definition placementsDisjoint (p q : Placement) : Prop :=
  forall px py, ~ (covers p px py /\ covers q px py).

Definition pairwiseDisjoint (ps : list Placement) : Prop :=
  forall i j p q, i <> j -> nth_error ps i = Some p -> nth_error ps j = Some q ->
    placementsDisjoint p q.

Definition representable (cfg : Config) : Prop :=
  in_range (MinSize cfg) /\ in_range (MaxSize cfg) /\ in_range (Gap cfg).

Definition paddingFits (cfg : Config) (im : ImageInfo) : Prop :=
  0 <= Width im /\ 0 <= Height im
  /\ Width im + 2 * Gap cfg <= int_max /\ Height im + 2 * Gap cfg <= int_max.

(** A placement and the padded rectangle the bin reserved for it. *)
Definition placedIn (bw bh : Z) (p : Placement) (u : mrRect) : Prop :=
  inAtlas bw bh p /\ forall px py, covers p px py -> inside u px py.

(** ** Sizes *)

Definition isPow2 (z : Z) : Prop := exists k, 0 <= k /\ z = 2 ^ k.

(** Powers of two a 64-bit [int] holds. *)
Definition smallPow2 (z : Z) : Prop := exists k, 0 <= k <= 62 /\ z = 2 ^ k.

(** The values a counter doubled from a power of two runs through. *)
Definition doubled (p : Z) : Prop :=
  (exists k, 0 <= k <= 62 /\ p = 2 ^ k) \/ p = - 2 ^ 63 \/ p = 0.

(** What the size search keeps true of [bestW], [bestH]. *)
Definition goodBest (cfg : Config) (size : Z) (st : searchState) : Prop :=
  let '(bw, bh, _) := st in
  smallPow2 bw /\ smallPow2 bh /\ size <= bw /\ size <= bh
  /\ (ForceSquare cfg = true -> bw = bh)
  /\ Z.abs (Z.log2 bw - Z.log2 bh) <= 1.

(** ** Sorting *)

(** The contract [sort.Slice] documents: the result is a permutation, and for
    a [less] that is a strict weak ordering no element is less than one
    before it.  ("The sort is not guaranteed to be stable.") *)
Record strictWeakOrder {A : Type} (less : A -> A -> bool) : Prop := {
  swo_irrefl : forall a, less a a = false;
  swo_trans : forall a b c, less a b = true -> less b c = true -> less a c = true;
  swo_incomp : forall a b c, less a b = false -> less b c = false -> less a c = false
}.

Definition sortedBy {A : Type} (less : A -> A -> bool) (l : list A) : Prop :=
  StronglySorted (fun a b => less b a = false) l.

Definition sortSliceContract
    (sort : (ImageInfo -> ImageInfo -> bool) -> list ImageInfo -> list ImageInfo) : Prop :=
  forall less l,
    Permutation l (sort less l) /\ (strictWeakOrder less -> sortedBy less (sort less l)).

(** The four keys of an entry, as the comparator computes them: padded longest
    side, padded area, padded height, padded width. *)
Definition sortKey (cfg : Config) (im : ImageInfo) : Z * Z * Z * Z :=
  let w := padded cfg (Width im) in
  let h := padded cfg (Height im) in
  (Z.max w h, w *! h, h, w).

(** [k1] comes no later than [k2] in the descending lexicographic order. *)
Definition keyGe (k1 k2 : Z * Z * Z * Z) : Prop :=
  let '(m1, a1, h1, w1) := k1 in
  let '(m2, a2, h2, w2) := k2 in
  m2 < m1 \/ (m1 = m2 /\ (a2 < a1 \/ (a1 = a2 /\ (h2 < h1 \/ (h1 = h2 /\ w2 <= w1))))).

Definition keyGt (k1 k2 : Z * Z * Z * Z) : Prop :=
  let '(m1, a1, h1, w1) := k1 in
  let '(m2, a2, h2, w2) := k2 in
  m2 < m1 \/ (m1 = m2 /\ (a2 < a1 \/ (a1 = a2 /\ (h2 < h1 \/ (h1 = h2 /\ w2 < w1))))).

(** ** Concrete inputs used by the examples *)

Local Open Scope string_scope.

(** Section 8 of the specification: three images, [MinSize] 32, [MaxSize] 64,
    [Gap] 1, rule [BottomLeft]. *)
Definition scenario_images : list ImageInfo :=
  [mkImageInfo "a" 10 12; mkImageInfo "b" 8 8; mkImageInfo "c" 5 14].
Definition scenario_cfg : Config :=
  mkConfig 32 64 1 0%float BottomLeft false false false.
Definition scenario_result : Result :=
  mkResult [mkPlacement "c" 1 1 5 14 false;
            mkPlacement "a" 8 1 10 12 false;
            mkPlacement "b" 20 1 8 8 false] 32 32.

(** TestFindOptimalSizePreferHeightTieBreak. *)
Definition tie_images : list ImageInfo :=
  [mkImageInfo "a" 30 20; mkImageInfo "b" 30 20].
Definition tie_cfg (preferHeight : bool) : Config :=
  mkConfig 16 64 0 0.25%float BestShortSideFit preferHeight false false.

(** A gap whose double no longer fits a 64-bit [int]. *)
Definition overflow_images : list ImageInfo := [mkImageInfo "a" 1 1].
Definition overflow_cfg : Config :=
  mkConfig 1 1 (2 ^ 62) 0%float BestShortSideFit false false false.

(** A valid configuration whose [MinSize] is no power of two. *)
Definition odd_cfg : Config :=
  mkConfig 3 8 0 0%float BestShortSideFit false false false.

End PackerSpec.

(* ===================================================================== *)
(** * Go's standard library: sort.Slice *)
(* ===================================================================== *)

(** [sort.Slice] as the Go toolchain of the module ([go 1.25]) implements it:
    the pattern-defeating quicksort of [sort/zsortfunc.go].  The slice is a
    list, [data.Less(i, j)] compares the elements at [i] and [j] with the
    [less] of the caller, [data.Swap(i, j)] exchanges them.  Indices are
    natural numbers; they stay inside the slice, so the default element of
    [nth] is never read. *)
Module GoSort.

Local Open Scope nat_scope.

Inductive sortedHint := unknownHint | increasingHint | decreasingHint.

(** [bits.Len]. *)
Definition bitsLen (x : nat) : nat :=
  match x with
  | O => 0
  | _ => S (Nat.log2 x)
  end.

(** [xorshift.Next] on a [uint64]. *)
Definition xorshiftNext (r : Z) : Z :=
  let r := Z.lxor r (Z.shiftl r 13 mod 2 ^ 64) in
  let r := Z.lxor r (Z.shiftr r 7) in
  let r := Z.lxor r (Z.shiftl r 17 mod 2 ^ 64) in
  r.

Definition nextPowerOfTwo (length : nat) : Z := Z.shiftl 1 (Z.of_nat (bitsLen length)).

Section WithLess.
Context {A : Type}.
Variable less : A -> A -> bool.
Variable dflt : A.

Fixpoint set (data : list A) (i : nat) (x : A) : list A :=
  match data, i with
  | [], _ => []
  | _ :: rest, O => x :: rest
  | y :: rest, S i' => y :: set rest i' x
  end.

Definition Less (data : list A) (i j : nat) : bool :=
  less (nth i data dflt) (nth j data dflt).

Definition Swap (data : list A) (i j : nat) : list A :=
  set (set data i (nth j data dflt)) j (nth i data dflt).

(** [for j := i; j > a && data.Less(j, j-1); j-- { data.Swap(j, j-1) }]. *)
Fixpoint insertionSort_inner (a j : nat) (data : list A) : list A :=
  match j with
  | O => data
  | S j' =>
      if (a <? j) && Less data j j' then insertionSort_inner a j' (Swap data j j')
      else data
  end.

Definition insertionSort_func (data : list A) (a b : nat) : list A :=
  fold_left (fun data i => insertionSort_inner a i data) (seq (S a) (b - S a)) data.

(** The loop of [siftDown_func]; [root] grows in every round and stays below
    [hi], so [hi] rounds are never used up. *)
Fixpoint siftDown_loop (rounds : nat) (data : list A) (root hi first : nat) : list A :=
  match rounds with
  | O => data
  | S rounds' =>
      let child := 2 * root + 1 in
      if hi <=? child then data
      else
        let child :=
          if (child + 1 <? hi) && Less data (first + child) (first + child + 1)
          then child + 1 else child in
        if negb (Less data (first + root) (first + child)) then data
        else siftDown_loop rounds' (Swap data (first + root) (first + child)) child hi first
  end.

Definition siftDown_func (data : list A) (lo hi first : nat) : list A :=
  siftDown_loop hi data lo hi first.

Definition heapSort_func (data : list A) (a b : nat) : list A :=
  let first := a in
  let lo := 0 in
  let hi := b - a in
  let data :=
    fold_left (fun data i => siftDown_func data i hi first)
      (rev (seq 0 (S ((hi - 1) / 2)))) data in
  fold_left (fun data i => siftDown_func (Swap data first (first + i)) lo i first)
    (rev (seq 0 hi)) data.

Definition breakPatterns_func (data : list A) (a b : nat) : list A :=
  let length := b - a in
  if 8 <=? length then
    let modulus := nextPowerOfTwo length in
    let idx := a + (length / 4) * 2 - 1 in
    let step (st : list A * Z) (i : nat) : list A * Z :=
      let random := xorshiftNext (snd st) in
      let other := Z.to_nat (Z.land random (modulus - 1)) in
      let other := if length <=? other then other - length else other in
      (Swap (fst st) (idx - 1 + i) (a + other), random) in
    fst (fold_left step [0; 1; 2] (data, Z.of_nat length))
  else data.

(** [order2_func], [median_func], [medianAdjacent_func]: the counter [swaps]
    is threaded through. *)
Definition order2_func (data : list A) (a b swaps : nat) : nat * nat * nat :=
  if Less data b a then (b, a, S swaps) else (a, b, swaps).

Definition median_func (data : list A) (a b c swaps : nat) : nat * nat :=
  let '(a, b, swaps) := order2_func data a b swaps in
  let '(b, c, swaps) := order2_func data b c swaps in
  let '(a, b, swaps) := order2_func data a b swaps in
  (b, swaps).

Definition medianAdjacent_func (data : list A) (a swaps : nat) : nat * nat :=
  median_func data (a - 1) a (a + 1) swaps.

Definition choosePivot_func (data : list A) (a b : nat) : nat * sortedHint :=
  let shortestNinther := 50 in
  let maxSwaps := 4 * 3 in
  let l := b - a in
  let swaps := 0 in
  let i := a + l / 4 * 1 in
  let j := a + l / 4 * 2 in
  let k := a + l / 4 * 3 in
  let '(j, swaps) :=
    if 8 <=? l then
      let '(i, j, k, swaps) :=
        if shortestNinther <=? l then
          let '(i, swaps) := medianAdjacent_func data i swaps in
          let '(j, swaps) := medianAdjacent_func data j swaps in
          let '(k, swaps) := medianAdjacent_func data k swaps in
          (i, j, k, swaps)
        else (i, j, k, swaps) in
      median_func data i j k swaps
    else (j, swaps) in
  if swaps =? 0 then (j, increasingHint)
  else if swaps =? maxSwaps then (j, decreasingHint)
  else (j, unknownHint).

(** [for i < j { data.Swap(i, j); i++; j-- }], by the distance of [i] and [j]. *)
Fixpoint reverseRange_loop (rounds : nat) (data : list A) (i j : nat) : list A :=
  match rounds with
  | O => data
  | S rounds' =>
      if i <? j then reverseRange_loop rounds' (Swap data i j) (S i) (j - 1) else data
  end.

Definition reverseRange_func (data : list A) (a b : nat) : list A :=
  reverseRange_loop (b - a) data a (b - 1).

(** [for i < b && !data.Less(i, i-1) { i++ }], by the distance of [i] to [b]. *)
Fixpoint skipSorted (dist : nat) (data : list A) (i : nat) : nat :=
  match dist with
  | O => i
  | S dist' => if negb (Less data i (i - 1)) then skipSorted dist' data (S i) else i
  end.

(** [for j := i - 1; j >= 1; j-- { if !data.Less(j, j-1) { break }; data.Swap(j, j-1) }]. *)
Fixpoint shiftLeft (j : nat) (data : list A) : list A :=
  match j with
  | O => data
  | S j' => if negb (Less data j j') then data else shiftLeft j' (Swap data j j')
  end.

(** [for j := i + 1; j < b; j++ { if !data.Less(j, j-1) { break }; data.Swap(j, j-1) }],
    by the distance of [j] to [b]. *)
Fixpoint shiftRight (dist : nat) (j : nat) (data : list A) : list A :=
  match dist with
  | O => data
  | S dist' =>
      if negb (Less data j (j - 1)) then data
      else shiftRight dist' (S j) (Swap data j (j - 1))
  end.

(** The loop of [partialInsertionSort_func] over [j < maxSteps]. *)
Fixpoint partialInsertionSort_loop (steps : nat) (data : list A) (a b i : nat)
    : list A * bool :=
  match steps with
  | O => (data, false)
  | S steps' =>
      let shortestShifting := 50 in
      let i := skipSorted (b - i) data i in
      if i =? b then (data, true)
      else if b - a <? shortestShifting then (data, false)
      else
        let data := Swap data i (i - 1) in
        let data := if 2 <=? i - a then shiftLeft (i - 1) data else data in
        let data := if 2 <=? b - i then shiftRight (b - (i + 1)) (i + 1) data else data in
        partialInsertionSort_loop steps' data a b i
  end.

Definition partialInsertionSort_func (data : list A) (a b : nat) : list A * bool :=
  let maxSteps := 5 in
  partialInsertionSort_loop maxSteps data a b (a + 1).

(** [for i <= j && test(i) { i++ }] and [for i <= j && test(j) { j-- }], by
    the distance of [i] to [j + 1]. *)
Fixpoint scanUp (dist : nat) (test : nat -> bool) (i : nat) : nat :=
  match dist with
  | O => i
  | S dist' => if test i then scanUp dist' test (S i) else i
  end.

Fixpoint scanDown (dist : nat) (test : nat -> bool) (j : nat) : nat :=
  match dist with
  | O => j
  | S dist' => if test j then scanDown dist' test (j - 1) else j
  end.

(** The loop of [partitionEqual_func]; [None] when the rounds are used up
    (every round but the last moves [i] and [j] towards each other). *)
Fixpoint partitionEqual_loop (rounds : nat) (data : list A) (a i j : nat)
    : option (list A * nat) :=
  match rounds with
  | O => None
  | S rounds' =>
      let i := scanUp (S j - i) (fun i => negb (Less data a i)) i in
      let j := scanDown (S j - i) (fun j => Less data a j) j in
      if j <? i then Some (data, i)
      else partitionEqual_loop rounds' (Swap data i j) a (S i) (j - 1)
  end.

Definition partitionEqual_func (data : list A) (a b pivot : nat) : option (list A * nat) :=
  let data := Swap data a pivot in
  partitionEqual_loop (S (b - a)) data a (a + 1) (b - 1).

(** The second loop of [partition_func]. *)
Fixpoint partition_loop (rounds : nat) (data : list A) (a i j : nat)
    : option (list A * nat) :=
  match rounds with
  | O => None
  | S rounds' =>
      let i := scanUp (S j - i) (fun i => Less data i a) i in
      let j := scanDown (S j - i) (fun j => negb (Less data j a)) j in
      if j <? i then Some (data, j)
      else partition_loop rounds' (Swap data i j) a (S i) (j - 1)
  end.

Definition partition_func (data : list A) (a b pivot : nat)
    : option (list A * nat * bool) :=
  let data := Swap data a pivot in
  let i := a + 1 in
  let j := b - 1 in
  let i := scanUp (S j - i) (fun i => Less data i a) i in
  let j := scanDown (S j - i) (fun j => negb (Less data j a)) j in
  if j <? i then Some (Swap data j a, j, true)
  else
    let data := Swap data i j in
    match partition_loop (S (b - a)) data a (S i) (j - 1) with
    | None => None
    | Some (data, j) => Some (Swap data j a, j, false)
    end.

(** [pdqsort_func]: one unit of [fuel] is spent by every round of the loop
    and every recursive call; [None] when it is used up. *)
Fixpoint pdqsort_func (fuel : nat) (data : list A) (a b limit : nat)
    (wasBalanced wasPartitioned : bool) : option (list A) :=
  match fuel with
  | O => None
  | S fuel' =>
      let maxInsertion := 12 in
      let length := b - a in
      if length <=? maxInsertion then Some (insertionSort_func data a b)
      else if limit =? 0 then Some (heapSort_func data a b)
      else
        let '(data, limit) :=
          if negb wasBalanced then (breakPatterns_func data a b, limit - 1)
          else (data, limit) in
        let '(pivot, hint) := choosePivot_func data a b in
        let '(data, pivot, hint) :=
          match hint with
          | decreasingHint =>
              (reverseRange_func data a b, (b - 1) - (pivot - a), increasingHint)
          | _ => (data, pivot, hint)
          end in
        let '(data, sorted) :=
          match hint with
          | increasingHint =>
              if wasBalanced && wasPartitioned then partialInsertionSort_func data a b
              else (data, false)
          | _ => (data, false)
          end in
        if sorted then Some data
        else if (0 <? a) && negb (Less data (a - 1) pivot) then
          match partitionEqual_func data a b pivot with
          | None => None
          | Some (data, mid) =>
              pdqsort_func fuel' data mid b limit wasBalanced wasPartitioned
          end
        else
          match partition_func data a b pivot with
          | None => None
          | Some (data, mid, alreadyPartitioned) =>
              let wasPartitioned := alreadyPartitioned in
              let leftLen := mid - a in
              let rightLen := b - mid in
              let balanceThreshold := length / 8 in
              if leftLen <? rightLen then
                let wasBalanced := balanceThreshold <=? leftLen in
                match pdqsort_func fuel' data a mid limit true true with
                | None => None
                | Some data =>
                    pdqsort_func fuel' data (mid + 1) b limit wasBalanced wasPartitioned
                end
              else
                let wasBalanced := balanceThreshold <=? rightLen in
                match pdqsort_func fuel' data (mid + 1) b limit true true with
                | None => None
                | Some data =>
                    pdqsort_func fuel' data a mid limit wasBalanced wasPartitioned
                end
          end
  end.

End WithLess.

(** [sort.Slice(x, less)]: [None] only if the fuel, one more than the length,
    were used up. *)
Definition Slice {A : Type} (less : A -> A -> bool) (x : list A) : option (list A) :=
  match x with
  | [] => Some []
  | dflt :: _ =>
      let length := length x in
      let limit := bitsLen length in
      pdqsort_func less dflt (S length) x 0 length limit true true
  end.

End GoSort.

(* ===================================================================== *)
(** * Specification vocabulary for the input sort *)
(* ===================================================================== *)

Module SortSpec.
Import Packer PackerSpec.

(** The two entries agree on all four sort keys. *)
Definition sameKey (cfg : Config) (a b : ImageInfo) : bool :=
  let '(m1, a1, h1, w1) := sortKey cfg a in
  let '(m2, a2, h2, w2) := sortKey cfg b in
  (m1 =? m2) && (a1 =? a2) && (h1 =? h2) && (w1 =? w2).

(** Stability: the entries that agree with any given entry on all four keys
    come in [sorted] in the order they have in [input]. *)
Definition keepsTies (cfg : Config) (input sorted : list ImageInfo) : Prop :=
  forall im, filter (sameKey cfg im) sorted = filter (sameKey cfg im) input.

Local Open Scope string_scope.

(** Twelve entries of 10 x 10, named a to l, followed by one of 20 x 20. *)
Definition thirteen : list ImageInfo :=
  map (fun name => mkImageInfo name 10 10)
      ["a"; "b"; "c"; "d"; "e"; "f"; "g"; "h"; "i"; "j"; "k"; "l"]
  ++ [mkImageInfo "m" 20 20].

(** The order [sort.Slice] leaves them in. *)
Definition thirteen_sorted : list string :=
  ["m"; "g"; "c"; "d"; "e"; "f"; "a"; "h"; "i"; "j"; "k"; "l"; "b"].

End SortSpec.

(* ===================================================================== *)
(** * internal/bcn *)
(* ===================================================================== *)

Module Bcn.

(** Conversions to Go's unsigned types keep the low bits. *)
Definition u8 (z : Z) : Z := z mod 2 ^ 8.
Definition u16 (z : Z) : Z := z mod 2 ^ 16.
Definition u32 (z : Z) : Z := z mod 2 ^ 32.

(** ** types.go *)

(** [ColorRGBA]: four [uint8] channels. *)
Record ColorRGBA := mkColor { R : Z; G : Z; B : Z; A : Z }.

Definition zeroColor : ColorRGBA := mkColor 0 0 0 0.

Definition validColor (c : ColorRGBA) : Prop :=
  0 <= R c < 256 /\ 0 <= G c < 256 /\ 0 <= B c < 256 /\ 0 <= A c < 256.

(** ** common.go *)

Definition to565 (c : ColorRGBA) : Z :=
  Z.lor (Z.lor (u16 (Z.shiftl (u16 (Z.land (R c) 248)) 8))
               (u16 (Z.shiftl (u16 (Z.land (G c) 252)) 3)))
        (u16 (Z.shiftr (B c) 3)).

Definition from565 (v : Z) : ColorRGBA :=
  mkColor (u8 (Z.land (Z.shiftr v 8) 248))
          (u8 (Z.land (Z.shiftr v 3) 252))
          (u8 (Z.land (u16 (Z.shiftl v 3)) 248))
          255.

(** [int32] arithmetic on [uint8] channels: the values stay far below 2^31. *)
Definition luminance (c : ColorRGBA) : Z := R c + G c * 2 + B c.

Definition sqrDistance (c other : ColorRGBA) : Z :=
  let dr := R c - R other in
  let dg := G c - G other in
  let db := B c - B other in
  dr * dr + dg * dg + db * db.

Definition mix21Over3 (x y : Z) : Z := u8 (u16 (u16 (2 * x) + y) / 3).
Definition mix12Over3 (x y : Z) : Z := u8 (u16 (x + u16 (2 * y)) / 3).
Definition mix11Over2 (x y : Z) : Z := u8 (u16 (x + y) / 2).

Definition mix21Over3Saturate (c other : ColorRGBA) : ColorRGBA :=
  mkColor (mix21Over3 (R c) (R other)) (mix21Over3 (G c) (G other))
          (mix21Over3 (B c) (B other)) 255.

Definition mix12Over3Saturate (c other : ColorRGBA) : ColorRGBA :=
  mkColor (mix12Over3 (R c) (R other)) (mix12Over3 (G c) (G other))
          (mix12Over3 (B c) (B other)) 255.

Definition mix11Over2Saturate (c other : ColorRGBA) : ColorRGBA :=
  mkColor (mix11Over2 (R c) (R other)) (mix11Over2 (G c) (G other))
          (mix11Over2 (B c) (B other)) 255.

(** The loop state of [minMaxLuminance]: [maxLum], [minLum], [maxColor],
    [minColor]. *)
Definition lumStep (st : Z * Z * ColorRGBA * ColorRGBA) (p : ColorRGBA)
    : Z * Z * ColorRGBA * ColorRGBA :=
  let '(maxLum, minLum, maxColor, minColor) := st in
  let lum := luminance p in
  let '(maxLum, maxColor) := if maxLum <? lum then (lum, p) else (maxLum, maxColor) in
  let '(minLum, minColor) := if lum <? minLum then (lum, p) else (minLum, minColor) in
  (maxLum, minLum, maxColor, minColor).

(** Returns [(minColor, maxColor)]; a block is a list of sixteen colours. *)
Definition minMaxLuminance (block : list ColorRGBA) : ColorRGBA * ColorRGBA :=
  let b0 := nth 0%nat block zeroColor in
  let '(_, _, maxColor, minColor) :=
    fold_left lumStep block (-1, 2147483647, b0, b0) in
  (minColor, maxColor).

(** The inner loop of [encodeColorTableBC1BC3]: [minDistance], [bestIdx] and
    the index [j] of the reference colour at hand. *)
Definition closestStep (p : ColorRGBA) (st : Z * Z * Z) (refColor : ColorRGBA)
    : Z * Z * Z :=
  let '(minDistance, bestIdx, j) := st in
  let distance := sqrDistance p refColor in
  if distance <? minDistance then (distance, u8 j, j + 1)
  else (minDistance, bestIdx, j + 1).

Definition colorIndex (refColors : list ColorRGBA) (hasAlpha : bool)
    (p : ColorRGBA) : Z :=
  if hasAlpha && (A p <? 128) then 3
  else
    let '(_, bestIdx, _) := fold_left (closestStep p) refColors (2147483647, 0, 0) in
    bestIdx.

(** [colorTable |= uint32(idx) << (i * 2)] over the sixteen indices. *)
Fixpoint packIndices (i : Z) (idxs : list Z) (colorTable : Z) : Z :=
  match idxs with
  | [] => colorTable
  | idx :: rest =>
      packIndices (i + 1) rest (Z.lor colorTable (u32 (Z.shiftl (u32 idx) (i * 2))))
  end.

Definition encodeColorTableBC1BC3 (block refColors : list ColorRGBA)
    (hasAlpha : bool) : Z :=
  packIndices 0 (map (colorIndex refColors hasAlpha) block) 0.

(** ** bc1.go *)

Definition encodeBlockBC1 (block : list ColorRGBA) : list Z :=
  let '(minColor, maxColor) := minMaxLuminance block in
  let min565 := to565 minColor in
  let max565 := to565 maxColor in
  let canContainAlpha := max565 <=? min565 in
  let '(min565, max565, minColor, maxColor) :=
    if canContainAlpha then (max565, min565, maxColor, minColor)
    else (min565, max565, minColor, maxColor) in
  let '(color2, color3) :=
    if canContainAlpha then (mix11Over2Saturate maxColor minColor, zeroColor)
    else (mix21Over3Saturate maxColor minColor, mix12Over3Saturate maxColor minColor) in
  let refColors := [maxColor; minColor; color2; color3] in
  let colorTable := encodeColorTableBC1BC3 block refColors canContainAlpha in
  [u8 max565; u8 (Z.shiftr max565 8);
   u8 min565; u8 (Z.shiftr min565 8);
   u8 colorTable; u8 (Z.shiftr colorTable 8);
   u8 (Z.shiftr colorTable 16); u8 (Z.shiftr colorTable 24)].

(** The two 16-bit words a BC1 block starts with. *)
Definition color0_565 (data : list Z) : Z :=
  Z.lor (nth 0%nat data 0) (u16 (Z.shiftl (nth 1%nat data 0) 8)).
Definition color1_565 (data : list Z) : Z :=
  Z.lor (nth 2%nat data 0) (u16 (Z.shiftl (nth 3%nat data 0) 8)).

Definition decodePixel (refColors : list ColorRGBA) (hasAlpha : bool)
    (colorTable : Z) (i : Z) : ColorRGBA :=
  let idx := Z.land (Z.shiftr colorTable (i * 2)) 3 in
  let c := nth (Z.to_nat idx) refColors zeroColor in
  if hasAlpha && (idx =? 3) then mkColor (R c) (G c) (B c) 0 else c.

(** [None] stands for the panic on a block shorter than 8 bytes. *)
Definition decodeBlockBC1 (data : list Z) : option (list ColorRGBA) :=
  if (length data <? 8)%nat then None
  else
    let c0 := color0_565 data in
    let c1 := color1_565 data in
    let colorTable :=
      Z.lor (Z.lor (Z.lor (nth 4%nat data 0) (u32 (Z.shiftl (nth 5%nat data 0) 8)))
                   (u32 (Z.shiftl (nth 6%nat data 0) 16)))
            (u32 (Z.shiftl (nth 7%nat data 0) 24)) in
    let color0 := from565 c0 in
    let color1 := from565 c1 in
    let hasAlpha := c0 <=? c1 in
    let '(maxColor, minColor) :=
      if hasAlpha then (color1, color0) else (color0, color1) in
    let '(color2, color3) :=
      if hasAlpha then (mix11Over2Saturate maxColor minColor, zeroColor)
      else (mix21Over3Saturate maxColor minColor, mix12Over3Saturate maxColor minColor) in
    let refColors := [maxColor; minColor; color2; color3] in
    Some (map (decodePixel refColors hasAlpha colorTable)
              [0; 1; 2; 3; 4; 5; 6; 7; 8; 9; 10; 11; 12; 13; 14; 15]).

(** [decode(encode(block))]. *)
Definition roundtripBC1 (block : list ColorRGBA) : option (list ColorRGBA) :=
  decodeBlockBC1 (encodeBlockBC1 block).

End Bcn.

(* ===================================================================== *)
(** * Specification vocabulary for BC1 *)
(* ===================================================================== *)

Module BcnSpec.
Import Bcn.

(** A 4x4 block of one colour. *)
Definition uniformBlock (c : ColorRGBA) : list ColorRGBA := repeat c 16.

(** Fifteen dark red pixels and one blue pixel: the blue one is the brightest
    and has the smaller RGB565 value. *)
Definition swap_block : list ColorRGBA :=
  mkColor 0 0 255 255 :: repeat (mkColor 8 0 0 255) 15.

(** One dark blue pixel and fifteen dark red ones, all of luminance 8. *)
Definition drift_block : list ColorRGBA :=
  mkColor 0 0 8 255 :: repeat (mkColor 8 0 0 255) 15.

End BcnSpec.

(* ===================================================================== *)
(** * internal/dds *)
(* ===================================================================== *)

Module Dds.

(** ** types.go *)

(** The four bytes of [Magic], the string DDS followed by a space. *)
Definition Magic : list Z := [68; 68; 83; 32].

Definition HeaderSize : Z := 124.
Definition PixelFormatSize : Z := 32.

Definition DCaps : Z := 1.
Definition DHeight : Z := 2.
Definition DWidth : Z := 4.
Definition DPitch : Z := 8.
Definition DPixelFormat : Z := 4096.
Definition DMipMapCount : Z := 131072.

Definition PFAlphaPixels : Z := 1.
Definition PFRGB : Z := 64.

Definition CapsComplex : Z := 8.
Definition CapsTexture : Z := 4096.
Definition CapsMipMap : Z := 4194304.

Definition HeaderFlagsTexture : Z :=
  Z.lor (Z.lor (Z.lor DCaps DHeight) DWidth) DPixelFormat.
Definition HeaderFlagsMipMap : Z := DMipMapCount.
Definition HeaderFlagsPitch : Z := DPitch.

Record PixelFormat := mkPixelFormat {
  PfSize : Z;
  PfFlags : Z;
  FourCC : Z;
  RGBBitCount : Z;
  RBitMask : Z;
  GBitMask : Z;
  BBitMask : Z;
  ABitMask : Z
}.

(** [Reserved1] is an array of eleven words. *)
Record Header := mkHeader {
  Size : Z;
  Flags : Z;
  Height : Z;
  Width : Z;
  PitchOrLinearSize : Z;
  Depth : Z;
  MipMapCount : Z;
  Reserved1 : list Z;
  PixelFormat_ : PixelFormat;
  Caps : Z;
  Caps2 : Z;
  Caps3 : Z;
  Caps4 : Z;
  Reserved2 : Z
}.

(** ** format.go *)

(** The marker ENF1, little-endian. *)
Definition ENF1 : Z := 826691141.

Definition u32 (z : Z) : Z := z mod 2 ^ 32.

Definition CreateHeaderRGBA8 (width height mipMapCount : Z) : Header :=
  let flags := HeaderFlagsTexture in
  let flags := if 0 <? mipMapCount then Z.lor flags HeaderFlagsMipMap else flags in
  let flags := Z.lor flags HeaderFlagsPitch in
  let caps := CapsTexture in
  let caps := if 0 <? mipMapCount then Z.lor caps (Z.lor CapsComplex CapsMipMap) else caps in
  let reserved1 := [0; ENF1; 0; 0; 0; 0; 0; 0; 0; 0; 0] in
  mkHeader HeaderSize flags height width (u32 (width * 4)) 0 mipMapCount reserved1
    (mkPixelFormat PixelFormatSize (Z.lor PFAlphaPixels PFRGB) 0 32
       16711680 65280 255 4278190080)
    caps 0 0 0 0.

(** ** read.go *)

(** What [io.ReadFull] reports on a short stream. *)
Inductive IoError := EOF | ErrUnexpectedEOF.

Inductive ReadError :=
| ErrReading (what : string) (e : IoError)
| ErrReadingReserved1 (i : nat) (e : IoError)
| ErrInvalidMagic (got : list Z)
| ErrInvalidHeaderSize (got : Z)
| ErrInvalidPixelFormatSize (got : Z)
| ErrReserved2NotZero
| ErrInvalidFlags (flags : Z).

(** A reader is the list of bytes still to be read; a read gives the value
    and the rest of the stream. *)
Definition ReadFull (n : nat) (r : list Z) : (list Z * list Z) + IoError :=
  if (n <=? length r)%nat then inl (firstn n r, skipn n r)
  else match r with
       | [] => inr EOF
       | _ => inr ErrUnexpectedEOF
       end.

(** Equality of two byte strings. *)
Fixpoint bytesEqb (a b : list Z) : bool :=
  match a, b with
  | [], [] => true
  | x :: a', y :: b' => (x =? y) && bytesEqb a' b'
  | _, _ => false
  end.

(** [binary.LittleEndian.Uint32]. *)
Definition le32 (buf : list Z) : Z :=
  Z.lor (Z.lor (Z.lor (nth 0%nat buf 0) (Z.shiftl (nth 1%nat buf 0) 8))
               (Z.shiftl (nth 2%nat buf 0) 16))
        (Z.shiftl (nth 3%nat buf 0) 24).

Definition readDWORD (r : list Z) : (Z * list Z) + IoError :=
  match ReadFull 4 r with
  | inl (buf, r') => inl (le32 buf, r')
  | inr e => inr e
  end.

(** [x, err := readDWORD(r); if err != nil { return fmt.Errorf(what, err) }]. *)
Definition field (what : string) (r : list Z) : (Z * list Z) + ReadError :=
  match readDWORD r with
  | inl v => inl v
  | inr e => inr (ErrReading what e)
  end.

Notation "'let*' p ':=' c 'in' k" :=
  (match c with inl p => k | inr e => inr e end)
  (at level 10, p pattern, c at level 100, k at level 200, only parsing).

(** The loop over [h.Reserved1]. *)
Fixpoint readReserved1 (n : nat) (i : nat) (r : list Z) : (list Z * list Z) + ReadError :=
  match n with
  | O => inl ([], r)
  | S n' =>
      match readDWORD r with
      | inr e => inr (ErrReadingReserved1 i e)
      | inl (v, r') =>
          let* (vs, r'') := readReserved1 n' (S i) r' in
          inl (v :: vs, r'')
      end
  end.

(** [ReadHeader]: the header and the stream left after it. *)
Definition ReadHeader (r : list Z) : (Header * list Z) + ReadError :=
  match ReadFull 4 r with
  | inr e => inr (ErrReading "magic"%string e)
  | inl (magic, r) =>
      if negb (bytesEqb magic Magic)
      then inr (ErrInvalidMagic magic)
      else
        let* (size, r) := field "header size"%string r in
        if negb (size =? HeaderSize) then inr (ErrInvalidHeaderSize size)
        else
          let* (flags, r) := field "flags"%string r in
          let* (height, r) := field "height"%string r in
          let* (width, r) := field "width"%string r in
          let* (pitch, r) := field "pitchOrLinearSize"%string r in
          let* (depth, r) := field "depth"%string r in
          let* (mipMapCount, r) := field "mipMapCount"%string r in
          let* (reserved1, r) := readReserved1 11 0 r in
          let* (pfSize, r) := field "pixel format size"%string r in
          if negb (pfSize =? PixelFormatSize) then inr (ErrInvalidPixelFormatSize pfSize)
          else
            let* (pfFlags, r) := field "pixel format flags"%string r in
            let* (fourCC, r) := field "pixel format fourCC"%string r in
            let* (rgbBitCount, r) := field "pixel format rgbBitCount"%string r in
            let* (rMask, r) := field "pixel format rBitMask"%string r in
            let* (gMask, r) := field "pixel format gBitMask"%string r in
            let* (bMask, r) := field "pixel format bBitMask"%string r in
            let* (aMask, r) := field "pixel format aBitMask"%string r in
            let* (caps, r) := field "caps"%string r in
            let* (caps2, r) := field "caps2"%string r in
            let* (caps3, r) := field "caps3"%string r in
            let* (caps4, r) := field "caps4"%string r in
            let* (reserved2, r) := field "reserved2"%string r in
            if negb (reserved2 =? 0) then inr ErrReserved2NotZero
            else if negb (Z.land flags HeaderFlagsTexture =? HeaderFlagsTexture)
            then inr (ErrInvalidFlags flags)
            else
              inl (mkHeader size flags height width pitch depth mipMapCount reserved1
                     (mkPixelFormat pfSize pfFlags fourCC rgbBitCount rMask gMask bMask aMask)
                     caps caps2 caps3 caps4 reserved2, r)
  end.

(** ** write.go *)

(** [binary.LittleEndian.PutUint32]. *)
Definition putLe32 (v : Z) : list Z :=
  [v mod 256; Z.shiftr v 8 mod 256; Z.shiftr v 16 mod 256; Z.shiftr v 24 mod 256].

Definition WriteMagic : list Z := Magic.

(** The bytes [WriteHeader] sends to its writer. *)
Definition WriteHeader (h : Header) : list Z :=
  putLe32 (Size h) ++ putLe32 (Flags h) ++ putLe32 (Height h) ++ putLe32 (Width h)
  ++ putLe32 (PitchOrLinearSize h) ++ putLe32 (Depth h) ++ putLe32 (MipMapCount h)
  ++ flat_map putLe32 (firstn 11 (Reserved1 h))
  ++ putLe32 (PfSize (PixelFormat_ h)) ++ putLe32 (PfFlags (PixelFormat_ h))
  ++ putLe32 (FourCC (PixelFormat_ h)) ++ putLe32 (RGBBitCount (PixelFormat_ h))
  ++ putLe32 (RBitMask (PixelFormat_ h)) ++ putLe32 (GBitMask (PixelFormat_ h))
  ++ putLe32 (BBitMask (PixelFormat_ h)) ++ putLe32 (ABitMask (PixelFormat_ h))
  ++ putLe32 (Caps h) ++ putLe32 (Caps2 h) ++ putLe32 (Caps3 h) ++ putLe32 (Caps4 h)
  ++ putLe32 (Reserved2 h).

End Dds.

(* ===================================================================== *)
(** * Specification vocabulary for the DDS header *)
(* ===================================================================== *)

Module DdsSpec.
Import Dds.

(** [ReadHeader] returned a header (its error is nil). *)
Definition accepts (r : list Z) : Prop :=
  exists h rest, ReadHeader r = inl (h, rest).

(** The outcome of a read with the [Reserved1] words blanked out. *)
Definition forgetReserved1 (res : (Header * list Z) + ReadError)
    : (Header * list Z) + ReadError :=
  match res with
  | inl (h, rest) =>
      inl (mkHeader (Size h) (Flags h) (Height h) (Width h) (PitchOrLinearSize h)
             (Depth h) (MipMapCount h) [] (PixelFormat_ h)
             (Caps h) (Caps2 h) (Caps3 h) (Caps4 h) (Reserved2 h), rest)
  | inr e => inr e
  end.

(** The file a canonical RGBA8 header starts: magic, then the header. *)
Definition canonicalStream (width height mipMapCount : Z) : list Z :=
  WriteMagic ++ WriteHeader (CreateHeaderRGBA8 width height mipMapCount).

(** The stream of a 256 x 128 header with 3 mip levels, cut at the
    [Reserved1] words (bytes 32 to 75), and a blank replacement for them. *)
Definition sample_pre : list Z := firstn 32 (canonicalStream 256 128 3).
Definition sample_reserved1 : list Z := firstn 44 (skipn 32 (canonicalStream 256 128 3)).
Definition sample_post : list Z := skipn 76 (canonicalStream 256 128 3).
Definition blank_reserved1 : list Z := repeat 0 44.

End DdsSpec.

(* ===================================================================== *)
(** * internal/edds *)
(* ===================================================================== *)

Module Edds.

(** ** block.go *)

Definition BlockMagicCOPY : string := "COPY"%string.
(** The letters LZ4 followed by a space. *)
Definition BlockMagicLZ4 : string := "LZ4 "%string.

Definition ChunkSize : Z := 64 * 1024.
Definition dictCap : Z := 64 * 1024.

Record Block := mkBlock {
  Magic : string;
  Data : list Z;
  Size : Z;
  UncompressedSize : Z
}.

Inductive DecompressError :=
| ErrCopySizeMismatch (expected got : Z)
| ErrUnknownMagic (magic : string)
| ErrInvalidTargetSize (targetSize : Z)
| ErrTruncated (have : Z)
| ErrUnknownFlags (flags : Z)
| ErrInvalidChunkSize (cSize remaining : Z)
| ErrOverrun
| ErrChunkDecode
| ErrDecodedSizeMismatch (expected got : Z)
| ErrLengthMismatch (left : Z)
| ErrOutOfSteps.

Definition len (l : list Z) : Z := Z.of_nat (length l).

(** [int(b0) | int(b1) << 8 | int(b2) << 16]. *)
Definition le24 (b0 b1 b2 : Z) : Z :=
  Z.lor (Z.lor b0 (Z.shiftl b1 8)) (Z.shiftl b2 16).

(** [binary.LittleEndian.Uint32(data[:4])]. *)
Definition le32 (data : list Z) : Z :=
  Z.lor (Z.lor (Z.lor (nth 0%nat data 0) (Z.shiftl (nth 1%nat data 0) 8))
               (Z.shiftl (nth 2%nat data 0) 16))
        (Z.shiftl (nth 3%nat data 0) 24).

(** The rolling dictionary after a chunk: [dict] stands for [dict[:dictSize]]. *)
Definition updateDict (dict decoded : list Z) : list Z :=
  if dictCap <=? len decoded
  then skipn (Z.to_nat (len decoded - dictCap)) decoded
  else
    let avail := dictCap - len dict in
    if len decoded <=? avail then dict ++ decoded
    else
      let shift := len decoded - avail in
      skipn (Z.to_nat shift) dict ++ decoded.

Section WithLZ4.

(** [lz4.UncompressBlockWithDict(src, dst, dict)] of github.com/pierrec/lz4:
    given the compressed bytes, the length of [dst] and the dictionary, the
    bytes written to the front of [dst], or [None] for an error. *)
Variable UncompressBlockWithDict : list Z -> Z -> list Z -> option (list Z).

(** The chunk loop.  [r] is what the reader has left, [out] is
    [target[:outIdx]], [dict] is [dict[:dictSize]].  At the [break] it gives
    the decoded bytes and the unread rest.  Every round reads at least five
    bytes, so [fuel] above the length of the input is never used up. *)
Fixpoint chunkLoop (fuel : nat) (targetSize : Z) (r out dict : list Z)
    : (list Z * list Z) + DecompressError :=
  match fuel with
  | O => inr ErrOutOfSteps
  | S fuel' =>
      if len r <? 4 then inr (ErrTruncated (len r))
      else
        let hdr := firstn 4 r in
        let r := skipn 4 r in
        let cSize := le24 (nth 0%nat hdr 0) (nth 1%nat hdr 0) (nth 2%nat hdr 0) in
        let flags := nth 3%nat hdr 0 in
        if negb (Z.ldiff flags 128 =? 0) then inr (ErrUnknownFlags flags)
        else if (cSize <=? 0) || (len r <? cSize)
        then inr (ErrInvalidChunkSize cSize (len r))
        else
          let compressed := firstn (Z.to_nat cSize) r in
          let r := skipn (Z.to_nat cSize) r in
          let remaining := targetSize - len out in
          if remaining <=? 0 then inr ErrOverrun
          else
            let want := if remaining <? ChunkSize then remaining else ChunkSize in
            match UncompressBlockWithDict compressed want dict with
            | None => inr ErrChunkDecode
            | Some decoded =>
                let out := out ++ decoded in
                let dict := updateDict dict decoded in
                if negb (Z.land flags 128 =? 0) then inl (out, r)
                else chunkLoop fuel' targetSize r out dict
            end
  end.

Definition decompressBlock (block : Block) (expectedUncompressedSize : Z)
    : list Z + DecompressError :=
  if String.eqb (Magic block) BlockMagicCOPY then
    if negb (len (Data block) =? expectedUncompressedSize)
    then inr (ErrCopySizeMismatch expectedUncompressedSize (len (Data block)))
    else inl (Data block)
  else if negb (String.eqb (Magic block) BlockMagicLZ4)
  then inr (ErrUnknownMagic (Magic block))
  else
    let targetSize :=
      if 0 <? UncompressedSize block then UncompressedSize block
      else expectedUncompressedSize in
    if targetSize <=? 0 then inr (ErrInvalidTargetSize targetSize)
    else
      let data := Data block in
      let '(targetSize, data) :=
        if 8 <=? len data then
          let peek := le32 data in
          let c0 := le24 (nth 4%nat data 0) (nth 5%nat data 0) (nth 6%nat data 0) in
          if ((peek =? expectedUncompressedSize) || (peek =? targetSize))
             && (0 <? c0) && (c0 <? 2 ^ 20)
          then (peek, skipn 4 data)
          else (targetSize, data)
        else (targetSize, data) in
      match chunkLoop (S (length data)) targetSize data [] [] with
      | inr e => inr e
      | inl (out, rest) =>
          if negb (len out =? targetSize)
          then inr (ErrDecodedSizeMismatch targetSize (len out))
          else if negb (len rest =? 0) then inr (ErrLengthMismatch (len rest))
          else inl out
      end.

End WithLZ4.

End Edds.

(* ===================================================================== *)
(** * Specification vocabulary for the LZ4 chunk stream *)
(* ===================================================================== *)

Module EddsSpec.
Import Edds.

(** One chunk of the stream: the three size bytes, the flag byte, the
    compressed payload, and the bytes it decoded to. *)
Record Chunk := mkChunk {
  cB0 : Z; cB1 : Z; cB2 : Z;
  cFlags : Z;
  cPayload : list Z;
  cDecoded : list Z
}.

Definition cSize (c : Chunk) : Z := le24 (cB0 c) (cB1 c) (cB2 c).

(** The bytes of a chunk in the stream. *)
Definition frame (c : Chunk) : list Z :=
  [cB0 c; cB1 c; cB2 c; cFlags c] ++ cPayload c.

(** No bit other than 0x80 is set in the flag byte. *)
Definition flagsKnown (c : Chunk) : Prop := Z.ldiff (cFlags c) 128 = 0.

(** Bit 0x80 of the flag byte is set. *)
Definition terminal (c : Chunk) : Prop := Z.land (cFlags c) 128 <> 0.

Definition decodedBytes (cs : list Chunk) : list Z := flat_map cDecoded cs.

Section WithLZ4.
Variable UncompressBlockWithDict : list Z -> Z -> list Z -> option (list Z).

(** The decoder accepted chunk [c] with [out] already decoded and [dict] as
    dictionary: a clean flag byte, a payload of the announced positive size,
    room left in the target, and a successful decode into the window of at
    most [ChunkSize] bytes that is left. *)
Definition accepted (targetSize : Z) (out dict : list Z) (c : Chunk) : Prop :=
  flagsKnown c
  /\ 0 < cSize c /\ len (cPayload c) = cSize c
  /\ len out < targetSize
  /\ UncompressBlockWithDict (cPayload c)
       (Z.min ChunkSize (targetSize - len out)) dict = Some (cDecoded c).

(** [parsesAs targetSize data out dict cs]: read from the state [out], [dict],
    the bytes [data] are the chunks [cs] and nothing else; the last chunk is
    the only terminal one. *)
Inductive parsesAs (targetSize : Z) : list Z -> list Z -> list Z -> list Chunk -> Prop :=
| parses_last c out dict :
    accepted targetSize out dict c -> terminal c ->
    parsesAs targetSize (frame c) out dict [c]
| parses_more c rest out dict cs :
    accepted targetSize out dict c -> ~ terminal c ->
    parsesAs targetSize rest (out ++ cDecoded c) (updateDict dict (cDecoded c)) cs ->
    parsesAs targetSize (frame c ++ rest) out dict (c :: cs).

End WithLZ4.

(** The target size and chunk stream [decompressBlock] settles on before the
    chunk loop: an embedded size in front of the stream is taken and skipped. *)
Definition resolveTarget (block : Block) (expectedUncompressedSize : Z) : Z * list Z :=
  let targetSize :=
    if 0 <? UncompressedSize block then UncompressedSize block
    else expectedUncompressedSize in
  let data := Data block in
  if 8 <=? len data then
    let peek := le32 data in
    let c0 := le24 (nth 4%nat data 0) (nth 5%nat data 0) (nth 6%nat data 0) in
    if ((peek =? expectedUncompressedSize) || (peek =? targetSize))
       && (0 <? c0) && (c0 <? 2 ^ 20)
    then (peek, skipn 4 data)
    else (targetSize, data)
  else (targetSize, data).

(** A stand-in for the LZ4 decoder that copies its input, used to run the
    chunk loop on a concrete stream. *)
Definition storedCodec (src : list Z) (want : Z) (dict : list Z) : option (list Z) :=
  if len src <=? want then Some src else None.

Definition sample_block : Block :=
  mkBlock BlockMagicLZ4 [3; 0; 0; 128; 7; 8; 9] 7 0.

End EddsSpec.

(* ===================================================================== *)
(** * internal/imageset *)
(* ===================================================================== *)

Module Imageset.

(** A Go string is a sequence of bytes.  The source walks strings rune by
    rune only to tell ASCII letters, digits and blanks from everything else;
    a byte of a multi-byte rune is never one of these, so the walk is modelled
    byte by byte.  Blanks outside ASCII (which [strings.TrimSpace] and
    [strings.Fields] would also cut) are not modelled. *)
Definition str : Type := list ascii.

Definition lit (s : string) : str := list_ascii_of_string s.

Definition tab : ascii := "009"%char.
Definition newline : ascii := "010"%char.
Definition carriageReturn : ascii := "013"%char.
Definition dquote : ascii := "034"%char.
Definition space : ascii := " "%char.

Fixpoint strEqb (a b : str) : bool :=
  match a, b with
  | [], [] => true
  | x :: a', y :: b' => Ascii.eqb x y && strEqb a' b'
  | _, _ => false
  end.

(** ** types.go *)

Record ImageSetTextureClass := mkTexture {
  Path : str;
  Mpix : Z
}.

Record ImageSetDefClass := mkDef {
  DefName : str;
  Pos : Z * Z;
  Size : Z * Z;
  Flags : Z
}.

Record ImageSetGroupClass := mkGroup {
  GroupName : str;
  GroupImages : list ImageSetDefClass
}.

Record ImageSetClass := mkImageSet {
  Name : str;
  Textures : list ImageSetTextureClass;
  Images : list ImageSetDefClass;
  Groups : list ImageSetGroupClass;
  RefSize : Z * Z
}.

(** ** names.go *)

Definition between (lo hi c : ascii) : bool :=
  (nat_of_ascii lo <=? nat_of_ascii c)%nat && (nat_of_ascii c <=? nat_of_ascii hi)%nat.

Definition isAsciiAlphaNum (r : ascii) : bool :=
  between "a" "z" r || between "A" "Z" r || between "0" "9" r.

Definition toLowerAscii (r : ascii) : ascii :=
  if between "A" "Z" r then ascii_of_nat (nat_of_ascii r + 32) else r.

Definition toUpperAscii (r : ascii) : ascii :=
  if between "a" "z" r then ascii_of_nat (nat_of_ascii r - 32) else r.

(** The closure [flush] of [splitTokens], on the pair [(tokens, buf)]. *)
Definition flush (st : list str * str) : list str * str :=
  match snd st with
  | [] => st
  | _ => (fst st ++ [map toLowerAscii (snd st)], [])
  end.

Definition splitStep (st : list str * str) (r : ascii) : list str * str :=
  if isAsciiAlphaNum r then (fst st, snd st ++ [r]) else flush st.

Definition splitTokens (input : str) : list str :=
  fst (flush (fold_left splitStep input ([], []))).

Definition toCamelToken (token : str) : str :=
  match token with
  | [] => []
  | r :: rest => toUpperAscii r :: map toLowerAscii rest
  end.

(** [strings.Join]. *)
Fixpoint join (sep : str) (parts : list str) : str :=
  match parts with
  | [] => []
  | [p] => p
  | p :: rest => p ++ sep ++ join sep rest
  end.

Definition NormalizeName (input : str) (camel : bool) : str :=
  let tokens := splitTokens input in
  match tokens with
  | [] => []
  | _ => if camel then concat (map toCamelToken tokens) else join (lit "_") tokens
  end.

(** ** Pieces of the standard library the package calls *)

(** [strings.HasPrefix], [strings.HasSuffix]. *)
Fixpoint hasPrefix (s prefix : str) : bool :=
  match prefix, s with
  | [], _ => true
  | p :: ps, c :: cs => Ascii.eqb c p && hasPrefix cs ps
  | _ :: _, [] => false
  end.

Definition hasSuffix (s suffix : str) : bool := hasPrefix (rev s) (rev suffix).

(** The ASCII blanks: tab, line feed, vertical tab, form feed, carriage
    return, space. *)
Definition isSpace (c : ascii) : bool :=
  let n := nat_of_ascii c in
  ((9 <=? n) && (n <=? 13))%nat || (n =? 32)%nat.

Fixpoint trimLeftBy (f : ascii -> bool) (s : str) : str :=
  match s with
  | [] => []
  | c :: rest => if f c then trimLeftBy f rest else s
  end.

Definition trimRightBy (f : ascii -> bool) (s : str) : str :=
  rev (trimLeftBy f (rev s)).

(** [strings.TrimSpace]. *)
Definition TrimSpace (s : str) : str := trimRightBy isSpace (trimLeftBy isSpace s).

Definition inCutset (cutset : str) (c : ascii) : bool :=
  existsb (Ascii.eqb c) cutset.

(** [strings.Trim] with a cutset of ASCII characters. *)
Definition Trim (s cutset : str) : str :=
  trimRightBy (inCutset cutset) (trimLeftBy (inCutset cutset) s).

(** [strings.Fields]; [cur] is the field being read. *)
Fixpoint fieldsFrom (s cur : str) : list str :=
  match s with
  | [] => match cur with [] => [] | _ => [cur] end
  | c :: rest =>
      if isSpace c
      then match cur with [] => fieldsFrom rest [] | _ => cur :: fieldsFrom rest [] end
      else fieldsFrom rest (cur ++ [c])
  end.

Definition Fields (s : str) : list str := fieldsFrom s [].

Definition digitVal (c : ascii) : option Z :=
  let n := nat_of_ascii c in
  if ((48 <=? n) && (n <=? 57))%nat then Some (Z.of_nat n - 48) else None.

Fixpoint atoiDigits (s : str) (acc : Z) : option Z :=
  match s with
  | [] => Some acc
  | c :: rest =>
      match digitVal c with
      | Some d => atoiDigits rest (acc * 10 + d)
      | None => None
      end
  end.

(** [strconv.Atoi]: an optional sign and decimal digits, within the range of
    a 64-bit [int]; [None] stands for a non-nil error. *)
Definition Atoi (s : str) : option Z :=
  match s with
  | [] => None
  | c :: rest =>
      let '(negative, digits) :=
        if Ascii.eqb c "-" then (true, rest)
        else if Ascii.eqb c "+" then (false, rest)
        else (false, s) in
      match digits with
      | [] => None
      | _ =>
          match atoiDigits digits 0 with
          | None => None
          | Some v =>
              let v := if negative : bool then - v else v in
              if (GoInt.int_min <=? v) && (v <=? GoInt.int_max) then Some v else None
          end
      end
  end.

Definition digitChar (d : Z) : ascii := ascii_of_nat (Z.to_nat (48 + d)).

Fixpoint uintChars (d : Decimal.uint) : str :=
  match d with
  | Decimal.Nil => []
  | Decimal.D0 r => digitChar 0 :: uintChars r
  | Decimal.D1 r => digitChar 1 :: uintChars r
  | Decimal.D2 r => digitChar 2 :: uintChars r
  | Decimal.D3 r => digitChar 3 :: uintChars r
  | Decimal.D4 r => digitChar 4 :: uintChars r
  | Decimal.D5 r => digitChar 5 :: uintChars r
  | Decimal.D6 r => digitChar 6 :: uintChars r
  | Decimal.D7 r => digitChar 7 :: uintChars r
  | Decimal.D8 r => digitChar 8 :: uintChars r
  | Decimal.D9 r => digitChar 9 :: uintChars r
  end.

(** The verb [%d] of [fmt] on an [int]. *)
Definition formatInt (z : Z) : str :=
  match z with
  | Z0 => lit "0"
  | Zpos p => uintChars (Pos.to_uint p)
  | Zneg p => lit "-" ++ uintChars (Pos.to_uint p)
  end.

(** [bufio.Scanner] with [ScanLines]: the lines of a text, cut at line feeds;
    a last line without line feed counts when it is not empty. *)
Fixpoint scanLines (text cur : str) : list str :=
  match text with
  | [] => match cur with [] => [] | _ => [cur] end
  | c :: rest =>
      if Ascii.eqb c newline then cur :: scanLines rest []
      else scanLines rest (cur ++ [c])
  end.

(** [dropCR]. *)
Definition dropCR (line : str) : str :=
  match rev line with
  | c :: r => if Ascii.eqb c carriageReturn then rev r else line
  | [] => line
  end.

(** [bufio.MaxScanTokenSize]: a line of this many bytes or more ends the scan
    with [ErrTooLong]. *)
Definition MaxScanTokenSize : Z := 65536.

(** ** read.go *)

Inductive ReadError :=
| ErrInvalidRefSize (lineNo : nat)
| ErrInvalidRefSizeValues (lineNo : nat)
| ErrInvalidPos (lineNo : nat)
| ErrInvalidPosValues (lineNo : nat)
| ErrInvalidSize (lineNo : nat)
| ErrInvalidSizeValues (lineNo : nat)
| ErrInvalidFlags (lineNo : nat)
| ErrInvalidFlagsValue (lineNo : nat) (token : str)
| ErrTooLong.

Definition flagNames (t : str) : option Z :=
  if strEqb t (lit "ISHorizontalTile") then Some 1
  else if strEqb t (lit "ISVerticalTile") then Some 2
  else None.

(** The loop of [parseFlags]; the error carries the offending token. *)
Fixpoint parseFlagsLoop (tokens : list str) (flags : Z) : Z + str :=
  match tokens with
  | [] => inl flags
  | t :: rest =>
      let t := TrimSpace t in
      let t := Trim t (lit "|+") in
      if strEqb t [] then parseFlagsLoop rest flags
      else match flagNames t with
           | Some v => parseFlagsLoop rest (Z.lor flags v)
           | None =>
               match Atoi t with
               | Some v => parseFlagsLoop rest (Z.lor flags v)
               | None => inr t
               end
           end
  end.

Definition parseFlags (tokens : list str) : Z + str :=
  match tokens with
  | [] => inl 0
  | [t] =>
      match Atoi t with
      | Some v => inl v
      | None => parseFlagsLoop tokens 0
      end
  | _ => parseFlagsLoop tokens 0
  end.

Definition parseClassName (line : str) : str :=
  match Fields line with
  | _ :: f1 :: more =>
      let name := Trim f1 (lit "{") in
      match name, more with
      | [], f2 :: _ => Trim f2 (lit "{")
      | _, _ => name
      end
  | _ => []
  end.

(** The local variables of [ReadFile]. *)
Record parser := mkParser {
  result : ImageSetClass;
  inImages : bool;
  inGroups : bool;
  inGroupImages : bool;
  curGroup : option ImageSetGroupClass;
  curDef : option ImageSetDefClass;
  inDef : bool
}.

Definition emptyDef : ImageSetDefClass := mkDef [] (0, 0) (0, 0) 0.
Definition emptyGroup : ImageSetGroupClass := mkGroup [] [].
Definition emptyImageSet : ImageSetClass := mkImageSet [] [] [] [] (0, 0).

Definition startParser : parser :=
  mkParser emptyImageSet false false false None None false.

Definition isSome {A : Type} (o : option A) : bool :=
  match o with Some _ => true | None => false end.

(** The line [}]. *)
Definition closeBlock (p : parser) : parser :=
  let s := result p in
  match (if inDef p then curDef p else None) with
  | Some d =>
      match (if inGroupImages p then curGroup p else None) with
      | Some g =>
          mkParser s (inImages p) (inGroups p) (inGroupImages p)
            (Some (mkGroup (GroupName g) (GroupImages g ++ [d]))) None false
      | None =>
          mkParser (mkImageSet (Name s) (Textures s) (Images s ++ [d]) (Groups s) (RefSize s))
            (inImages p) (inGroups p) (inGroupImages p) (curGroup p) None false
      end
  | None =>
      if inGroupImages p
      then mkParser s (inImages p) (inGroups p) false (curGroup p) (curDef p) (inDef p)
      else
        match (if inGroups p then curGroup p else None) with
        | Some g =>
            mkParser (mkImageSet (Name s) (Textures s) (Images s) (Groups s ++ [g]) (RefSize s))
              (inImages p) (inGroups p) (inGroupImages p) None (curDef p) (inDef p)
        | None =>
            if inImages p
            then mkParser s false (inGroups p) (inGroupImages p) (curGroup p) (curDef p) (inDef p)
            else if inGroups p
            then mkParser s (inImages p) false (inGroupImages p) (curGroup p) (curDef p) (inDef p)
            else p
        end
  end.

(** A [Name] line: the value goes to the open definition, else to the open
    group, else to the image set. *)
Definition setName (p : parser) (val : str) : parser :=
  let s := result p in
  match (if inDef p then curDef p else None), curGroup p with
  | Some d, _ =>
      mkParser s (inImages p) (inGroups p) (inGroupImages p) (curGroup p)
        (Some (mkDef val (Pos d) (Size d) (Flags d))) (inDef p)
  | None, Some g =>
      mkParser s (inImages p) (inGroups p) (inGroupImages p)
        (Some (mkGroup val (GroupImages g))) (curDef p) (inDef p)
  | None, None =>
      mkParser (mkImageSet val (Textures s) (Images s) (Groups s) (RefSize s))
        (inImages p) (inGroups p) (inGroupImages p) (curGroup p) (curDef p) (inDef p)
  end.

Definition withDef (p : parser) (d : ImageSetDefClass) : parser :=
  mkParser (result p) (inImages p) (inGroups p) (inGroupImages p) (curGroup p)
    (Some d) (inDef p).

(** The key-value lines. *)
Definition keyValue (lineNo : nat) (p : parser) (line : str) : parser + ReadError :=
  match Fields line with
  | [] => inl p
  | key :: args =>
      if strEqb key (lit "Name") then
        let val := TrimSpace (Trim (skipn 4 line) [space; tab]) in
        let val := Trim val [dquote] in
        inl (setName p val)
      else if strEqb key (lit "RefSize") then
        match args with
        | a1 :: a2 :: _ =>
            match Atoi a1, Atoi a2 with
            | Some w, Some h =>
                let s := result p in
                inl (mkParser (mkImageSet (Name s) (Textures s) (Images s) (Groups s) (w, h))
                       (inImages p) (inGroups p) (inGroupImages p) (curGroup p)
                       (curDef p) (inDef p))
            | _, _ => inr (ErrInvalidRefSizeValues lineNo)
            end
        | _ => inr (ErrInvalidRefSize lineNo)
        end
      else if strEqb key (lit "Pos") then
        match curDef p, args with
        | Some d, a1 :: a2 :: _ =>
            match Atoi a1, Atoi a2 with
            | Some x, Some y => inl (withDef p (mkDef (DefName d) (x, y) (Size d) (Flags d)))
            | _, _ => inr (ErrInvalidPosValues lineNo)
            end
        | _, _ => inr (ErrInvalidPos lineNo)
        end
      else if strEqb key (lit "Size") then
        match curDef p, args with
        | Some d, a1 :: a2 :: _ =>
            match Atoi a1, Atoi a2 with
            | Some w, Some h => inl (withDef p (mkDef (DefName d) (Pos d) (w, h) (Flags d)))
            | _, _ => inr (ErrInvalidSizeValues lineNo)
            end
        | _, _ => inr (ErrInvalidSize lineNo)
        end
      else if strEqb key (lit "Flags") then
        match curDef p, args with
        | Some d, _ :: _ =>
            match parseFlags args with
            | inl v => inl (withDef p (mkDef (DefName d) (Pos d) (Size d) v))
            | inr t => inr (ErrInvalidFlagsValue lineNo t)
            end
        | _, _ => inr (ErrInvalidFlags lineNo)
        end
      else inl p
  end.

(** What follows the [switch] of section openings. *)
Definition closeOrKeyValue (lineNo : nat) (p : parser) (line : str) : parser + ReadError :=
  if strEqb line (lit "}") then inl (closeBlock p) else keyValue lineNo p line.

(** One round of the scan loop, on the text of a line. *)
Definition processLine (lineNo : nat) (p : parser) (text : str) : parser + ReadError :=
  let line := TrimSpace text in
  if strEqb line [] then inl p
  else if isSome (curGroup p) && hasPrefix line (lit "Images") && hasSuffix line (lit "{")
  then inl (mkParser (result p) (inImages p) (inGroups p) true (curGroup p)
              (curDef p) (inDef p))
  else if hasPrefix line (lit "Textures") then inl p
  else if hasPrefix line (lit "Images") then
    if hasSuffix line (lit "{")
    then inl (mkParser (result p) true (inGroups p) (inGroupImages p) (curGroup p)
                (curDef p) (inDef p))
    else closeOrKeyValue lineNo p line
  else if hasPrefix line (lit "Groups") then
    if hasSuffix line (lit "{")
    then inl (mkParser (result p) (inImages p) true (inGroupImages p) (curGroup p)
                (curDef p) (inDef p))
    else closeOrKeyValue lineNo p line
  else if hasPrefix line (lit "ImageSetGroupClass") then
    inl (mkParser (result p) (inImages p) (inGroups p) false
           (Some (mkGroup (parseClassName line) [])) (curDef p) (inDef p))
  else if hasPrefix line (lit "ImageSetDefClass") then
    inl (mkParser (result p) (inImages p) (inGroups p) (inGroupImages p) (curGroup p)
           (Some emptyDef) true)
  else closeOrKeyValue lineNo p line.

(** The scan loop over the lines the scanner delivers. *)
Fixpoint readLines (lineNo : nat) (p : parser) (lines : list str)
    : ImageSetClass + ReadError :=
  match lines with
  | [] => inl (result p)
  | raw :: rest =>
      if MaxScanTokenSize <=? Z.of_nat (length raw) then inr ErrTooLong
      else
        let lineNo := S lineNo in
        match processLine lineNo p (dropCR raw) with
        | inr e => inr e
        | inl p' => readLines lineNo p' rest
        end
  end.

(** [ReadFile] on the contents of the file. *)
Definition ReadFile (contents : str) : ImageSetClass + ReadError :=
  readLines 0 startParser (scanLines contents []).

(** ** write.go *)

Section WithQuote.

(** [strconv.Quote], the verb [%q] of [fmt]. *)
Variable Quote : str -> str.

(** [strings.Repeat] of a tab. *)
Definition indentStr (indent : nat) : str := repeat tab indent.

Definition className (name : str) (useCamelCase : bool) : str :=
  match NormalizeName name useCamelCase with
  | [] => lit "default"
  | n => n
  end.

Definition writeTexture (tex : ImageSetTextureClass) (indent : nat) : str :=
  indentStr indent ++ lit "ImageSetTextureClass {" ++ [newline]
  ++ indentStr indent ++ [tab] ++ lit "mpix " ++ formatInt (Mpix tex) ++ [newline]
  ++ indentStr indent ++ [tab] ++ lit "path " ++ Quote (Path tex) ++ [newline]
  ++ indentStr indent ++ lit "}" ++ [newline].

Definition writeImageDef (img : ImageSetDefClass) (indent : nat) (useCamelCase : bool)
    : str :=
  indentStr indent ++ lit "ImageSetDefClass " ++ className (DefName img) useCamelCase
    ++ lit " {" ++ [newline]
  ++ indentStr indent ++ [tab] ++ lit "Name "
    ++ Quote (NormalizeName (DefName img) useCamelCase) ++ [newline]
  ++ indentStr indent ++ [tab] ++ lit "Pos " ++ formatInt (fst (Pos img)) ++ [space]
    ++ formatInt (snd (Pos img)) ++ [newline]
  ++ indentStr indent ++ [tab] ++ lit "Size " ++ formatInt (fst (Size img)) ++ [space]
    ++ formatInt (snd (Size img)) ++ [newline]
  ++ indentStr indent ++ [tab] ++ lit "Flags " ++ formatInt (Flags img) ++ [newline]
  ++ indentStr indent ++ lit "}" ++ [newline].

Definition writeGroup (group : ImageSetGroupClass) (indent : nat) (useCamelCase : bool)
    : str :=
  indentStr indent ++ lit "ImageSetGroupClass " ++ className (GroupName group) useCamelCase
    ++ lit " {" ++ [newline]
  ++ indentStr indent ++ [tab] ++ lit "Name "
    ++ Quote (NormalizeName (GroupName group) useCamelCase) ++ [newline]
  ++ match GroupImages group with
     | [] => []
     | imgs =>
         indentStr indent ++ [tab] ++ lit "Images {" ++ [newline]
         ++ flat_map (fun img => writeImageDef img (indent + 2) useCamelCase) imgs
         ++ indentStr indent ++ [tab] ++ lit "}" ++ [newline]
     end
  ++ indentStr indent ++ lit "}" ++ [newline].

Definition writeImageSetClass (s : ImageSetClass) (indent : nat) (useCamelCase : bool)
    : str :=
  indentStr indent ++ lit "ImageSetClass {" ++ [newline]
  ++ indentStr indent ++ [tab] ++ lit "Name "
    ++ Quote (NormalizeName (Name s) useCamelCase) ++ [newline]
  ++ indentStr indent ++ [tab] ++ lit "RefSize " ++ formatInt (fst (RefSize s)) ++ [space]
    ++ formatInt (snd (RefSize s)) ++ [newline]
  ++ match Textures s with
     | [] => []
     | texs =>
         indentStr indent ++ [tab] ++ lit "Textures {" ++ [newline]
         ++ flat_map (fun tex => writeTexture tex (indent + 2)) texs
         ++ indentStr indent ++ [tab] ++ lit "}" ++ [newline]
     end
  ++ match Images s with
     | [] => []
     | imgs =>
         indentStr indent ++ [tab] ++ lit "Images {" ++ [newline]
         ++ flat_map (fun img => writeImageDef img (indent + 2) useCamelCase) imgs
         ++ indentStr indent ++ [tab] ++ lit "}" ++ [newline]
     end
  ++ match Groups s with
     | [] => []
     | groups =>
         indentStr indent ++ [tab] ++ lit "Groups {" ++ [newline]
         ++ flat_map (fun g => writeGroup g (indent + 2) useCamelCase) groups
         ++ indentStr indent ++ [tab] ++ lit "}" ++ [newline]
     end
  ++ indentStr indent ++ lit "}" ++ [newline].

(** [Write]: the bytes sent to the writer. *)
Definition Write (s : ImageSetClass) (useCamelCase : bool) : str :=
  writeImageSetClass s 0 useCamelCase.

End WithQuote.

End Imageset.

(* ===================================================================== *)
(** * Specification vocabulary for internal/imageset *)
(* ===================================================================== *)

Module ImagesetSpec.
Import Imageset.

(** The characters of a normalized identifier. *)
Definition identChar (c : ascii) : bool :=
  isAsciiAlphaNum c || Ascii.eqb c "_".

(** A name the writer leaves as it is. *)
Definition normalized (camel : bool) (name : str) : Prop :=
  NormalizeName name camel = name.

Definition intPair (v : Z * Z) : Prop :=
  GoInt.in_range (fst v) /\ GoInt.in_range (snd v).

Definition defOk (camel : bool) (d : ImageSetDefClass) : Prop :=
  normalized camel (DefName d) /\ intPair (Pos d) /\ intPair (Size d)
  /\ GoInt.in_range (Flags d).

Definition groupOk (camel : bool) (g : ImageSetGroupClass) : Prop :=
  normalized camel (GroupName g) /\ Forall (defOk camel) (GroupImages g).

(** An entity as a Go program can hold it (every [int] in range) whose
    root, group and image names are normalized. *)
Definition entityOk (camel : bool) (x : ImageSetClass) : Prop :=
  normalized camel (Name x) /\ intPair (RefSize x)
  /\ Forall (defOk camel) (Images x)
  /\ Forall (groupOk camel) (Groups x).

(** No line of a text reaches the token limit of the scanner. *)
Definition linesFit (text : str) : Prop :=
  Forall (fun l => Z.of_nat (length l) < MaxScanTokenSize) (scanLines text []).

(** A text without line feed. *)
Definition oneLine (s : str) : Prop :=
  forallb (fun c => negb (Ascii.eqb c newline)) s = true.

(** What [strconv.Quote] is needed for: identifiers are only wrapped in
    double quotes, and a quoted string stays on one line. *)
Definition quoteContract (Quote : str -> str) : Prop :=
  (forall s, forallb identChar s = true -> Quote s = dquote :: s ++ [dquote])
  /\ (forall s, oneLine (Quote s)).

(** The entity without its textures. *)
Definition withoutTextures (x : ImageSetClass) : ImageSetClass :=
  mkImageSet (Name x) [] (Images x) (Groups x) (RefSize x).

Definition backslash : ascii := "092"%char.

Definition hexDigit (n : nat) : ascii :=
  nth n (lit "0123456789abcdef") "0"%char.

(** The escape [strconv.Quote] writes for one byte of an ASCII string: a
    backslash before a double quote and a backslash, the letter escapes of
    the control characters, two hexadecimal digits for the other bytes that do
    not print.  Bytes outside ASCII are written like the bytes of an invalid
    encoding. *)
Definition quoteEscape (c : ascii) : str :=
  let n := nat_of_ascii c in
  if Ascii.eqb c dquote || Ascii.eqb c backslash then [backslash; c]
  else if (n =? 7)%nat then [backslash; "a"%char]
  else if (n =? 8)%nat then [backslash; "b"%char]
  else if (n =? 12)%nat then [backslash; "f"%char]
  else if (n =? 10)%nat then [backslash; "n"%char]
  else if (n =? 13)%nat then [backslash; "r"%char]
  else if (n =? 9)%nat then [backslash; "t"%char]
  else if (n =? 11)%nat then [backslash; "v"%char]
  else if (n <? 32)%nat || (127 <=? n)%nat
  then [backslash; "x"%char; hexDigit (n / 16); hexDigit (n mod 16)]
  else [c].

Definition quoteASCII (s : str) : str :=
  dquote :: flat_map quoteEscape s ++ [dquote].

(** ** Vocabulary of the proofs *)

Definition alnumStr (s : str) : Prop := forallb isAsciiAlphaNum s = true.

Definition identStr (s : str) : Prop := forallb identChar s = true.

Definition isDigit (c : ascii) : bool :=
  match digitVal c with Some _ => true | None => false end.

Definition numChar (c : ascii) : bool := isDigit c || Ascii.eqb c "-".

Definition blank (s : str) : Prop := forallb isSpace s = true.

(** The last character of [s] is not a blank. *)
Definition endsPlain (s : str) : Prop :=
  match rev s with
  | e :: _ => isSpace e = false
  | [] => False
  end.

Definition noSpace (s : str) : Prop := forallb (fun c => negb (isSpace c)) s = true.

(** The reader started on line [n] in state [p]. *)
Definition readText (n : nat) (p : parser) (text : str) : ImageSetClass + ReadError :=
  readLines n p (scanLines text []).

(** From state [p] the rest of the text reads as [r], whatever the line
    number, when no line is too long. *)
Definition Reads (p : parser) (text : str) (r : ImageSetClass + ReadError) : Prop :=
  forall n, linesFit text -> readText n p text = r.

(** A line and its line feed before the rest of the text. *)
Definition ln (l rest : str) : str := l ++ newline :: rest.

(** Every character, for properties checked by enumeration. *)
Definition allAscii : list ascii := map ascii_of_nat (seq 0 256).

Definition smoke_entity : ImageSetClass :=
  mkImageSet (lit "my_ui")
    []
    [mkDef (lit "root_icon") (1, 2) (3, 4) 0]
    [mkGroup (lit "main_hud") [mkDef (lit "group_icon") (5, 6) (7, 8) 0];
     mkGroup [] []]
    (512, 256).

Definition textured_entity : ImageSetClass :=
  mkImageSet (lit "ui") [mkTexture (lit "ui.edds") 1] [] [] (64, 64).

End ImagesetSpec.

(* ===================================================================== *)
(** * Further vocabulary for the packer *)
(* ===================================================================== *)

Module PackerExtraSpec.
Import GoInt Packer PackerSpec.

(** What a placement keeps of its image: name, width and height. *)
Definition imageEntry (im : ImageInfo) : string * Z * Z :=
  (Name im, Width im, Height im).
Definition placementEntry (p : Placement) : string * Z * Z :=
  (PName p, PWidth p, PHeight p).

(** Neither rectangle contains the other, as [containedIn] sees it. *)
Definition incomparable (a b : mrRect) : Prop :=
  containedIn a b = false /\ containedIn b a = false.

(** An image whose padded sides are non-negative and at most [2^62], so that
    [nextPowerOfTwo] returns on them. *)
Definition paddedSmall (cfg : Config) (im : ImageInfo) : Prop :=
  0 <= Width im /\ 0 <= Height im
  /\ Width im + 2 * Gap cfg <= 2 ^ 62 /\ Height im + 2 * Gap cfg <= 2 ^ 62.

(** An image whose padded width or height is more than [MaxSize]. *)
Definition tooLarge (cfg : Config) (im : ImageInfo) : Prop :=
  MaxSize cfg < Width im + 2 * Gap cfg \/ MaxSize cfg < Height im + 2 * Gap cfg.

(** TestPackExceedsMaxSize. *)
Definition huge_images : list ImageInfo := [mkImageInfo "huge" 512 512].
Definition huge_cfg : Config :=
  mkConfig 64 256 0 0%float BestShortSideFit false false false.

(** A configuration without upper limit. *)
Definition unlimited_cfg : Config :=
  mkConfig 16 int_max 0 0%float BestShortSideFit false false false.

(** An empty bin of 32 x 32. *)
Definition sample_bin : maxRects := newMaxRects 32 32 false.

(** Three free rectangles, the third inside the first. *)
Definition sample_free : list mrRect :=
  [mkRect 0 0 10 10 false; mkRect 5 5 10 10 false; mkRect 2 2 4 4 false].

End PackerExtraSpec.

(* ===================================================================== *)
(** * Further vocabulary for BC1 *)
(* ===================================================================== *)

Module BcnExtraSpec.
Import Bcn BcnSpec.

(** A colour cut to the five, six and five bits RGB565 keeps, opaque. *)
Definition quantize (c : ColorRGBA) : ColorRGBA :=
  mkColor (Z.land (R c) 248) (Z.land (G c) 252) (Z.land (B c) 248) 255.

Definition byte (z : Z) : Prop := 0 <= z < 256.

(** The channels of [c] lie between those of [a] and [b]. *)
Definition between (lo hi x : Z) : Prop := Z.min lo hi <= x <= Z.max lo hi.
Definition colourBetween (a b c : ColorRGBA) : Prop :=
  between (R a) (R b) (R c) /\ between (G a) (G b) (G c) /\ between (B a) (B b) (B c).

(** What the loop of [minMaxLuminance] has established after the pixels
    [seen]. *)
Definition lumInv (seen : list ColorRGBA) (st : Z * Z * ColorRGBA * ColorRGBA) : Prop :=
  let '(maxLum, minLum, maxColor, minColor) := st in
  match seen with
  | [] => maxLum = -1 /\ minLum = 2147483647
  | _ =>
      In maxColor seen /\ In minColor seen
      /\ maxLum = luminance maxColor /\ minLum = luminance minColor
      /\ Forall (fun p => minLum <= luminance p <= maxLum) seen
  end.

End BcnExtraSpec.

(* ===================================================================== *)
(** * internal/dds: the DX10 header, and further vocabulary *)
(* ===================================================================== *)

Module DdsDx10.
Import Dds.

(** ** types.go *)

Definition PFFourCC : Z := 4.

(** The four characters DX10, little-endian. *)
Definition FourCCDX10 : Z := 808540228.

Record HeaderDx10 := mkHeaderDx10 {
  DXGIFormat : Z;
  ResourceDimension : Z;
  MiscFlag : Z;
  ArraySize : Z;
  MiscFlags2 : Z
}.

(** ** read.go *)

(** [ReadHeaderDx10]: [None] stands for the nil header returned (without
    error and without reading) when the pixel format does not announce a DX10
    header. *)
Definition ReadHeaderDx10 (r : list Z) (header : Header)
    : (option HeaderDx10 * list Z) + ReadError :=
  if (Z.land (PfFlags (PixelFormat_ header)) PFFourCC =? 0)
     || negb (FourCC (PixelFormat_ header) =? FourCCDX10)
  then inl (None, r)
  else
    let* (dxgiFormat, r) := field "dxgiFormat"%string r in
    let* (resourceDimension, r) := field "resourceDimension"%string r in
    let* (miscFlag, r) := field "miscFlag"%string r in
    let* (arraySize, r) := field "arraySize"%string r in
    let* (miscFlags2, r) := field "miscFlags2"%string r in
    inl (Some (mkHeaderDx10 dxgiFormat resourceDimension miscFlag arraySize miscFlags2), r).

(** ** write.go *)

Definition WriteHeaderDx10 (dx10 : HeaderDx10) : list Z :=
  putLe32 (DXGIFormat dx10) ++ putLe32 (ResourceDimension dx10)
  ++ putLe32 (MiscFlag dx10) ++ putLe32 (ArraySize dx10) ++ putLe32 (MiscFlags2 dx10).

End DdsDx10.

Module DdsExtraSpec.
Import Dds DdsSpec DdsDx10.

(** A value a [uint32] holds, and one a [byte] holds. *)
Definition isU32 (v : Z) : Prop := 0 <= v < 2 ^ 32.
Definition isByte (b : Z) : Prop := 0 <= b < 256.

Definition pixelFormatU32 (pf : PixelFormat) : Prop :=
  isU32 (PfSize pf) /\ isU32 (PfFlags pf) /\ isU32 (FourCC pf) /\ isU32 (RGBBitCount pf)
  /\ isU32 (RBitMask pf) /\ isU32 (GBitMask pf) /\ isU32 (BBitMask pf)
  /\ isU32 (ABitMask pf).

(** A header as a Go program can hold it: [uint32] fields, eleven reserved
    words. *)
Definition headerU32 (h : Header) : Prop :=
  isU32 (Size h) /\ isU32 (Flags h) /\ isU32 (Height h) /\ isU32 (Width h)
  /\ isU32 (PitchOrLinearSize h) /\ isU32 (Depth h) /\ isU32 (MipMapCount h)
  /\ length (Reserved1 h) = 11%nat /\ Forall isU32 (Reserved1 h)
  /\ pixelFormatU32 (PixelFormat_ h)
  /\ isU32 (Caps h) /\ isU32 (Caps2 h) /\ isU32 (Caps3 h) /\ isU32 (Caps4 h)
  /\ isU32 (Reserved2 h).

(** What [ReadHeader] checks of a header. *)
Definition headerChecked (h : Header) : Prop :=
  Size h = HeaderSize /\ PfSize (PixelFormat_ h) = PixelFormatSize
  /\ Reserved2 h = 0
  /\ Z.land (Flags h) HeaderFlagsTexture = HeaderFlagsTexture.

Definition dx10U32 (d : HeaderDx10) : Prop :=
  isU32 (DXGIFormat d) /\ isU32 (ResourceDimension d) /\ isU32 (MiscFlag d)
  /\ isU32 (ArraySize d) /\ isU32 (MiscFlags2 d).

(** The pixel format announces a DX10 header. *)
Definition announcesDx10 (h : Header) : Prop :=
  Z.land (PfFlags (PixelFormat_ h)) PFFourCC <> 0
  /\ FourCC (PixelFormat_ h) = FourCCDX10.

(** A header with a DX10 pixel format, and a DX10 header. *)
Definition sample_dx10_header : Header :=
  mkHeader 124 4103 16 16 0 0 1 [0; 0; 0; 0; 0; 0; 0; 0; 0; 0; 0]
    (mkPixelFormat 32 4 FourCCDX10 0 0 0 0 0) 4096 0 0 0 0.
Definition sample_dx10 : HeaderDx10 := mkHeaderDx10 71 3 0 1 0.

(** A file: the canonical header of a 4 x 2 image, then eight bytes. *)
Definition sample_file : list Z :=
  canonicalStream 4 2 1 ++ [67; 79; 80; 89; 32; 0; 0; 0].

End DdsExtraSpec.

(* ===================================================================== *)
(** * internal/edds: writing and reading the blocks of a file *)
(* ===================================================================== *)

Module EddsIO.
Import Edds.

(** ** bcn/types.go, bcn/format.go *)

(** The pixel formats the program names. *)
Inductive Format :=
| FormatBC1 | FormatBC2 | FormatBC3 | FormatBC4 | FormatBC5 | FormatBC6 | FormatBC7
| FormatRGBA8 | FormatBGRA8 | FormatUnknown.

(** [int] arithmetic, with its wrap-around. *)
Definition ExpectedDataLength (format : Format) (width height : Z) : Z :=
  let blocksW := Z.quot (width +! 3) 4 in
  let blocksH := Z.quot (height +! 3) 4 in
  match format with
  | FormatBC1 | FormatBC4 => blocksW *! blocksH *! 8
  | FormatBC2 | FormatBC3 | FormatBC5 | FormatBC6 | FormatBC7 => blocksW *! blocksH *! 16
  | FormatRGBA8 | FormatBGRA8 => width *! height *! 4
  | FormatUnknown => -1
  end.

(** ** edds.go *)

Definition maxInt32 : Z := 2147483647.

(** A Go string of bytes, and the bytes of a string. *)
Definition stringOf (bs : list Z) : string :=
  string_of_list_ascii (map (fun b => ascii_of_N (Z.to_N b)) bs).
Definition bytesOf (s : string) : list Z :=
  map (fun a => Z.of_N (N_of_ascii a)) (list_ascii_of_string s).

(** [binary.Write] of an [int32], little-endian: the four bytes of its two's
    complement. *)
Definition putInt32 (v : Z) : list Z := Dds.putLe32 v.

(** [binary.Read] of an [int32]: the word, read as signed. *)
Definition int32_of_word (v : Z) : Z := if v <? 2 ^ 31 then v else v - 2 ^ 32.

(** The bytes [writeBlockData] sends to its writer. *)
Definition writeBlockData (block : Block) : list Z :=
  if String.eqb (Magic block) BlockMagicLZ4
  then putInt32 (UncompressedSize block) ++ Data block
  else Data block.

Inductive CompressError :=
| ErrInputTooLarge (n : Z)
| ErrCompressionFailed
| ErrChunkTooLarge (cn : Z)
| ErrCompressedTooLarge (n : Z).

(** How the chunk loop of [compressBlock] ends: with the chunk stream, with
    the fall-back to a COPY block, or with an error. *)
Inductive chunkStreamResult :=
| Stream (chunkStream : list Z)
| Fallback
| Failed (e : CompressError).

(** The values of [i] in [for i := 0; i < n; i += ChunkSize]. *)
Definition chunkStarts (n : Z) : list Z :=
  map (fun k => Z.of_nat k * ChunkSize)
      (seq 0 (Z.to_nat ((n + ChunkSize - 1) / ChunkSize))).

Definition copyBlock (data : list Z) : Block :=
  mkBlock BlockMagicCOPY data (len data) 0.

Section WithCompressor.

(** [lz4.CompressBlockBound] and [lz4.CompressBlockHC(src, dst, 0, nil, nil)]
    of github.com/pierrec/lz4: given the source and the length of [dst], the
    bytes written to the front of [dst] (their number is the [cn] returned),
    or [None] for an error. *)
Variable CompressBlockBound : Z -> Z.
Variable CompressBlockHC : list Z -> Z -> option (list Z).

(** The chunk loop, over the values of [i]. *)
Fixpoint compressChunks (data : list Z) (starts : list Z) (chunkStream : list Z)
    : chunkStreamResult :=
  match starts with
  | [] => Stream chunkStream
  | i :: starts' =>
      let end_ := i + ChunkSize in
      let end_ := if len data <? end_ then len data else end_ in
      let srcChunk := firstn (Z.to_nat (end_ - i)) (skipn (Z.to_nat i) data) in
      let isLast := end_ =? len data in
      match CompressBlockHC srcChunk (CompressBlockBound ChunkSize) with
      | None => Failed ErrCompressionFailed
      | Some compressed =>
          let cn := len compressed in
          if (cn =? 0)
             || (float64_of_int (len srcChunk) * 0x1.b333333333333p-1 <? float64_of_int cn)%float
          then Fallback
          else if 8388607 <? cn then Failed (ErrChunkTooLarge cn)
          else
            compressChunks data starts'
              (chunkStream
               ++ [cn mod 256; Z.shiftr cn 8 mod 256; Z.shiftr cn 16 mod 256;
                   if isLast then 128 else 0]
               ++ compressed)
      end
  end.

Definition compressBlock (data : list Z) : Block + CompressError :=
  if maxInt32 <? len data then inr (ErrInputTooLarge (len data))
  else
    let uncompressedSize := len data in
    if len data <? 1024 then inl (copyBlock data)
    else
      match compressChunks data (chunkStarts (len data)) [] with
      | Failed e => inr e
      | Fallback => inl (copyBlock data)
      | Stream compressedData =>
          let totalOverhead := 4 + len compressedData in
          if maxInt32 <? totalOverhead then inr (ErrCompressedTooLarge totalOverhead)
          else if (float64_of_int (len data) * 0x1.b333333333333p-1
                   <? float64_of_int totalOverhead)%float
          then inl (copyBlock data)
          else inl (mkBlock BlockMagicLZ4 compressedData totalOverhead uncompressedSize)
      end.

(** [WriteEDDSWithMipmaps], from the compression of the mip levels on:
    [mipDatas] holds the bytes to compress of every level, largest first.
    The block table and then the block bodies are written from the smallest
    level to the largest. *)
Fixpoint compressAll (mipDatas : list (list Z)) : list Block + (Z * CompressError) :=
  match mipDatas with
  | [] => inl []
  | mipData :: rest =>
      match compressBlock mipData with
      | inr e => inr (0, e)
      | inl block =>
          match compressAll rest with
          | inr (i, e) => inr (i + 1, e)
          | inl blocks => inl (block :: blocks)
          end
      end
  end.

End WithCompressor.

Definition writeBlockTable (blocks : list Block) : list Z :=
  flat_map (fun block => bytesOf (Magic block) ++ putInt32 (Size block)) (rev blocks).

Definition writeBlockBodies (blocks : list Block) : list Z :=
  flat_map writeBlockData (rev blocks).

Record blockHeader := mkBlockHeader {
  HdrMagic : string;
  HdrSize : Z
}.

Inductive TableError :=
| ErrTableMagic (i : Z) (e : Dds.IoError)
| ErrTableSize (i : Z) (e : Dds.IoError)
| ErrTableUnknownMagic (i : Z) (magic : string)
| ErrTableInvalidSize (i : Z) (size : Z).

(** The loop of [readBlockTable]: [n] headers are still to be read, [i] is
    the index of the next one. *)
Fixpoint readBlockTable_loop (n : nat) (i : Z) (r : list Z) (hdrs : list blockHeader)
    : (list blockHeader * list Z) + TableError :=
  match n with
  | O => inl (hdrs, r)
  | S n' =>
      match Dds.ReadFull 4 r with
      | inr e => inr (ErrTableMagic i e)
      | inl (magicBytes, r) =>
          let magic := stringOf magicBytes in
          match Dds.ReadFull 4 r with
          | inr e => inr (ErrTableSize i e)
          | inl (buf, r) =>
              let size := int32_of_word (le32 buf) in
              if negb (String.eqb magic BlockMagicCOPY) && negb (String.eqb magic BlockMagicLZ4)
              then inr (ErrTableUnknownMagic i magic)
              else if size <? 0 then inr (ErrTableInvalidSize i size)
              else readBlockTable_loop n' (i + 1) r (hdrs ++ [mkBlockHeader magic size])
          end
      end
  end.

Definition readBlockTable (r : list Z) (mipMapCount : Z)
    : (list blockHeader * list Z) + TableError :=
  readBlockTable_loop (Z.to_nat mipMapCount) 0 r [].

Inductive BodyError :=
| ErrBodyInvalidSize (size : Z)
| ErrBodyRead (magic : string) (e : Dds.IoError).

Definition readBlockBody (r : list Z) (h : blockHeader) : (Block * list Z) + BodyError :=
  if HdrSize h <? 0 then inr (ErrBodyInvalidSize (HdrSize h))
  else
    match Dds.ReadFull (Z.to_nat (HdrSize h)) r with
    | inr e => inr (ErrBodyRead (HdrMagic h) e)
    | inl (data, r) => inl (mkBlock (HdrMagic h) data (HdrSize h) 0, r)
    end.

(** ** Reading the largest mip level *)

(** [base >> level], at least 1. *)
Definition mipDimension (base level : Z) : Z :=
  let result := Z.shiftr base level in
  if result <? 1 then 1 else result.

Inductive MipError :=
| ErrReadingTable (e : TableError)
| ErrReadingBody (i : Z) (e : BodyError)
| ErrInvalidFormat (i : Z)
| ErrDecompressing (i : Z) (e : DecompressError)
| ErrLargestMipSize (expected got : Z)
| ErrNoLargestMip (mipMapCount : Z).

Section WithLZ4.
Variable UncompressBlockWithDict : list Z -> Z -> list Z -> option (list Z).

(** The loop of [readLargestMipFromBlocks] over the entries of the block
    table; [i] is the index of the entry at hand.  A seek forward on the file
    moves the read position, also past the end of the file. *)
Fixpoint largestMipLoop (table : list blockHeader) (i : Z) (r : list Z)
    (width height : Z) (format : Format) (mipMapCount : Z)
    : (list Z * Z * Z) + MipError :=
  match table with
  | [] => inr (ErrNoLargestMip mipMapCount)
  | h :: table' =>
      let mipLevel := mipMapCount - i - 1 in
      if negb (mipLevel =? 0)
      then largestMipLoop table' (i + 1) (skipn (Z.to_nat (HdrSize h)) r)
             width height format mipMapCount
      else
        match readBlockBody r h with
        | inr e => inr (ErrReadingBody i e)
        | inl (block, _) =>
            let mipW := mipDimension width mipLevel in
            let mipH := mipDimension height mipLevel in
            let expectedSize := ExpectedDataLength format mipW mipH in
            if expectedSize <=? 0 then inr (ErrInvalidFormat i)
            else
              match decompressBlock UncompressBlockWithDict block expectedSize with
              | inr e => inr (ErrDecompressing i e)
              | inl decompressed =>
                  if negb (len decompressed =? expectedSize)
                  then inr (ErrLargestMipSize expectedSize (len decompressed))
                  else inl (decompressed, mipW, mipH)
              end
        end
  end.

(** [width] and [height] are [header.Width] and [header.Height]. *)
Definition readLargestMipFromBlocks (r : list Z) (width height : Z) (format : Format)
    (mipMapCount : Z) : (list Z * Z * Z) + MipError :=
  let mipMapCount := if mipMapCount =? 0 then 1 else mipMapCount in
  match readBlockTable r mipMapCount with
  | inr e => inr (ErrReadingTable e)
  | inl (table, r) => largestMipLoop table 0 r width height format mipMapCount
  end.

End WithLZ4.

End EddsIO.

Module EddsExtraSpec.
Import Edds EddsIO.

(** What the program relies on of the LZ4 library, for the buffer of
    [CompressBlockBound ChunkSize] bytes it compresses into: the buffer is
    shorter than 2^20, the compressor writes no more than the buffer holds,
    and a block the compressor produced is decoded to its source when the
    decoder is given exactly the room of the source, whatever dictionary it
    is handed. *)
Definition codecContract
    (CompressBlockBound : Z -> Z)
    (CompressBlockHC : list Z -> Z -> option (list Z))
    (UncompressBlockWithDict : list Z -> Z -> list Z -> option (list Z)) : Prop :=
  CompressBlockBound ChunkSize < 2 ^ 20
  /\ (forall src c,
        CompressBlockHC src (CompressBlockBound ChunkSize) = Some c ->
        len c <= CompressBlockBound ChunkSize)
  /\ (forall src c dict,
        CompressBlockHC src (CompressBlockBound ChunkSize) = Some c -> 0 < len c ->
        UncompressBlockWithDict c (len src) dict = Some src).

(** The header of the block table that goes with a block. *)
Definition headerOf (block : Block) : blockHeader :=
  mkBlockHeader (Magic block) (Size block).

(** A block as [compressBlock] returns them: a known magic and a size that
    an [int32] holds. *)
Definition tableEntryOk (block : Block) : Prop :=
  (Magic block = BlockMagicCOPY \/ Magic block = BlockMagicLZ4)
  /\ 0 <= Size block <= maxInt32.

(** A codec to run the code on: a run of equal bytes is stored as one byte,
    anything else as it is (or not at all when it does not fit). *)
Definition runBound (n : Z) : Z := n + 16.

Definition runCompress (src : list Z) (n : Z) : option (list Z) :=
  match src with
  | [] => Some []
  | b :: rest =>
      if forallb (Z.eqb b) rest
      then (if 1 <=? n then Some [b] else Some [])
      else (if len src <=? n then Some src else Some [])
  end.

Definition runUncompress (c : list Z) (want : Z) (dict : list Z) : option (list Z) :=
  match c with
  | [b] => Some (repeat b (Z.to_nat want))
  | _ => if len c =? want then Some c else None
  end.

(** Two mip levels of a 50 x 10 image. *)
Definition sample_mip0 : list Z := repeat 7 2000.
Definition sample_mip1 : list Z := repeat 9 500.
(** The block of level 0: one chunk of one byte. *)
Definition sample_lz4_block : Block := mkBlock BlockMagicLZ4 [1; 0; 0; 128; 7] 9 2000.

End EddsExtraSpec.

(* ===================================================================== *)
(** * internal/cli: the unpack command *)
(* ===================================================================== *)

Module Unpack.
Import Imageset.

(** The key [[4]int{def.Pos[0], def.Pos[1], def.Size[0], def.Size[1]}]. *)
Definition defKey (def : ImageSetDefClass) : Z * Z * Z * Z :=
  (fst (Pos def), snd (Pos def), fst (Size def), snd (Size def)).

Definition keyEqb (a b : Z * Z * Z * Z) : bool :=
  let '(a0, a1, a2, a3) := a in
  let '(b0, b1, b2, b3) := b in
  (a0 =? b0) && (a1 =? b1) && (a2 =? b2) && (a3 =? b3).

(** The loop of [deduplicateDefs]; [seen] holds the keys of the map. *)
Fixpoint deduplicateLoop (defs : list ImageSetDefClass) (seen : list (Z * Z * Z * Z))
    (out : list ImageSetDefClass) : list ImageSetDefClass :=
  match defs with
  | [] => out
  | def :: rest =>
      let key := defKey def in
      if existsb (keyEqb key) seen then deduplicateLoop rest seen out
      else deduplicateLoop rest (key :: seen) (out ++ [def])
  end.

Definition deduplicateDefs (defs : list ImageSetDefClass) : list ImageSetDefClass :=
  if (length defs <=? 1)%nat then defs else deduplicateLoop defs [] [].

End Unpack.

(* ===================================================================== *)
(** * internal/edds: mip levels and pixel order *)
(* ===================================================================== *)

Module EddsMip.
Import Edds EddsIO.

(** ** Writing: mip count and channel order *)

(** The loop of [calculateMipMapCount] on [uint32] values.  [None] stands
    for a loop that is still running when the fuel is used up. *)
Fixpoint mipCountLoop (fuel : nat) (count w h : Z) : option Z :=
  if (1 <? w) || (1 <? h) then
    match fuel with
    | O => None
    | S fuel' =>
        mipCountLoop fuel' (Dds.u32 (count + 1))
          (if 1 <? w then w / 2 else w) (if 1 <? h then h / 2 else h)
    end
  else Some count.

Definition calculateMipMapCount (width height : Z) : option Z :=
  match mipCountLoop 64 1 (Dds.u32 width) (Dds.u32 height) with
  | None => None
  | Some count => Some (if 11 <? count then 11 else count)
  end.

(** The conversion of a mip level to BGRA before it is compressed, in
    [WriteEDDSWithMipmaps].  [None] stands for the panic of an index out of
    range, when the length is no multiple of 4. *)
Fixpoint bgraOfRgba (data : list Z) : option (list Z) :=
  match data with
  | [] => Some []
  | r :: g :: b :: a :: rest =>
      match bgraOfRgba rest with
      | Some out => Some (b :: g :: r :: a :: out)
      | None => None
      end
  | _ => None
  end.

(** ** bcn/format.go *)

Inductive ConvertError :=
| ErrDecode (e : string)
| ErrBC6NotImplemented
| ErrBC7NotImplemented
| ErrNotImplemented (format : Format).

(** The loop of the BGRA8 case of [ConvertToRGBA]. *)
Fixpoint rgbaOfBgra (data : list Z) : option (list Z) :=
  match data with
  | [] => Some []
  | b :: g :: r :: a :: rest =>
      match rgbaOfBgra rest with
      | Some out => Some (r :: g :: b :: a :: out)
      | None => None
      end
  | _ => None
  end.

Section WithDecoders.

(** [DecodeBC1], [DecodeBC2] and [DecodeBC3]. *)
Variable DecodeBC1 DecodeBC2 DecodeBC3 : list Z -> Z -> Z -> list Z + string.

(** [None] stands for a panic. *)
Definition ConvertToRGBA (data : list Z) (format : Format) (width height : Z)
    : option (list Z + ConvertError) :=
  let decoded (res : list Z + string) :=
    match res with
    | inl out => Some (inl out)
    | inr e => Some (inr (ErrDecode e))
    end in
  match format with
  | FormatBC1 => decoded (DecodeBC1 data width height)
  | FormatBC2 => decoded (DecodeBC2 data width height)
  | FormatBC3 => decoded (DecodeBC3 data width height)
  | FormatBC6 => Some (inr ErrBC6NotImplemented)
  | FormatBC7 => Some (inr ErrBC7NotImplemented)
  | FormatRGBA8 => Some (inl data)
  | FormatBGRA8 =>
      match rgbaOfBgra data with
      | Some result => Some (inl result)
      | None => None
      end
  | _ => Some (inr (ErrNotImplemented format))
  end.

End WithDecoders.

End EddsMip.

(* ===================================================================== *)
(** * Further vocabulary *)
(* ===================================================================== *)

Module MiscExtraSpec.
Import Imageset ImagesetSpec Unpack.

(** Lower-case letters and digits; the characters of a snake-case name. *)
Definition lowerAlnum (c : ascii) : bool := between "a" "z" c || between "0" "9" c.
Definition snakeChar (c : ascii) : bool := lowerAlnum c || Ascii.eqb c "_".

(** A token of [splitTokens]: not empty, of lower-case letters and digits. *)
Definition tokenOk (t : str) : Prop := t <> [] /\ forallb lowerAlnum t = true.

(** [a] holds the elements of [b] it keeps, in the order of [b]. *)
Inductive Subseq {A : Type} : list A -> list A -> Prop :=
| Subseq_nil : Subseq [] []
| Subseq_keep x a b : Subseq a b -> Subseq (x :: a) (x :: b)
| Subseq_drop x a b : Subseq a b -> Subseq a (x :: b).

(** The first definition of [defs] with the key of [d]. *)
Definition firstWithKey (defs : list ImageSetDefClass) (d : ImageSetDefClass)
    : option ImageSetDefClass :=
  find (fun x => keyEqb (defKey x) (defKey d)) defs.

End MiscExtraSpec.

(* ===================================================================== *)
(** * Facts about Go's [int] *)
(* ===================================================================== *)

Module GoIntFacts.
Import GoInt.

Lemma wrap_small z : in_range z -> wrap z = z.
Proof.
  unfold in_range, int_min, int_max, wrap. intros Hz.
  rewrite Z.mod_small; lia.
Qed.

Lemma wrap_in_range z : in_range (wrap z).
Proof.
  unfold in_range, int_min, int_max, wrap.
  pose proof (Z.mod_pos_bound (z + 2 ^ 63) (2 ^ 64) ltac:(lia)). lia.
Qed.

Lemma add_small a b : in_range (a + b) -> a +! b = a + b.
Proof. apply wrap_small. Qed.

Lemma sub_small a b : in_range (a - b) -> a -! b = a - b.
Proof. apply wrap_small. Qed.

Lemma mul_small a b : in_range (a * b) -> a *! b = a * b.
Proof. apply wrap_small. Qed.

End GoIntFacts.

(* ===================================================================== *)
(** * The packer: proofs *)
(* ===================================================================== *)

Module PackerProofs.
Import GoInt GoIntFacts Packer PackerSpec.

Ltac range := unfold in_range, int_min, int_max in *; lia.

Ltac unwrap :=
  repeat match goal with
  | |- context [?a +! ?b] => rewrite (add_small a b) by range
  | |- context [?a -! ?b] => rewrite (sub_small a b) by range
  end.

Ltac b2p :=
  repeat match goal with
  | H : _ && _ = true |- _ => apply andb_true_iff in H; destruct H
  | H : _ || _ = false |- _ => apply orb_false_iff in H; destruct H
  | H : _ || _ = true |- _ => apply orb_true_iff in H
  | H : _ && _ = false |- _ => apply andb_false_iff in H
  | H : negb _ = true |- _ => apply negb_true_iff in H
  | H : negb _ = false |- _ => apply negb_false_iff in H
  | H : (_ <=? _) = true |- _ => apply Z.leb_le in H
  | H : (_ <=? _) = false |- _ => apply Z.leb_gt in H
  | H : (_ <? _) = true |- _ => apply Z.ltb_lt in H
  | H : (_ <? _) = false |- _ => apply Z.ltb_ge in H
  | H : (_ =? _) = true |- _ => apply Z.eqb_eq in H
  | H : (_ =? _) = false |- _ => apply Z.eqb_neq in H
  end.

Lemma splitFree_spec bw bh fr u :
  bw <= int_max -> bh <= int_max ->
  freeOk bw bh fr -> usedOk bw bh u ->
  match splitFree fr u with
  | None => rectDisjoint fr u
  | Some ps =>
      Forall (fun p => freeOk bw bh p /\ rectDisjoint p u
                       /\ (forall px py, inside p px py -> inside fr px py)) ps
  end.
Proof.
  unfold freeOk, usedOk, splitFree.
  intros Hbw Hbh (?&?&?&?&?&?) (?&?&?&?&?&?).
  rewrite (add_small (X fr) (W fr)), (add_small (Y fr) (H fr)),
    (add_small (X u) (W u)), (add_small (Y u) (H u)) by range.
  destruct (_ || _) eqn:E.
  - intros px py [? ?] [? ?]. b2p. lia.
  - b2p. apply Forall_app; split.
    + destruct (_ && _) eqn:E1; [|constructor]. b2p.
      apply Forall_app; split.
      * destruct (_ && _) eqn:E2; [|constructor]. b2p.
        constructor; [|constructor].
        unfold rectDisjoint, inside; cbn. unwrap. repeat split; lia.
      * destruct (_ <? _) eqn:E2; [|constructor]. b2p.
        constructor; [|constructor].
        unfold rectDisjoint, inside; cbn. unwrap. repeat split; lia.
    + destruct (_ && _) eqn:E1; [|constructor]. b2p.
      apply Forall_app; split.
      * destruct (_ && _) eqn:E2; [|constructor]. b2p.
        constructor; [|constructor].
        unfold rectDisjoint, inside; cbn. unwrap. repeat split; lia.
      * destruct (_ <? _) eqn:E2; [|constructor]. b2p.
        constructor; [|constructor].
        unfold rectDisjoint, inside; cbn. unwrap. repeat split; lia.
Qed.

Lemma rectDisjoint_sym a b : rectDisjoint a b -> rectDisjoint b a.
Proof. unfold rectDisjoint. eauto. Qed.

Lemma rectDisjoint_subset a b c :
  (forall px py, inside a px py -> inside b px py) ->
  rectDisjoint b c -> rectDisjoint a c.
Proof. unfold rectDisjoint. eauto. Qed.

Section SplitLoop.
Variables (bw bh : Z) (u : mrRect) (olds : list mrRect).
Hypothesis Hbw : bw <= int_max.
Hypothesis Hbh : bh <= int_max.
Hypothesis Hu : usedOk bw bh u.

(** What [place] knows of a free rectangle before and after its visit. *)
Let pending (fr : mrRect) : Prop :=
  freeOk bw bh fr /\ forall o, In o olds -> rectDisjoint fr o.
Let settled (fr : mrRect) : Prop := pending fr /\ rectDisjoint fr u.

Lemma splitLoop_settles fuel : forall done todo l,
  Forall settled done -> Forall pending todo ->
  splitLoop fuel u done todo = Some l -> Forall settled l.
Proof.
  induction fuel as [|fuel IH]; intros done todo l Hd Ht; destruct todo as [|fr rest]; cbn.
  - intros [= <-]. exact Hd.
  - discriminate.
  - intros [= <-]. exact Hd.
  - inversion Ht as [|? ? [Hfr Ho] Hrest]; subst.
    pose proof (splitFree_spec bw bh fr u Hbw Hbh Hfr Hu) as Hs.
    destruct (splitFree fr u) as [ps|].
    + apply IH; [exact Hd|]. apply Forall_app; split; [exact Hrest|].
      eapply Forall_impl; [|exact Hs]. cbn. intros p (Hp & _ & Hsub). split; [exact Hp|].
      intros o Hin. eapply rectDisjoint_subset; eauto.
    + apply IH; [|exact Hrest]. apply Forall_app; split; [exact Hd|].
      constructor; [|constructor]. split; [split|]; assumption.
Qed.

End SplitLoop.

Lemma pruneInner_incl a : forall rest x,
  In x (snd (pruneInner a rest)) -> In x rest.
Proof.
  induction rest as [|b tl IH]; cbn; intros x; [tauto|].
  destruct (containedIn a b); [cbn; tauto|].
  destruct (containedIn b a); [auto|].
  destruct (pruneInner a tl) as [r l]; cbn in *. intros [->|Hin]; auto.
Qed.

Lemma pruneOuter_incl n : forall l x, In x (pruneOuter n l) -> In x l.
Proof.
  induction n as [|n IH]; intros l x; destruct l as [|a rest]; cbn; try tauto.
  pose proof (pruneInner_incl a rest) as Hin.
  destruct (pruneInner a rest) as [removed rest']; cbn in Hin.
  destruct removed; cbn.
  - intros Hx. right. apply Hin, IH, Hx.
  - intros [->|Hx]; [now left|]. right. apply Hin, IH, Hx.
Qed.

Lemma pruneFree_incl l x : In x (pruneFree l) -> In x l.
Proof. apply pruneOuter_incl. Qed.

Lemma insertStep_proposal m w h rule st fr :
  In fr (free m) ->
  (snd st = true -> proposal m w h (fst (fst (fst st)))) ->
  let st' := insertStep m w h rule st fr in
  snd st' = true -> proposal m w h (fst (fst (fst st'))).
Proof.
  intros Hin Hst. destruct st as [[[best pri] sec] found]. unfold insertStep.
  set (st1 := if (w <=? W fr) && (h <=? H fr) then _ else _).
  assert (H1 : snd st1 = true -> proposal m w h (fst (fst (fst st1)))).
  { subst st1. destruct ((w <=? W fr) && (h <=? H fr)) eqn:E; [|exact Hst].
    destruct (score m rule fr w h) as [p1 s1].
    destruct (better p1 s1 pri sec); [|exact Hst].
    cbn. intros _. b2p. exists fr. cbn. intuition. }
  clearbody st1. destruct st1 as [[[best1 pri1] sec1] found1]. cbn zeta.
  destruct (allowRotate m && (h <=? W fr) && (w <=? H fr)) eqn:E; [|exact H1].
  destruct (score m rule fr h w) as [p2 s2].
  destruct (better p2 s2 pri1 sec1); [|exact H1].
  cbn. intros _. b2p. exists fr. cbn. intuition.
Qed.

Lemma insertScan_proposal m w h rule :
  let st := insertScan m w h rule in
  snd st = true -> proposal m w h (fst (fst (fst st))).
Proof.
  unfold insertScan.
  assert (G : forall l st, incl l (free m) ->
            (snd st = true -> proposal m w h (fst (fst (fst st)))) ->
            snd (fold_left (insertStep m w h rule) l st) = true ->
            proposal m w h (fst (fst (fst (fold_left (insertStep m w h rule) l st))))).
  { induction l as [|fr l IH]; cbn; intros st Hl Hst; [exact Hst|].
    apply IH.
    - intros x Hx. apply Hl. now right.
    - apply insertStep_proposal; [apply Hl; now left|exact Hst]. }
  apply G; [apply incl_refl|]. cbn. discriminate.
Qed.

Lemma usedDisjoint_snoc us u :
  usedDisjoint us -> Forall (fun o => rectDisjoint u o) us -> usedDisjoint (us ++ [u]).
Proof.
  intros Hus Hu i j a b Hij Ha Hb.
  assert (Hlen : forall k c, nth_error (us ++ [u]) k = Some c ->
            (nth_error us k = Some c) \/ (c = u /\ k = length us)).
  { intros k c Hk. destruct (Nat.lt_ge_cases k (length us)) as [Hlt|Hge].
    - left. now rewrite nth_error_app1 in Hk.
    - right. rewrite nth_error_app2 in Hk by exact Hge.
      destruct (k - length us)%nat as [|d] eqn:Hd; cbn in Hk.
      + injection Hk as <-. split; [reflexivity|lia].
      + now destruct d. }
  rewrite Forall_forall in Hu.
  destruct (Hlen _ _ Ha) as [Ha'|[-> ->]], (Hlen _ _ Hb) as [Hb'|[-> ->]].
  - eapply Hus; eauto.
  - apply rectDisjoint_sym, Hu. eapply nth_error_In; eauto.
  - apply Hu. eapply nth_error_In; eauto.
  - congruence.
Qed.

Lemma Insert_inv m w h rule m' rect :
  binInv m -> in_range w -> in_range h ->
  Insert m w h rule = Some (m', (rect, true)) ->
  binInv m' /\ used m' = used m ++ [rect] /\ mw m' = mw m /\ mh m' = mh m
  /\ allowRotate m' = allowRotate m
  /\ proposal m w h rect.
Proof.
  intros Hinv Hw Hh. unfold Insert.
  pose proof (insertScan_proposal m w h rule) as Hprop. cbn zeta in Hprop.
  destruct (insertScan m w h rule) as [[[best pri] sec] found]. cbn in Hprop.
  destruct found; cbn; [|discriminate].
  specialize (Hprop eq_refl).
  unfold place.
  destruct (splitLoop _ best [] (free m)) as [fr'|] eqn:Hloop; [|discriminate].
  intros [= <- <-].
  destruct Hinv as [Hmw Hmh Hfree Hused Hsep Hdisj].
  assert (Hbest : usedOk (mw m) (mh m) best
                  /\ exists fr, In fr (free m) /\ forall px py, inside best px py -> inside fr px py).
  { destruct Hprop as (fr & Hin & HX & HY & Hcase).
    rewrite Forall_forall in Hfree. pose proof (Hfree _ Hin) as Hok.
    unfold freeOk in Hok. unfold usedOk, inside.
    split; [|exists fr; split; [exact Hin|]].
    - destruct Hcase as [(->&->&_&?&?)|(->&->&_&_&?&?)]; rewrite HX, HY; range.
    - intros px py. destruct Hcase as [(->&->&_&?&?)|(->&->&_&_&?&?)]; rewrite HX, HY; lia. }
  destruct Hbest as (HbestOk & fr0 & Hin0 & Hsub0).
  assert (Hsettled : Forall (fun fr => (freeOk (mw m) (mh m) fr
                       /\ forall o, In o (used m) -> rectDisjoint fr o)
                       /\ rectDisjoint fr best) fr').
  { eapply (splitLoop_settles (mw m) (mh m) best (used m)); try eassumption; try lia.
    - constructor.
    - rewrite Forall_forall in *. intros fr Hin. split; [auto|]. intros o Ho. eapply Hsep; eauto. }
  rewrite Forall_forall in Hsettled.
  split; [|cbn [used free mw mh allowRotate]; repeat split; try reflexivity; exact Hprop].
  constructor; cbn [used free mw mh allowRotate]; try assumption.
  - rewrite Forall_forall. intros fr Hin. apply pruneFree_incl in Hin.
    apply (Hsettled _ Hin).
  - apply Forall_app; split; [exact Hused|]. constructor; [exact HbestOk|constructor].
  - intros fr o Hin Ho. apply pruneFree_incl in Hin. apply in_app_or in Ho.
    destruct (Hsettled _ Hin) as [[_ Hold] Hnew].
    destruct Ho as [Ho|[<-|[]]]; auto.
  - apply usedDisjoint_snoc; [exact Hdisj|].
    rewrite Forall_forall. intros o Ho.
    eapply rectDisjoint_subset; [exact Hsub0|]. eapply Hsep; eauto.
Qed.

Lemma padded_exact cfg v :
  0 <= Gap cfg -> 0 <= v -> v + 2 * Gap cfg <= int_max ->
  padded cfg v = v + 2 * Gap cfg.
Proof.
  intros. unfold padded. rewrite (mul_small 2 (Gap cfg)) by range.
  apply add_small. range.
Qed.

Lemma Insert_proposal m w h rule m' rect :
  Insert m w h rule = Some (m', (rect, true)) -> proposal m w h rect.
Proof.
  unfold Insert.
  pose proof (insertScan_proposal m w h rule) as Hprop. cbn zeta in Hprop.
  destruct (insertScan m w h rule) as [[[best pri] sec] found]. cbn in Hprop.
  destruct found; cbn [negb]; [|discriminate].
  destruct (place m best); [|discriminate]. intros [= _ <-]. auto.
Qed.

Lemma placeAll_inv cfg rule : forall imgs bin acc ps,
  0 <= Gap cfg ->
  Forall (paddingFits cfg) imgs ->
  binInv bin ->
  Forall2 (placedIn (mw bin) (mh bin)) acc (used bin) ->
  placeAll cfg rule bin imgs acc = Some (inl ps) ->
  exists bin', binInv bin' /\ mw bin' = mw bin /\ mh bin' = mh bin
    /\ Forall2 (placedIn (mw bin) (mh bin)) ps (used bin').
Proof.
  induction imgs as [|im rest IH]; intros bin acc ps Hgap Himgs Hinv Hacc; cbn [placeAll].
  - intros [= <-]. exists bin. auto.
  - inversion Himgs as [|? ? (Hw0 & Hh0 & Hw & Hh) Hrest]; subst.
    rewrite !padded_exact by assumption.
    destruct (Insert bin _ _ rule) as [[bin' [rect ok]]|] eqn:HI; [|discriminate].
    destruct ok; cbn [negb]; [|discriminate].
    apply Insert_inv in HI; [|assumption|range|range].
    destruct HI as (Hinv' & Hused & Hmw & Hmh & _ & Hprop).
    intros Hrec. apply IH in Hrec; try assumption.
    + destruct Hrec as (bin'' & ? & ? & ? & ?). exists bin''.
      rewrite Hmw, Hmh in *. auto.
    + rewrite Hmw, Hmh, Hused. apply Forall2_app; [exact Hacc|].
      constructor; [|constructor].
      assert (Hok : usedOk (mw bin) (mh bin) rect).
      { destruct Hinv' as [_ _ _ Hu _ _]. rewrite Hused, Hmw, Hmh in Hu.
        apply Forall_app in Hu. destruct Hu as [_ Hu]. now inversion Hu. }
      destruct Hinv as [Hbw Hbh _ _ _ _].
      destruct Hprop as (fr & _ & _ & _ & Hcase). unfold usedOk in Hok.
      unfold placedIn, inAtlas, covers, inside, placedW, placedH; cbn.
      destruct Hcase as [(HW&HH&->&_&_)|(HW&HH&->&_&_&_)]; rewrite HW, HH in Hok;
        rewrite !add_small by range; rewrite ?HW, ?HH; repeat split; lia.
Qed.

Lemma newMaxRects_inv w h rot :
  0 <= w <= int_max -> 0 <= h <= int_max -> binInv (newMaxRects w h rot).
Proof.
  intros Hw Hh. constructor; cbn; try assumption.
  - constructor; [|constructor]. unfold freeOk; cbn. lia.
  - constructor.
  - intros fr u _ [].
  - intros i j a b _ Ha. destruct i; discriminate.
Qed.

Lemma Forall2_nth_error {A B} (R : A -> B -> Prop) l1 l2 :
  Forall2 R l1 l2 -> forall i a, nth_error l1 i = Some a ->
  exists b, nth_error l2 i = Some b /\ R a b.
Proof.
  induction 1 as [|x y l1 l2 Hxy _ IH]; intros i a Hi.
  - destruct i; discriminate.
  - destruct i as [|i]; cbn in *.
    + injection Hi as <-. eauto.
    + eauto.
Qed.

Section PackSafety.
Variable sort_Slice : (ImageInfo -> ImageInfo -> bool) -> list ImageInfo -> list ImageInfo.
Hypothesis sort_Slice_perm : forall less l, Permutation l (sort_Slice less l).

(** C1 (amended): for every input list of images with non-negative sizes and
    every configuration such that padding an image by the gap on both sides
    does not overflow the 64-bit [int] ([Width + 2*Gap] and [Height + 2*Gap]
    at most 2^63-1), if [Pack] succeeds then every returned placement lies
    within the atlas ([0 <= x], [0 <= y], [x+w <= atlasW], [y+h <= atlasH],
    with swapped sizes when rotated) and no pixel is covered by two distinct
    placements.  A successful [Pack] has passed [validateConfig]. *)
Theorem Pack_placements_in_bounds_and_disjoint images cfg r :
  representable cfg ->
  Forall (paddingFits cfg) images ->
  Pack sort_Slice images cfg = Some (inl r) ->
  Forall (inAtlas (RWidth r) (RHeight r)) (Placements r)
  /\ pairwiseDisjoint (Placements r).
Proof.
  intros (_ & Hmax & _) Himgs. unfold Pack.
  destruct (validateConfig cfg) eqn:Hv; cbn [negb]; [|discriminate].
  unfold validateConfig in Hv. b2p.
  destruct images as [|im0 images0].
  { intros [= <-]. cbn. split; [constructor|]. intros i j p q _ Hp. destruct i; discriminate. }
  set (images := im0 :: images0) in *.
  unfold sortImagesForPacking.
  assert (Hsorted : Forall (paddingFits cfg) (sort_Slice (lessForPacking cfg) images)).
  { rewrite Forall_forall in *. intros x Hx. apply Himgs.
    eapply Permutation_in; [apply Permutation_sym, sort_Slice_perm|exact Hx]. }
  destruct (findOptimalSize _ cfg) as [[w h]|]; [|discriminate].
  destruct (_ || _) eqn:Hfit; [discriminate|]. b2p.
  destruct (placeAll _ _ _ _ _) as [[ps|e]|] eqn:Hall; try discriminate.
  intros [= <-]. cbn [Placements RWidth RHeight].
  assert (Hgoal : exists bin', binInv bin' /\ Forall2 (placedIn w h) ps (used bin')).
  { destruct (sort_Slice (lessForPacking cfg) images) as [|im rest] eqn:Hs.
    - cbn in Hall. injection Hall as <-. 
      exists (newMaxRects 0 0 false). split; [|constructor].
      apply newMaxRects_inv; range.
    - assert (Hwh : 0 <= w /\ 0 <= h).
      { cbn [placeAll] in Hall. inversion Hsorted as [|? ? (Hw0 & Hh0 & Hw & Hh) _]; subst.
        rewrite !padded_exact in Hall by assumption.
        destruct (Insert _ _ _ _) as [[bin' [rect ok]]|] eqn:HI; [|discriminate].
        destruct ok; cbn [negb] in Hall; [|discriminate].
        apply Insert_proposal in HI. destruct HI as (fr & [<-|[]] & _ & _ & Hcase).
        cbn [W H] in Hcase. lia. }
      eapply placeAll_inv in Hall; try eassumption.
      + destruct Hall as (bin' & ? & _ & _ & HF). exists bin'. auto.
      + apply newMaxRects_inv; range.
      + constructor. }
  destruct Hgoal as (bin' & Hinv & HF). split.
  - rewrite Forall_forall. intros p Hp. apply In_nth_error in Hp. destruct Hp as [i Hi].
    destruct (Forall2_nth_error _ _ _ HF _ _ Hi) as (u & _ & Hin & _). exact Hin.
  - intros i j p q Hij Hp Hq px py [Hcp Hcq].
    destruct (Forall2_nth_error _ _ _ HF _ _ Hp) as (a & Ha & _ & Hpa).
    destruct (Forall2_nth_error _ _ _ HF _ _ Hq) as (b & Hb & _ & Hqb).
    destruct Hinv as [_ _ _ _ _ Hdisj].
    eapply (Hdisj i j a b); eauto.
Qed.

End PackSafety.

(** Powers of two a 64-bit [int] can hold. *)
Lemma pow2_in_range k : 0 <= k -> 2 ^ k <= int_max -> k <= 62.
Proof.
  intros Hk Hle. destruct (Z_le_gt_dec k 62) as [|Hgt]; [assumption|].
  assert (2 ^ 63 <= 2 ^ k) by (apply Z.pow_le_mono_r; lia).
  unfold int_max in Hle. lia.
Qed.

Lemma pow2_le_62 k : 0 <= k <= 62 -> 0 < 2 ^ k <= 2 ^ 62.
Proof.
  intros Hk. split; [apply Z.pow_pos_nonneg; lia|apply Z.pow_le_mono_r; lia].
Qed.

Lemma pow2_step k : 0 <= k -> 2 ^ (k + 1) = 2 * 2 ^ k.
Proof. intros Hk. rewrite Z.pow_add_r, Z.pow_1_r by lia. lia. Qed.

Lemma dbl_pow2 k : 0 <= k < 62 -> dbl (2 ^ k) = 2 ^ (k + 1).
Proof.
  intros Hk. unfold dbl. pose proof (pow2_le_62 (k + 1) ltac:(lia)) as Hb.
  rewrite pow2_step in * by lia. apply wrap_small. range.
Qed.

Lemma dbl_top : dbl (2 ^ 62) = - 2 ^ 63.
Proof. reflexivity. Qed.

Lemma dbl_bottom : dbl (- 2 ^ 63) = 0.
Proof. reflexivity. Qed.

Lemma dbl_zero : dbl 0 = 0.
Proof. reflexivity. Qed.

(** [n & (n-1) == 0] on a positive [n] holds for the powers of two only. *)
Lemma land_pred_zero_pow2 n : 0 < n -> Z.land n (n - 1) = 0 -> isPow2 n.
Proof.
  intros Hn Hland. exists (Z.log2 n). split; [apply Z.log2_nonneg|].
  pose proof (Z.log2_spec n Hn) as [Hlo Hhi].
  destruct (Z.eq_dec n (2 ^ Z.log2 n)) as [|Hne]; [assumption|exfalso].
  assert (Hlog : Z.log2 (n - 1) = Z.log2 n).
  { apply Z.log2_unique; [apply Z.log2_nonneg|]. lia. }
  assert (Hb1 : Z.testbit n (Z.log2 n) = true) by (apply Z.bit_log2; lia).
  assert (Hb2 : Z.testbit (n - 1) (Z.log2 n) = true).
  { rewrite <- Hlog. apply Z.bit_log2.
    pose proof (Z.pow_pos_nonneg 2 (Z.log2 n) ltac:(lia) (Z.log2_nonneg n)). lia. }
  assert (Hb : Z.testbit (Z.land n (n - 1)) (Z.log2 n) = true).
  { rewrite Z.land_spec, Hb1, Hb2. reflexivity. }
  rewrite Hland, Z.bits_0 in Hb. discriminate.
Qed.

Lemma doubled_dbl p : doubled p -> doubled (dbl p).
Proof.
  intros [(k & Hk & ->)|[ -> | -> ]].
  - destruct (Z.eq_dec k 62) as [->|].
    + right; left. reflexivity.
    + left. exists (k + 1). split; [lia|]. apply dbl_pow2. lia.
  - right; right. reflexivity.
  - right; right. reflexivity.
Qed.

Lemma doubled_pos p : doubled p -> 0 < p -> exists k, 0 <= k <= 62 /\ p = 2 ^ k.
Proof. intros [H|[ -> | -> ]] Hp; [exact H|lia|lia]. Qed.

Lemma nextPowerOfTwo_loop_pow2 fuel : forall p n q,
  doubled p -> 0 < n ->
  nextPowerOfTwo_loop fuel p n = Some q ->
  (exists k, 0 <= k <= 62 /\ q = 2 ^ k) /\ n <= q.
Proof.
  induction fuel as [|fuel IH]; intros p n q Hp Hn; cbn [nextPowerOfTwo_loop];
    destruct (p <? n) eqn:E; b2p; try discriminate.
  - intros [= <-]. split; [apply doubled_pos; [assumption|lia]|lia].
  - apply IH; [apply doubled_dbl|]; assumption.
  - intros [= <-]. split; [apply doubled_pos; [assumption|lia]|lia].
Qed.

Lemma nextPowerOfTwo_pow2 n q :
  in_range n -> 0 < n -> nextPowerOfTwo n = Some q ->
  (exists k, 0 <= k <= 62 /\ q = 2 ^ k) /\ n <= q.
Proof.
  intros Hr Hn. unfold nextPowerOfTwo.
  destruct (n <=? 0) eqn:E0; b2p; [lia|].
  rewrite sub_small by range.
  destruct (Z.land n (n - 1) =? 0) eqn:E1; b2p.
  - intros [= <-]. split; [|lia].
    destruct (land_pred_zero_pow2 n Hn E1) as (k & Hk & ->).
    exists k. split; [|reflexivity]. split; [assumption|]. apply pow2_in_range; [assumption|range].
  - apply nextPowerOfTwo_loop_pow2; [|assumption].
    left. exists 0. split; [lia|reflexivity].
Qed.

Lemma powerOfTwoCeil_loop_pow2 k : forall fuel j,
  0 <= j <= k -> k <= 62 -> (Z.to_nat (k - j) <= fuel)%nat ->
  powerOfTwoCeil_loop fuel j (2 ^ j) (2 ^ k) = Some k.
Proof.
  induction fuel as [|fuel IH]; intros j Hj Hk Hfuel; cbn [powerOfTwoCeil_loop].
  - assert (j = k) as -> by lia. rewrite Z.ltb_irrefl. reflexivity.
  - destruct (2 ^ j <? 2 ^ k) eqn:E; b2p.
    + assert (j < k).
      { destruct (Z_lt_ge_dec j k); [assumption|].
        assert (2 ^ k <= 2 ^ j) by (apply Z.pow_le_mono_r; lia). lia. }
      rewrite dbl_pow2 by lia. rewrite add_small by range. apply IH; lia.
    + assert (j = k) as ->; [|reflexivity].
      destruct (Z.eq_dec j k); [assumption|].
      assert (2 ^ j < 2 ^ k) by (apply Z.pow_lt_mono_r; lia). lia.
Qed.

Lemma powerOfTwoCeil_pow2 k : 0 <= k <= 62 -> powerOfTwoCeil (2 ^ k) = Some k.
Proof.
  intros Hk. unfold powerOfTwoCeil. pose proof (pow2_le_62 k Hk).
  destruct (2 ^ k <=? 0) eqn:E; b2p; [lia|].
  apply (powerOfTwoCeil_loop_pow2 k loopFuel 0); unfold loopFuel; lia.
Qed.

Lemma sizeLoop_zero_diverges {S} fuel maxSize (body : S -> Z -> option S) : forall st,
  0 <= maxSize -> sizeLoop fuel maxSize body st 0 = None.
Proof.
  induction fuel as [|fuel IH]; intros st Hm; cbn [sizeLoop];
    destruct (0 <=? maxSize) eqn:E; b2p; try lia; [reflexivity|].
  destruct (body st 0); [|reflexivity]. rewrite dbl_zero. apply IH. assumption.
Qed.

Lemma sizeLoop_bottom_diverges {S} fuel maxSize (body : S -> Z -> option S) st :
  0 <= maxSize -> sizeLoop fuel maxSize body st (- 2 ^ 63) = None.
Proof.
  intros Hm. destruct fuel as [|fuel]; cbn [sizeLoop];
    destruct (- 2 ^ 63 <=? maxSize) eqn:E; b2p; try lia; [reflexivity|].
  destruct (body st (- 2 ^ 63)); [|reflexivity]. rewrite dbl_bottom.
  apply sizeLoop_zero_diverges. assumption.
Qed.

(** A size loop started at a power of two that returns has only run its body
    on powers of two between the start and the bound. *)
Lemma sizeLoop_pow2_inv {S} (I : S -> Prop) maxSize (body : S -> Z -> option S) s0 :
  0 <= maxSize ->
  (forall st s st', I st -> (exists k, 0 <= k <= 62 /\ s = 2 ^ k) -> s0 <= s <= maxSize ->
     body st s = Some st' -> I st') ->
  forall fuel st s st',
  I st -> (exists k, 0 <= k <= 62 /\ s = 2 ^ k) -> s0 <= s ->
  sizeLoop fuel maxSize body st s = Some st' -> I st'.
Proof.
  intros Hm Hbody. induction fuel as [|fuel IH]; intros st s st' HI Hs Hle; cbn [sizeLoop];
    destruct (s <=? maxSize) eqn:E; b2p; try discriminate; try (intros [= <-]; exact HI).
  destruct (body st s) as [st1|] eqn:Hb; [|discriminate].
  destruct Hs as (k & Hk & ->).
  destruct (Z.eq_dec k 62) as [->|Hne].
  - rewrite dbl_top, sizeLoop_bottom_diverges by assumption. discriminate.
  - rewrite dbl_pow2 by lia. apply IH.
    + eapply Hbody; eauto.
    + exists (k + 1). split; [lia|reflexivity].
    + rewrite pow2_step by lia. pose proof (pow2_le_62 k ltac:(lia)). lia.
Qed.

Lemma smallPow2_isPow2 z : smallPow2 z -> isPow2 z.
Proof. intros (k & Hk & ->). exists k. split; [lia|reflexivity]. Qed.

Lemma isPow2_small z : isPow2 z -> z <= int_max -> smallPow2 z.
Proof.
  intros (k & Hk & ->) Hle. exists k. split; [|reflexivity].
  split; [assumption|]. apply pow2_in_range; assumption.
Qed.

Lemma padded_in_range cfg v : in_range (padded cfg v).
Proof. apply wrap_in_range. Qed.

Lemma maxPadded_in_range cfg images :
  in_range (fst (maxPadded cfg images)) /\ in_range (snd (maxPadded cfg images)).
Proof.
  unfold maxPadded.
  assert (G : forall l acc, in_range (fst acc) /\ in_range (snd acc) ->
    let r := fold_left (fun '(minW, minH) im =>
               let w := padded cfg (Width im) in
               let h := padded cfg (Height im) in
               (if minW <? w then w else minW, if minH <? h then h else minH)) l acc in
    in_range (fst r) /\ in_range (snd r)).
  { induction l as [|im l IH]; intros [a b] Hacc; cbn [fold_left]; [exact Hacc|].
    apply IH. cbn [fst snd] in *. pose proof (padded_in_range cfg (Width im)).
    pose proof (padded_in_range cfg (Height im)).
    destruct (a <? _), (b <? _); tauto. }
  apply G. cbn. split; range.
Qed.

Lemma startSize_pow2 cfg images size :
  smallPow2 (MinSize cfg) ->
  startSize cfg images = Some size ->
  smallPow2 size /\ MinSize cfg <= size.
Proof.
  intros Hmin. unfold startSize.
  pose proof (maxPadded_in_range cfg images) as [Hrw Hrh].
  destruct (maxPadded cfg images) as [minW minH]. cbn [fst snd] in *.
  assert (Hpos : 0 < MinSize cfg).
  { destruct Hmin as (k & Hk & ->). apply pow2_le_62. assumption. }
  set (s1 := if MinSize cfg <? minW then nextPowerOfTwo minW else Some (MinSize cfg)).
  assert (H1 : forall sz, s1 = Some sz -> smallPow2 sz /\ MinSize cfg <= sz).
  { subst s1. intros sz. destruct (MinSize cfg <? minW) eqn:E; b2p.
    - intros Hn. apply nextPowerOfTwo_pow2 in Hn; [|assumption|lia].
      destruct Hn. split; [assumption|lia].
    - intros [= <-]. split; [assumption|lia]. }
  clearbody s1. destruct s1 as [sz1|]; [|discriminate].
  destruct (H1 sz1 eq_refl) as [Hp1 Hle1].
  destruct (sz1 <? minH) eqn:E; b2p.
  - intros Hn. apply nextPowerOfTwo_pow2 in Hn; [|assumption|lia].
    destruct Hn. split; [assumption|lia].
  - intros [= <-]. split; assumption.
Qed.

Lemma absPowerDiff_pow2 a b :
  0 <= a <= 62 -> 0 <= b <= 62 -> absPowerDiff (2 ^ a) (2 ^ b) = Some (Z.abs (a - b)).
Proof.
  intros Ha Hb. unfold absPowerDiff. rewrite !powerOfTwoCeil_pow2 by assumption.
  rewrite sub_small by range. f_equal.
  destruct (a - b <? 0) eqn:E; b2p.
  - unfold neg. rewrite wrap_small by range. lia.
  - lia.
Qed.

Lemma tryCandidate_goodBest images cfg rule size st w h st' :
  goodBest cfg size st -> smallPow2 w -> smallPow2 h -> size <= w -> size <= h ->
  tryCandidate images cfg rule st w h = Some st' ->
  goodBest cfg size st'.
Proof.
  intros Hst Hw Hh Hsw Hsh. unfold tryCandidate.
  destruct st as [[bw bh] bs].
  destruct (_ || _); [intros [= <-]; exact Hst|].
  set (shape := if ForceSquare cfg then _ else _).
  assert (Hshape : shape = Some true ->
            (ForceSquare cfg = true -> w = h) /\ Z.abs (Z.log2 w - Z.log2 h) <= 1).
  { subst shape. destruct (ForceSquare cfg).
    - intros [= E]. b2p. subst h. split; [reflexivity|]. lia.
    - destruct Hw as (a & Ha & ->), Hh as (b & Hb & ->).
      rewrite absPowerDiff_pow2 by assumption. intros [= E]. b2p.
      split; [discriminate|]. rewrite !Z.log2_pow2 by lia. exact E. }
  clearbody shape. destruct shape as [[|]|]; try discriminate; [|intros [= <-]; exact Hst].
  destruct (canFitMaxRects images w h cfg rule) as [[|]|]; try discriminate;
    [|intros [= <-]; exact Hst].
  destruct (_ || _); intros [= <-]; [|exact Hst].
  destruct (Hshape eq_refl). cbn. auto 10.
Qed.

Lemma findOptimalSize_pow2 images cfg w h :
  smallPow2 (MinSize cfg) -> 0 <= MaxSize cfg ->
  findOptimalSize images cfg = Some (w, h) ->
  smallPow2 w /\ smallPow2 h /\ MinSize cfg <= w /\ MinSize cfg <= h
  /\ (ForceSquare cfg = true -> w = h)
  /\ Z.abs (Z.log2 w - Z.log2 h) <= 1.
Proof.
  intros Hmin Hmax. unfold findOptimalSize.
  destruct (startSize cfg images) as [size|] eqn:Hsz; [|discriminate].
  apply startSize_pow2 in Hsz; [|assumption]. destruct Hsz as [Hp Hle].
  set (rule := clampRule (CfgRule cfg)).
  set (st0 := (size, size, MaxFloat64)).
  assert (H0 : goodBest cfg size st0).
  { cbn. repeat split; try assumption; try lia. }
  assert (Hinner : forall fixedFirst st s st',
            goodBest cfg size st -> smallPow2 s -> size <= s ->
            sizeLoop loopFuel (MaxSize cfg)
              (fun st v => if fixedFirst : bool then tryCandidate images cfg rule st s v
                           else tryCandidate images cfg rule st v s) st size = Some st' ->
            goodBest cfg size st').
  { intros ff st s st' Hst Hs Hss.
    apply (sizeLoop_pow2_inv (goodBest cfg size) (MaxSize cfg) _ size Hmax); try assumption; try lia.
    intros st1 v st1' H1 Hv Hvs. destruct ff; apply tryCandidate_goodBest; auto; lia. }
  match goal with |- match ?f with _ => _ end = _ -> _ => destruct f as [[[bw bh] bs]|] eqn:Hf end;
    [|discriminate].
  intros [= <- <-].
  assert (HG : goodBest cfg size (bw, bh, bs)).
  { destruct (ForceSquare cfg) eqn:Hfs; [|destruct (PreferHeight cfg)].
    - revert Hf. apply (sizeLoop_pow2_inv (goodBest cfg size) (MaxSize cfg) _ size Hmax);
        try assumption; try lia.
      intros st1 v st1' H1 Hv Hvs. apply tryCandidate_goodBest; auto; lia.
    - revert Hf. apply (sizeLoop_pow2_inv (goodBest cfg size) (MaxSize cfg) _ size Hmax);
        try assumption; try lia.
      intros st1 v st1' H1 Hv Hvs. apply (Hinner true); auto; lia.
    - revert Hf. apply (sizeLoop_pow2_inv (goodBest cfg size) (MaxSize cfg) _ size Hmax);
        try assumption; try lia.
      intros st1 v st1' H1 Hv Hvs. apply (Hinner false); auto; lia. }
  cbn in HG. destruct HG as (? & ? & ? & ? & ? & ?). repeat split; try assumption; lia.
Qed.

Section PackSizes.
Variable sort_Slice : (ImageInfo -> ImageInfo -> bool) -> list ImageInfo -> list ImageInfo.

(** C3 (amended): for every input list and configuration whose [MinSize] is a
    power of two, if [Pack] succeeds then the atlas width and height are
    powers of two in [[MinSize, MaxSize]], their binary logarithms differ by
    at most 1, and they are equal under [ForceSquare]. *)
Theorem Pack_power_of_two_sizes images cfg r :
  representable cfg -> isPow2 (MinSize cfg) ->
  Pack sort_Slice images cfg = Some (inl r) ->
  isPow2 (RWidth r) /\ isPow2 (RHeight r)
  /\ MinSize cfg <= RWidth r <= MaxSize cfg
  /\ MinSize cfg <= RHeight r <= MaxSize cfg
  /\ (ForceSquare cfg = true -> RWidth r = RHeight r)
  /\ Z.abs (Z.log2 (RWidth r) - Z.log2 (RHeight r)) <= 1.
Proof.
  intros (Hrmin & Hrmax & _) Hpow. unfold Pack.
  destruct (validateConfig cfg) eqn:Hv; cbn [negb]; [|discriminate].
  unfold validateConfig in Hv. b2p.
  destruct images as [|im0 images0].
  { intros [= <-]. cbn [RWidth RHeight]. rewrite Z.sub_diag. cbn [Z.abs].
    repeat split; try assumption; lia. }
  destruct (findOptimalSize _ cfg) as [[w h]|] eqn:Hopt; [|discriminate].
  destruct (_ || _) eqn:Hfit; [discriminate|]. b2p.
  destruct (placeAll _ _ _ _ _) as [[ps|e]|]; try discriminate.
  intros [= <-]. cbn [RWidth RHeight].
  apply findOptimalSize_pow2 in Hopt; [|apply isPow2_small; [assumption|range]|lia].
  destruct Hopt as (Hw & Hh & ? & ? & ? & ?).
  repeat split; try assumption; try lia; apply smallPow2_isPow2; assumption.
Qed.

End PackSizes.

Lemma lessForPacking_keyGt cfg a b :
  lessForPacking cfg a b = true <-> keyGt (sortKey cfg a) (sortKey cfg b).
Proof.
  unfold lessForPacking, sortKey, keyGt.
  set (wi := padded cfg (Width a)). set (hi := padded cfg (Height a)).
  set (wj := padded cfg (Width b)). set (hj := padded cfg (Height b)).
  set (ai := wi *! hi). set (aj := wj *! hj).
  replace (if wi <? hi then hi else wi) with (Z.max wi hi)
    by (destruct (wi <? hi) eqn:E; b2p; lia).
  replace (if wj <? hj then hj else wj) with (Z.max wj hj)
    by (destruct (wj <? hj) eqn:E; b2p; lia).
  set (mi := Z.max wi hi). set (mj := Z.max wj hj). clearbody mi mj ai aj wi hi wj hj.
  destruct (mi =? mj) eqn:E1; cbn [negb]; b2p; [|rewrite Z.ltb_lt; lia].
  destruct (ai =? aj) eqn:E2; cbn [negb]; b2p; [|rewrite Z.ltb_lt; lia].
  destruct (hi =? hj) eqn:E3; cbn [negb]; b2p; rewrite Z.ltb_lt; lia.
Qed.

Lemma lessForPacking_false_keyGe cfg a b :
  lessForPacking cfg b a = false <-> keyGe (sortKey cfg a) (sortKey cfg b).
Proof.
  rewrite <- not_true_iff_false, lessForPacking_keyGt.
  destruct (sortKey cfg a) as [[[m1 a1] h1] w1], (sortKey cfg b) as [[[m2 a2] h2] w2].
  unfold keyGt, keyGe. lia.
Qed.

Lemma lessForPacking_swo cfg : strictWeakOrder (lessForPacking cfg).
Proof.
  constructor.
  - intros a. apply not_true_iff_false. rewrite lessForPacking_keyGt.
    destruct (sortKey cfg a) as [[[m1 a1] h1] w1]. unfold keyGt. lia.
  - intros a b c. rewrite !lessForPacking_keyGt.
    destruct (sortKey cfg a) as [[[m1 a1] h1] w1], (sortKey cfg b) as [[[m2 a2] h2] w2],
      (sortKey cfg c) as [[[m3 a3] h3] w3]. unfold keyGt. lia.
  - intros a b c. rewrite <- !not_true_iff_false, !lessForPacking_keyGt.
    destruct (sortKey cfg a) as [[[m1 a1] h1] w1], (sortKey cfg b) as [[[m2 a2] h2] w2],
      (sortKey cfg c) as [[[m3 a3] h3] w3]. unfold keyGt. lia.
Qed.

Section InsertionSort.
Context {A : Type} (less : A -> A -> bool).

Lemma insertLeft_perm acc x : Permutation (x :: acc) (insertLeft less acc x).
Proof.
  induction acc as [|y tl IH]; cbn; [reflexivity|].
  destruct (less x y); [|reflexivity].
  rewrite perm_swap. apply perm_skip, IH.
Qed.

Lemma insertionSort_perm l : Permutation l (insertionSort less l).
Proof.
  unfold insertionSort. rewrite <- Permutation_rev.
  assert (G : forall l acc, Permutation (l ++ acc) (fold_left (insertLeft less) l acc)).
  { induction l0 as [|x l0 IH]; intros acc; cbn; [reflexivity|].
    rewrite <- IH. rewrite <- insertLeft_perm. apply Permutation_middle. }
  rewrite <- G, app_nil_r. reflexivity.
Qed.

Hypothesis Hswo : strictWeakOrder less.

Lemma insertLeft_sorted acc x :
  StronglySorted (fun a b => less a b = false) acc ->
  StronglySorted (fun a b => less a b = false) (insertLeft less acc x).
Proof.
  induction acc as [|y tl IH]; cbn; intros Hs.
  - repeat constructor.
  - inversion Hs as [|? ? Htl Hy]; subst.
    destruct (less x y) eqn:E.
    + constructor; [apply IH, Htl|].
      rewrite Forall_forall in *. intros z Hz.
      apply (Permutation_in _ (Permutation_sym (insertLeft_perm tl x))) in Hz.
      destruct Hz as [<-|Hz]; [|auto].
      destruct (less y x) eqn:E'; [|reflexivity].
      rewrite <- (swo_irrefl _ Hswo x). symmetry. eapply swo_trans; eauto.
    + constructor; [exact Hs|]. constructor; [exact E|].
      rewrite Forall_forall in *. intros z Hz. eapply swo_incomp; eauto.
Qed.

Lemma StronglySorted_snoc (R : A -> A -> Prop) l a :
  StronglySorted R l -> Forall (fun x => R x a) l -> StronglySorted R (l ++ [a]).
Proof.
  induction 1 as [|x l Hs IH Hx]; cbn; intros Hf.
  - repeat constructor.
  - inversion Hf; subst. constructor; [auto|].
    apply Forall_app; split; [assumption|]. repeat constructor. assumption.
Qed.

Lemma StronglySorted_rev (R : A -> A -> Prop) l :
  StronglySorted R l -> StronglySorted (fun a b => R b a) (rev l).
Proof.
  induction 1 as [|x l Hs IH Hx]; cbn; [constructor|].
  apply StronglySorted_snoc; [exact IH|].
  rewrite Forall_forall in *. intros z Hz. apply Hx. now apply in_rev.
Qed.

Lemma insertionSort_sorted l : sortedBy less (insertionSort less l).
Proof.
  unfold sortedBy, insertionSort.
  apply (StronglySorted_rev (fun a b => less a b = false)).
  assert (G : forall l acc, StronglySorted (fun a b => less a b = false) acc ->
            StronglySorted (fun a b => less a b = false) (fold_left (insertLeft less) l acc)).
  { induction l0 as [|x l0 IH]; intros acc Hacc; cbn; [exact Hacc|].
    apply IH, insertLeft_sorted, Hacc. }
  apply G. constructor.
Qed.

End InsertionSort.

Lemma insertionSort_contract : sortSliceContract insertionSort.
Proof.
  intros less l. split; [apply insertionSort_perm|]. intros H. apply insertionSort_sorted, H.
Qed.

(** ** What [sort.Slice] does on short slices *)

Section ShortSlices.
Context {A : Type} (less : A -> A -> bool) (dflt : A).

Lemma set_app (pre : list A) y rest v :
  GoSort.set (pre ++ y :: rest) (length pre) v = pre ++ v :: rest.
Proof. induction pre as [|p pre IH]; cbn; [reflexivity|]. rewrite IH. reflexivity. Qed.

Lemma nth_app_here (pre : list A) y rest : nth (length pre) (pre ++ y :: rest) dflt = y.
Proof. induction pre as [|p pre IH]; cbn; [reflexivity|exact IH]. Qed.

Lemma Swap_adjacent (pre : list A) y x rest :
  GoSort.Swap dflt (pre ++ y :: x :: rest) (S (length pre)) (length pre)
  = pre ++ x :: y :: rest.
Proof.
  induction pre as [|p pre IH]; [reflexivity|].
  unfold GoSort.Swap in *. cbn [app length nth GoSort.set]. f_equal. exact IH.
Qed.

(** The inner loop moves the element at [j] left past the elements it is
    less than: what [insertLeft] does on the reversed prefix. *)
Lemma insertionSort_inner_insertLeft : forall (sorted_rev : list A) x rest,
  GoSort.insertionSort_inner less dflt 0 (length sorted_rev) (rev sorted_rev ++ x :: rest)
  = rev (insertLeft less sorted_rev x) ++ rest.
Proof.
  induction sorted_rev as [|y tl IH]; intros x rest; [reflexivity|].
  cbn [length GoSort.insertionSort_inner Nat.ltb Nat.leb andb rev insertLeft].
  unfold GoSort.Less.
  assert (Hx : nth (S (length tl)) ((rev tl ++ [y]) ++ x :: rest) dflt = x).
  { replace (S (length tl)) with (length (rev tl ++ [y]))
      by (rewrite length_app, length_rev; cbn; lia).
    apply nth_app_here. }
  assert (Hy : nth (length tl) ((rev tl ++ [y]) ++ x :: rest) dflt = y).
  { rewrite <- app_assoc. rewrite <- (length_rev tl). apply nth_app_here. }
  rewrite Hx, Hy.
  destruct (less x y).
  - rewrite <- app_assoc. cbn [app].
    pose proof (Swap_adjacent (rev tl) y x rest) as Hswap.
    rewrite length_rev in Hswap. rewrite Hswap, IH. cbn [rev]. rewrite <- app_assoc. reflexivity.
  - cbn [rev]. rewrite <- !app_assoc. reflexivity.
Qed.

Lemma length_insertLeft (sorted_rev : list A) x :
  length (insertLeft less sorted_rev x) = S (length sorted_rev).
Proof.
  induction sorted_rev as [|y tl IH]; cbn; [reflexivity|].
  destruct (less x y); cbn; [rewrite IH|]; reflexivity.
Qed.

Lemma insertionSort_func_fold : forall rest (sorted_rev : list A),
  fold_left (fun data i => GoSort.insertionSort_inner less dflt 0 i data)
    (seq (length sorted_rev) (length rest)) (rev sorted_rev ++ rest)
  = rev (fold_left (insertLeft less) rest sorted_rev).
Proof.
  induction rest as [|x rest IH]; intros sorted_rev.
  - cbn. apply app_nil_r.
  - cbn [length seq fold_left]. rewrite insertionSort_inner_insertLeft.
    rewrite <- (length_insertLeft sorted_rev x). apply IH.
Qed.

(** On a whole slice [insertionSort_func] is the insertion sort on lists. *)
Lemma insertionSort_func_whole (l : list A) :
  GoSort.insertionSort_func less dflt l 0 (length l) = insertionSort less l.
Proof.
  unfold GoSort.insertionSort_func, insertionSort.
  destruct l as [|x rest]; [reflexivity|].
  cbn [length]. rewrite Nat.sub_succ, Nat.sub_0_r.
  exact (insertionSort_func_fold rest [x]).
Qed.

(** A class of elements that [less] never relates to each other keeps its
    order. *)
Lemma insertLeft_keeps (P : A -> bool) :
  (forall x y, P x = true -> less x y = true -> P y = false) ->
  forall sorted_rev x,
  filter P (rev (insertLeft less sorted_rev x)) = filter P (rev sorted_rev ++ [x]).
Proof.
  intros Hclass. induction sorted_rev as [|y tl IH]; intros x; [reflexivity|].
  cbn [insertLeft]. destruct (less x y) eqn:Exy; [|reflexivity].
  cbn [rev]. rewrite !filter_app, IH, filter_app. cbn [filter].
  destruct (P x) eqn:Px.
  - rewrite (Hclass x y Px Exy). rewrite <- !app_assoc. reflexivity.
  - rewrite !app_nil_r. reflexivity.
Qed.

Lemma insertionSort_keeps (P : A -> bool) :
  (forall x y, P x = true -> less x y = true -> P y = false) ->
  forall l, filter P (insertionSort less l) = filter P l.
Proof.
  intros Hclass l. unfold insertionSort.
  assert (G : forall l acc,
            filter P (rev (fold_left (insertLeft less) l acc)) = filter P (rev acc ++ l)).
  { induction l0 as [|x l0 IH]; intros acc; cbn [fold_left].
    - rewrite app_nil_r. reflexivity.
    - rewrite IH, !filter_app, (insertLeft_keeps P Hclass), filter_app, <- app_assoc.
      change (x :: l0) with ([x] ++ l0). rewrite filter_app. reflexivity. }
  exact (G l []).
Qed.

End ShortSlices.

(** Up to [maxInsertion] elements [sort.Slice] is the insertion sort. *)
Lemma Slice_short {A : Type} (less : A -> A -> bool) (l : list A) :
  (length l <= 12)%nat -> GoSort.Slice less l = Some (insertionSort less l).
Proof.
  intros Hlen. unfold GoSort.Slice. destruct l as [|x rest]; [reflexivity|].
  cbn [GoSort.pdqsort_func]. rewrite Nat.sub_0_r.
  destruct (Nat.leb_spec (length (x :: rest)) 12) as [_|Habs]; [|lia].
  f_equal. apply insertionSort_func_whole.
Qed.

Import SortSpec.

Lemma sameKey_eq cfg a b : sameKey cfg a b = true <-> sortKey cfg a = sortKey cfg b.
Proof.
  unfold sameKey.
  destruct (sortKey cfg a) as [[[m1 a1] h1] w1], (sortKey cfg b) as [[[m2 a2] h2] w2].
  rewrite !andb_true_iff, !Z.eqb_eq. split.
  - intros [[[-> ->] ->] ->]. reflexivity.
  - intros [= -> -> -> ->]. auto.
Qed.

Lemma lessForPacking_splits_ties cfg im x y :
  sameKey cfg im x = true -> lessForPacking cfg x y = true -> sameKey cfg im y = false.
Proof.
  intros Hx Hless. apply not_true_iff_false. intros Hy.
  apply sameKey_eq in Hx, Hy. apply lessForPacking_keyGt in Hless.
  rewrite <- Hx, Hy in Hless.
  destruct (sortKey cfg y) as [[[m a] h] w]. unfold keyGt in Hless. lia.
Qed.

Lemma sorted_keyGe cfg l :
  sortedBy (lessForPacking cfg) l ->
  StronglySorted (fun a b => keyGe (sortKey cfg a) (sortKey cfg b)) l.
Proof.
  unfold sortedBy. induction 1 as [|a l Hs IH Ha]; constructor; [exact IH|].
  eapply Forall_impl; [|exact Ha]. intros b Hb. apply lessForPacking_false_keyGe, Hb.
Qed.

(** C7 (amended): whatever [sort.Slice] does within its contract, the sorted
    input is a permutation of the input ordered by padded longest side
    descending, then padded area descending, then padded height descending,
    then padded width descending (the keys as the comparator computes them).
    On at most 12 entries [sort.Slice] runs its insertion sort: it returns
    such an ordered permutation, and the sort is stable, entries that agree
    on all four keys keep their relative input order.  (On more entries
    they need not.) *)
Theorem sortImagesForPacking_ordered_and_stable_up_to_12 sort images cfg :
  sortSliceContract sort ->
  (Permutation images (sortImagesForPacking sort images cfg)
   /\ StronglySorted (fun a b => keyGe (sortKey cfg a) (sortKey cfg b))
        (sortImagesForPacking sort images cfg))
  /\ ((length images <= 12)%nat ->
      exists sorted,
        GoSort.Slice (lessForPacking cfg) images = Some sorted
        /\ Permutation images sorted
        /\ StronglySorted (fun a b => keyGe (sortKey cfg a) (sortKey cfg b)) sorted
        /\ keepsTies cfg images sorted).
Proof.
  intros Hc. split.
  - unfold sortImagesForPacking.
    destruct (Hc (lessForPacking cfg) images) as [Hperm Hsorted].
    split; [exact Hperm|]. apply sorted_keyGe, Hsorted, lessForPacking_swo.
  - intros Hlen. exists (insertionSort (lessForPacking cfg) images).
    split; [apply Slice_short, Hlen|].
    split; [apply insertionSort_perm|].
    split; [apply sorted_keyGe, insertionSort_sorted, lessForPacking_swo|].
    intros im. apply insertionSort_keeps. apply lessForPacking_splits_ties.
Qed.

(** ** The claims on concrete inputs *)

Lemma Pack_placements_witness :
  Forall (inAtlas (RWidth scenario_result) (RHeight scenario_result))
    (Placements scenario_result)
  /\ pairwiseDisjoint (Placements scenario_result).
Proof.
  apply (Pack_placements_in_bounds_and_disjoint insertionSort
           (@insertionSort_perm ImageInfo) scenario_images scenario_cfg scenario_result).
  - unfold representable, scenario_cfg; cbn [MinSize MaxSize Gap]. repeat split; range.
  - unfold scenario_images, paddingFits, scenario_cfg, int_max;
      repeat constructor; cbn [Width Height Gap]; lia.
  - vm_compute. reflexivity.
Defined.

(** C1 as stated fails: with [Gap = 2^62] the padding [2*Gap] wraps around to
    [-2^63], every padded image fits anywhere, and the placement is written
    at [x = y = 2^62] in an atlas of size 1. *)
Lemma Pack_gap_overflow_counterexample :
  validateConfig overflow_cfg = true
  /\ exists r, Pack insertionSort overflow_images overflow_cfg = Some (inl r)
       /\ ~ Forall (inAtlas (RWidth r) (RHeight r)) (Placements r).
Proof.
  split; [reflexivity|].
  eexists. split; [vm_compute; reflexivity|].
  intros HF. inversion HF as [|p ps (_ & _ & Hx & _) _]; subst.
  vm_compute in Hx. apply Hx. reflexivity.
Qed.

Lemma Pack_power_of_two_witness :
  isPow2 (RWidth scenario_result) /\ isPow2 (RHeight scenario_result)
  /\ MinSize scenario_cfg <= RWidth scenario_result <= MaxSize scenario_cfg
  /\ MinSize scenario_cfg <= RHeight scenario_result <= MaxSize scenario_cfg
  /\ (ForceSquare scenario_cfg = true -> RWidth scenario_result = RHeight scenario_result)
  /\ Z.abs (Z.log2 (RWidth scenario_result) - Z.log2 (RHeight scenario_result)) <= 1.
Proof.
  apply (Pack_power_of_two_sizes insertionSort scenario_images scenario_cfg scenario_result).
  - unfold representable, scenario_cfg; cbn [MinSize MaxSize Gap]. repeat split; range.
  - exists 5. split; [lia|reflexivity].
  - vm_compute. reflexivity.
Defined.

(** C3 as stated fails: [validateConfig] accepts [MinSize = 3], and [Pack] of
    the empty list answers with a 3 x 3 atlas. *)
Lemma Pack_min_size_not_power_of_two :
  validateConfig odd_cfg = true
  /\ Pack insertionSort [] odd_cfg = Some (inl (mkResult [] 3 3))
  /\ ~ isPow2 3.
Proof.
  split; [reflexivity|]. split; [reflexivity|].
  intros (k & Hk & Hpow).
  destruct (Z_le_gt_dec k 1) as [Hle|Hgt].
  - assert (k = 0 \/ k = 1) as [->| ->] by lia; discriminate.
  - assert (2 ^ 2 <= 2 ^ k) by (apply Z.pow_le_mono_r; lia). lia.
Qed.

Lemma sortImagesForPacking_witness :
  (Permutation scenario_images
     (sortImagesForPacking insertionSort scenario_images scenario_cfg)
   /\ StronglySorted (fun a b => keyGe (sortKey scenario_cfg a) (sortKey scenario_cfg b))
        (sortImagesForPacking insertionSort scenario_images scenario_cfg))
  /\ ((length scenario_images <= 12)%nat ->
      exists sorted,
        GoSort.Slice (lessForPacking scenario_cfg) scenario_images = Some sorted
        /\ Permutation scenario_images sorted
        /\ StronglySorted
             (fun a b => keyGe (sortKey scenario_cfg a) (sortKey scenario_cfg b)) sorted
        /\ keepsTies scenario_cfg scenario_images sorted).
Proof.
  apply (sortImagesForPacking_ordered_and_stable_up_to_12
           insertionSort scenario_images scenario_cfg).
  exact insertionSort_contract.
Defined.

(** C7 as stated fails: on thirteen entries, twelve of 10 x 10 named a to l
    followed by m of 20 x 20, [sort.Slice] leaves its insertion sort for the
    quicksort.  The pivot is the entry g at index 6; [partition_func] swaps
    it to the front and then swaps b, at index 1, with m, at index 12; the
    pivot goes to index 1 in exchange for m.  The result is m, g, c, d, e, f,
    a, h, i, j, k, l, b: the entries a, b and g agree on all four keys and
    have changed their order. *)
Lemma Slice_not_stable_on_13_entries :
  exists sorted,
    GoSort.Slice (lessForPacking scenario_cfg) thirteen = Some sorted
    /\ map Name sorted = thirteen_sorted
    /\ Forall (fun im => sameKey scenario_cfg (mkImageInfo "a" 10 10) im = true)
         (firstn 12 thirteen)
    /\ ~ keepsTies scenario_cfg thirteen sorted.
Proof.
  eexists. split; [vm_compute; reflexivity|].
  split; [reflexivity|].
  split; [repeat constructor|].
  intros Hties. specialize (Hties (mkImageInfo "a" 10 10)).
  vm_compute in Hties. discriminate Hties.
Qed.

(** C8: [findOptimalSize] on two 30 x 20 inputs with [MinSize] 16, [MaxSize]
    64, [AspectPenalty] 0.25, rule [BestShortSideFit], gap 0 and no rotation
    returns (64, 32), and (32, 64) once [PreferHeight] is set. *)
Theorem findOptimalSize_tie_break :
  findOptimalSize tie_images (tie_cfg false) = Some (64, 32)
  /\ findOptimalSize tie_images (tie_cfg true) = Some (32, 64).
Proof. split; vm_compute; reflexivity. Qed.

(** C9: for every bin state, requested size and rule, if [Insert] reports
    failure then the bin is what it was before the call: the same free list
    and the same used list (and the rectangle returned is the zero value). *)
Theorem Insert_failure_leaves_bin_unchanged m w h rule m' rect :
  Insert m w h rule = Some (m', (rect, false)) ->
  m' = m /\ free m' = free m /\ used m' = used m /\ rect = zeroRect.
Proof.
  unfold Insert.
  destruct (insertScan m w h rule) as [[[best pri] sec] found].
  destruct found; cbn [negb].
  - destruct (place m best); discriminate.
  - intros [= <- <-]. auto.
Qed.

Lemma Insert_failure_witness :
  newMaxRects 4 4 false = newMaxRects 4 4 false
  /\ free (newMaxRects 4 4 false) = free (newMaxRects 4 4 false)
  /\ used (newMaxRects 4 4 false) = used (newMaxRects 4 4 false)
  /\ zeroRect = zeroRect.
Proof.
  apply (Insert_failure_leaves_bin_unchanged (newMaxRects 4 4 false) 5 5 BestShortSideFit).
  vm_compute. reflexivity.
Defined.

End PackerProofs.

(* ===================================================================== *)
(** * BC1: proofs *)
(* ===================================================================== *)

Module BcnProofs.
Import Bcn BcnSpec.

(** ** RGB565 *)

(** Bits of a 16-bit word above the word are clear. *)
Lemma testbit_above v n : 0 <= v < 65536 -> 16 <= n -> Z.testbit v n = false.
Proof.
  intros Hv Hn. rewrite <- (Z.mod_small v (2 ^ 16)) by lia.
  rewrite Z.testbit_mod_pow2 by lia.
  destruct (Z.ltb_spec n 16); [lia|reflexivity].
Qed.

(** Rewrites the bit of an expression built from masks, shifts and
    truncations into bits of its variables. *)
Ltac bit_step :=
  first [ rewrite Z.lor_spec
        | rewrite Z.land_spec
        | rewrite Z.testbit_mod_pow2 by lia
        | rewrite Z.testbit_neg_r by lia
        | rewrite Z.shiftl_spec by lia
        | rewrite Z.shiftr_spec by lia ].

(** Evaluates the closed indices, comparisons and mask bits left in the goal. *)
Ltac bit_consts v :=
  repeat match goal with
  | |- context [Z.testbit v ?e] =>
      lazymatch e with
      | Zpos _ => fail
      | Z0 => fail
      | _ => let e' := eval cbv in e in change (Z.testbit v e) with (Z.testbit v e')
      end
  end.

Ltac bit_case v :=
  unfold to565, from565, u8, u16; cbn [R G B A];
  repeat bit_step; bit_consts v;
  repeat match goal with
  | |- context [Z.testbit v ?k] => destruct (Z.testbit v k)
  end; reflexivity.

Lemma from565_to565_bit v (k : nat) :
  (k < 16)%nat ->
  Z.testbit (to565 (from565 v)) (Z.of_nat k) = Z.testbit v (Z.of_nat k).
Proof.
  intros Hk.
  do 16 (destruct k as [|k];
         [cbn [Z.of_nat Pos.of_succ_nat Pos.succ]; bit_case v
         |apply Nat.succ_lt_mono in Hk]).
  inversion Hk.
Qed.

Lemma from565_to565 v : 0 <= v < 65536 -> to565 (from565 v) = v.
Proof.
  intros Hv. apply Z.bits_inj'. intros n Hn.
  destruct (Z.lt_ge_cases n 16) as [Hlow|Hhigh].
  - rewrite <- (Z2Nat.id n Hn). apply from565_to565_bit. lia.
  - rewrite (testbit_above v n Hv Hhigh).
    unfold to565, u16. rewrite !Z.lor_spec, !Z.testbit_mod_pow2 by lia.
    destruct (Z.ltb_spec n 16); [lia|reflexivity].
Qed.

Lemma word_of_bytes v :
  0 <= v < 65536 -> Z.lor (u8 v) (u16 (Z.shiftl (u8 (Z.shiftr v 8)) 8)) = v.
Proof.
  intros Hv. apply Z.bits_inj'. intros n Hn. unfold u8, u16.
  rewrite Z.lor_spec, !Z.testbit_mod_pow2, Z.shiftl_spec, Z.testbit_mod_pow2 by lia.
  destruct (Z.ltb_spec n 8) as [H8|H8].
  - rewrite (Z.testbit_neg_r _ (n - 8)) by lia.
    rewrite !andb_false_r, orb_false_r. reflexivity.
  - rewrite Z.shiftr_spec by lia. replace (n - 8 + 8) with n by lia.
    destruct (Z.ltb_spec n 16) as [H16|H16].
    + destruct (Z.ltb_spec (n - 8) 8); [reflexivity|lia].
    + rewrite (testbit_above v n Hv H16). reflexivity.
Qed.

Lemma lor_below a b n :
  0 <= n -> 0 <= a < 2 ^ n -> 0 <= b < 2 ^ n -> 0 <= Z.lor a b < 2 ^ n.
Proof.
  intros Hn Ha Hb.
  assert (Hnn : 0 <= Z.lor a b) by (apply Z.lor_nonneg; lia).
  split; [exact Hnn|].
  destruct (Z.eq_dec (Z.lor a b) 0) as [->|Hne]; [apply Z.pow_pos_nonneg; lia|].
  assert (Hpos : 0 < n).
  { destruct (Z.eq_dec n 0) as [->|]; [|lia].
    assert (a = 0) as -> by lia. assert (b = 0) as -> by lia. now elim Hne. }
  apply Z.log2_lt_pow2; [lia|].
  rewrite Z.log2_lor by lia.
  apply Z.max_lub_lt.
  - destruct (Z.eq_dec a 0) as [->|]; [cbn; lia|apply Z.log2_lt_pow2; lia].
  - destruct (Z.eq_dec b 0) as [->|]; [cbn; lia|apply Z.log2_lt_pow2; lia].
Qed.

Lemma u16_range z : 0 <= u16 z < 2 ^ 16.
Proof. unfold u16. apply Z.mod_pos_bound. lia. Qed.

Lemma to565_range c : 0 <= to565 c < 65536.
Proof.
  unfold to565. change 65536 with (2 ^ 16).
  apply lor_below; [lia| |apply u16_range].
  apply lor_below; [lia| |]; apply u16_range.
Qed.

(** The words the decoder reads back are the words the encoder packed. *)
Lemma encoded_words block :
  let '(minColor, maxColor) := minMaxLuminance block in
  let data := encodeBlockBC1 block in
  if to565 maxColor <=? to565 minColor
  then color0_565 data = to565 minColor /\ color1_565 data = to565 maxColor
  else color0_565 data = to565 maxColor /\ color1_565 data = to565 minColor.
Proof.
  unfold encodeBlockBC1. destruct (minMaxLuminance block) as [minColor maxColor].
  pose proof (to565_range minColor). pose proof (to565_range maxColor).
  destruct (to565 maxColor <=? to565 minColor); cbn -[Z.lor Z.shiftr Z.shiftl u8 u16];
    unfold color0_565, color1_565; cbn [nth]; rewrite !word_of_bytes by assumption; auto.
Qed.

(** C2 (code_bug), the code at the failing input: the brightest pixel of
    [swap_block] has the smaller RGB565 value (31 against 2048), so the block
    is encoded in alpha mode, yet the word stored as color_0 is the larger
    value 2048 and color_1 is the smaller value 31. *)
Theorem encodeBlockBC1_alpha_mode_stores_larger_first :
  let '(minColor, maxColor) := minMaxLuminance swap_block in
  (to565 maxColor <=? to565 minColor) = true
  /\ to565 maxColor = 31 /\ to565 minColor = 2048
  /\ color0_565 (encodeBlockBC1 swap_block) = 2048
  /\ color1_565 (encodeBlockBC1 swap_block) = 31.
Proof. vm_compute. repeat split; reflexivity. Qed.

(** ** Uniform blocks *)

Lemma luminance_range c : validColor c -> 0 <= luminance c <= 1020.
Proof. unfold validColor, luminance. lia. Qed.

Lemma lumStep_fixed c :
  lumStep (luminance c, luminance c, c, c) c = (luminance c, luminance c, c, c).
Proof. unfold lumStep. rewrite Z.ltb_irrefl. reflexivity. Qed.

Lemma fold_lumStep_fixed c n :
  fold_left lumStep (repeat c n) (luminance c, luminance c, c, c)
  = (luminance c, luminance c, c, c).
Proof.
  induction n as [|n IH]; cbn [repeat fold_left]; [reflexivity|].
  rewrite lumStep_fixed. exact IH.
Qed.

Lemma minMaxLuminance_uniform c n :
  validColor c -> minMaxLuminance (repeat c (S n)) = (c, c).
Proof.
  intros Hc. pose proof (luminance_range c Hc) as Hl.
  unfold minMaxLuminance. cbn [repeat nth fold_left].
  assert (Hfirst : lumStep (-1, 2147483647, c, c) c = (luminance c, luminance c, c, c)).
  { unfold lumStep.
    destruct (-1 <? luminance c) eqn:E1; [|apply Z.ltb_ge in E1; lia].
    destruct (luminance c <? 2147483647) eqn:E2; [|apply Z.ltb_ge in E2; lia].
    reflexivity. }
  rewrite Hfirst, fold_lumStep_fixed. reflexivity.
Qed.

Lemma sqrDistance_nonneg c d : 0 <= sqrDistance c d.
Proof.
  unfold sqrDistance. cbv zeta.
  pose proof (Z.square_nonneg (R c - R d)). pose proof (Z.square_nonneg (G c - G d)).
  pose proof (Z.square_nonneg (B c - B d)). lia.
Qed.

Lemma sqrDistance_self c : sqrDistance c c = 0.
Proof. unfold sqrDistance. cbv zeta. rewrite !Z.sub_diag. reflexivity. Qed.

Lemma closestStep_keeps_zero p best j r :
  closestStep p (0, best, j) r = (0, best, j + 1).
Proof.
  unfold closestStep. pose proof (sqrDistance_nonneg p r).
  destruct (sqrDistance p r <? 0) eqn:E; [apply Z.ltb_lt in E; lia|reflexivity].
Qed.

Lemma colorIndex_uniform c r1 r2 r3 :
  128 <= A c -> colorIndex [c; r1; r2; r3] true c = 0.
Proof.
  intros Ha. unfold colorIndex.
  destruct (A c <? 128) eqn:E; [apply Z.ltb_lt in E; lia|]. cbn [andb fold_left].
  unfold closestStep at 4. rewrite sqrDistance_self. cbn [Z.ltb Z.compare].
  rewrite !closestStep_keeps_zero. reflexivity.
Qed.

Lemma packIndices_zeros n : forall i, packIndices i (repeat 0 n) 0 = 0.
Proof.
  induction n as [|n IH]; intros i; cbn [repeat packIndices]; [reflexivity|].
  replace (Z.lor 0 (u32 (Z.shiftl (u32 0) (i * 2)))) with 0; [apply IH|].
  unfold u32. rewrite Z.mod_0_l, Z.shiftl_0_l by lia. reflexivity.
Qed.

Lemma map_repeat {X Y : Type} (f : X -> Y) x n : map f (repeat x n) = repeat (f x) n.
Proof. induction n as [|n IH]; cbn; [reflexivity|now rewrite IH]. Qed.

Lemma encodeBlockBC1_uniform c :
  validColor c -> 128 <= A c ->
  encodeBlockBC1 (uniformBlock c)
  = [u8 (to565 c); u8 (Z.shiftr (to565 c) 8);
     u8 (to565 c); u8 (Z.shiftr (to565 c) 8); 0; 0; 0; 0].
Proof.
  intros Hc Ha. unfold encodeBlockBC1, uniformBlock.
  rewrite (minMaxLuminance_uniform c 15 Hc). rewrite Z.leb_refl.
  unfold encodeColorTableBC1BC3.
  rewrite map_repeat, colorIndex_uniform by assumption.
  rewrite packIndices_zeros. reflexivity.
Qed.

Lemma decodeBlockBC1_uniform v :
  0 <= v < 65536 ->
  decodeBlockBC1 [u8 v; u8 (Z.shiftr v 8); u8 v; u8 (Z.shiftr v 8); 0; 0; 0; 0]
  = Some (uniformBlock (from565 v)).
Proof.
  intros Hv. unfold decodeBlockBC1. cbn [length Nat.ltb Nat.leb].
  unfold color0_565, color1_565. cbn [nth].
  rewrite !word_of_bytes by assumption. rewrite Z.leb_refl.
  reflexivity.
Qed.

Lemma from565_valid v : validColor (from565 v) /\ A (from565 v) = 255.
Proof.
  unfold validColor, from565, u8; cbn [R G B A].
  pose proof (Z.mod_pos_bound (Z.land (Z.shiftr v 8) 248) (2 ^ 8) ltac:(lia)).
  pose proof (Z.mod_pos_bound (Z.land (Z.shiftr v 3) 252) (2 ^ 8) ltac:(lia)).
  pose proof (Z.mod_pos_bound (Z.land (u16 (Z.shiftl v 3)) 248) (2 ^ 8) ltac:(lia)).
  change (2 ^ 8) with 256 in *. lia.
Qed.

Lemma roundtripBC1_uniform c :
  validColor c -> 128 <= A c ->
  roundtripBC1 (uniformBlock c) = Some (uniformBlock (from565 (to565 c))).
Proof.
  intros Hc Ha. unfold roundtripBC1.
  rewrite encodeBlockBC1_uniform by assumption.
  apply decodeBlockBC1_uniform, to565_range.
Qed.

(** C4 (amended): for every 4x4 block whose sixteen pixels are one and the
    same colour with alpha 255, BC1 decode of the BC1 encoding of the block
    equals BC1 decode of the BC1 encoding of that decoded result. *)
Theorem roundtripBC1_idempotent_on_uniform_blocks c :
  validColor c -> A c = 255 ->
  exists d, roundtripBC1 (uniformBlock c) = Some d /\ roundtripBC1 d = Some d.
Proof.
  intros Hc Ha. exists (uniformBlock (from565 (to565 c))).
  split; [apply roundtripBC1_uniform; [assumption|lia]|].
  destruct (from565_valid (to565 c)) as [Hq Hqa].
  rewrite roundtripBC1_uniform by (assumption || lia).
  rewrite from565_to565 by apply to565_range. reflexivity.
Qed.

Lemma roundtripBC1_uniform_witness :
  exists d, roundtripBC1 (uniformBlock (mkColor 200 100 50 255)) = Some d
            /\ roundtripBC1 d = Some d.
Proof.
  apply (roundtripBC1_idempotent_on_uniform_blocks (mkColor 200 100 50 255)).
  - unfold validColor; cbn [R G B A]. lia.
  - reflexivity.
Defined.

(** C4 as stated fails: [drift_block] has sixteen pixels of alpha 255, all of
    luminance 8.  Its encoding is in alpha mode with both endpoints dark blue,
    the fifteen dark red pixels are nearest to the transparent black
    reference and decode with alpha 0; encoding that result again gives an
    opaque-mode block that decodes them with alpha 255. *)
Lemma roundtripBC1_not_idempotent :
  Forall (fun p => validColor p /\ A p = 255) drift_block
  /\ exists d1 d2, roundtripBC1 drift_block = Some d1
       /\ roundtripBC1 d1 = Some d2 /\ d1 <> d2.
Proof.
  split.
  - unfold drift_block, validColor. repeat constructor; cbn [R G B A]; lia.
  - eexists. eexists. split; [vm_compute; reflexivity|].
    split; [vm_compute; reflexivity|]. discriminate.
Qed.

End BcnProofs.

(* ===================================================================== *)
(** * The DDS header: proofs *)
(* ===================================================================== *)

Module DdsProofs.
Import Dds DdsSpec.

Lemma readDWORD_cons b0 b1 b2 b3 r :
  readDWORD (b0 :: b1 :: b2 :: b3 :: r) = inl (le32 [b0; b1; b2; b3], r).
Proof. reflexivity. Qed.

(** The loop over [Reserved1] consumes its [4 * n] bytes, whatever they are. *)
Lemma readReserved1_app n : forall i res post,
  length res = (4 * n)%nat ->
  exists vs, readReserved1 n i (res ++ post) = inl (vs, post).
Proof.
  induction n as [|n IH]; intros i res post Hlen.
  - destruct res; [|discriminate]. exists []. reflexivity.
  - destruct res as [|b0 [|b1 [|b2 [|b3 res]]]]; cbn [length] in Hlen; try lia.
    cbn [readReserved1 app]. rewrite readDWORD_cons.
    destruct (IH (S i) res post) as [vs Hvs]; [lia|].
    rewrite Hvs. eexists. reflexivity.
Qed.


Lemma ReadHeader_forgets_Reserved1 pre r1 r2 post :
  length pre = 32%nat -> length r1 = 44%nat -> length r2 = 44%nat ->
  forgetReserved1 (ReadHeader (pre ++ r1 ++ post))
  = forgetReserved1 (ReadHeader (pre ++ r2 ++ post)).
Proof.
  intros Hpre H1 H2.
  destruct (readReserved1_app 11 0 r1 post H1) as [vs1 Hvs1].
  destruct (readReserved1_app 11 0 r2 post H2) as [vs2 Hvs2].
  do 32 (destruct pre as [|? pre]; [discriminate|]).
  destruct pre; [|discriminate].
  unfold ReadHeader.
  cbn [app ReadFull length Nat.leb firstn skipn].
  destruct (negb (bytesEqb _ Magic)); [reflexivity|].
  unfold field. rewrite !readDWORD_cons.
  destruct (negb (_ =? HeaderSize)); [reflexivity|].
  rewrite Hvs1, Hvs2.
  repeat match goal with
         | |- context [match readDWORD ?x with _ => _ end] =>
             destruct (readDWORD x) as [[? ?]|?]; [|reflexivity]
         | |- context [if ?c then _ else _] => destruct c; [reflexivity|]
         end.
  reflexivity.
Qed.

Lemma accepts_forget r :
  accepts r <-> exists h rest, forgetReserved1 (ReadHeader r) = inl (h, rest).
Proof.
  unfold accepts. destruct (ReadHeader r) as [[h rest]|e]; cbn [forgetReserved1].
  - split; intros _; eauto.
  - split; intros (h & rest & Habs); discriminate.
Qed.

(** C10: [ReadHeader]'s acceptance of a DDS header does not depend on the
    contents of the [Reserved1] array: of two byte streams that differ in the
    eleven [Reserved1] words only (bytes 32 to 75), one is accepted iff the
    other is, with the same error or the same header apart from [Reserved1].
    The canonical writer stores the marker ENF1 in [Reserved1[1]]; no read
    ever looks at it. *)
Theorem ReadHeader_acceptance_ignores_Reserved1 pre r1 r2 post width height mipMapCount :
  length pre = 32%nat -> length r1 = 44%nat -> length r2 = 44%nat ->
  (accepts (pre ++ r1 ++ post) <-> accepts (pre ++ r2 ++ post))
  /\ forgetReserved1 (ReadHeader (pre ++ r1 ++ post))
     = forgetReserved1 (ReadHeader (pre ++ r2 ++ post))
  /\ nth 1 (Reserved1 (CreateHeaderRGBA8 width height mipMapCount)) 0 = ENF1.
Proof.
  intros Hpre H1 H2.
  pose proof (ReadHeader_forgets_Reserved1 pre r1 r2 post Hpre H1 H2) as Heq.
  split; [|split; [exact Heq|reflexivity]].
  rewrite !accepts_forget, Heq. reflexivity.
Qed.

Lemma ReadHeader_ignores_Reserved1_witness :
  (accepts (sample_pre ++ sample_reserved1 ++ sample_post)
   <-> accepts (sample_pre ++ blank_reserved1 ++ sample_post))
  /\ forgetReserved1 (ReadHeader (sample_pre ++ sample_reserved1 ++ sample_post))
     = forgetReserved1 (ReadHeader (sample_pre ++ blank_reserved1 ++ sample_post))
  /\ nth 1 (Reserved1 (CreateHeaderRGBA8 256 128 3)) 0 = ENF1.
Proof.
  apply (ReadHeader_acceptance_ignores_Reserved1
           sample_pre sample_reserved1 blank_reserved1 sample_post 256 128 3);
    reflexivity.
Defined.

(** The canonical stream is accepted, with the marker and without it. *)
Lemma canonical_header_accepted_without_marker :
  sample_pre ++ sample_reserved1 ++ sample_post = canonicalStream 256 128 3
  /\ firstn 4 (skipn 4 sample_reserved1) = [69; 78; 70; 49]
  /\ accepts (canonicalStream 256 128 3)
  /\ accepts (sample_pre ++ blank_reserved1 ++ sample_post).
Proof.
  split; [reflexivity|]. split; [reflexivity|].
  split; eexists; eexists; vm_compute; reflexivity.
Qed.

End DdsProofs.

(* ===================================================================== *)
(** * The LZ4 chunk stream: proofs *)
(* ===================================================================== *)

Module EddsProofs.
Import Edds EddsSpec.

Lemma len_app a b : len (a ++ b) = len a + len b.
Proof. unfold len. rewrite length_app. lia. Qed.

Lemma len_nonneg a : 0 <= len a.
Proof. unfold len. lia. Qed.

Lemma len_zero a : len a = 0 -> a = [].
Proof. unfold len. destruct a; cbn; [reflexivity|lia]. Qed.

Section WithLZ4.
Variable lz4 : list Z -> Z -> list Z -> option (list Z).

(** The one thing assumed of the library: a successful decode writes no more
    than the destination holds. *)
Hypothesis lz4_fits : forall src want dict out,
  lz4 src want dict = Some out -> len out <= want.

Lemma chunkLoop_parses fuel targetSize : forall r out dict res rest,
  chunkLoop lz4 fuel targetSize r out dict = inl (res, rest) ->
  exists consumed cs,
    r = consumed ++ rest
    /\ parsesAs lz4 targetSize consumed out dict cs
    /\ res = out ++ decodedBytes cs.
Proof.
  induction fuel as [|fuel IH]; intros r out dict res rest; cbn [chunkLoop]; [discriminate|].
  destruct (len r <? 4) eqn:E4; [discriminate|]. apply Z.ltb_ge in E4.
  destruct r as [|b0 [|b1 [|b2 [|flags r1]]]]; try (unfold len in E4; cbn in E4; lia).
  cbn [firstn skipn nth].
  destruct (negb (Z.ldiff flags 128 =? 0)) eqn:Ef; [discriminate|].
  apply negb_false_iff, Z.eqb_eq in Ef.
  destruct ((le24 b0 b1 b2 <=? 0) || (len r1 <? le24 b0 b1 b2)) eqn:Ec; [discriminate|].
  apply orb_false_iff in Ec. destruct Ec as [Ec1 Ec2].
  apply Z.leb_gt in Ec1. apply Z.ltb_ge in Ec2.
  set (n := Z.to_nat (le24 b0 b1 b2)).
  destruct (targetSize - len out <=? 0) eqn:Er; [discriminate|]. apply Z.leb_gt in Er.
  replace (if targetSize - len out <? ChunkSize then targetSize - len out else ChunkSize)
    with (Z.min ChunkSize (targetSize - len out))
    by (destruct (targetSize - len out <? ChunkSize) eqn:E; [apply Z.ltb_lt in E|apply Z.ltb_ge in E]; lia).
  destruct (lz4 (firstn n r1) _ dict) as [decoded|] eqn:Hlz; [|discriminate].
  set (c := mkChunk b0 b1 b2 flags (firstn n r1) decoded).
  assert (Hacc : accepted lz4 targetSize out dict c).
  { unfold accepted, flagsKnown, cSize, c; cbn [cB0 cB1 cB2 cFlags cPayload cDecoded].
    repeat split; try assumption; try lia.
    unfold len, n in *. rewrite firstn_length_le; lia. }
  assert (Hsplit : b0 :: b1 :: b2 :: flags :: r1 = frame c ++ skipn n r1).
  { unfold frame, c; cbn [cB0 cB1 cB2 cFlags cPayload app]. now rewrite firstn_skipn. }
  destruct (negb (Z.land flags 128 =? 0)) eqn:Et.
  - intros [= <- <-]. apply negb_true_iff, Z.eqb_neq in Et.
    exists (frame c), [c]. split; [exact Hsplit|]. split.
    + apply parses_last; assumption.
    + unfold decodedBytes, c; cbn [flat_map cDecoded]. now rewrite app_nil_r.
  - apply negb_false_iff, Z.eqb_eq in Et. intros Hrec.
    apply IH in Hrec. destruct Hrec as (consumed & cs & Hr & Hp & Hres).
    exists (frame c ++ consumed), (c :: cs). split; [|split].
    + rewrite Hsplit, Hr, app_assoc. reflexivity.
    + apply parses_more; try assumption. unfold terminal, c; cbn [cFlags]. lia.
    + rewrite Hres. unfold decodedBytes; cbn [flat_map]. now rewrite app_assoc.
Qed.

(** What a parse says about the chunks, one by one. *)
Lemma parsesAs_facts targetSize : forall data out dict cs,
  parsesAs lz4 targetSize data out dict cs ->
  data = flat_map frame cs
  /\ cs <> []
  /\ Forall flagsKnown cs
  /\ Forall (fun c => 0 < cSize c /\ len (cPayload c) = cSize c) cs
  /\ terminal (last cs (mkChunk 0 0 0 0 [] []))
  /\ Forall (fun c => ~ terminal c) (removelast cs)
  /\ (forall pre c post, cs = pre ++ c :: post ->
        len out + len (decodedBytes pre) + len (cDecoded c) <= targetSize).
Proof.
  induction 1 as [c out dict Hacc Hterm | c rest out dict cs Hacc Hnt Hp IH].
  - destruct Hacc as (Hf & Hpos & Hlen & Hroom & Hlz).
    split; [cbn; now rewrite app_nil_r|]. split; [discriminate|].
    split; [repeat constructor; assumption|]. split; [repeat constructor; assumption|].
    split; [exact Hterm|]. split; [constructor|].
    intros pre c' post Heq. apply lz4_fits in Hlz.
    destruct pre as [|p pre]; cbn in Heq.
    + injection Heq as <- _. unfold decodedBytes; cbn [flat_map]. change (len []) with 0. lia.
    + injection Heq as _ Heq. destruct pre; discriminate.
  - destruct IH as (Hdata & Hne & Hfl & Hsz & Hlast & Hrem & Hfit).
    destruct Hacc as (Hf & Hpos & Hlen & Hroom & Hlz).
    split; [cbn [flat_map]; now rewrite Hdata|]. split; [discriminate|].
    split; [constructor; assumption|]. split; [constructor; auto|].
    split; [destruct cs; [now elim Hne|exact Hlast]|].
    split; [destruct cs; [now elim Hne|constructor; assumption]|].
    intros pre c' post Heq. apply lz4_fits in Hlz.
    destruct pre as [|p pre]; cbn in Heq.
    + injection Heq as <- _. unfold decodedBytes; cbn [flat_map]. change (len []) with 0. lia.
    + injection Heq as <- Heq. specialize (Hfit pre c' post Heq).
      unfold decodedBytes in *; cbn [flat_map]. rewrite !len_app in *. lia.
Qed.

(** C5: for every block with the LZ4 magic, [decompressBlock] returns a
    result only if its chunk stream is a sequence of chunks such that
    (i) the decoded bytes are the result and their total is the target size,
    (ii) no chunk writes past the target buffer,
    (iii) the stream holds nothing but these chunks, the one with bit 0x80
         set in its flag byte being the last, and
    (iv) no flag byte has a bit other than 0x80 set: a chunk with such a
         flag byte makes the call return an error. *)
Theorem decompressBlock_LZ4_success_only_if block expected result :
  Magic block = BlockMagicLZ4 ->
  decompressBlock lz4 block expected = inl result ->
  let '(targetSize, data) := resolveTarget block expected in
  exists cs,
    parsesAs lz4 targetSize data [] [] cs
    /\ (result = decodedBytes cs /\ len result = targetSize)
    /\ (forall pre c post, cs = pre ++ c :: post ->
          len (decodedBytes pre) + len (cDecoded c) <= targetSize)
    /\ (data = flat_map frame cs
        /\ terminal (last cs (mkChunk 0 0 0 0 [] []))
        /\ Forall (fun c => ~ terminal c) (removelast cs))
    /\ Forall flagsKnown cs.
Proof.
  intros Hmagic. unfold decompressBlock, resolveTarget. rewrite Hmagic.
  change (String.eqb BlockMagicLZ4 BlockMagicCOPY) with false.
  change (String.eqb BlockMagicLZ4 BlockMagicLZ4) with true. cbn [negb].
  set (t0 := if 0 <? UncompressedSize block then _ else _).
  destruct (t0 <=? 0); [discriminate|].
  match goal with |- context [let '(_, _) := ?x in _] => destruct x as [targetSize data] end.
  destruct (chunkLoop lz4 _ targetSize data [] []) as [[out rest]|e] eqn:Hloop; [|discriminate].
  destruct (negb (len out =? targetSize)) eqn:Et; [discriminate|].
  destruct (negb (len rest =? 0)) eqn:Er; [discriminate|].
  intros [= <-].
  apply negb_false_iff, Z.eqb_eq in Et. apply negb_false_iff, Z.eqb_eq in Er.
  apply len_zero in Er. subst rest.
  apply chunkLoop_parses in Hloop. destruct Hloop as (consumed & cs & Hd & Hp & Hres).
  rewrite app_nil_r in Hd. subst consumed. cbn [app] in Hres.
  exists cs. pose proof (parsesAs_facts _ _ _ _ _ Hp) as (Hdata & _ & Hfl & _ & Hlast & Hrem & Hfit).
  split; [exact Hp|]. split; [split; [exact Hres|exact Et]|].
  split; [|split; [repeat split; assumption|exact Hfl]].
  intros pre c post Heq. specialize (Hfit pre c post Heq). change (len []) with 0 in Hfit. lia.
Qed.

(** A flag byte with an unknown bit stops the chunk loop with an error. *)
Lemma chunkLoop_rejects_unknown_flags fuel targetSize b0 b1 b2 flags r out dict :
  Z.ldiff flags 128 <> 0 ->
  chunkLoop lz4 (S fuel) targetSize (b0 :: b1 :: b2 :: flags :: r) out dict
  = inr (ErrUnknownFlags flags).
Proof.
  intros Hf. cbn [chunkLoop].
  destruct (len (b0 :: b1 :: b2 :: flags :: r) <? 4) eqn:E.
  - apply Z.ltb_lt in E. unfold len in E. cbn [length] in E. lia.
  - cbn [firstn skipn nth]. apply Z.eqb_neq in Hf. rewrite Hf. reflexivity.
Qed.

(** The step bound of the chunk loop is never reached. *)
Lemma chunkLoop_steps_enough fuel targetSize : forall r out dict,
  (length r < fuel)%nat ->
  chunkLoop lz4 fuel targetSize r out dict <> inr ErrOutOfSteps.
Proof.
  induction fuel as [|fuel IH]; intros r out dict Hfuel; [lia|]. cbn [chunkLoop].
  destruct (len r <? 4) eqn:E4; [discriminate|]. apply Z.ltb_ge in E4. cbv zeta.
  destruct (negb (Z.ldiff _ 128 =? 0)); [discriminate|].
  destruct (_ || _) eqn:Ec; [discriminate|].
  destruct (_ - _ <=? 0); [discriminate|].
  destruct (lz4 _ _ _); [|discriminate].
  destruct (negb (Z.land _ 128 =? 0)); [discriminate|].
  apply IH. rewrite !length_skipn. unfold len in E4. lia.
Qed.

End WithLZ4.

Lemma storedCodec_fits src want dict out :
  storedCodec src want dict = Some out -> len out <= want.
Proof.
  unfold storedCodec. destruct (len src <=? want) eqn:E; [|discriminate].
  intros [= <-]. now apply Z.leb_le.
Qed.

Lemma decompressBlock_LZ4_witness :
  let '(targetSize, data) := resolveTarget sample_block 3 in
  exists cs,
    parsesAs storedCodec targetSize data [] [] cs
    /\ ([7; 8; 9] = decodedBytes cs /\ len [7; 8; 9] = targetSize)
    /\ (forall pre c post, cs = pre ++ c :: post ->
          len (decodedBytes pre) + len (cDecoded c) <= targetSize)
    /\ (data = flat_map frame cs
        /\ terminal (last cs (mkChunk 0 0 0 0 [] []))
        /\ Forall (fun c => ~ terminal c) (removelast cs))
    /\ Forall flagsKnown cs.
Proof.
  apply (decompressBlock_LZ4_success_only_if storedCodec storedCodec_fits sample_block 3 [7; 8; 9]);
    reflexivity.
Defined.

End EddsProofs.

(* ===================================================================== *)
(** * internal/imageset: writing then reading *)
(* ===================================================================== *)

Module ImagesetProofs.
Import Imageset ImagesetSpec.

(** ** Characters *)

Lemma allAscii_complete (P : ascii -> bool) :
  forallb P allAscii = true -> forall c, P c = true.
Proof.
  intros Hall c. rewrite forallb_forall in Hall. apply Hall.
  unfold allAscii. rewrite <- (ascii_nat_embedding c).
  apply in_map, in_seq. pose proof (nat_ascii_bounded c). lia.
Qed.

Ltac by_enumeration :=
  let c := fresh "c" in
  intro c; revert c;
  match goal with
  | |- forall c, @?P c = true => apply (allAscii_complete P); vm_compute; reflexivity
  end.

Lemma eqb_true_eq (a b : ascii) : Ascii.eqb a b = true -> a = b.
Proof. apply Ascii.eqb_eq. Qed.

Lemma identChar_plain :
  forall c, implb (identChar c)
    (negb (isSpace c) && negb (Ascii.eqb c dquote) && negb (Ascii.eqb c newline)
     && negb (Ascii.eqb c carriageReturn)) = true.
Proof. by_enumeration. Qed.

Lemma lower_alnum : forall c, implb (isAsciiAlphaNum c) (isAsciiAlphaNum (toLowerAscii c)) = true.
Proof. by_enumeration. Qed.

Lemma upper_alnum : forall c, implb (isAsciiAlphaNum c) (isAsciiAlphaNum (toUpperAscii c)) = true.
Proof. by_enumeration. Qed.

Lemma alnum_ident : forall c, implb (isAsciiAlphaNum c) (identChar c) = true.
Proof. by_enumeration. Qed.

Lemma implb_apply (a b : bool) : implb a b = true -> a = true -> b = true.
Proof. destruct a, b; simpl; congruence. Qed.

(** ** names.go: the result is an identifier *)

Lemma alnumStr_lower s : alnumStr s -> alnumStr (map toLowerAscii s).
Proof.
  unfold alnumStr. induction s as [|c s IH]; simpl; [reflexivity|].
  rewrite andb_true_iff. intros [Hc Hs].
  rewrite (implb_apply _ _ (lower_alnum c) Hc). auto.
Qed.

Lemma splitTokens_fold input :
  forall st, Forall alnumStr (fst st) -> alnumStr (snd st) ->
    Forall alnumStr (fst (fold_left splitStep input st))
    /\ alnumStr (snd (fold_left splitStep input st)).
Proof.
  induction input as [|r input IH]; intros [tokens buf] Ht Hb; simpl in *; [auto|].
  apply IH; unfold splitStep, flush; simpl.
  - destruct (isAsciiAlphaNum r); simpl; [assumption|].
    destruct buf; simpl; [assumption|].
    apply Forall_app. split; [assumption|].
    constructor; [|constructor]. apply (alnumStr_lower (a :: buf)). assumption.
  - destruct (isAsciiAlphaNum r) eqn:Hr; simpl.
    + unfold alnumStr in *. rewrite forallb_app, Hb. simpl. rewrite Hr. reflexivity.
    + destruct buf; simpl; [assumption|reflexivity].
Qed.

Lemma splitTokens_alnum input : Forall alnumStr (splitTokens input).
Proof.
  unfold splitTokens.
  destruct (splitTokens_fold input ([], [])) as [Ht Hb]; [constructor|reflexivity|].
  destruct (fold_left splitStep input ([], [])) as [tokens buf]; simpl in *.
  unfold flush; simpl. destruct buf; simpl; [assumption|].
  apply Forall_app. split; [assumption|].
  constructor; [|constructor]. apply (alnumStr_lower (a :: buf)). assumption.
Qed.

Lemma alnumStr_ident s : alnumStr s -> identStr s.
Proof.
  unfold alnumStr, identStr. induction s as [|c s IH]; simpl; [reflexivity|].
  rewrite !andb_true_iff. intros [Hc Hs].
  split; [apply (implb_apply _ _ (alnum_ident c) Hc)|auto].
Qed.

Lemma toCamelToken_alnum t : alnumStr t -> alnumStr (toCamelToken t).
Proof.
  destruct t as [|c t]; [reflexivity|]. unfold alnumStr. simpl.
  rewrite !andb_true_iff. intros [Hc Ht].
  split; [apply (implb_apply _ _ (upper_alnum c) Hc)|apply alnumStr_lower, Ht].
Qed.

Lemma concat_ident parts : Forall identStr parts -> identStr (concat parts).
Proof.
  unfold identStr. induction 1 as [|t parts Ht _ IH]; simpl; [reflexivity|].
  rewrite forallb_app, Ht, IH. reflexivity.
Qed.

Lemma join_ident parts : Forall identStr parts -> identStr (join (lit "_") parts).
Proof.
  unfold identStr. induction 1 as [|t parts Ht Hparts IH]; [reflexivity|].
  destruct parts as [|t' parts]; [exact Ht|].
  change (join (lit "_") (t :: t' :: parts))
    with (t ++ lit "_" ++ join (lit "_") (t' :: parts)).
  rewrite !forallb_app, Ht, IH. reflexivity.
Qed.

Lemma NormalizeName_ident input camel : identStr (NormalizeName input camel).
Proof.
  unfold NormalizeName. pose proof (splitTokens_alnum input) as Htok.
  destruct (splitTokens input) as [|t tokens] eqn:E; [reflexivity|].
  destruct camel.
  - apply concat_ident. apply Forall_map.
    eapply Forall_impl; [|exact Htok].
    intros a Ha. apply alnumStr_ident, toCamelToken_alnum, Ha.
  - apply join_ident. eapply Forall_impl; [|exact Htok]. apply alnumStr_ident.
Qed.

Lemma normalized_ident camel name : normalized camel name -> identStr name.
Proof. unfold normalized. intros <-. apply NormalizeName_ident. Qed.

Lemma className_ident camel name : identStr (className name camel).
Proof.
  unfold className. pose proof (NormalizeName_ident name camel) as H.
  destruct (NormalizeName name camel); [reflexivity|exact H].
Qed.

(** ** Integers: [Atoi] reads back what [%d] prints *)

Lemma numChar_plain :
  forall c, implb (numChar c) (negb (isSpace c) && negb (Ascii.eqb c newline)) = true.
Proof. by_enumeration. Qed.

Lemma digit_unsigned :
  forall c, implb (isDigit c) (negb (Ascii.eqb c "-") && negb (Ascii.eqb c "+")) = true.
Proof. by_enumeration. Qed.

Lemma uintChars_digits d : forallb isDigit (uintChars d) = true.
Proof. induction d; simpl; [reflexivity|assumption..]. Qed.

Lemma atoiDigits_acc d : forall acc : positive,
  atoiDigits (uintChars d) (Zpos acc) = Some (Zpos (Pos.of_uint_acc d acc)).
Proof.
  induction d; intro acc; cbn [uintChars atoiDigits Pos.of_uint_acc];
    [reflexivity|..];
    match goal with
    | |- context [digitVal (digitChar ?k)] =>
        change (digitVal (digitChar k)) with (Some k)
    end;
    cbv iota beta;
    match goal with
    | |- atoiDigits _ ?v = Some (Zpos (Pos.of_uint_acc _ ?q)) =>
        replace v with (Zpos q) by lia
    end; apply IHd.
Qed.

Lemma atoiDigits_zero d :
  atoiDigits (uintChars d) 0 = Some (Z.of_N (Pos.of_uint d)).
Proof.
  induction d; cbn [uintChars atoiDigits Pos.of_uint];
    [reflexivity|..];
    match goal with
    | |- context [digitVal (digitChar ?k)] =>
        change (digitVal (digitChar k)) with (Some k)
    end;
    cbv iota beta; [exact IHd|..];
    match goal with
    | |- atoiDigits _ ?v = _ => change v with (Zpos (Pos.of_succ_nat (Z.to_nat (v - 1))))
    end; rewrite atoiDigits_acc; reflexivity.
Qed.

Lemma atoiDigits_to_uint p :
  atoiDigits (uintChars (Pos.to_uint p)) 0 = Some (Zpos p).
Proof. rewrite atoiDigits_zero, DecimalPos.Unsigned.of_to. reflexivity. Qed.

Lemma uintChars_to_uint_cons p :
  exists c rest, uintChars (Pos.to_uint p) = c :: rest /\ isDigit c = true.
Proof.
  pose proof (uintChars_digits (Pos.to_uint p)) as Hd.
  pose proof (atoiDigits_to_uint p) as Ha.
  destruct (uintChars (Pos.to_uint p)) as [|c rest]; [discriminate Ha|].
  simpl in Hd. apply andb_true_iff in Hd. exists c, rest. tauto.
Qed.

Lemma formatInt_cons z : exists c rest, formatInt z = c :: rest.
Proof.
  destruct z as [|p|p]; simpl; eauto.
  destruct (uintChars_to_uint_cons p) as (c & rest & E & _). eauto.
Qed.

Lemma formatInt_chars z : forallb numChar (formatInt z) = true.
Proof.
  assert (Hd : forall s, forallb isDigit s = true -> forallb numChar s = true).
  { induction s as [|c s IH]; simpl; [reflexivity|].
    rewrite !andb_true_iff. intros [Hc Hs]. unfold numChar at 1. rewrite Hc. auto. }
  destruct z as [|p|p]; [reflexivity|apply Hd, uintChars_digits|].
  change (formatInt (Zneg p)) with ("-"%char :: uintChars (Pos.to_uint p)).
  simpl. apply Hd, uintChars_digits.
Qed.

Lemma Atoi_formatInt z : GoInt.in_range z -> Atoi (formatInt z) = Some z.
Proof.
  unfold GoInt.in_range. intros Hz.
  assert (Hrange : (GoInt.int_min <=? z) && (z <=? GoInt.int_max) = true).
  { apply andb_true_iff. split; apply Z.leb_le; lia. }
  destruct z as [|p|p]; [reflexivity| |].
  - destruct (uintChars_to_uint_cons p) as (c & rest & E & Hc).
    pose proof (implb_apply _ _ (digit_unsigned c) Hc) as Hs.
    apply andb_true_iff in Hs. destruct Hs as [Hm Hp].
    apply negb_true_iff in Hm, Hp.
    pose proof (atoiDigits_to_uint p) as Ha.
    unfold formatInt, Atoi. rewrite E in *. rewrite Hm, Hp, Ha.
    cbv zeta. rewrite Hrange. reflexivity.
  - destruct (uintChars_to_uint_cons p) as (c & rest & E & Hc).
    pose proof (atoiDigits_to_uint p) as Ha.
    change (formatInt (Zneg p)) with ("-"%char :: uintChars (Pos.to_uint p)).
    unfold Atoi. change (Ascii.eqb "-" "-") with true. cbv iota beta.
    rewrite E in *. rewrite Ha. cbv zeta.
    change (- Zpos p) with (Zneg p). rewrite Hrange. reflexivity.
Qed.

(** ** Trimming and splitting *)

Lemma endsPlain_app a b : endsPlain b -> endsPlain (a ++ b).
Proof.
  unfold endsPlain. rewrite rev_app_distr.
  destruct (rev b); simpl; [contradiction|auto].
Qed.

Lemma endsPlain_cons c b : endsPlain b -> endsPlain (c :: b).
Proof. apply (endsPlain_app [c]). Qed.

Lemma endsPlain_chars (f : ascii -> bool) s :
  (forall c, f c = true -> isSpace c = false) ->
  forallb f s = true -> s <> [] -> endsPlain s.
Proof.
  intros Hf Hs Hne. unfold endsPlain.
  destruct (rev s) as [|e r] eqn:E.
  - apply (f_equal (@rev ascii)) in E. rewrite rev_involutive in E. auto.
  - apply Hf. rewrite forallb_forall in Hs. apply Hs.
    apply in_rev. rewrite E. left. reflexivity.
Qed.

Lemma trimLeftBy_blank f pre s :
  forallb f pre = true -> trimLeftBy f (pre ++ s) = trimLeftBy f s.
Proof.
  induction pre as [|c pre IH]; simpl; [reflexivity|].
  rewrite andb_true_iff. intros [Hc Hp]. rewrite Hc. auto.
Qed.

Lemma trimLeftBy_stop f c s : f c = false -> trimLeftBy f (c :: s) = c :: s.
Proof. simpl. intros ->. reflexivity. Qed.

Lemma trimRightBy_stop f s :
  match rev s with e :: _ => f e = false | [] => True end -> trimRightBy f s = s.
Proof.
  unfold trimRightBy. destruct (rev s) as [|e r] eqn:E.
  - intros _. simpl. rewrite <- (rev_involutive s), E. reflexivity.
  - intros He. rewrite trimLeftBy_stop by assumption.
    rewrite <- E. apply rev_involutive.
Qed.

Lemma trim_core f pre c mid :
  forallb f pre = true -> f c = false ->
  match rev (c :: mid) with e :: _ => f e = false | [] => True end ->
  trimRightBy f (trimLeftBy f (pre ++ c :: mid)) = c :: mid.
Proof.
  intros Hpre Hc He.
  rewrite trimLeftBy_blank, trimLeftBy_stop by assumption.
  apply trimRightBy_stop, He.
Qed.

Lemma space_not_cr : forall c, implb (Ascii.eqb c carriageReturn) (isSpace c) = true.
Proof. by_enumeration. Qed.

Lemma dropCR_snoc l x :
  dropCR (l ++ [x]) = if Ascii.eqb x carriageReturn then l else l ++ [x].
Proof.
  unfold dropCR. rewrite rev_app_distr. simpl.
  destruct (Ascii.eqb x carriageReturn); [apply rev_involutive|reflexivity].
Qed.

Lemma dropCR_plain s : endsPlain s -> dropCR s = s.
Proof.
  unfold endsPlain, dropCR. destruct (rev s) as [|e r]; [contradiction|].
  intros He. pose proof (space_not_cr e) as H.
  destruct (Ascii.eqb e carriageReturn); [|reflexivity].
  simpl in H. congruence.
Qed.

Lemma TrimSpace_core pre c mid :
  blank pre -> isSpace c = false -> endsPlain (c :: mid) ->
  TrimSpace (dropCR (pre ++ c :: mid)) = c :: mid.
Proof.
  intros Hpre Hc He. rewrite dropCR_plain by (apply endsPlain_app, He).
  apply trim_core; auto.
  unfold endsPlain in He. destruct (rev (c :: mid)); [exact I|exact He].
Qed.

Lemma trimLeftBy_last f a c :
  f c = false -> exists m, trimLeftBy f (a ++ [c]) = m ++ [c].
Proof.
  intros Hc. induction a as [|x a [m IH]]; simpl.
  - rewrite Hc. exists []. reflexivity.
  - destruct (f x); [eauto|]. exists (x :: a). reflexivity.
Qed.

(** Whatever follows, a line keeps its first visible character. *)
Lemma TrimSpace_head pre c rest :
  blank pre -> isSpace c = false ->
  exists rest', TrimSpace (dropCR (pre ++ c :: rest)) = c :: rest'.
Proof.
  intros Hpre Hc.
  assert (Hdrop : exists q, dropCR (pre ++ c :: rest) = pre ++ c :: q).
  { destruct (@exists_last _ (c :: rest)) as (l & x & E); [discriminate|].
    rewrite E, app_assoc, dropCR_snoc.
    destruct (Ascii.eqb x carriageReturn) eqn:Hx.
    - destruct l as [|c' l]; simpl in E.
      + injection E as -> _. pose proof (space_not_cr x) as H.
        rewrite Hx in H. simpl in H. congruence.
      + injection E as <- _. eauto.
    - rewrite <- app_assoc, <- E. eauto. }
  destruct Hdrop as [q ->]. unfold TrimSpace.
  rewrite trimLeftBy_blank, trimLeftBy_stop by assumption.
  unfold trimRightBy. simpl rev.
  destruct (trimLeftBy_last isSpace (rev q) c Hc) as [m ->].
  rewrite rev_app_distr. simpl. eauto.
Qed.

Lemma fieldsFrom_word w : forall rest cur,
  noSpace w -> fieldsFrom (w ++ rest) cur = fieldsFrom rest (cur ++ w).
Proof.
  unfold noSpace. induction w as [|c w IH]; intros rest cur; simpl.
  - rewrite app_nil_r. reflexivity.
  - rewrite andb_true_iff, negb_true_iff. intros [-> Hw].
    rewrite IH by assumption. rewrite <- app_assoc. reflexivity.
Qed.

Lemma fieldsFrom_space c w rest :
  fieldsFrom (space :: rest) (c :: w) = (c :: w) :: fieldsFrom rest [].
Proof. reflexivity. Qed.

Lemma fieldsFrom_end c w : fieldsFrom [] (c :: w) = [c :: w].
Proof. reflexivity. Qed.

Lemma fieldsFrom_head s : forall c cur,
  exists w more, fieldsFrom s (c :: cur) = (c :: w) :: more.
Proof.
  induction s as [|x s IH]; intros c cur; simpl; [eauto|].
  destruct (isSpace x); [eauto|]. apply (IH c (cur ++ [x])).
Qed.

Lemma Trim_quotes name :
  identStr name -> Trim (dquote :: name ++ [dquote]) [dquote] = name.
Proof.
  intros Hname.
  assert (Hq : forall c, identChar c = true -> inCutset [dquote] c = false).
  { intros c Hc. pose proof (implb_apply _ _ (identChar_plain c) Hc) as H.
    rewrite !andb_true_iff, !negb_true_iff in H. unfold inCutset. simpl.
    destruct H as [[[_ ->] _] _]. reflexivity. }
  unfold Trim. unfold identStr in Hname.
  change (trimLeftBy (inCutset [dquote]) (dquote :: name ++ [dquote]))
    with (trimLeftBy (inCutset [dquote]) (name ++ [dquote])).
  destruct name as [|c name].
  - reflexivity.
  - simpl in Hname. apply andb_true_iff in Hname. destruct Hname as [Hc Hname].
    cbn [app]. rewrite trimLeftBy_stop by auto.
    unfold trimRightBy.
    change (c :: name ++ [dquote]) with ((c :: name) ++ [dquote]).
    rewrite rev_app_distr.
    change (trimLeftBy (inCutset [dquote]) (rev [dquote] ++ rev (c :: name)))
      with (trimLeftBy (inCutset [dquote]) (rev (c :: name))).
    destruct (rev (c :: name)) as [|e r] eqn:E.
    + apply (f_equal (@rev ascii)) in E. rewrite rev_involutive in E. discriminate.
    + rewrite trimLeftBy_stop.
      * rewrite <- E. apply rev_involutive.
      * apply Hq. assert (Hin : In e (c :: name)).
        { apply in_rev. rewrite E. left. reflexivity. }
        destruct Hin as [<-|Hin]; [assumption|].
        rewrite forallb_forall in Hname. auto.
Qed.

(** ** The scanner, line by line *)

Lemma scanLines_line l : forall rest cur,
  ~ In newline l ->
  scanLines (l ++ newline :: rest) cur = (cur ++ l) :: scanLines rest [].
Proof.
  induction l as [|c l IH]; intros rest cur Hl; simpl.
  - rewrite app_nil_r. reflexivity.
  - destruct (Ascii.eqb c newline) eqn:Hc.
    + apply Ascii.eqb_eq in Hc. subst c. exfalso. apply Hl. left. reflexivity.
    + rewrite IH by (intro; apply Hl; right; assumption).
      rewrite <- app_assoc. reflexivity.
Qed.

Lemma Reads_end p : Reads p [] (inl (result p)).
Proof. intros n _. reflexivity. Qed.

Lemma Reads_line p p' l rest r :
  oneLine l ->
  (forall n, processLine n p (dropCR l) = inl p') ->
  Reads p' rest r -> Reads p (ln l rest) r.
Proof.
  intros Hone Hstep Hrest n Hfit. unfold readText, ln, linesFit in *.
  assert (Hl : ~ In newline l).
  { intro Hin. unfold oneLine in Hone. rewrite forallb_forall in Hone.
    specialize (Hone _ Hin). discriminate Hone. }
  rewrite scanLines_line in * by assumption. simpl app in *.
  inversion Hfit as [|? ? Hlen Hfit']; subst.
  cbn [readLines].
  destruct (MaxScanTokenSize <=? Z.of_nat (length l)) eqn:Hlong.
  - apply Z.leb_le in Hlong. lia.
  - rewrite Hstep. apply Hrest, Hfit'.
Qed.

(** ** One-line texts *)

Lemma oneLine_app a b : oneLine a -> oneLine b -> oneLine (a ++ b).
Proof. unfold oneLine. intros Ha Hb. rewrite forallb_app, Ha, Hb. reflexivity. Qed.

Lemma oneLine_indent k : oneLine (indentStr k).
Proof. unfold oneLine, indentStr. induction k; simpl; auto. Qed.

Lemma forallb_weaken (f g : ascii -> bool) s :
  (forall c, implb (f c) (g c) = true) -> forallb f s = true -> forallb g s = true.
Proof.
  intros Hfg. induction s as [|c s IH]; simpl; [reflexivity|].
  rewrite !andb_true_iff. intros [Hc Hs].
  split; [apply (implb_apply _ _ (Hfg c) Hc)|auto].
Qed.

Lemma ident_notNewline :
  forall c, implb (identChar c) (negb (Ascii.eqb c newline)) = true.
Proof. by_enumeration. Qed.

Lemma ident_notSpace : forall c, implb (identChar c) (negb (isSpace c)) = true.
Proof. by_enumeration. Qed.

Lemma num_notNewline : forall c, implb (numChar c) (negb (Ascii.eqb c newline)) = true.
Proof. by_enumeration. Qed.

Lemma num_notSpace : forall c, implb (numChar c) (negb (isSpace c)) = true.
Proof. by_enumeration. Qed.

Lemma oneLine_ident s : identStr s -> oneLine s.
Proof. apply forallb_weaken, ident_notNewline. Qed.

Lemma oneLine_formatInt z : oneLine (formatInt z).
Proof. apply (forallb_weaken numChar); [apply num_notNewline|apply formatInt_chars]. Qed.

Lemma noSpace_formatInt z : noSpace (formatInt z).
Proof. apply (forallb_weaken numChar); [apply num_notSpace|apply formatInt_chars]. Qed.

Lemma endsPlain_formatInt z : endsPlain (formatInt z).
Proof.
  apply (endsPlain_chars numChar).
  - intros c Hc. apply negb_true_iff. apply (implb_apply _ _ (num_notSpace c) Hc).
  - apply formatInt_chars.
  - destruct (formatInt_cons z) as (c & rest & ->). discriminate.
Qed.

Lemma blank_indent k : blank (indentStr k).
Proof. unfold blank, indentStr. induction k; simpl; auto. Qed.

Lemma indent_tab k rest : indentStr k ++ [tab] ++ rest = indentStr (S k) ++ rest.
Proof.
  unfold indentStr. rewrite app_assoc. f_equal.
  symmetry. apply (repeat_cons k tab).
Qed.

Create HintDb oneline.
Create HintDb plain.

#[local] Hint Resolve oneLine_app oneLine_indent oneLine_ident oneLine_formatInt : oneline.
#[local] Hint Extern 1 (oneLine (lit _)) => reflexivity : oneline.
#[local] Hint Extern 1 (oneLine [_]) => reflexivity : oneline.
#[local] Hint Resolve endsPlain_app endsPlain_formatInt : plain.
#[local] Hint Extern 1 (endsPlain (lit _)) => reflexivity : plain.
#[local] Hint Extern 1 (endsPlain [_]) => reflexivity : plain.

(** ** Fields of the key-value lines *)

Lemma fields_one a : fieldsFrom (formatInt a) [] = [formatInt a].
Proof.
  rewrite <- (app_nil_r (formatInt a)) at 1.
  rewrite fieldsFrom_word by apply noSpace_formatInt.
  destruct (formatInt_cons a) as (c & rest & ->). reflexivity.
Qed.

Lemma fields_two a b :
  fieldsFrom (formatInt a ++ [space] ++ formatInt b) [] = [formatInt a; formatInt b].
Proof.
  rewrite fieldsFrom_word by apply noSpace_formatInt.
  destruct (formatInt_cons a) as (c & rest & ->).
  cbn [app]. rewrite fieldsFrom_space, fields_one. reflexivity.
Qed.

(** ** The reader on each kind of line *)

Lemma TrimSpace_line k body c mid :
  body = c :: mid -> isSpace c = false -> endsPlain body ->
  TrimSpace (dropCR (indentStr k ++ body)) = body.
Proof. intros -> Hc He. apply TrimSpace_core; [apply blank_indent|assumption..]. Qed.

Ltac trimmed k c mid :=
  rewrite (TrimSpace_line k _ c mid); [|reflexivity|reflexivity|auto with plain].

Lemma processLine_inner n p text line :
  TrimSpace text = line ->
  strEqb line [] = false ->
  hasPrefix line (lit "Images") = false ->
  hasPrefix line (lit "Textures") = false ->
  hasPrefix line (lit "Groups") = false ->
  hasPrefix line (lit "ImageSetGroupClass") = false ->
  hasPrefix line (lit "ImageSetDefClass") = false ->
  processLine n p text = closeOrKeyValue n p line.
Proof.
  intros <- H0 H1 H2 H3 H4 H5. unfold processLine. cbv zeta.
  rewrite H0, H1, H2, H3, H4, H5, andb_false_r. reflexivity.
Qed.

Lemma line_braces n p k :
  processLine n p (dropCR (indentStr k ++ lit "}")) = inl (closeBlock p).
Proof.
  rewrite (processLine_inner n p _ (lit "}")); try reflexivity.
  apply (TrimSpace_core (indentStr k) "}" []); [apply blank_indent|reflexivity..].
Qed.

Lemma line_ImageSetClass n p k :
  processLine n p (dropCR (indentStr k ++ lit "ImageSetClass {")) = inl p.
Proof.
  rewrite (processLine_inner n p _ (lit "ImageSetClass {")); try reflexivity.
  apply (TrimSpace_core (indentStr k) "I" (lit "mageSetClass {"));
    [apply blank_indent|reflexivity..].
Qed.

Lemma line_ImageSetTextureClass n p k :
  processLine n p (dropCR (indentStr k ++ lit "ImageSetTextureClass {")) = inl p.
Proof.
  rewrite (processLine_inner n p _ (lit "ImageSetTextureClass {")); try reflexivity.
  apply (TrimSpace_core (indentStr k) "I" (lit "mageSetTextureClass {"));
    [apply blank_indent|reflexivity..].
Qed.

Lemma line_Textures n p k :
  processLine n p (dropCR (indentStr k ++ lit "Textures {")) = inl p.
Proof.
  unfold processLine.
  trimmed k "T"%char (lit "extures {").
  cbv zeta. change (strEqb (lit "Textures {") []) with false.
  change (hasPrefix (lit "Textures {") (lit "Images")) with false.
  rewrite andb_false_r. reflexivity.
Qed.

Lemma line_Images_root n s inI inG inGI cd ind k :
  processLine n (mkParser s inI inG inGI None cd ind) (dropCR (indentStr k ++ lit "Images {"))
  = inl (mkParser s true inG inGI None cd ind).
Proof.
  unfold processLine.
  trimmed k "I"%char (lit "mages {").
  reflexivity.
Qed.

Lemma line_Images_group n s inI inG inGI g cd ind k :
  processLine n (mkParser s inI inG inGI (Some g) cd ind)
    (dropCR (indentStr k ++ lit "Images {"))
  = inl (mkParser s inI inG true (Some g) cd ind).
Proof.
  unfold processLine.
  trimmed k "I"%char (lit "mages {").
  reflexivity.
Qed.

Lemma line_Groups n s inI inG inGI cd ind k :
  processLine n (mkParser s inI inG inGI None cd ind) (dropCR (indentStr k ++ lit "Groups {"))
  = inl (mkParser s inI true inGI None cd ind).
Proof.
  unfold processLine.
  trimmed k "G"%char (lit "roups {").
  reflexivity.
Qed.

Lemma line_ImageSetDefClass n p k cn :
  processLine n p (dropCR (indentStr k ++ lit "ImageSetDefClass " ++ cn ++ lit " {"))
  = inl (mkParser (result p) (inImages p) (inGroups p) (inGroupImages p) (curGroup p)
           (Some emptyDef) true).
Proof.
  unfold processLine. trimmed k "I"%char (lit "mageSetDefClass " ++ cn ++ lit " {").
  cbv zeta.
  change (strEqb (lit "ImageSetDefClass " ++ cn ++ lit " {") []) with false.
  change (hasPrefix (lit "ImageSetDefClass " ++ cn ++ lit " {") (lit "Images")) with false.
  change (hasPrefix (lit "ImageSetDefClass " ++ cn ++ lit " {") (lit "Textures")) with false.
  change (hasPrefix (lit "ImageSetDefClass " ++ cn ++ lit " {") (lit "Groups")) with false.
  change (hasPrefix (lit "ImageSetDefClass " ++ cn ++ lit " {") (lit "ImageSetGroupClass"))
    with false.
  change (hasPrefix (lit "ImageSetDefClass " ++ cn ++ lit " {") (lit "ImageSetDefClass"))
    with true.
  rewrite andb_false_r. reflexivity.
Qed.

Lemma line_ImageSetGroupClass p k cn :
  exists name, forall n,
    processLine n p (dropCR (indentStr k ++ lit "ImageSetGroupClass " ++ cn ++ lit " {"))
    = inl (mkParser (result p) (inImages p) (inGroups p) false
             (Some (mkGroup name [])) (curDef p) (inDef p)).
Proof.
  eexists. intro n. unfold processLine. trimmed k "I"%char (lit "mageSetGroupClass " ++ cn ++ lit " {").
  cbv zeta.
  change (strEqb (lit "ImageSetGroupClass " ++ cn ++ lit " {") []) with false.
  change (hasPrefix (lit "ImageSetGroupClass " ++ cn ++ lit " {") (lit "Images")) with false.
  change (hasPrefix (lit "ImageSetGroupClass " ++ cn ++ lit " {") (lit "Textures")) with false.
  change (hasPrefix (lit "ImageSetGroupClass " ++ cn ++ lit " {") (lit "Groups")) with false.
  change (hasPrefix (lit "ImageSetGroupClass " ++ cn ++ lit " {") (lit "ImageSetGroupClass"))
    with true.
  rewrite andb_false_r. reflexivity.
Qed.

(** Lines that begin with none of the letters the reader looks for. *)
Lemma line_ignored n p k c rest :
  inCutset (lit "TIGNRPSF}") c = false -> isSpace c = false ->
  processLine n p (dropCR (indentStr k ++ c :: rest)) = inl p.
Proof.
  intros Hc Hsp.
  destruct (TrimSpace_head (indentStr k) c rest (blank_indent k) Hsp) as [rest' E].
  unfold inCutset in Hc. cbn [lit list_ascii_of_string existsb] in Hc.
  repeat (apply orb_false_iff in Hc; destruct Hc as [? Hc]).
  rewrite (processLine_inner n p _ (c :: rest') E);
    try (cbn [lit list_ascii_of_string hasPrefix]; rewrite ?H, ?H0, ?H1; reflexivity).
  unfold closeOrKeyValue, keyValue.
  cbn [lit list_ascii_of_string strEqb]. rewrite H7. cbn [andb].
  unfold Fields. cbn [fieldsFrom]. rewrite Hsp. cbn [app].
  destruct (fieldsFrom_head rest' c []) as (w & more & ->).
  cbn [app strEqb]. rewrite H2, H3, H4, H5, H6. reflexivity.
Qed.

Lemma trim_wrapped f pre name :
  forallb f pre = true -> f dquote = false ->
  trimRightBy f (trimLeftBy f (pre ++ dquote :: name ++ [dquote]))
  = dquote :: name ++ [dquote].
Proof.
  intros Hpre Hq. apply trim_core; [assumption..|].
  change (dquote :: name ++ [dquote]) with ((dquote :: name) ++ [dquote]).
  rewrite rev_app_distr. exact Hq.
Qed.

Lemma keyValue_Name n p name :
  identStr name ->
  keyValue n p (lit "Name " ++ dquote :: name ++ [dquote]) = inl (setName p name).
Proof.
  intros Hname. unfold keyValue.
  change (Fields (lit "Name " ++ dquote :: name ++ [dquote]))
    with (lit "Name" :: fieldsFrom (dquote :: name ++ [dquote]) []).
  cbv iota beta. change (strEqb (lit "Name") (lit "Name")) with true. cbv iota zeta.
  change (skipn 4 (lit "Name " ++ dquote :: name ++ [dquote]))
    with ([space] ++ dquote :: name ++ [dquote]).
  unfold Trim at 2. rewrite trim_wrapped by reflexivity.
  unfold TrimSpace.
  pose proof (trim_wrapped isSpace [] name eq_refl eq_refl) as E.
  cbn [app] in E. rewrite E.
  rewrite Trim_quotes by assumption. reflexivity.
Qed.

Lemma line_Name n p k name :
  identStr name ->
  processLine n p (dropCR (indentStr k ++ lit "Name " ++ dquote :: name ++ [dquote]))
  = inl (setName p name).
Proof.
  intros Hname.
  rewrite (processLine_inner n p _ (lit "Name " ++ dquote :: name ++ [dquote]));
    try reflexivity.
  - unfold closeOrKeyValue.
    change (strEqb (lit "Name " ++ dquote :: name ++ [dquote]) (lit "}")) with false.
    apply keyValue_Name, Hname.
  - apply (TrimSpace_line k _ "N" (lit "ame " ++ dquote :: name ++ [dquote]));
      [reflexivity..|].
    apply endsPlain_app, endsPlain_cons, endsPlain_app. reflexivity.
Qed.

Lemma line_RefSize n p k a b :
  GoInt.in_range a -> GoInt.in_range b ->
  processLine n p (dropCR (indentStr k ++ lit "RefSize " ++ formatInt a ++ [space] ++ formatInt b))
  = inl (mkParser (mkImageSet (Name (result p)) (Textures (result p)) (Images (result p))
                     (Groups (result p)) (a, b))
           (inImages p) (inGroups p) (inGroupImages p) (curGroup p) (curDef p) (inDef p)).
Proof.
  intros Ha Hb.
  rewrite (processLine_inner n p _ (lit "RefSize " ++ formatInt a ++ [space] ++ formatInt b));
    try reflexivity.
  - unfold closeOrKeyValue.
    change (strEqb (lit "RefSize " ++ formatInt a ++ [space] ++ formatInt b) (lit "}"))
      with false.
    cbv iota. unfold keyValue.
    change (Fields (lit "RefSize " ++ formatInt a ++ [space] ++ formatInt b))
      with (lit "RefSize" :: fieldsFrom (formatInt a ++ [space] ++ formatInt b) []).
    rewrite fields_two. cbv iota beta.
    change (strEqb (lit "RefSize") (lit "Name")) with false.
    change (strEqb (lit "RefSize") (lit "RefSize")) with true.
    cbv iota. rewrite !Atoi_formatInt by assumption. reflexivity.
  - apply (TrimSpace_line k _ "R" (lit "efSize " ++ formatInt a ++ [space] ++ formatInt b));
      [reflexivity..|].
    auto with plain.
Qed.

Lemma line_Pos n p d k a b :
  curDef p = Some d -> GoInt.in_range a -> GoInt.in_range b ->
  processLine n p (dropCR (indentStr k ++ lit "Pos " ++ formatInt a ++ [space] ++ formatInt b))
  = inl (withDef p (mkDef (DefName d) (a, b) (Size d) (Flags d))).
Proof.
  intros Hd Ha Hb.
  rewrite (processLine_inner n p _ (lit "Pos " ++ formatInt a ++ [space] ++ formatInt b));
    try reflexivity.
  - unfold closeOrKeyValue.
    change (strEqb (lit "Pos " ++ formatInt a ++ [space] ++ formatInt b) (lit "}"))
      with false.
    cbv iota. unfold keyValue.
    change (Fields (lit "Pos " ++ formatInt a ++ [space] ++ formatInt b))
      with (lit "Pos" :: fieldsFrom (formatInt a ++ [space] ++ formatInt b) []).
    rewrite fields_two. cbv iota beta.
    change (strEqb (lit "Pos") (lit "Name")) with false.
    change (strEqb (lit "Pos") (lit "RefSize")) with false.
    change (strEqb (lit "Pos") (lit "Pos")) with true.
    cbv iota. rewrite Hd, !Atoi_formatInt by assumption. reflexivity.
  - apply (TrimSpace_line k _ "P" (lit "os " ++ formatInt a ++ [space] ++ formatInt b));
      [reflexivity..|].
    auto with plain.
Qed.

Lemma line_Size n p d k a b :
  curDef p = Some d -> GoInt.in_range a -> GoInt.in_range b ->
  processLine n p (dropCR (indentStr k ++ lit "Size " ++ formatInt a ++ [space] ++ formatInt b))
  = inl (withDef p (mkDef (DefName d) (Pos d) (a, b) (Flags d))).
Proof.
  intros Hd Ha Hb.
  rewrite (processLine_inner n p _ (lit "Size " ++ formatInt a ++ [space] ++ formatInt b));
    try reflexivity.
  - unfold closeOrKeyValue.
    change (strEqb (lit "Size " ++ formatInt a ++ [space] ++ formatInt b) (lit "}"))
      with false.
    cbv iota. unfold keyValue.
    change (Fields (lit "Size " ++ formatInt a ++ [space] ++ formatInt b))
      with (lit "Size" :: fieldsFrom (formatInt a ++ [space] ++ formatInt b) []).
    rewrite fields_two. cbv iota beta.
    change (strEqb (lit "Size") (lit "Name")) with false.
    change (strEqb (lit "Size") (lit "RefSize")) with false.
    change (strEqb (lit "Size") (lit "Pos")) with false.
    change (strEqb (lit "Size") (lit "Size")) with true.
    cbv iota. rewrite Hd, !Atoi_formatInt by assumption. reflexivity.
  - apply (TrimSpace_line k _ "S" (lit "ize " ++ formatInt a ++ [space] ++ formatInt b));
      [reflexivity..|].
    auto with plain.
Qed.

Lemma line_Flags n p d k a :
  curDef p = Some d -> GoInt.in_range a ->
  processLine n p (dropCR (indentStr k ++ lit "Flags " ++ formatInt a))
  = inl (withDef p (mkDef (DefName d) (Pos d) (Size d) a)).
Proof.
  intros Hd Ha.
  rewrite (processLine_inner n p _ (lit "Flags " ++ formatInt a)); try reflexivity.
  - unfold closeOrKeyValue.
    change (strEqb (lit "Flags " ++ formatInt a) (lit "}")) with false.
    cbv iota. unfold keyValue.
    change (Fields (lit "Flags " ++ formatInt a))
      with (lit "Flags" :: fieldsFrom (formatInt a) []).
    rewrite fields_one. cbv iota beta.
    change (strEqb (lit "Flags") (lit "Name")) with false.
    change (strEqb (lit "Flags") (lit "RefSize")) with false.
    change (strEqb (lit "Flags") (lit "Pos")) with false.
    change (strEqb (lit "Flags") (lit "Size")) with false.
    change (strEqb (lit "Flags") (lit "Flags")) with true.
    cbv iota. rewrite Hd. unfold parseFlags. rewrite Atoi_formatInt by assumption.
    reflexivity.
  - apply (TrimSpace_line k _ "F" (lit "lags " ++ formatInt a)); [reflexivity..|].
    auto with plain.
Qed.

(** ** The reader on the blocks of the writer *)

Lemma ln_app l a rest : ln l a ++ rest = ln l (a ++ rest).
Proof. unfold ln. rewrite <- app_assoc. reflexivity. Qed.

Lemma oneLine_quoted name : identStr name -> oneLine (dquote :: name ++ [dquote]).
Proof.
  intros H. apply (oneLine_app [dquote]); [reflexivity|].
  apply oneLine_app; [apply oneLine_ident, H|reflexivity].
Qed.

#[local] Hint Resolve oneLine_quoted className_ident NormalizeName_ident : oneline.

Ltac state_simpl :=
  cbn [closeBlock setName withDef result inImages inGroups inGroupImages curGroup
       curDef inDef Name Textures Images Groups RefSize GroupName GroupImages].

Section RoundTrip.

Variable Quote : str -> str.
Hypothesis Quote_ok : quoteContract Quote.
Variable camel : bool.

Lemma Quote_ident name : identStr name -> Quote name = dquote :: name ++ [dquote].
Proof. apply (proj1 Quote_ok). Qed.

Lemma oneLine_Quote s : oneLine (Quote s).
Proof. apply (proj2 Quote_ok). Qed.

Hint Resolve oneLine_Quote : oneline.

Lemma writeTexture_ln t k rest :
  writeTexture Quote t k ++ rest
  = ln (indentStr k ++ lit "ImageSetTextureClass {")
      (ln (indentStr (S k) ++ lit "mpix " ++ formatInt (Mpix t))
         (ln (indentStr (S k) ++ lit "path " ++ Quote (Path t))
            (ln (indentStr k ++ lit "}") rest))).
Proof.
  unfold writeTexture, ln. rewrite <- !indent_tab.
  repeat rewrite <- app_assoc. reflexivity.
Qed.

Lemma writeImageDef_ln d k rest :
  writeImageDef Quote d k camel ++ rest
  = ln (indentStr k ++ lit "ImageSetDefClass " ++ className (DefName d) camel ++ lit " {")
      (ln (indentStr (S k) ++ lit "Name " ++ Quote (NormalizeName (DefName d) camel))
         (ln (indentStr (S k) ++ lit "Pos " ++ formatInt (fst (Pos d)) ++ [space]
                ++ formatInt (snd (Pos d)))
            (ln (indentStr (S k) ++ lit "Size " ++ formatInt (fst (Size d)) ++ [space]
                   ++ formatInt (snd (Size d)))
               (ln (indentStr (S k) ++ lit "Flags " ++ formatInt (Flags d))
                  (ln (indentStr k ++ lit "}") rest))))).
Proof.
  unfold writeImageDef, ln. rewrite <- !indent_tab.
  repeat rewrite <- app_assoc. reflexivity.
Qed.

Lemma Reads_texture p t k rest r :
  closeBlock p = p ->
  Reads p rest r -> Reads p (writeTexture Quote t k ++ rest) r.
Proof.
  intros Hclose Hrest. rewrite writeTexture_ln.
  eapply Reads_line; [auto with oneline|intro; apply line_ImageSetTextureClass|].
  eapply Reads_line;
    [auto with oneline|intro; apply (line_ignored _ _ _ "m"); reflexivity|].
  eapply Reads_line;
    [auto with oneline|intro; apply (line_ignored _ _ _ "p"); reflexivity|].
  eapply Reads_line; [auto with oneline|intro; apply line_braces|].
  rewrite Hclose. exact Hrest.
Qed.

Lemma Reads_textures p texs k rest r :
  closeBlock p = p ->
  Reads p rest r ->
  Reads p (flat_map (fun tex => writeTexture Quote tex k) texs ++ rest) r.
Proof.
  intros Hclose Hrest. induction texs as [|t texs IH]; [exact Hrest|].
  cbn [flat_map]. rewrite <- app_assoc. apply Reads_texture; assumption.
Qed.

Lemma Reads_def s inI inG inGI cg d k rest r :
  defOk camel d ->
  Reads (closeBlock (mkParser s inI inG inGI cg (Some d) true)) rest r ->
  Reads (mkParser s inI inG inGI cg None false) (writeImageDef Quote d k camel ++ rest) r.
Proof.
  destruct d as [name [px py] [sx sy] fl].
  intros (Hname & [Hp1 Hp2] & [Hs1 Hs2] & Hf) Hrest. cbn [DefName Pos Size Flags] in *.
  cbn [fst snd] in *.
  rewrite writeImageDef_ln. cbn [DefName Pos Size Flags fst snd].
  pose proof (normalized_ident _ _ Hname) as Hid.
  unfold normalized in Hname. rewrite Hname, (Quote_ident name Hid).
  eapply Reads_line; [auto with oneline|intro; apply line_ImageSetDefClass|].
  eapply Reads_line; [auto with oneline|intro; apply line_Name, Hid|].
  eapply Reads_line;
    [auto with oneline|intro; eapply line_Pos; [reflexivity|assumption..]|].
  eapply Reads_line;
    [auto with oneline|intro; eapply line_Size; [reflexivity|assumption..]|].
  eapply Reads_line;
    [auto with oneline|intro; eapply line_Flags; [reflexivity|assumption]|].
  eapply Reads_line; [auto with oneline|intro; apply line_braces|].
  exact Hrest.
Qed.

Lemma Reads_defs_root imgs : forall nm tx im gr rs inI inG k rest r,
  Forall (defOk camel) imgs ->
  Reads (mkParser (mkImageSet nm tx (im ++ imgs) gr rs) inI inG false None None false)
    rest r ->
  Reads (mkParser (mkImageSet nm tx im gr rs) inI inG false None None false)
    (flat_map (fun img => writeImageDef Quote img k camel) imgs ++ rest) r.
Proof.
  induction imgs as [|d imgs IH]; intros nm tx im gr rs inI inG k rest r Hok Hrest.
  - rewrite app_nil_r in Hrest. exact Hrest.
  - inversion Hok as [|? ? Hd Himgs]; subst.
    cbn [flat_map]. rewrite <- app_assoc. apply Reads_def; [assumption|].
    state_simpl. apply IH; [assumption|]. rewrite <- app_assoc. exact Hrest.
Qed.

Lemma Reads_defs_group imgs : forall s inI inG gn gi k rest r,
  Forall (defOk camel) imgs ->
  Reads (mkParser s inI inG true (Some (mkGroup gn (gi ++ imgs))) None false) rest r ->
  Reads (mkParser s inI inG true (Some (mkGroup gn gi)) None false)
    (flat_map (fun img => writeImageDef Quote img k camel) imgs ++ rest) r.
Proof.
  induction imgs as [|d imgs IH]; intros s inI inG gn gi k rest r Hok Hrest.
  - rewrite app_nil_r in Hrest. exact Hrest.
  - inversion Hok as [|? ? Hd Himgs]; subst.
    cbn [flat_map]. rewrite <- app_assoc. apply Reads_def; [assumption|].
    state_simpl. apply IH; [assumption|]. rewrite <- app_assoc. exact Hrest.
Qed.

Lemma writeGroup_ln g k rest :
  writeGroup Quote g k camel ++ rest
  = ln (indentStr k ++ lit "ImageSetGroupClass " ++ className (GroupName g) camel ++ lit " {")
      (ln (indentStr (S k) ++ lit "Name " ++ Quote (NormalizeName (GroupName g) camel))
         (match GroupImages g with
          | [] => ln (indentStr k ++ lit "}") rest
          | _ =>
              ln (indentStr (S k) ++ lit "Images {")
                (flat_map (fun img => writeImageDef Quote img (k + 2) camel) (GroupImages g)
                 ++ ln (indentStr (S k) ++ lit "}") (ln (indentStr k ++ lit "}") rest))
          end)).
Proof.
  unfold writeGroup, ln. rewrite <- !indent_tab.
  destruct (GroupImages g); repeat rewrite <- app_assoc; reflexivity.
Qed.

Lemma Reads_group nm tx im gr rs g k rest r :
  groupOk camel g ->
  Reads (mkParser (mkImageSet nm tx im (gr ++ [g]) rs) false true false None None false)
    rest r ->
  Reads (mkParser (mkImageSet nm tx im gr rs) false true false None None false)
    (writeGroup Quote g k camel ++ rest) r.
Proof.
  destruct g as [name imgs]. intros [Hname Himgs] Hrest. cbn [GroupName GroupImages] in *.
  rewrite writeGroup_ln. cbn [GroupName GroupImages].
  pose proof (normalized_ident _ _ Hname) as Hid.
  unfold normalized in Hname. rewrite Hname, (Quote_ident name Hid).
  destruct (line_ImageSetGroupClass
              (mkParser (mkImageSet nm tx im gr rs) false true false None None false)
              k (className name camel)) as [name' Hheader].
  eapply Reads_line; [auto with oneline|exact Hheader|].
  eapply Reads_line; [auto with oneline|intro; apply line_Name, Hid|].
  state_simpl. destruct imgs as [|d imgs].
  - eapply Reads_line; [auto with oneline|intro; apply line_braces|].
    exact Hrest.
  - eapply Reads_line; [auto with oneline|intro; apply line_Images_group|].
    apply (Reads_defs_group (d :: imgs) _ _ _ name []); [assumption|].
    eapply Reads_line; [auto with oneline|intro; apply line_braces|].
    eapply Reads_line; [auto with oneline|intro; apply line_braces|].
    exact Hrest.
Qed.

Lemma Reads_groups groups : forall nm tx im gr rs k rest r,
  Forall (groupOk camel) groups ->
  Reads (mkParser (mkImageSet nm tx im (gr ++ groups) rs) false true false None None false)
    rest r ->
  Reads (mkParser (mkImageSet nm tx im gr rs) false true false None None false)
    (flat_map (fun g => writeGroup Quote g k camel) groups ++ rest) r.
Proof.
  induction groups as [|g groups IH]; intros nm tx im gr rs k rest r Hok Hrest.
  - rewrite app_nil_r in Hrest. exact Hrest.
  - inversion Hok as [|? ? Hg Hgroups]; subst.
    cbn [flat_map]. rewrite <- app_assoc. apply Reads_group; [assumption|].
    apply IH; [assumption|]. rewrite <- app_assoc. exact Hrest.
Qed.

Lemma writeImageSetClass_ln x k :
  writeImageSetClass Quote x k camel
  = ln (indentStr k ++ lit "ImageSetClass {")
      (ln (indentStr (S k) ++ lit "Name " ++ Quote (NormalizeName (Name x) camel))
         (ln (indentStr (S k) ++ lit "RefSize " ++ formatInt (fst (RefSize x)) ++ [space]
                ++ formatInt (snd (RefSize x)))
            (match Textures x with
             | [] => []
             | _ =>
                 ln (indentStr (S k) ++ lit "Textures {")
                   (flat_map (fun tex => writeTexture Quote tex (k + 2)) (Textures x)
                    ++ ln (indentStr (S k) ++ lit "}") [])
             end
             ++ match Images x with
                | [] => []
                | _ =>
                    ln (indentStr (S k) ++ lit "Images {")
                      (flat_map (fun img => writeImageDef Quote img (k + 2) camel) (Images x)
                       ++ ln (indentStr (S k) ++ lit "}") [])
                end
             ++ match Groups x with
                | [] => []
                | _ =>
                    ln (indentStr (S k) ++ lit "Groups {")
                      (flat_map (fun g => writeGroup Quote g (k + 2) camel) (Groups x)
                       ++ ln (indentStr (S k) ++ lit "}") [])
                end
             ++ ln (indentStr k ++ lit "}") []))).
Proof.
  unfold writeImageSetClass, ln. rewrite <- !indent_tab.
  destruct (Textures x), (Images x), (Groups x);
    repeat (rewrite <- app_assoc || rewrite <- app_comm_cons); reflexivity.
Qed.

Lemma Reads_Write x :
  entityOk camel x ->
  Reads startParser (Write Quote x camel) (inl (withoutTextures x)).
Proof.
  destruct x as [name texs imgs groups [rw rh]].
  intros (Hname & [Hw Hh] & Himgs & Hgroups).
  cbn [Name RefSize Images Groups fst snd] in *.
  unfold Write. rewrite writeImageSetClass_ln.
  cbn [Name Textures Images Groups RefSize fst snd].
  pose proof (normalized_ident _ _ Hname) as Hid.
  unfold normalized in Hname. rewrite Hname, (Quote_ident name Hid).
  eapply Reads_line; [auto with oneline|intro; apply line_ImageSetClass|].
  eapply Reads_line; [auto with oneline|intro; apply line_Name, Hid|].
  eapply Reads_line; [auto with oneline|intro; apply line_RefSize; assumption|].
  state_simpl.
  assert (Htail : forall im gr,
    Reads (mkParser (mkImageSet name [] im gr (rw, rh)) false false false None None false)
      (ln (indentStr 0 ++ lit "}") []) (inl (mkImageSet name [] im gr (rw, rh)))).
  { intros im gr.
    eapply Reads_line; [auto with oneline|intro; apply line_braces|].
    apply Reads_end. }
  assert (Hgr : forall im,
    Reads (mkParser (mkImageSet name [] im [] (rw, rh)) false false false None None false)
      (match groups with
       | [] => []
       | _ =>
           ln (indentStr 1 ++ lit "Groups {")
             (flat_map (fun g => writeGroup Quote g 2 camel) groups
              ++ ln (indentStr 1 ++ lit "}") [])
       end ++ ln (indentStr 0 ++ lit "}") [])
      (inl (mkImageSet name [] im groups (rw, rh)))).
  { intros im. destruct groups as [|g groups]; [apply Htail|].
    rewrite ln_app.
    eapply Reads_line; [auto with oneline|intro; apply line_Groups|].
    rewrite <- app_assoc.
    apply (Reads_groups (g :: groups) name [] im []); [assumption|].
    rewrite ln_app.
    eapply Reads_line; [auto with oneline|intro; apply line_braces|].
    apply Htail. }
  assert (Him :
    Reads (mkParser (mkImageSet name [] [] [] (rw, rh)) false false false None None false)
      (match imgs with
       | [] => []
       | _ =>
           ln (indentStr 1 ++ lit "Images {")
             (flat_map (fun img => writeImageDef Quote img 2 camel) imgs
              ++ ln (indentStr 1 ++ lit "}") [])
       end ++
       match groups with
       | [] => []
       | _ =>
           ln (indentStr 1 ++ lit "Groups {")
             (flat_map (fun g => writeGroup Quote g 2 camel) groups
              ++ ln (indentStr 1 ++ lit "}") [])
       end ++ ln (indentStr 0 ++ lit "}") [])
      (inl (mkImageSet name [] imgs groups (rw, rh)))).
  { destruct imgs as [|d imgs]; [apply Hgr|].
    rewrite ln_app.
    eapply Reads_line; [auto with oneline|intro; apply line_Images_root|].
    rewrite <- app_assoc.
    apply (Reads_defs_root (d :: imgs) name [] [] []); [assumption|].
    rewrite ln_app.
    eapply Reads_line; [auto with oneline|intro; apply line_braces|].
    apply Hgr. }
  destruct texs as [|t texs]; [exact Him|].
  rewrite ln_app.
  eapply Reads_line; [auto with oneline|intro; apply line_Textures|].
  rewrite <- app_assoc.
  apply Reads_textures; [reflexivity|].
  rewrite ln_app.
  eapply Reads_line; [auto with oneline|intro; apply line_braces|].
  exact Him.
Qed.

End RoundTrip.

(** ** The round trip *)

Lemma withoutTextures_id x : Textures x = [] -> withoutTextures x = x.
Proof. destruct x. unfold withoutTextures. cbn. intros ->. reflexivity. Qed.

(** C6 (amended).  Let [x] be an imageset entity whose root, group and image
    names are left unchanged by [NormalizeName] (for the [useCamelCase] flag
    given to the writer) and whose integers are in the range of [int].  If no
    line of the text [Write] produces reaches the token limit of the scanner,
    [ReadFile] accepts that text and returns [x] without its textures: the
    same name, reference size, root images, groups, and for every image the
    same name, position, size and flags, in the same order.  It returns [x]
    itself when [x] has no texture. *)
Theorem ReadFile_Write_roundtrip (Quote : str -> str) (camel : bool) (x : ImageSetClass) :
  quoteContract Quote ->
  entityOk camel x ->
  linesFit (Write Quote x camel) ->
  ReadFile (Write Quote x camel) = inl (withoutTextures x)
  /\ (Textures x = [] -> ReadFile (Write Quote x camel) = inl x).
Proof.
  intros HQ Hx Hfit.
  assert (H : ReadFile (Write Quote x camel) = inl (withoutTextures x)).
  { apply (Reads_Write Quote HQ camel x Hx 0%nat Hfit). }
  split; [exact H|].
  intros Hno. rewrite H, (withoutTextures_id x Hno). reflexivity.
Qed.

Lemma quoteEscape_ident :
  forall c, implb (identChar c) (strEqb (quoteEscape c) [c]) = true.
Proof. by_enumeration. Qed.

Lemma quoteEscape_oneLine :
  forall c, forallb (fun c' => negb (Ascii.eqb c' newline)) (quoteEscape c) = true.
Proof. by_enumeration. Qed.

Lemma strEqb_eq a : forall b, strEqb a b = true -> a = b.
Proof.
  induction a as [|x a IH]; intros [|y b]; simpl; try discriminate; [reflexivity|].
  rewrite andb_true_iff. intros [Hxy Hab].
  apply Ascii.eqb_eq in Hxy. subst y. f_equal. auto.
Qed.

Lemma quoteASCII_contract : quoteContract quoteASCII.
Proof.
  split.
  - intros s Hs. unfold quoteASCII. do 2 f_equal.
    induction s as [|c s IH]; [reflexivity|].
    simpl in Hs. apply andb_true_iff in Hs. destruct Hs as [Hc Hs].
    cbn [flat_map]. rewrite (IH Hs).
    rewrite (strEqb_eq _ _ (implb_apply _ _ (quoteEscape_ident c) Hc)). reflexivity.
  - intros s. unfold quoteASCII.
    apply (oneLine_app [dquote]); [reflexivity|].
    apply oneLine_app; [|reflexivity].
    induction s as [|c s IH]; [reflexivity|].
    cbn [flat_map]. apply oneLine_app; [apply quoteEscape_oneLine|exact IH].
Qed.

Lemma ReadFile_Write_witness :
  ReadFile (Write quoteASCII smoke_entity false) = inl (withoutTextures smoke_entity)
  /\ (Textures smoke_entity = [] ->
      ReadFile (Write quoteASCII smoke_entity false) = inl smoke_entity).
Proof.
  apply (ReadFile_Write_roundtrip quoteASCII false smoke_entity).
  - exact quoteASCII_contract.
  - unfold entityOk, groupOk, defOk, intPair, normalized, GoInt.in_range,
      GoInt.int_min, GoInt.int_max.
    cbn [smoke_entity Name RefSize Images Groups].
    repeat (apply Forall_cons || apply Forall_nil || split);
      cbn [GroupName GroupImages DefName Pos Size Flags fst snd];
      try reflexivity; lia.
  - unfold linesFit. vm_compute. repeat constructor.
Defined.

(** C6, as stated, fails: an entity with normalized names and one texture is
    read back without the texture. *)
Lemma ReadFile_Write_drops_textures :
  entityOk false textured_entity
  /\ ReadFile (Write quoteASCII textured_entity false)
     = inl (withoutTextures textured_entity)
  /\ withoutTextures textured_entity <> textured_entity.
Proof.
  split; [|split].
  - unfold entityOk, intPair, normalized, GoInt.in_range, GoInt.int_min, GoInt.int_max.
    cbn [textured_entity Name RefSize Images Groups fst snd].
    repeat (apply Forall_nil || split); try reflexivity; lia.
  - vm_compute. reflexivity.
  - discriminate.
Qed.

End ImagesetProofs.

(* ===================================================================== *)
(** * The packer: further properties of the code *)
(* ===================================================================== *)

Module PackerExtra.
Import GoInt GoIntFacts Packer PackerSpec PackerExtraSpec PackerProofs.

(** ** [Insert] *)

(** X1.  A successful [Insert] into a bin that satisfies the MaxRects
    invariant returns a rectangle of the requested size (turned by 90 degrees
    only when the bin allows rotation) that lies inside the bin and overlaps
    no rectangle placed before; the rectangle is appended to the used list
    and the invariant holds again. *)
Theorem Insert_success_keeps_bin m w h rule m' rect :
  binInv m -> in_range w -> in_range h ->
  Insert m w h rule = Some (m', (rect, true)) ->
  binInv m'
  /\ used m' = used m ++ [rect]
  /\ ((W rect = w /\ H rect = h /\ Rotated rect = false)
      \/ (W rect = h /\ H rect = w /\ Rotated rect = true /\ allowRotate m = true))
  /\ 0 <= X rect /\ 0 <= Y rect
  /\ X rect + W rect <= mw m /\ Y rect + H rect <= mh m
  /\ (forall u, In u (used m) -> rectDisjoint rect u).
Proof.
  intros Hinv Hw Hh HI.
  destruct (Insert_inv m w h rule m' rect Hinv Hw Hh HI)
    as (Hinv' & Hused & Hmw & Hmh & _ & Hprop).
  split; [exact Hinv'|]. split; [exact Hused|].
  split.
  { destruct Hprop as (fr & _ & _ & _ & [(? & ? & ? & _)|(? & ? & ? & ? & _)]); auto. }
  pose proof (inv_used m' Hinv') as Hok. rewrite Hused, Hmw, Hmh in Hok.
  apply Forall_app in Hok. destruct Hok as [_ Hrect].
  inversion Hrect as [|? ? (Hx & Hy & _ & _ & Hxw & Hyh) _]; subst.
  repeat (split; [assumption|]).
  intros u Hu.
  destruct (In_nth_error _ _ Hu) as [j Hj].
  assert (Hlt : (j < length (used m))%nat).
  { apply nth_error_Some. rewrite Hj. discriminate. }
  apply (inv_disj m' Hinv' (length (used m)) j).
  - lia.
  - rewrite Hused, nth_error_app2, Nat.sub_diag by lia. reflexivity.
  - rewrite Hused, nth_error_app1; [exact Hj|exact Hlt].
Qed.

Lemma Insert_success_witness :
  let m := sample_bin in
  let rect := mkRect 0 0 7 16 false in
  let m' := mkMaxRects [rect] [mkRect 0 16 32 16 false; mkRect 7 0 25 32 false] 32 32 false in
  binInv m'
  /\ used m' = used m ++ [rect]
  /\ ((W rect = 7 /\ H rect = 16 /\ Rotated rect = false)
      \/ (W rect = 16 /\ H rect = 7 /\ Rotated rect = true /\ allowRotate m = true))
  /\ 0 <= X rect /\ 0 <= Y rect
  /\ X rect + W rect <= mw m /\ Y rect + H rect <= mh m
  /\ (forall u, In u (used m) -> rectDisjoint rect u).
Proof.
  apply (Insert_success_keeps_bin sample_bin 7 16 BottomLeft).
  - apply newMaxRects_inv; unfold int_max; lia.
  - unfold in_range, int_min, int_max. lia.
  - unfold in_range, int_min, int_max. lia.
  - reflexivity.
Defined.

(** ** The placement loop *)

Lemma placeAll_entries cfg rule : forall imgs bin acc res,
  placeAll cfg rule bin imgs acc = Some (inl res) ->
  map placementEntry res = map placementEntry acc ++ map imageEntry imgs.
Proof.
  induction imgs as [|im rest IH]; intros bin acc res; cbn [placeAll].
  - intros [= <-]. cbn. rewrite app_nil_r. reflexivity.
  - destruct (Insert bin _ _ rule) as [[bin' [rect ok]]|]; [|discriminate].
    destruct ok; cbn [negb]; [|discriminate].
    intros Hrest. rewrite (IH _ _ _ Hrest), map_app.
    cbn [map]. rewrite <- app_assoc. reflexivity.
Qed.

Section EveryImage.
Variable sort_Slice : (ImageInfo -> ImageInfo -> bool) -> list ImageInfo -> list ImageInfo.
Hypothesis sort_Slice_perm : forall less l, Permutation l (sort_Slice less l).

(** X2.  When [Pack] succeeds it returns exactly one placement per input
    image, in the order of the sorted input, each with the name, width and
    height of its image (the stored size is the unrotated one); so the
    placements are the input images up to order. *)
Theorem Pack_places_every_image_once images cfg r :
  Pack sort_Slice images cfg = Some (inl r) ->
  map placementEntry (Placements r)
  = map imageEntry (sortImagesForPacking sort_Slice images cfg)
  /\ Permutation (map imageEntry images) (map placementEntry (Placements r)).
Proof.
  intros HP.
  assert (Hmap : map placementEntry (Placements r)
                 = map imageEntry (sortImagesForPacking sort_Slice images cfg)).
  { revert HP. unfold Pack.
    destruct (negb (validateConfig cfg)); [discriminate|].
    destruct images as [|im0 images'].
    - intros [= <-]. unfold sortImagesForPacking.
      pose proof (sort_Slice_perm (lessForPacking cfg) []) as Hp.
      apply Permutation_nil in Hp. rewrite Hp. reflexivity.
    - destruct (findOptimalSize _ cfg) as [[w h]|]; [|discriminate].
      destruct ((MaxSize cfg <? w) || (MaxSize cfg <? h)); [discriminate|].
      destruct (placeAll _ _ _ _ _) as [[ps|e]|] eqn:Hplace; try discriminate.
      intros [= <-]. cbn [Placements].
      apply placeAll_entries in Hplace. exact Hplace. }
  split; [exact Hmap|].
  rewrite Hmap. apply Permutation_map. apply sort_Slice_perm.
Qed.

End EveryImage.

Lemma Pack_places_every_image_witness :
  map placementEntry (Placements scenario_result)
  = map imageEntry (sortImagesForPacking insertionSort scenario_images scenario_cfg)
  /\ Permutation (map imageEntry scenario_images)
       (map placementEntry (Placements scenario_result)).
Proof.
  apply (Pack_places_every_image_once insertionSort
           (fun less l => proj1 (insertionSort_contract less l))
           scenario_images scenario_cfg scenario_result).
  vm_compute. reflexivity.
Defined.

(** ** The fit test of the size search *)

Lemma canFit_loop_placeAll cfg rule : forall imgs bin acc,
  match canFit_loop bin imgs cfg rule with
  | Some true => exists ps, placeAll cfg rule bin imgs acc = Some (inl ps)
  | Some false => exists name, placeAll cfg rule bin imgs acc
                               = Some (inr (ErrFailedToPlace name))
  | None => placeAll cfg rule bin imgs acc = None
  end.
Proof.
  induction imgs as [|im rest IH]; intros bin acc; cbn [canFit_loop placeAll].
  - eauto.
  - destruct (Insert bin _ _ rule) as [[bin' [rect ok]]|]; [|reflexivity].
    destruct ok; cbn [negb]; [apply IH|eauto].
Qed.

(** X3.  The fit test [canFitMaxRects] of the size search and the placement
    loop of [Pack] agree: the test answers true exactly when the loop, run on
    a fresh bin of that size, places every image, and false exactly when the
    loop fails to place one. *)
Theorem canFitMaxRects_agrees_with_placement images w h cfg rule :
  let bin := newMaxRects w h (AllowRotate cfg) in
  (canFitMaxRects images w h cfg rule = Some true
   <-> exists ps, placeAll cfg rule bin images [] = Some (inl ps))
  /\ (canFitMaxRects images w h cfg rule = Some false
      <-> exists name, placeAll cfg rule bin images [] = Some (inr (ErrFailedToPlace name))).
Proof.
  cbv zeta. unfold canFitMaxRects.
  pose proof (canFit_loop_placeAll cfg rule images (newMaxRects w h (AllowRotate cfg)) [])
    as Hloop.
  destruct (canFit_loop _ images cfg rule) as [[|]|].
  - destruct Hloop as [ps Hps]. rewrite Hps.
    split; split; intros Hx; eauto; try discriminate.
    destruct Hx as [? Hx]; discriminate.
  - destruct Hloop as [name Hn]. rewrite Hn.
    split; split; intros Hx; eauto; try discriminate.
    destruct Hx as [? Hx]; discriminate.
  - rewrite Hloop.
    split; split; intros Hx; try discriminate; destruct Hx as [? Hx]; discriminate.
Qed.

(** ** Powers of two (util.go) *)

(** The least exponent [k] with [n <= 2^k]. *)
Lemma log2_up_bounds n :
  0 < n <= 2 ^ 62 ->
  0 <= Z.log2_up n <= 62
  /\ n <= 2 ^ Z.log2_up n
  /\ (Z.log2_up n = 0 \/ 2 ^ (Z.log2_up n - 1) < n).
Proof.
  intros Hn. pose proof (Z.log2_up_nonneg n) as H0.
  destruct (Z.eq_dec n 1) as [->|Hne].
  - cbn. lia.
  - pose proof (Z.log2_up_spec n ltac:(lia)) as [Hlo Hhi].
    rewrite <- Z.sub_1_r in Hlo. split; [|split; [lia|right; lia]].
    split; [assumption|].
    destruct (Z_le_gt_dec (Z.log2_up n) 62) as [|Hgt]; [assumption|exfalso].
    assert (2 ^ 62 <= 2 ^ (Z.log2_up n - 1)) by (apply Z.pow_le_mono_r; lia). lia.
Qed.

Lemma log2_up_by_bounds n k :
  0 <= k -> n <= 2 ^ k -> (k = 0 \/ 2 ^ (k - 1) < n) -> 0 < n -> Z.log2_up n = k.
Proof.
  intros Hk Hhi Hlo Hn. destruct Hlo as [->|Hlo].
  - assert (n = 1) as -> by (cbn in Hhi; lia). reflexivity.
  - destruct (Z.eq_dec k 0) as [->|Hk0].
    + assert (n = 1) as -> by (cbn in Hhi; lia). reflexivity.
    + apply Z.log2_up_unique; [lia|]. rewrite <- Z.sub_1_r. lia.
Qed.

Lemma nextPowerOfTwo_loop_least n : forall fuel j,
  0 < n <= 2 ^ 62 -> 0 <= j <= 62 -> (j = 0 \/ 2 ^ (j - 1) < n) ->
  (Z.to_nat (63 - j) <= fuel)%nat ->
  nextPowerOfTwo_loop fuel (2 ^ j) n = Some (2 ^ Z.log2_up n).
Proof.
  induction fuel as [|fuel IH]; intros j Hn Hj Hlow Hfuel; [lia|].
  cbn [nextPowerOfTwo_loop].
  destruct (2 ^ j <? n) eqn:E; b2p.
  - assert (Hj62 : j < 62).
    { destruct (Z.eq_dec j 62) as [->|]; lia. }
    rewrite dbl_pow2 by lia. apply IH; try lia.
    right. replace (j + 1 - 1) with j by lia. exact E.
  - f_equal. f_equal. symmetry. apply log2_up_by_bounds; lia.
Qed.

Lemma nextPowerOfTwo_value n :
  0 < n <= 2 ^ 62 -> nextPowerOfTwo n = Some (2 ^ Z.log2_up n).
Proof.
  intros Hn. unfold nextPowerOfTwo.
  destruct (n <=? 0) eqn:E0; b2p; [lia|].
  rewrite sub_small by range.
  destruct (Z.land n (n - 1) =? 0) eqn:E1; b2p.
  - destruct (land_pred_zero_pow2 n ltac:(lia) E1) as (k & Hk & ->).
    f_equal. f_equal. symmetry. apply log2_up_by_bounds; try lia.
    destruct (Z.eq_dec k 0) as [|Hk0]; [left; assumption|right].
    apply Z.pow_lt_mono_r; lia.
  - apply (nextPowerOfTwo_loop_least n loopFuel 0); unfold loopFuel; lia.
Qed.

(** X4.  For [0 < n <= 2^62], [nextPowerOfTwo n] returns the least power of
    two that is at least [n]. *)
Theorem nextPowerOfTwo_is_least_power_of_two n :
  0 < n <= 2 ^ 62 ->
  exists k, 0 <= k <= 62
    /\ nextPowerOfTwo n = Some (2 ^ k)
    /\ n <= 2 ^ k
    /\ (forall j, 0 <= j -> n <= 2 ^ j -> 2 ^ k <= 2 ^ j).
Proof.
  intros Hn. destruct (log2_up_bounds n Hn) as (Hk & Hhi & Hlo).
  exists (Z.log2_up n). split; [exact Hk|]. split; [apply nextPowerOfTwo_value, Hn|].
  split; [exact Hhi|].
  intros j Hj Hnj. apply Z.pow_le_mono_r; [lia|].
  destruct Hlo as [->|Hlo]; [exact Hj|].
  destruct (Z_le_gt_dec (Z.log2_up n) j) as [|Hgt]; [assumption|exfalso].
  assert (2 ^ j <= 2 ^ (Z.log2_up n - 1)) by (apply Z.pow_le_mono_r; lia). lia.
Qed.

Lemma nextPowerOfTwo_least_witness :
  exists k, 0 <= k <= 62
    /\ nextPowerOfTwo 100 = Some (2 ^ k)
    /\ 100 <= 2 ^ k
    /\ (forall j, 0 <= j -> 100 <= 2 ^ j -> 2 ^ k <= 2 ^ j).
Proof. apply (nextPowerOfTwo_is_least_power_of_two 100). lia. Defined.

Lemma nextPowerOfTwo_loop_stuck n : forall fuel p,
  2 ^ 62 < n -> doubled p -> nextPowerOfTwo_loop fuel p n = None.
Proof.
  induction fuel as [|fuel IH]; intros p Hn Hp; cbn [nextPowerOfTwo_loop].
  - assert (Hlt : (p <? n) = true).
    { apply Z.ltb_lt. destruct Hp as [(k & Hk & ->)|[ -> | -> ]];
        [pose proof (pow2_le_62 k Hk)|..]; lia. }
    rewrite Hlt. reflexivity.
  - assert (Hlt : (p <? n) = true).
    { apply Z.ltb_lt. destruct Hp as [(k & Hk & ->)|[ -> | -> ]];
        [pose proof (pow2_le_62 k Hk)|..]; lia. }
    rewrite Hlt. apply IH; [assumption|apply doubled_dbl, Hp].
Qed.

(** X5.  For [2^62 < n <= 2^63 - 1] the loop of [nextPowerOfTwo] never
    ends: the counter doubles past [2^62], wraps around to [-2^63], then to
    0, and stays below [n] for ever. *)
Theorem nextPowerOfTwo_never_returns_above_2_62 n :
  2 ^ 62 < n <= int_max -> nextPowerOfTwo n = None.
Proof.
  intros Hn. unfold nextPowerOfTwo.
  destruct (n <=? 0) eqn:E0; b2p; [lia|].
  rewrite sub_small by range.
  destruct (Z.land n (n - 1) =? 0) eqn:E1; b2p.
  - exfalso. destruct (land_pred_zero_pow2 n ltac:(lia) E1) as (k & Hk & ->).
    pose proof (pow2_in_range k Hk ltac:(lia)) as Hk62.
    pose proof (pow2_le_62 k ltac:(lia)). lia.
  - apply nextPowerOfTwo_loop_stuck; [lia|].
    left. exists 0. split; [lia|reflexivity].
Qed.

Lemma nextPowerOfTwo_never_returns_witness : nextPowerOfTwo (2 ^ 62 + 1) = None.
Proof.
  apply (nextPowerOfTwo_never_returns_above_2_62 (2 ^ 62 + 1)).
  unfold int_max. lia.
Defined.

Lemma powerOfTwoCeil_loop_least n : forall fuel j,
  0 < n <= 2 ^ 62 -> 0 <= j <= 62 -> (j = 0 \/ 2 ^ (j - 1) < n) ->
  (Z.to_nat (63 - j) <= fuel)%nat ->
  powerOfTwoCeil_loop fuel j (2 ^ j) n = Some (Z.log2_up n).
Proof.
  induction fuel as [|fuel IH]; intros j Hn Hj Hlow Hfuel; [lia|].
  cbn [powerOfTwoCeil_loop].
  destruct (2 ^ j <? n) eqn:E; b2p.
  - assert (Hj62 : j < 62).
    { destruct (Z.eq_dec j 62) as [->|]; lia. }
    rewrite dbl_pow2 by lia. rewrite add_small by range. apply IH; try lia.
    right. replace (j + 1 - 1) with j by lia. exact E.
  - f_equal. symmetry. apply log2_up_by_bounds; lia.
Qed.

Lemma powerOfTwoCeil_value n :
  0 < n <= 2 ^ 62 -> powerOfTwoCeil n = Some (Z.log2_up n).
Proof.
  intros Hn. unfold powerOfTwoCeil.
  destruct (n <=? 0) eqn:E0; b2p; [lia|].
  apply (powerOfTwoCeil_loop_least n loopFuel 0); unfold loopFuel; lia.
Qed.

(** X6.  For sizes in [1, 2^62], [absPowerDiff a b] is the distance between
    the exponents of the least powers of two above [a] and above [b]. *)
Theorem absPowerDiff_is_exponent_distance a b :
  0 < a <= 2 ^ 62 -> 0 < b <= 2 ^ 62 ->
  absPowerDiff a b = Some (Z.abs (Z.log2_up a - Z.log2_up b)).
Proof.
  intros Ha Hb. unfold absPowerDiff.
  rewrite (powerOfTwoCeil_value a Ha), (powerOfTwoCeil_value b Hb).
  destruct (log2_up_bounds a Ha) as (Hka & _). destruct (log2_up_bounds b Hb) as (Hkb & _).
  rewrite sub_small by range. f_equal.
  destruct (Z.log2_up a - Z.log2_up b <? 0) eqn:E; b2p.
  - unfold neg. rewrite wrap_small by range. lia.
  - lia.
Qed.

Lemma absPowerDiff_witness :
  absPowerDiff 100 17 = Some (Z.abs (Z.log2_up 100 - Z.log2_up 17)).
Proof. apply (absPowerDiff_is_exponent_distance 100 17); lia. Defined.

(** ** [pruneFree] *)

Lemma containedIn_refl a : containedIn a a = true.
Proof. unfold containedIn. rewrite !Z.leb_refl. reflexivity. Qed.

Lemma containedIn_trans a b c :
  containedIn a b = true -> containedIn b c = true -> containedIn a c = true.
Proof.
  unfold containedIn. intros Hab Hbc. b2p.
  repeat (apply andb_true_intro; split); apply Z.leb_le; lia.
Qed.

Lemma pruneInner_kept a : forall rest rest',
  pruneInner a rest = (false, rest') ->
  Forall (incomparable a) rest'
  /\ (forall x, In x rest -> In x rest' \/ containedIn x a = true).
Proof.
  induction rest as [|b tl IH]; intros rest'; cbn [pruneInner].
  - intros [= <-]. split; [constructor|intros x []].
  - destruct (containedIn a b) eqn:Eab; [discriminate|].
    destruct (containedIn b a) eqn:Eba.
    + intros Htl. destruct (IH _ Htl) as [Hall Hcov]. split; [exact Hall|].
      intros x [<-|Hx]; [right; exact Eba|apply Hcov, Hx].
    + destruct (pruneInner a tl) as [r l] eqn:Etl. intros [= -> <-].
      destruct (IH _ eq_refl) as [Hall Hcov]. split.
      * constructor; [split; assumption|exact Hall].
      * intros x [<-|Hx]; [left; left; reflexivity|].
        destruct (Hcov x Hx); [left; right; assumption|right; assumption].
Qed.

Lemma pruneInner_removed a : forall rest rest',
  pruneInner a rest = (true, rest') ->
  (exists b, In b rest' /\ containedIn a b = true)
  /\ (forall x, In x rest -> In x rest' \/ containedIn x a = true).
Proof.
  induction rest as [|b tl IH]; intros rest'; cbn [pruneInner]; [discriminate|].
  destruct (containedIn a b) eqn:Eab.
  - intros [= <-]. split; [exists b; split; [left; reflexivity|exact Eab]|].
    intros x Hx. left. exact Hx.
  - destruct (containedIn b a) eqn:Eba.
    + intros Htl. destruct (IH _ Htl) as [Hex Hcov]. split; [exact Hex|].
      intros x [<-|Hx]; [right; exact Eba|apply Hcov, Hx].
    + destruct (pruneInner a tl) as [r l] eqn:Etl. intros [= -> <-].
      destruct (IH _ eq_refl) as [(c & Hc & Hac) Hcov]. split.
      * exists c. split; [right; exact Hc|exact Hac].
      * intros x [<-|Hx]; [left; left; reflexivity|].
        destruct (Hcov x Hx); [left; right; assumption|right; assumption].
Qed.

Lemma pruneInner_length a : forall rest,
  (length (snd (pruneInner a rest)) <= length rest)%nat.
Proof.
  induction rest as [|b tl IH]; cbn [pruneInner]; [cbn; lia|].
  destruct (containedIn a b); [cbn; lia|].
  destruct (containedIn b a); [cbn [length]; lia|].
  destruct (pruneInner a tl) as [r l]; cbn [snd length] in *. lia.
Qed.

Lemma pruneOuter_antichain n : forall l,
  (length l <= n)%nat ->
  ForallOrdPairs incomparable (pruneOuter n l)
  /\ (forall x, In x l -> exists y, In y (pruneOuter n l) /\ containedIn x y = true).
Proof.
  induction n as [|n IH]; intros l Hlen.
  - destruct l; [|cbn in Hlen; lia]. cbn. split; [constructor|intros x []].
  - destruct l as [|a rest]; [cbn; split; [constructor|intros x []]|].
    cbn [pruneOuter]. cbn [length] in Hlen.
    pose proof (pruneInner_length a rest) as Hlen'.
    destruct (pruneInner a rest) as [removed rest'] eqn:Einner. cbn [snd] in Hlen'.
    destruct (IH rest' ltac:(lia)) as [Hpairs Hcov].
    destruct removed.
    + destruct (pruneInner_removed a rest rest' Einner) as [(b & Hb & Hab) Hdrop].
      split; [exact Hpairs|].
      assert (Ha : exists y, In y (pruneOuter n rest') /\ containedIn a y = true).
      { destruct (Hcov b Hb) as (y & Hy & Hby). exists y. split; [exact Hy|].
        eapply containedIn_trans; eassumption. }
      intros x [<-|Hx]; [exact Ha|].
      destruct (Hdrop x Hx) as [Hkeep|Hxa]; [apply Hcov, Hkeep|].
      destruct Ha as (y & Hy & Hay). exists y. split; [exact Hy|].
      eapply containedIn_trans; eassumption.
    + destruct (pruneInner_kept a rest rest' Einner) as [Hall Hdrop]. split.
      * constructor; [|exact Hpairs].
        rewrite Forall_forall in *. intros y Hy. apply Hall.
        eapply pruneOuter_incl, Hy.
      * intros x [<-|Hx]; [exists a; split; [left; reflexivity|apply containedIn_refl]|].
        destruct (Hdrop x Hx) as [Hkeep|Hxa].
        -- destruct (Hcov x Hkeep) as (y & Hy & Hxy). exists y. split; [right|]; assumption.
        -- exists a. split; [left; reflexivity|exact Hxa].
Qed.

(** X7.  [pruneFree] only removes rectangles: what it keeps was in the list;
    among the rectangles it keeps none contains another; and every rectangle
    of the list is still contained in one that is kept. *)
Theorem pruneFree_keeps_maximal_rectangles l :
  (forall x, In x (pruneFree l) -> In x l)
  /\ ForallOrdPairs incomparable (pruneFree l)
  /\ (forall x, In x l -> exists y, In y (pruneFree l) /\ containedIn x y = true).
Proof.
  split; [apply pruneFree_incl|].
  apply (pruneOuter_antichain (length l) l). lia.
Qed.

(** ** Scores of [Insert] *)

(** X8.  Under [BestAreaFit] an empty bin whose area exceeds the area of the
    requested rectangle by more than [2^30] rejects the rectangle although it
    fits: the scan starts from the scores [1 << 30] and only takes a strictly
    better candidate. *)
Theorem Insert_rejects_area_leftover_above_2_30 bw bh rot w h :
  0 < w <= bw -> 0 < h <= bh -> bw * bh <= int_max ->
  2 ^ 30 < bw * bh - w * h ->
  Insert (newMaxRects bw bh rot) w h BestAreaFit
  = Some (newMaxRects bw bh rot, (zeroRect, false)).
Proof.
  intros Hw Hh Harea Hleft.
  assert (Hwh : 0 < w * h <= bw * bh) by nia.
  assert (Hhw : h * w = w * h) by lia.
  assert (Hbetter : forall s, better (bw * bh - w * h) s (2 ^ 30) (2 ^ 30) = false).
  { intros s. unfold better.
    destruct (bw * bh - w * h <? 2 ^ 30) eqn:E1; b2p; [lia|].
    destruct (bw * bh - w * h =? 2 ^ 30) eqn:E2; b2p; [lia|reflexivity]. }
  unfold Insert, insertScan, newMaxRects. cbn [free fold_left].
  unfold insertStep. cbn [W H X Y allowRotate].
  assert (Hs : forall rw rh, rw * rh = w * h ->
            fst (score (mkMaxRects [] [mkRect 0 0 bw bh false] bw bh rot) BestAreaFit
                   (mkRect 0 0 bw bh false) rw rh) = bw * bh - w * h).
  { intros rw rh Hrw. unfold score. cbn [W H X Y].
    change (BestAreaFit =? BestShortSideFit) with false.
    change (BestAreaFit =? BestLongSideFit) with false.
    change (BestAreaFit =? BestAreaFit) with true. cbv iota. cbn [fst].
    rewrite (mul_small bw bh) by range. rewrite (mul_small rw rh) by range.
    rewrite Hrw. apply sub_small. range. }
  assert (Hfit : (w <=? bw) && (h <=? bh) = true).
  { apply andb_true_intro. split; apply Z.leb_le; lia. }
  rewrite Hfit.
  pose proof (Hs w h eq_refl) as Hs1. pose proof (Hs h w Hhw) as Hs2.
  destruct (score _ BestAreaFit _ w h) as [p1 s1]. cbn [fst] in Hs1. subst p1.
  rewrite Hbetter.
  destruct (rot && (h <=? bw) && (w <=? bh)); [|reflexivity].
  destruct (score _ BestAreaFit _ h w) as [p2 s2]. cbn [fst] in Hs2. subst p2.
  rewrite Hbetter. reflexivity.
Qed.

Lemma Insert_rejects_area_witness :
  Insert (newMaxRects 65536 32768 false) 1 1 BestAreaFit
  = Some (newMaxRects 65536 32768 false, (zeroRect, false)).
Proof.
  apply (Insert_rejects_area_leftover_above_2_30 65536 32768 false 1 1);
    unfold int_max; lia.
Defined.

(** ** The size search *)

Lemma maxPadded_bounds cfg images :
  0 <= Gap cfg ->
  Forall (paddedSmall cfg) images ->
  let '(minW, minH) := maxPadded cfg images in
  0 <= minW <= 2 ^ 62 /\ 0 <= minH <= 2 ^ 62
  /\ Forall (fun im => Width im + 2 * Gap cfg <= minW
                       /\ Height im + 2 * Gap cfg <= minH) images.
Proof.
  intros Hgap. unfold maxPadded.
  assert (G : forall l a b, Forall (paddedSmall cfg) l ->
    0 <= a <= 2 ^ 62 -> 0 <= b <= 2 ^ 62 ->
    let '(minW, minH) :=
      fold_left (fun '(minW, minH) im =>
                   let w := padded cfg (Width im) in
                   let h := padded cfg (Height im) in
                   (if minW <? w then w else minW, if minH <? h then h else minH))
                l (a, b) in
    a <= minW <= 2 ^ 62 /\ b <= minH <= 2 ^ 62
    /\ Forall (fun im => Width im + 2 * Gap cfg <= minW
                         /\ Height im + 2 * Gap cfg <= minH) l).
  { induction l as [|im l IH]; intros a b Hl Ha Hb; cbn [fold_left].
    - repeat split; try lia. constructor.
    - inversion Hl as [|? ? (Hw0 & Hh0 & Hw & Hh) Hl']; subst.
      rewrite !padded_exact by (unfold int_max; lia).
      set (a' := if a <? Width im + 2 * Gap cfg then Width im + 2 * Gap cfg else a).
      set (b' := if b <? Height im + 2 * Gap cfg then Height im + 2 * Gap cfg else b).
      assert (Ha' : a <= a' <= 2 ^ 62 /\ Width im + 2 * Gap cfg <= a').
      { subst a'. destruct (a <? _) eqn:E; b2p; lia. }
      assert (Hb' : b <= b' <= 2 ^ 62 /\ Height im + 2 * Gap cfg <= b').
      { subst b'. destruct (b <? _) eqn:E; b2p; lia. }
      clearbody a' b'.
      specialize (IH a' b' Hl' ltac:(lia) ltac:(lia)).
      destruct (fold_left _ l (a', b')) as [minW minH].
      destruct IH as (HW & HH & Hall). repeat split; try lia.
      constructor; [lia|exact Hall]. }
  intros Himgs. specialize (G images 0 0 Himgs ltac:(lia) ltac:(lia)).
  destruct (fold_left _ images (0, 0)) as [minW minH]. tauto.
Qed.

Lemma startSize_covers cfg images :
  0 < MinSize cfg -> 0 <= Gap cfg ->
  Forall (paddedSmall cfg) images ->
  exists size, startSize cfg images = Some size
    /\ MinSize cfg <= size
    /\ Forall (fun im => Width im + 2 * Gap cfg <= size
                         /\ Height im + 2 * Gap cfg <= size) images.
Proof.
  intros Hmin Hgap Himgs. unfold startSize.
  pose proof (maxPadded_bounds cfg images Hgap Himgs) as Hb.
  destruct (maxPadded cfg images) as [minW minH]. destruct Hb as (HW & HH & Hall).
  assert (H1 : exists s1,
    (if MinSize cfg <? minW then nextPowerOfTwo minW else Some (MinSize cfg)) = Some s1
    /\ MinSize cfg <= s1 /\ minW <= s1).
  { destruct (MinSize cfg <? minW) eqn:E; b2p.
    - destruct (log2_up_bounds minW ltac:(lia)) as (_ & Hhi & _).
      exists (2 ^ Z.log2_up minW). split; [apply nextPowerOfTwo_value; lia|lia].
    - exists (MinSize cfg). split; [reflexivity|lia]. }
  destruct H1 as (s1 & -> & Hs1 & Hs1w).
  assert (H2 : exists s2,
    (if s1 <? minH then nextPowerOfTwo minH else Some s1) = Some s2
    /\ s1 <= s2 /\ minH <= s2).
  { destruct (s1 <? minH) eqn:E; b2p.
    - destruct (log2_up_bounds minH ltac:(lia)) as (_ & Hhi & _).
      exists (2 ^ Z.log2_up minH). split; [apply nextPowerOfTwo_value; lia|lia].
    - exists s1. split; [reflexivity|lia]. }
  destruct H2 as (s2 & -> & Hs2 & Hs2h).
  exists s2. split; [reflexivity|]. split; [lia|].
  eapply Forall_impl; [|exact Hall]. cbv beta. intros im [? ?]. lia.
Qed.

Lemma sizeLoop_skipped {S} fuel maxSize (body : S -> Z -> option S) st s :
  maxSize < s -> sizeLoop fuel maxSize body st s = Some st.
Proof.
  intros Hs. destruct fuel; cbn [sizeLoop];
    destruct (s <=? maxSize) eqn:E; b2p; try lia; reflexivity.
Qed.

Section ExceedsMaxSize.
Variable sort_Slice : (ImageInfo -> ImageInfo -> bool) -> list ImageInfo -> list ImageInfo.
Hypothesis sort_Slice_perm : forall less l, Permutation l (sort_Slice less l).

(** X9.  With a valid configuration, if some image, padded by the gap on
    both sides, is wider or higher than [MaxSize] (and no padded side is above
    [2^62]), [Pack] places nothing: it fails with the error that the required
    texture size, a square of side above [MaxSize], exceeds [MaxSize]. *)
Theorem Pack_rejects_image_larger_than_MaxSize images cfg :
  validateConfig cfg = true ->
  Forall (paddedSmall cfg) images ->
  Exists (tooLarge cfg) images ->
  exists s, Pack sort_Slice images cfg = Some (inr (ErrExceedsMaxSize s s))
            /\ MaxSize cfg < s.
Proof.
  intros Hvalid Hsmall Hbig.
  assert (Hcfg : 0 < MinSize cfg /\ 0 <= Gap cfg).
  { unfold validateConfig in Hvalid. b2p. lia. }
  destruct Hcfg as [Hmin Hgap].
  set (imgs := sortImagesForPacking sort_Slice images cfg).
  assert (Hperm : Permutation images imgs) by apply sort_Slice_perm.
  assert (Hsmall' : Forall (paddedSmall cfg) imgs).
  { rewrite Forall_forall in *. intros im Him. apply Hsmall.
    eapply Permutation_in; [apply Permutation_sym, Hperm|exact Him]. }
  destruct (startSize_covers cfg imgs Hmin Hgap Hsmall') as (size & Hstart & Hge & Hall).
  assert (Hsize : MaxSize cfg < size).
  { apply Exists_exists in Hbig. destruct Hbig as (im & Him & Hlarge).
    rewrite Forall_forall in Hall.
    specialize (Hall im (Permutation_in _ Hperm Him)). unfold tooLarge in Hlarge. lia. }
  exists size. split; [|exact Hsize].
  unfold Pack. rewrite Hvalid. cbn [negb].
  destruct images as [|im0 images']; [inversion Hbig|].
  fold imgs. unfold findOptimalSize. rewrite Hstart.
  assert (Hfinal : forall body1 body2 body3 : searchState -> Z -> option searchState,
    (if ForceSquare cfg
     then sizeLoop loopFuel (MaxSize cfg) body1 (size, size, MaxFloat64) size
     else if PreferHeight cfg
     then sizeLoop loopFuel (MaxSize cfg) body2 (size, size, MaxFloat64) size
     else sizeLoop loopFuel (MaxSize cfg) body3 (size, size, MaxFloat64) size)
    = Some (size, size, MaxFloat64)).
  { intros. destruct (ForceSquare cfg); [|destruct (PreferHeight cfg)];
      apply sizeLoop_skipped; exact Hsize. }
  cbv zeta. rewrite Hfinal.
  assert (Hlt : (MaxSize cfg <? size) = true) by (apply Z.ltb_lt; exact Hsize).
  rewrite Hlt. reflexivity.
Qed.

End ExceedsMaxSize.

Lemma Pack_rejects_large_image_witness :
  exists s, Pack insertionSort huge_images huge_cfg = Some (inr (ErrExceedsMaxSize s s))
            /\ MaxSize huge_cfg < s.
Proof.
  apply (Pack_rejects_image_larger_than_MaxSize insertionSort
           (fun less l => proj1 (insertionSort_contract less l))).
  - reflexivity.
  - repeat constructor; cbn; lia.
  - left. left. cbn. lia.
Defined.

Lemma nextPowerOfTwo_in_range n q :
  in_range n -> nextPowerOfTwo n = Some q -> in_range q.
Proof.
  intros Hn. unfold nextPowerOfTwo.
  destruct (n <=? 0) eqn:E0; b2p; [intros [= <-]; range|].
  rewrite sub_small by range.
  destruct (Z.land n (n - 1) =? 0); [intros [= <-]; exact Hn|].
  intros Hloop. apply nextPowerOfTwo_loop_pow2 in Hloop; [|left; exists 0; split; [lia|reflexivity]|lia].
  destruct Hloop as [(k & Hk & ->) _]. pose proof (pow2_le_62 k Hk). range.
Qed.

Lemma startSize_in_range cfg images size :
  in_range (MinSize cfg) -> startSize cfg images = Some size -> in_range size.
Proof.
  intros Hmin. unfold startSize.
  pose proof (maxPadded_in_range cfg images) as [Hrw Hrh].
  destruct (maxPadded cfg images) as [minW minH]. cbn [fst snd] in *.
  destruct (MinSize cfg <? minW).
  - destruct (nextPowerOfTwo minW) as [s1|] eqn:E1; [|discriminate].
    apply nextPowerOfTwo_in_range in E1; [|assumption].
    destruct (s1 <? minH); [apply nextPowerOfTwo_in_range; assumption|].
    intros [= <-]. exact E1.
  - destruct (MinSize cfg <? minH); [apply nextPowerOfTwo_in_range; assumption|].
    intros [= <-]. exact Hmin.
Qed.

Lemma sizeLoop_unbounded {S} (body : S -> Z -> option S) : forall fuel st s,
  in_range s -> sizeLoop fuel int_max body st s = None.
Proof.
  induction fuel as [|fuel IH]; intros st s Hs; cbn [sizeLoop].
  - destruct (s <=? int_max) eqn:E; b2p; [reflexivity|range].
  - destruct (s <=? int_max) eqn:E; b2p; [|range].
    destruct (body st s); [|reflexivity]. apply IH. apply wrap_in_range.
Qed.

Lemma findOptimalSize_unbounded images cfg :
  in_range (MinSize cfg) -> MaxSize cfg = int_max ->
  findOptimalSize images cfg = None.
Proof.
  intros Hmin Hmax. unfold findOptimalSize.
  destruct (startSize cfg images) as [size|] eqn:Hstart; [|reflexivity].
  apply startSize_in_range in Hstart; [|exact Hmin].
  rewrite Hmax. cbv zeta.
  destruct (ForceSquare cfg); [|destruct (PreferHeight cfg)];
    rewrite sizeLoop_unbounded by exact Hstart; reflexivity.
Qed.

(** X10.  With [MaxSize] set to the largest [int] the size search never
    returns: every size, also a wrapped one, satisfies [s <= MaxSize], so the
    doubling loops of [findOptimalSize] do not end, and [Pack] of a non-empty
    list with such a (valid) configuration does not return either. *)
Theorem Pack_never_returns_without_size_limit sort images cfg :
  validateConfig cfg = true -> in_range (MinSize cfg) -> MaxSize cfg = int_max ->
  images <> [] ->
  findOptimalSize images cfg = None /\ Pack sort images cfg = None.
Proof.
  intros Hvalid Hmin Hmax Hne. split; [apply findOptimalSize_unbounded; assumption|].
  unfold Pack. rewrite Hvalid. cbn [negb].
  destruct images as [|im0 images']; [contradiction|].
  rewrite findOptimalSize_unbounded by assumption. reflexivity.
Qed.

Lemma Pack_without_size_limit_witness :
  findOptimalSize scenario_images unlimited_cfg = None
  /\ Pack insertionSort scenario_images unlimited_cfg = None.
Proof.
  apply (Pack_never_returns_without_size_limit insertionSort scenario_images unlimited_cfg).
  - reflexivity.
  - unfold in_range, int_min, int_max. cbn. lia.
  - reflexivity.
  - discriminate.
Defined.

End PackerExtra.

(* ===================================================================== *)
(** * BC1: further properties of the code *)
(* ===================================================================== *)

Module BcnExtra.
Import Bcn BcnSpec BcnExtraSpec BcnProofs.

(** ** RGB565 *)

(** X11.  Decoding a 16-bit RGB565 word and encoding the colour again gives
    the word back; the decoded colour has channels in 0..255 and alpha 255. *)
Theorem to565_from565_identity v :
  0 <= v < 65536 ->
  to565 (from565 v) = v /\ validColor (from565 v) /\ A (from565 v) = 255.
Proof.
  intros Hv. split; [apply from565_to565, Hv|apply from565_valid].
Qed.

Lemma to565_from565_witness :
  to565 (from565 51914) = 51914
  /\ validColor (from565 51914) /\ A (from565 51914) = 255.
Proof. apply (to565_from565_identity 51914). lia. Defined.

Lemma byte_testbit_high x k : 0 <= x < 256 -> 8 <= k -> Z.testbit x k = false.
Proof.
  intros Hx Hk. rewrite <- (Z.mod_small x (2 ^ 8)) by lia.
  rewrite Z.testbit_mod_pow2 by lia.
  destruct (Z.ltb_spec k 8); [lia|reflexivity].
Qed.

(** Brings every bit index of the goal to a numeral. *)
Ltac bit_indices :=
  repeat match goal with
  | |- context [Z.testbit ?x ?e] =>
      lazymatch e with
      | Zpos _ => fail
      | Zneg _ => fail
      | Z0 => fail
      | _ => let e' := eval cbv in e in change (Z.testbit x e) with (Z.testbit x e')
      end
  end.

(** Decides an equation between bits of bytes [r], [g], [b] at a numeral index. *)
Ltac byte_bits r g b Hr Hg Hb :=
  unfold to565, from565, quantize, u8, u16; cbn [R G B A];
  repeat bit_step; bit_indices;
  repeat first [ rewrite (byte_testbit_high r) by (assumption || lia)
               | rewrite (byte_testbit_high g) by (assumption || lia)
               | rewrite (byte_testbit_high b) by (assumption || lia) ];
  repeat match goal with
  | |- context [Z.testbit r ?k] => destruct (Z.testbit r k)
  | |- context [Z.testbit g ?k] => destruct (Z.testbit g k)
  | |- context [Z.testbit b ?k] => destruct (Z.testbit b k)
  end; reflexivity.

Lemma channel_bits_low r g b a (k : nat) :
  byte r -> byte g -> byte b -> (k < 8)%nat ->
  let c := mkColor r g b a in
  Z.testbit (R (from565 (to565 c))) (Z.of_nat k) = Z.testbit (R (quantize c)) (Z.of_nat k)
  /\ Z.testbit (G (from565 (to565 c))) (Z.of_nat k) = Z.testbit (G (quantize c)) (Z.of_nat k)
  /\ Z.testbit (B (from565 (to565 c))) (Z.of_nat k) = Z.testbit (B (quantize c)) (Z.of_nat k).
Proof.
  intros Hr Hg Hb Hk. cbv zeta.
  do 8 (destruct k as [|k];
        [cbn [Z.of_nat Pos.of_succ_nat Pos.succ];
         split; [|split]; byte_bits r g b Hr Hg Hb
        |apply Nat.succ_lt_mono in Hk]).
  inversion Hk.
Qed.

Lemma byte_eq_by_bits x y :
  byte x -> byte y ->
  (forall k, (k < 8)%nat -> Z.testbit x (Z.of_nat k) = Z.testbit y (Z.of_nat k)) ->
  x = y.
Proof.
  intros Hx Hy Hbits. apply Z.bits_inj'. intros n Hn.
  destruct (Z.lt_ge_cases n 8) as [Hlow|Hhigh].
  - rewrite <- (Z2Nat.id n Hn). apply Hbits. lia.
  - rewrite !byte_testbit_high by assumption. reflexivity.
Qed.

Lemma land_byte x m : byte x -> 0 <= m -> byte (Z.land x m).
Proof.
  intros Hx Hm. unfold byte in *. split; [apply Z.land_nonneg; lia|].
  destruct (Z.eq_dec (Z.land x m) 0) as [->|Hne]; [lia|].
  assert (Hpos : 0 < Z.land x m).
  { pose proof (Z.land_nonneg x m). lia. }
  assert (Hx0 : 0 < x).
  { destruct (Z.eq_dec x 0) as [->|]; [rewrite Z.land_0_l in Hne; lia|lia]. }
  change 256 with (2 ^ 8). apply Z.log2_lt_pow2; [exact Hpos|].
  eapply Z.le_lt_trans; [apply Z.log2_land; lia|].
  apply Z.min_lt_iff. left. apply Z.log2_lt_pow2; [exact Hx0|]. lia.
Qed.

Lemma from565_to565_quantizes_aux c :
  validColor c -> from565 (to565 c) = quantize c.
Proof.
  destruct c as [r g b a]. unfold validColor. cbn [R G B A].
  intros (Hr & Hg & Hb & _).
  destruct (from565_valid (to565 (mkColor r g b a))) as [(Hr' & Hg' & Hb' & _) Ha'].
  assert (Hbits := fun k Hk => channel_bits_low r g b a k Hr Hg Hb Hk).
  cbv zeta in Hbits.
  destruct (from565 (to565 (mkColor r g b a))) as [r' g' b' a'] eqn:E.
  cbn [R G B A] in *. unfold quantize in *. cbn [R G B A] in *. subst a'.
  f_equal.
  - apply byte_eq_by_bits; [exact Hr'|apply land_byte; [exact Hr|lia]|].
    intros k Hk. apply (Hbits k Hk).
  - apply byte_eq_by_bits; [exact Hg'|apply land_byte; [exact Hg|lia]|].
    intros k Hk. apply (Hbits k Hk).
  - apply byte_eq_by_bits; [exact Hb'|apply land_byte; [exact Hb|lia]|].
    intros k Hk. apply (Hbits k Hk).
Qed.

(** X12.  Encoding a colour as RGB565 and decoding it keeps the five, six and
    five leading bits of red, green and blue, clears the others, and sets
    alpha to 255. *)
Theorem from565_to565_quantizes c :
  validColor c -> from565 (to565 c) = quantize c.
Proof. apply from565_to565_quantizes_aux. Qed.

Lemma from565_to565_witness :
  from565 (to565 (mkColor 200 100 50 7)) = quantize (mkColor 200 100 50 7).
Proof.
  apply (from565_to565_quantizes (mkColor 200 100 50 7)).
  unfold validColor; cbn [R G B A]. lia.
Defined.

(** ** Luminance extrema *)

Lemma lumStep_inv seen st p :
  validColor p -> lumInv seen st -> lumInv (seen ++ [p]) (lumStep st p).
Proof.
  intros Hp. pose proof (luminance_range p Hp) as Hl.
  destruct st as [[[maxLum minLum] maxColor] minColor]. unfold lumInv, lumStep.
  destruct seen as [|q seen].
  - intros [-> ->]. cbn [app].
    destruct (-1 <? luminance p) eqn:E1; [|apply Z.ltb_ge in E1; lia].
    destruct (luminance p <? 2147483647) eqn:E2; [|apply Z.ltb_ge in E2; lia].
    repeat split; try (left; reflexivity). constructor; [lia|constructor].
  - intros (Hmax & Hmin & -> & -> & Hall).
    change ((q :: seen) ++ [p]) with (q :: (seen ++ [p])). cbv iota.
    assert (Hin : forall c, In c (q :: seen) -> In c (q :: (seen ++ [p]))).
    { intros c Hc. apply (in_or_app (q :: seen) [p]). left. exact Hc. }
    assert (Hp_in : In p (q :: (seen ++ [p]))).
    { apply (in_or_app (q :: seen) [p]). right. left. reflexivity. }
    destruct (luminance maxColor <? luminance p) eqn:E1;
      destruct (luminance p <? luminance minColor) eqn:E2;
      [apply Z.ltb_lt in E1, E2|apply Z.ltb_lt in E1; apply Z.ltb_ge in E2
      |apply Z.ltb_ge in E1; apply Z.ltb_lt in E2|apply Z.ltb_ge in E1, E2];
      (split; [auto|]); (split; [auto|]); (split; [reflexivity|]);
      (split; [reflexivity|]);
      apply (Forall_app _ (q :: seen) [p]); (split; [|constructor; [lia|constructor]]);
      (eapply Forall_impl; [|exact Hall]); cbv beta; intros c Hc; lia.
Qed.

Lemma fold_lumStep_inv l : forall seen st,
  Forall validColor l -> lumInv seen st -> lumInv (seen ++ l) (fold_left lumStep l st).
Proof.
  induction l as [|p l IH]; intros seen st Hl Hinv; cbn [fold_left].
  - rewrite app_nil_r. exact Hinv.
  - inversion Hl as [|? ? Hp Hl']; subst.
    replace (seen ++ p :: l) with ((seen ++ [p]) ++ l) by (rewrite <- app_assoc; reflexivity).
    apply IH; [exact Hl'|]. apply lumStep_inv; assumption.
Qed.

(** X13.  On a non-empty block of colours with channels in 0..255,
    [minMaxLuminance] returns two pixels of the block, the first of least and
    the second of greatest luminance in the block. *)
Theorem minMaxLuminance_returns_extremes block :
  block <> [] -> Forall validColor block ->
  let '(minColor, maxColor) := minMaxLuminance block in
  In minColor block /\ In maxColor block
  /\ Forall (fun p => luminance minColor <= luminance p <= luminance maxColor) block.
Proof.
  intros Hne Hvalid. unfold minMaxLuminance.
  pose proof (fold_lumStep_inv block []
                (-1, 2147483647, nth 0 block zeroColor, nth 0 block zeroColor)
                Hvalid (conj eq_refl eq_refl)) as Hinv.
  cbn [app] in Hinv.
  destruct (fold_left lumStep block _) as [[[maxLum minLum] maxColor] minColor].
  unfold lumInv in Hinv. destruct block as [|q block]; [contradiction|].
  destruct Hinv as (Hmax & Hmin & -> & -> & Hall). auto.
Qed.

Lemma minMaxLuminance_witness :
  let '(minColor, maxColor) := minMaxLuminance swap_block in
  In minColor swap_block /\ In maxColor swap_block
  /\ Forall (fun p => luminance minColor <= luminance p <= luminance maxColor) swap_block.
Proof.
  apply (minMaxLuminance_returns_extremes swap_block).
  - discriminate.
  - unfold swap_block, validColor. repeat constructor; cbn [R G B A]; lia.
Defined.

(** ** Reference colours *)

Lemma mix_values x y :
  byte x -> byte y ->
  mix21Over3 x y = (2 * x + y) / 3
  /\ mix12Over3 x y = (x + 2 * y) / 3
  /\ mix11Over2 x y = (x + y) / 2.
Proof.
  unfold byte, mix21Over3, mix12Over3, mix11Over2, u8, u16. intros Hx Hy.
  rewrite !(Z.mod_small (2 * x)), !(Z.mod_small (2 * y)) by lia.
  rewrite !(Z.mod_small (2 * x + y)), !(Z.mod_small (x + 2 * y)),
    !(Z.mod_small (x + y)) by lia.
  assert (0 <= (2 * x + y) / 3 < 256)
    by (split; [apply Z.div_pos; lia|apply Z.div_lt_upper_bound; lia]).
  assert (0 <= (x + 2 * y) / 3 < 256)
    by (split; [apply Z.div_pos; lia|apply Z.div_lt_upper_bound; lia]).
  assert (0 <= (x + y) / 2 < 256)
    by (split; [apply Z.div_pos; lia|apply Z.div_lt_upper_bound; lia]).
  rewrite !Z.mod_small by lia. auto.
Qed.

Lemma mix_between x y :
  byte x -> byte y ->
  between x y (mix21Over3 x y) /\ between x y (mix12Over3 x y)
  /\ between x y (mix11Over2 x y).
Proof.
  intros Hx Hy. destruct (mix_values x y Hx Hy) as (-> & -> & ->).
  unfold between, byte in *.
  assert (H3 : forall n lo hi, 3 * lo <= n <= 3 * hi -> lo <= n / 3 <= hi).
  { intros n lo hi Hn. split; [apply Z.div_le_lower_bound; lia|].
    apply Z.div_le_upper_bound; lia. }
  assert (H2 : forall n lo hi, 2 * lo <= n <= 2 * hi -> lo <= n / 2 <= hi).
  { intros n lo hi Hn. split; [apply Z.div_le_lower_bound; lia|].
    apply Z.div_le_upper_bound; lia. }
  split; [|split]; [apply H3|apply H3|apply H2]; lia.
Qed.

(** X14.  The reference colours mixed from two colours with channels in
    0..255 are exactly [(2a + b) / 3], [(a + 2b) / 3] and [(a + b) / 2] per
    channel (no conversion truncates); each channel lies between the
    channels of the two colours, and alpha is 255. *)
Theorem mixed_colours_lie_between a b :
  validColor a -> validColor b ->
  let m21 := mix21Over3Saturate a b in
  let m12 := mix12Over3Saturate a b in
  let m11 := mix11Over2Saturate a b in
  R m21 = (2 * R a + R b) / 3 /\ R m12 = (R a + 2 * R b) / 3 /\ R m11 = (R a + R b) / 2
  /\ G m21 = (2 * G a + G b) / 3 /\ G m12 = (G a + 2 * G b) / 3 /\ G m11 = (G a + G b) / 2
  /\ B m21 = (2 * B a + B b) / 3 /\ B m12 = (B a + 2 * B b) / 3 /\ B m11 = (B a + B b) / 2
  /\ colourBetween a b m21 /\ colourBetween a b m12 /\ colourBetween a b m11
  /\ A m21 = 255 /\ A m12 = 255 /\ A m11 = 255.
Proof.
  unfold validColor. intros (HaR & HaG & HaB & _) (HbR & HbG & HbB & _). cbv zeta.
  unfold mix21Over3Saturate, mix12Over3Saturate, mix11Over2Saturate, colourBetween.
  cbn [R G B A].
  destruct (mix_values (R a) (R b) HaR HbR) as (ER1 & ER2 & ER3).
  destruct (mix_values (G a) (G b) HaG HbG) as (EG1 & EG2 & EG3).
  destruct (mix_values (B a) (B b) HaB HbB) as (EB1 & EB2 & EB3).
  destruct (mix_between (R a) (R b) HaR HbR) as (BR1 & BR2 & BR3).
  destruct (mix_between (G a) (G b) HaG HbG) as (BG1 & BG2 & BG3).
  destruct (mix_between (B a) (B b) HaB HbB) as (BB1 & BB2 & BB3).
  repeat match goal with |- _ /\ _ => split end; assumption || reflexivity.
Qed.

Lemma mixed_colours_witness :
  let a := mkColor 200 100 50 255 in
  let b := mkColor 10 20 30 255 in
  let m21 := mix21Over3Saturate a b in
  let m12 := mix12Over3Saturate a b in
  let m11 := mix11Over2Saturate a b in
  R m21 = (2 * R a + R b) / 3 /\ R m12 = (R a + 2 * R b) / 3 /\ R m11 = (R a + R b) / 2
  /\ G m21 = (2 * G a + G b) / 3 /\ G m12 = (G a + 2 * G b) / 3 /\ G m11 = (G a + G b) / 2
  /\ B m21 = (2 * B a + B b) / 3 /\ B m12 = (B a + 2 * B b) / 3 /\ B m11 = (B a + B b) / 2
  /\ colourBetween a b m21 /\ colourBetween a b m12 /\ colourBetween a b m11
  /\ A m21 = 255 /\ A m12 = 255 /\ A m11 = 255.
Proof.
  apply (mixed_colours_lie_between (mkColor 200 100 50 255) (mkColor 10 20 30 255));
    unfold validColor; cbn [R G B A]; lia.
Defined.

(** ** Blocks *)

Lemma land_3_cases x : let i := Z.land x 3 in i = 0 \/ i = 1 \/ i = 2 \/ i = 3.
Proof.
  cbv zeta.
  assert (E : Z.land x 3 = x mod 4).
  { change 3 with (Z.ones 2). rewrite Z.land_ones by lia. reflexivity. }
  rewrite E. pose proof (Z.mod_pos_bound x 4 ltac:(lia)). lia.
Qed.

Lemma decodePixel_alpha m1 m2 c2 c3 hasAlpha table i :
  A m1 = 255 -> A m2 = 255 -> A c2 = 255 ->
  (if hasAlpha : bool then True else A c3 = 255) ->
  let p := decodePixel [m1; m2; c2; c3] hasAlpha table i in
  (A p = 0 \/ A p = 255) /\ (hasAlpha = false -> A p = 255).
Proof.
  intros H1 H2 H3 H4. cbv zeta. unfold decodePixel.
  destruct (land_3_cases (Z.shiftr table (i * 2))) as [E|[E|[E|E]]];
    cbv zeta in E; rewrite E; cbn [Z.to_nat Pos.to_nat Pos.iter_op Nat.add nth Z.eqb];
    rewrite ?andb_false_r;
    try (split; [right; assumption|intros _; assumption]).
  destruct hasAlpha; cbn [andb A].
  - split; [left; reflexivity|discriminate].
  - split; [right; assumption|intros _; assumption].
Qed.

Lemma decodePixels_alpha m1 m2 c2 c3 hasAlpha table idxs :
  A m1 = 255 -> A m2 = 255 -> A c2 = 255 ->
  (if hasAlpha : bool then True else A c3 = 255) ->
  Forall (fun p => (A p = 0 \/ A p = 255) /\ (hasAlpha = false -> A p = 255))
    (map (decodePixel [m1; m2; c2; c3] hasAlpha table) idxs).
Proof.
  intros H1 H2 H3 H4. apply Forall_forall. intros p Hp. apply in_map_iff in Hp.
  destruct Hp as (i & <- & _). apply decodePixel_alpha; assumption.
Qed.

(** What [decodeBlockBC1] returns, by the length of its input. *)
Lemma decodeBlockBC1_cases data :
  (decodeBlockBC1 data = None <-> (length data < 8)%nat)
  /\ (forall block, decodeBlockBC1 data = Some block ->
        length block = 16%nat
        /\ Forall (fun p => A p = 0 \/ A p = 255) block
        /\ (color1_565 data < color0_565 data -> Forall (fun p => A p = 255) block)).
Proof.
  unfold decodeBlockBC1.
  destruct (length data <? 8)%nat eqn:Elen.
  - apply Nat.ltb_lt in Elen. split; [tauto|intros block Hb; discriminate Hb].
  - apply Nat.ltb_ge in Elen. cbv zeta.
    set (table := Z.lor _ _).
    set (idxs := [0; 1; 2; 3; 4; 5; 6; 7; 8; 9; 10; 11; 12; 13; 14; 15]).
    split; [split; [destruct (color0_565 data <=? color1_565 data); discriminate|lia]|].
    intros block.
    destruct (color0_565 data <=? color1_565 data) eqn:Emode.
    + intros Hb. assert (Hblock : block = map (decodePixel
          [from565 (color1_565 data); from565 (color0_565 data);
           mix11Over2Saturate (from565 (color1_565 data)) (from565 (color0_565 data));
           zeroColor] true table) idxs) by congruence.
      clear Hb. subst block. split; [reflexivity|]. split.
      * eapply Forall_impl; [|apply decodePixels_alpha; reflexivity || exact I].
        cbv beta. tauto.
      * apply Z.leb_le in Emode. lia.
    + intros Hb. assert (Hblock : block = map (decodePixel
          [from565 (color0_565 data); from565 (color1_565 data);
           mix21Over3Saturate (from565 (color0_565 data)) (from565 (color1_565 data));
           mix12Over3Saturate (from565 (color0_565 data)) (from565 (color1_565 data))]
          false table) idxs) by congruence.
      clear Hb. subst block. split; [reflexivity|].
      split; [|intros _]; (eapply Forall_impl; [|apply decodePixels_alpha; reflexivity]);
        cbv beta; intros p [Hp1 Hp2]; auto.
Qed.

(** X15.  [decodeBlockBC1] panics exactly on fewer than 8 bytes.  Otherwise it
    yields sixteen pixels whose alpha is 0 or 255, and only 255 when the
    first endpoint word is greater than the second (opaque mode). *)
Theorem decodeBlockBC1_shape data :
  (decodeBlockBC1 data = None <-> (length data < 8)%nat)
  /\ (forall block, decodeBlockBC1 data = Some block ->
        length block = 16%nat
        /\ Forall (fun p => A p = 0 \/ A p = 255) block
        /\ (color1_565 data < color0_565 data -> Forall (fun p => A p = 255) block)).
Proof. exact (decodeBlockBC1_cases data). Qed.

(** The encoder never stores the smaller endpoint word first. *)
Lemma encoded_words_ordered block :
  color1_565 (encodeBlockBC1 block) <= color0_565 (encodeBlockBC1 block)
  /\ (color0_565 (encodeBlockBC1 block) = color1_565 (encodeBlockBC1 block) ->
      to565 (fst (minMaxLuminance block)) = to565 (snd (minMaxLuminance block))).
Proof.
  pose proof (encoded_words block) as Hw.
  destruct (minMaxLuminance block) as [minColor maxColor]. cbn [fst snd]. cbv zeta in Hw.
  destruct (to565 maxColor <=? to565 minColor) eqn:E;
    [apply Z.leb_le in E|apply Z.leb_gt in E]; destruct Hw as [-> ->]; lia.
Qed.

(** X16.  Whatever the block, [encodeBlockBC1] writes 8 bytes in which the
    first endpoint word is at least the second; so, unless the two endpoints
    have the same RGB565 value, [decodeBlockBC1] reads the encoded block in
    opaque mode and every decoded pixel has alpha 255. *)
Theorem encodeBlockBC1_orders_endpoint_words block :
  length (encodeBlockBC1 block) = 8%nat
  /\ color1_565 (encodeBlockBC1 block) <= color0_565 (encodeBlockBC1 block)
  /\ (to565 (fst (minMaxLuminance block)) <> to565 (snd (minMaxLuminance block)) ->
      exists d, roundtripBC1 block = Some d /\ Forall (fun p => A p = 255) d).
Proof.
  assert (Hlen : length (encodeBlockBC1 block) = 8%nat).
  { unfold encodeBlockBC1. destruct (minMaxLuminance block) as [mn mx].
    destruct (to565 mx <=? to565 mn); reflexivity. }
  destruct (encoded_words_ordered block) as [Hle Heq].
  split; [exact Hlen|]. split; [exact Hle|].
  intros Hne. unfold roundtripBC1.
  destruct (decodeBlockBC1_cases (encodeBlockBC1 block)) as [Hnone Hsome].
  destruct (decodeBlockBC1 (encodeBlockBC1 block)) as [d|] eqn:Ed.
  - exists d. split; [reflexivity|].
    apply (Hsome d eq_refl).
    destruct (Z.eq_dec (color0_565 (encodeBlockBC1 block))
                (color1_565 (encodeBlockBC1 block))) as [Hc|Hc]; [|lia].
    exfalso. apply Hne, Heq, Hc.
  - exfalso. apply proj1 in Hnone. specialize (Hnone eq_refl). lia.
Qed.

Lemma colorIndex_transparent refs c : A c < 128 -> colorIndex refs true c = 3.
Proof.
  intros Ha. unfold colorIndex.
  destruct (A c <? 128) eqn:E; [reflexivity|apply Z.ltb_ge in E; lia].
Qed.

Lemma encodeBlockBC1_uniform_transparent c :
  validColor c -> A c < 128 ->
  encodeBlockBC1 (uniformBlock c)
  = [u8 (to565 c); u8 (Z.shiftr (to565 c) 8);
     u8 (to565 c); u8 (Z.shiftr (to565 c) 8); 255; 255; 255; 255].
Proof.
  intros Hc Ha. unfold encodeBlockBC1, uniformBlock.
  rewrite (minMaxLuminance_uniform c 15 Hc). rewrite Z.leb_refl.
  unfold encodeColorTableBC1BC3.
  rewrite map_repeat, colorIndex_transparent by assumption. reflexivity.
Qed.

Lemma decodeBlockBC1_uniform_transparent v :
  0 <= v < 65536 ->
  decodeBlockBC1 [u8 v; u8 (Z.shiftr v 8); u8 v; u8 (Z.shiftr v 8); 255; 255; 255; 255]
  = Some (uniformBlock zeroColor).
Proof.
  intros Hv. unfold decodeBlockBC1. cbn [length Nat.ltb Nat.leb].
  unfold color0_565, color1_565. cbn [nth].
  rewrite !word_of_bytes by assumption. rewrite Z.leb_refl.
  reflexivity.
Qed.

(** X17.  A block of sixteen equal pixels [c] (channels in 0..255) is encoded
    in alpha mode.  It decodes to sixteen copies of [c] cut to RGB565
    precision with alpha 255 when the alpha of [c] is at least 128, and to
    sixteen transparent black pixels otherwise. *)
Theorem roundtripBC1_on_uniform_block c :
  validColor c ->
  roundtripBC1 (uniformBlock c)
  = Some (uniformBlock (if A c <? 128 then zeroColor else quantize c)).
Proof.
  intros Hc. unfold roundtripBC1.
  destruct (A c <? 128) eqn:E; [apply Z.ltb_lt in E|apply Z.ltb_ge in E].
  - rewrite encodeBlockBC1_uniform_transparent by assumption.
    apply decodeBlockBC1_uniform_transparent, to565_range.
  - rewrite encodeBlockBC1_uniform by assumption.
    rewrite decodeBlockBC1_uniform by apply to565_range.
    rewrite from565_to565_quantizes_aux by exact Hc. reflexivity.
Qed.

Lemma roundtripBC1_uniform_block_witness :
  roundtripBC1 (uniformBlock (mkColor 203 101 55 90))
  = Some (uniformBlock (if A (mkColor 203 101 55 90) <? 128 then zeroColor
                        else quantize (mkColor 203 101 55 90))).
Proof.
  apply (roundtripBC1_on_uniform_block (mkColor 203 101 55 90)).
  unfold validColor; cbn [R G B A]. lia.
Defined.

End BcnExtra.

(* ===================================================================== *)
(** * internal/dds: further properties of the code *)
(* ===================================================================== *)

Module DdsExtra.
Import Dds DdsSpec DdsDx10 DdsExtraSpec DdsProofs.

(** ** Words and their four bytes *)

Lemma byte_of_word_bit v k n :
  0 <= n -> 0 <= k ->
  Z.testbit (Z.shiftl (Z.shiftr v k mod 256) k) n
  = (k <=? n) && (n <? k + 8) && Z.testbit v n.
Proof.
  intros Hn Hk. rewrite Z.shiftl_spec by lia. change 256 with (2 ^ 8).
  rewrite Z.testbit_mod_pow2 by lia.
  destruct (Z.leb_spec k n) as [Hkn|Hkn].
  - rewrite Z.shiftr_spec by lia. replace (n - k + k) with n by lia.
    destruct (Z.ltb_spec (n - k) 8), (Z.ltb_spec n (k + 8)); try lia; reflexivity.
  - rewrite (Z.testbit_neg_r _ (n - k)) by lia. rewrite andb_false_r. reflexivity.
Qed.

Lemma le32_putLe32 v : isU32 v -> le32 (putLe32 v) = v.
Proof.
  unfold isU32. intros Hv. unfold le32, putLe32. cbn [nth].
  apply Z.bits_inj'. intros n Hn.
  rewrite !Z.lor_spec, !byte_of_word_bit by lia.
  change 256 with (2 ^ 8). rewrite Z.testbit_mod_pow2 by lia.
  assert (Hhigh : 32 <= n -> Z.testbit v n = false).
  { intros H32. rewrite <- (Z.mod_small v (2 ^ 32)) by lia.
    rewrite Z.testbit_mod_pow2 by lia.
    destruct (Z.ltb_spec n 32); [lia|reflexivity]. }
  destruct (Z.ltb_spec n 8), (Z.leb_spec 8 n), (Z.ltb_spec n (8 + 8)),
    (Z.leb_spec 16 n), (Z.ltb_spec n (16 + 8)), (Z.leb_spec 24 n),
    (Z.ltb_spec n (24 + 8)); try lia; cbn [andb orb];
    rewrite ?orb_false_r; try reflexivity.
  symmetry. apply Hhigh. lia.
Qed.

Lemma isByte_high b i : isByte b -> 8 <= i -> Z.testbit b i = false.
Proof.
  unfold isByte. intros Hb Hi. rewrite <- (Z.mod_small b (2 ^ 8)) by (cbn; lia).
  rewrite Z.testbit_mod_pow2 by lia.
  destruct (Z.ltb_spec i 8); [lia|reflexivity].
Qed.

Lemma shifted_byte_bit b k n :
  isByte b -> 0 <= k -> 0 <= n ->
  Z.testbit (Z.shiftl b k) n
  = (k <=? n) && (n <? k + 8) && Z.testbit b (n - k).
Proof.
  intros Hb Hk Hn. rewrite Z.shiftl_spec by lia.
  destruct (Z.leb_spec k n) as [Hkn|Hkn].
  - destruct (Z.ltb_spec n (k + 8)); [reflexivity|].
    cbn [andb]. apply (isByte_high b (n - k) Hb). lia.
  - apply Z.testbit_neg_r. lia.
Qed.

Lemma le32_bit b0 b1 b2 b3 n :
  isByte b0 -> isByte b1 -> isByte b2 -> isByte b3 -> 0 <= n ->
  Z.testbit (le32 [b0; b1; b2; b3]) n
  = if n <? 8 then Z.testbit b0 n
    else if n <? 16 then Z.testbit b1 (n - 8)
    else if n <? 24 then Z.testbit b2 (n - 16)
    else if n <? 32 then Z.testbit b3 (n - 24)
    else false.
Proof.
  intros H0 H1 H2 H3 Hn. unfold le32. cbn [nth].
  rewrite !Z.lor_spec, !shifted_byte_bit by (assumption || lia).
  destruct (Z.ltb_spec n 8), (Z.ltb_spec n 16), (Z.ltb_spec n 24),
    (Z.ltb_spec n 32), (Z.leb_spec 8 n), (Z.leb_spec 16 n), (Z.leb_spec 24 n),
    (Z.ltb_spec n (8 + 8)), (Z.ltb_spec n (16 + 8)), (Z.ltb_spec n (24 + 8));
    try lia; cbn [andb orb]; rewrite ?(isByte_high b0 n H0) by lia;
    rewrite ?orb_false_r; reflexivity.
Qed.

Lemma word_byte_bit v k n :
  0 <= k -> 0 <= n ->
  Z.testbit (Z.shiftr v k mod 256) n = (n <? 8) && Z.testbit v (n + k).
Proof.
  intros Hk Hn. change 256 with (2 ^ 8). rewrite Z.testbit_mod_pow2 by lia.
  rewrite Z.shiftr_spec by lia. reflexivity.
Qed.

Lemma putLe32_le32 b0 b1 b2 b3 :
  isByte b0 -> isByte b1 -> isByte b2 -> isByte b3 ->
  putLe32 (le32 [b0; b1; b2; b3]) = [b0; b1; b2; b3].
Proof.
  intros H0 H1 H2 H3. unfold putLe32.
  rewrite <- (Z.shiftr_0_r (le32 [b0; b1; b2; b3])) at 1.
  repeat f_equal; apply Z.bits_inj'; intros n Hn;
    rewrite word_byte_bit, le32_bit by (assumption || lia);
    (destruct (Z.ltb_spec n 8) as [Hlt|Hge];
     [|cbn [andb]; symmetry;
       first [apply (isByte_high b0 n H0) | apply (isByte_high b1 n H1)
             | apply (isByte_high b2 n H2) | apply (isByte_high b3 n H3)]; lia]);
    cbn [andb];
    destruct (Z.ltb_spec (n + 0) 8), (Z.ltb_spec (n + 8) 8), (Z.ltb_spec (n + 16) 8),
      (Z.ltb_spec (n + 24) 8), (Z.ltb_spec (n + 0) 16), (Z.ltb_spec (n + 8) 16),
      (Z.ltb_spec (n + 16) 16), (Z.ltb_spec (n + 24) 16), (Z.ltb_spec (n + 16) 24),
      (Z.ltb_spec (n + 24) 24), (Z.ltb_spec (n + 24) 32); try lia;
    f_equal; lia.
Qed.

Lemma readDWORD_putLe32 v r : isU32 v -> readDWORD (putLe32 v ++ r) = inl (v, r).
Proof.
  intros Hv. change (putLe32 v ++ r)
    with (v mod 256 :: Z.shiftr v 8 mod 256 :: Z.shiftr v 16 mod 256
          :: Z.shiftr v 24 mod 256 :: r).
  rewrite readDWORD_cons. f_equal. f_equal. apply (le32_putLe32 v Hv).
Qed.

Lemma field_putLe32 what v r : isU32 v -> field what (putLe32 v ++ r) = inl (v, r).
Proof. intros Hv. unfold field. rewrite readDWORD_putLe32 by exact Hv. reflexivity. Qed.

Lemma readReserved1_written vs : forall i r,
  Forall isU32 vs ->
  readReserved1 (length vs) i (flat_map putLe32 vs ++ r) = inl (vs, r).
Proof.
  induction vs as [|v vs IH]; intros i r Hvs; [reflexivity|].
  inversion Hvs as [|? ? Hv Hvs']; subst.
  cbn [length flat_map readReserved1]. rewrite <- app_assoc.
  rewrite readDWORD_putLe32 by exact Hv. rewrite IH by exact Hvs'. reflexivity.
Qed.

(** What a successful read of one word says of the stream. *)
Lemma readDWORD_inv r v r' :
  readDWORD r = inl (v, r') ->
  exists b0 b1 b2 b3, r = b0 :: b1 :: b2 :: b3 :: r' /\ v = le32 [b0; b1; b2; b3].
Proof.
  destruct r as [|b0 [|b1 [|b2 [|b3 r]]]]; try discriminate.
  rewrite readDWORD_cons. intros [= <- <-]. eauto 6.
Qed.

Lemma field_inv what r v r' :
  field what r = inl (v, r') ->
  exists b0 b1 b2 b3, r = b0 :: b1 :: b2 :: b3 :: r' /\ v = le32 [b0; b1; b2; b3].
Proof.
  unfold field. destruct (readDWORD r) as [[v0 r0]|e] eqn:E; [|discriminate].
  intros [= <- <-]. exact (readDWORD_inv r v0 r0 E).
Qed.

Lemma readReserved1_inv n : forall i r vs r',
  readReserved1 n i r = inl (vs, r') ->
  length vs = n
  /\ exists bs, r = bs ++ r' /\ length bs = (4 * n)%nat
                /\ (Forall isByte bs -> flat_map putLe32 vs = bs).
Proof.
  induction n as [|n IH]; intros i r vs r'; cbn [readReserved1].
  - intros [= <- <-]. split; [reflexivity|]. exists []. auto.
  - destruct (readDWORD r) as [[v r0]|e] eqn:E; [|discriminate].
    destruct (readReserved1 n (S i) r0) as [[vs0 r1]|e] eqn:E'; [|discriminate].
    intros [= <- <-].
    destruct (readDWORD_inv r v r0 E) as (b0 & b1 & b2 & b3 & -> & ->).
    destruct (IH (S i) r0 vs0 r1 E') as (Hlen & bs & -> & Hbs & Hback).
    split; [cbn [length]; lia|].
    exists (b0 :: b1 :: b2 :: b3 :: bs). split; [reflexivity|].
    split; [cbn [length]; lia|].
    intros Hall. cbn [flat_map].
    inversion Hall as [|? ? B0 Hall1]; subst.
    inversion Hall1 as [|? ? B1 Hall2]; subst.
    inversion Hall2 as [|? ? B2 Hall3]; subst.
    inversion Hall3 as [|? ? B3 Hall4]; subst.
    rewrite putLe32_le32, Hback by assumption. reflexivity.
Qed.

Lemma bytesEqb_eq a : forall b, bytesEqb a b = true -> a = b.
Proof.
  induction a as [|x a IH]; intros [|y b]; cbn [bytesEqb]; try discriminate;
    [reflexivity|].
  intros Hxy. apply andb_prop in Hxy as [Hx Hab].
  apply Z.eqb_eq in Hx. rewrite Hx, (IH b Hab). reflexivity.
Qed.

Lemma cons_split (a : Z) l body rest :
  l = body ++ rest -> a :: l = (a :: body) ++ rest.
Proof. intros ->. reflexivity. Qed.

Lemma app_split (bs l body rest : list Z) :
  l = body ++ rest -> bs ++ l = (bs ++ body) ++ rest.
Proof. intros ->. apply app_assoc. Qed.

Lemma nil_split (rest : list Z) : rest = [] ++ rest.
Proof. reflexivity. Qed.

(** ** The header written and read back *)

Lemma ReadHeader_written h rest :
  headerU32 h -> headerChecked h ->
  ReadHeader (WriteMagic ++ WriteHeader h ++ rest) = inl (h, rest).
Proof.
  destruct h as [size flags height width pitch depth mips res1
                 [pfSize pfFlags fourCC bits rMask gMask bMask aMask]
                 caps caps2 caps3 caps4 res2].
  unfold headerU32, pixelFormatU32, headerChecked.
  cbn [Size Flags Height Width PitchOrLinearSize Depth MipMapCount Reserved1
       PixelFormat_ Caps Caps2 Caps3 Caps4 Reserved2
       PfSize PfFlags FourCC RGBBitCount RBitMask GBitMask BBitMask ABitMask].
  intros (H1 & H2 & H3 & H4 & H5 & H6 & H7 & Hlen & Hres
          & (P1 & P2 & P3 & P4 & P5 & P6 & P7 & P8) & C1 & C2 & C3 & C4 & R2)
         (Esize & Epf & Eres2 & Eflags).
  unfold WriteHeader.
  cbn [Size Flags Height Width PitchOrLinearSize Depth MipMapCount Reserved1
       PixelFormat_ Caps Caps2 Caps3 Caps4 Reserved2
       PfSize PfFlags FourCC RGBBitCount RBitMask GBitMask BBitMask ABitMask].
  rewrite (firstn_all2 (n := 11) res1) by lia.
  repeat rewrite <- app_assoc.
  unfold ReadHeader, WriteMagic.
  match goal with
  | |- context [ReadFull 4 (Magic ++ ?x)] =>
      change (ReadFull 4 (Magic ++ x))
        with (@inl (list Z * list Z) IoError (Magic, x))
  end.
  cbv iota beta. change (negb (bytesEqb Magic Magic)) with false. cbv iota.
  rewrite field_putLe32 by assumption. cbv iota beta.
  rewrite Esize at 1. change (negb (HeaderSize =? HeaderSize)) with false. cbv iota.
  do 6 (rewrite field_putLe32 by assumption; cbv iota beta).
  replace 11%nat with (length res1) by exact Hlen.
  rewrite readReserved1_written by assumption. cbv iota beta.
  rewrite field_putLe32 by assumption. cbv iota beta.
  rewrite Epf at 1. change (negb (PixelFormatSize =? PixelFormatSize)) with false.
  cbv iota.
  do 12 (rewrite field_putLe32 by assumption; cbv iota beta).
  rewrite Eres2 at 1. change (negb (0 =? 0)) with false. cbv iota.
  rewrite Eflags, Z.eqb_refl. reflexivity.
Qed.

(** What an accepted stream looks like: the magic, 124 bytes of header and
    the rest; the header passes the checks, and is the one whose written form
    the 124 bytes are. *)
Lemma ReadHeader_shape r h rest :
  ReadHeader r = inl (h, rest) ->
  headerChecked h /\ length (Reserved1 h) = 11%nat
  /\ exists body, r = Magic ++ body ++ rest /\ length body = 124%nat
                  /\ (Forall isByte body -> body = WriteHeader h).
Proof.
  unfold ReadHeader.
  destruct (ReadFull 4 r) as [[magic r0]|e] eqn:Emagic; [|discriminate].
  destruct (negb (bytesEqb magic Magic)) eqn:Eeq; [discriminate|].
  apply negb_false_iff, bytesEqb_eq in Eeq. subst magic.
  assert (Hr : r = Magic ++ r0).
  { unfold ReadFull in Emagic. pose proof (firstn_skipn 4 r) as Hfs.
    destruct (4 <=? length r)%nat; [|destruct r; discriminate].
    remember (firstn 4 r) as a. remember (skipn 4 r) as b.
    injection Emagic as E1 E2. rewrite <- E1, <- E2. symmetry. exact Hfs. }
  clear Emagic. subst r.
  repeat match goal with
         | |- context [match field ?w ?x with _ => _ end] =>
             let v := fresh "v" in let s := fresh "s" in let E := fresh "E" in
             destruct (field w x) as [[v s]|?] eqn:E; [|discriminate];
             apply field_inv in E as (? & ? & ? & ? & -> & ->)
         | |- context [match readReserved1 ?n ?i ?x with _ => _ end] =>
             let vs := fresh "vs" in let s := fresh "s" in let E := fresh "E" in
             destruct (readReserved1 n i x) as [[vs s]|?] eqn:E; [|discriminate];
             apply readReserved1_inv in E as (Hlen & bs & -> & Hbs & Hback)
         | |- context [if negb ?c then _ else _] =>
             let E := fresh "C" in
             destruct c eqn:E; cbn [negb]; [|discriminate]
         end.
  intros [= <- <-].
  unfold headerChecked.
  cbn [Size Flags Height Width PitchOrLinearSize Depth MipMapCount Reserved1
       PixelFormat_ Caps Caps2 Caps3 Caps4 Reserved2
       PfSize PfFlags FourCC RGBBitCount RBitMask GBitMask BBitMask ABitMask].
  repeat match goal with
         | C : (_ =? _) = true |- _ => apply Z.eqb_eq in C
         end.
  split; [auto|]. split; [exact Hlen|].
  eexists. split; [|split].
  - f_equal. repeat first [apply cons_split | apply app_split]. apply nil_split.
  - rewrite ?length_app. cbn [length]. rewrite ?length_app, Hbs. reflexivity.
  - intros Hall.
    repeat first [apply Forall_cons_iff in Hall as [? Hall]
                 | apply Forall_app in Hall as [? Hall]].
    unfold WriteHeader.
    cbn [Size Flags Height Width PitchOrLinearSize Depth MipMapCount Reserved1
         PixelFormat_ Caps Caps2 Caps3 Caps4 Reserved2
         PfSize PfFlags FourCC RGBBitCount RBitMask GBitMask BBitMask ABitMask].
    rewrite (firstn_all2 (n := 11) vs) by lia.
    rewrite Hback by assumption.
    rewrite !putLe32_le32 by assumption.
    cbn [app]. rewrite <- ?app_assoc. reflexivity.
Qed.

Lemma CreateHeaderRGBA8_writable width height mipMapCount :
  isU32 width -> isU32 height -> isU32 mipMapCount ->
  headerU32 (CreateHeaderRGBA8 width height mipMapCount)
  /\ headerChecked (CreateHeaderRGBA8 width height mipMapCount).
Proof.
  unfold isU32. intros Hw Hh Hm.
  assert (Hp : 0 <= u32 (width * 4) < 2 ^ 32) by (apply Z.mod_pos_bound; lia).
  destruct Hw, Hh, Hm, Hp.
  unfold CreateHeaderRGBA8, headerU32, pixelFormatU32, headerChecked, isU32.
  generalize dependent (u32 (width * 4)). intros pitch Hp0 Hp1.
  destruct (0 <? mipMapCount);
    cbn [Size Flags Height Width PitchOrLinearSize Depth MipMapCount Reserved1
         PixelFormat_ Caps Caps2 Caps3 Caps4 Reserved2
         PfSize PfFlags FourCC RGBBitCount RBitMask GBitMask BBitMask ABitMask];
    repeat match goal with
           | |- _ /\ _ => split
           | |- Forall _ _ => repeat constructor
           end;
    try assumption; try reflexivity; try (vm_compute; intros ?; discriminate).
Qed.

Ltac all_bytes :=
  repeat (apply Forall_cons; [unfold isByte; lia|]); apply Forall_nil.

(** X18.  [ReadHeader] reads back what [WriteMagic] and [WriteHeader] write:
    for a header of [uint32] fields that passes the checks of the reader
    (size 124, pixel format size 32, [Reserved2] zero, the four required
    flags set), reading the written bytes returns the same header and
    leaves the rest of the stream untouched. *)
Theorem ReadHeader_reads_back_WriteHeader h rest :
  headerU32 h -> headerChecked h ->
  ReadHeader (WriteMagic ++ WriteHeader h ++ rest) = inl (h, rest).
Proof. intros Hu Hc. exact (ReadHeader_written h rest Hu Hc). Qed.

Lemma ReadHeader_reads_back_witness :
  ReadHeader (WriteMagic ++ WriteHeader sample_dx10_header ++ [1; 2; 3])
  = inl (sample_dx10_header, [1; 2; 3]).
Proof.
  apply (ReadHeader_reads_back_WriteHeader sample_dx10_header [1; 2; 3]).
  - unfold headerU32, pixelFormatU32, isU32, sample_dx10_header, FourCCDX10.
    cbn [Size Flags Height Width PitchOrLinearSize Depth MipMapCount Reserved1
         PixelFormat_ Caps Caps2 Caps3 Caps4 Reserved2
         PfSize PfFlags FourCC RGBBitCount RBitMask GBitMask BBitMask ABitMask].
    repeat match goal with
           | |- _ /\ _ => split
           | |- Forall _ _ => repeat constructor
           end; try reflexivity; lia.
  - repeat split.
Defined.

(** X19.  Every header [CreateHeaderRGBA8] builds is accepted by
    [ReadHeader]: written after the magic it is read back unchanged, whatever
    the ([uint32]) width, height and mip count, and whatever follows it. *)
Theorem ReadHeader_accepts_CreateHeaderRGBA8 width height mipMapCount rest :
  isU32 width -> isU32 height -> isU32 mipMapCount ->
  ReadHeader (canonicalStream width height mipMapCount ++ rest)
  = inl (CreateHeaderRGBA8 width height mipMapCount, rest).
Proof.
  intros Hw Hh Hm.
  destruct (CreateHeaderRGBA8_writable width height mipMapCount Hw Hh Hm) as [Hu Hc].
  unfold canonicalStream. rewrite <- app_assoc.
  exact (ReadHeader_written _ rest Hu Hc).
Qed.

Lemma ReadHeader_accepts_CreateHeaderRGBA8_witness :
  ReadHeader (canonicalStream 1024 512 11 ++ [7])
  = inl (CreateHeaderRGBA8 1024 512 11, [7]).
Proof.
  apply (ReadHeader_accepts_CreateHeaderRGBA8 1024 512 11 [7]);
    unfold isU32; lia.
Defined.

(** X20.  [ReadHeader] loses nothing: when it accepts a stream of bytes, the
    stream is the magic, then exactly what [WriteHeader] writes for the
    returned header, then the returned rest. *)
Theorem ReadHeader_is_lossless r h rest :
  Forall isByte r ->
  ReadHeader r = inl (h, rest) ->
  r = WriteMagic ++ WriteHeader h ++ rest.
Proof.
  intros Hbytes Hread.
  destruct (ReadHeader_shape r h rest Hread) as (_ & _ & body & -> & _ & Hbody).
  apply Forall_app in Hbytes as [_ Hbytes].
  apply Forall_app in Hbytes as [Hbytes _].
  rewrite <- (Hbody Hbytes). reflexivity.
Qed.

Lemma ReadHeader_is_lossless_witness :
  sample_file
  = WriteMagic ++ WriteHeader (CreateHeaderRGBA8 4 2 1) ++ [67; 79; 80; 89; 32; 0; 0; 0].
Proof.
  apply (ReadHeader_is_lossless sample_file (CreateHeaderRGBA8 4 2 1)
           [67; 79; 80; 89; 32; 0; 0; 0]).
  - let l := eval vm_compute in sample_file in change sample_file with l.
    all_bytes.
  - vm_compute. reflexivity.
Defined.

(** X21.  [ReadHeader] accepts no stream shorter than 128 bytes; when it
    accepts, it has consumed exactly the first 128 bytes, and the header it
    returns has size 124, pixel format size 32, [Reserved2] zero, the four
    required flags set and eleven reserved words. *)
Theorem ReadHeader_consumes_128_bytes r h rest :
  ReadHeader r = inl (h, rest) ->
  (128 <= length r)%nat /\ rest = skipn 128 r
  /\ headerChecked h /\ length (Reserved1 h) = 11%nat.
Proof.
  intros Hread.
  destruct (ReadHeader_shape r h rest Hread) as (Hc & Hlen & body & -> & Hbody & _).
  split; [rewrite !length_app, Hbody; cbn [length Magic]; lia|].
  split; [|split; assumption].
  rewrite app_assoc.
  rewrite skipn_app, skipn_all2 by (rewrite length_app, Hbody; cbn; lia).
  rewrite length_app, Hbody. reflexivity.
Qed.

Lemma ReadHeader_consumes_128_bytes_witness :
  (128 <= length sample_file)%nat
  /\ [67; 79; 80; 89; 32; 0; 0; 0] = skipn 128 sample_file
  /\ headerChecked (CreateHeaderRGBA8 4 2 1)
  /\ length (Reserved1 (CreateHeaderRGBA8 4 2 1)) = 11%nat.
Proof.
  apply (ReadHeader_consumes_128_bytes sample_file (CreateHeaderRGBA8 4 2 1)
           [67; 79; 80; 89; 32; 0; 0; 0]).
  vm_compute. reflexivity.
Defined.

(** ** The DX10 header *)

(** X22.  [ReadHeaderDx10] reads a DX10 header only when the pixel format
    announces one (flag [PFFourCC] set and fourCC DX10): then it reads back
    what [WriteHeaderDx10] writes and leaves the rest of the stream;
    otherwise it returns no header, no error, and reads nothing. *)
Theorem ReadHeaderDx10_reads_back_WriteHeaderDx10 h d r :
  dx10U32 d ->
  (announcesDx10 h -> ReadHeaderDx10 (WriteHeaderDx10 d ++ r) h = inl (Some d, r))
  /\ (~ announcesDx10 h -> ReadHeaderDx10 r h = inl (None, r)).
Proof.
  unfold dx10U32, announcesDx10. intros (D1 & D2 & D3 & D4 & D5).
  unfold ReadHeaderDx10. split.
  - intros [Hflag Hcc]. apply Z.eqb_neq in Hflag. apply Z.eqb_eq in Hcc.
    rewrite Hflag, Hcc. cbn [negb orb].
    unfold WriteHeaderDx10. repeat rewrite <- app_assoc.
    do 5 (rewrite field_putLe32 by assumption; cbv iota beta).
    destruct d; reflexivity.
  - intros Hno.
    destruct (Z.eqb_spec (Z.land (PfFlags (PixelFormat_ h)) PFFourCC) 0) as [|Hflag];
      [reflexivity|].
    destruct (Z.eqb_spec (FourCC (PixelFormat_ h)) FourCCDX10) as [Hcc|];
      [|reflexivity].
    exfalso. apply Hno. split; assumption.
Qed.

Lemma ReadHeaderDx10_witness :
  (announcesDx10 sample_dx10_header ->
   ReadHeaderDx10 (WriteHeaderDx10 sample_dx10 ++ [9]) sample_dx10_header
   = inl (Some sample_dx10, [9]))
  /\ (~ announcesDx10 sample_dx10_header ->
      ReadHeaderDx10 [9] sample_dx10_header = inl (None, [9])).
Proof.
  apply (ReadHeaderDx10_reads_back_WriteHeaderDx10 sample_dx10_header sample_dx10 [9]).
  unfold dx10U32, isU32, sample_dx10. cbn [DXGIFormat ResourceDimension MiscFlag
    ArraySize MiscFlags2]. lia.
Defined.

End DdsExtra.

(* ===================================================================== *)
(** * internal/edds: blocks written and read back *)
(* ===================================================================== *)

Module EddsExtra.
Import Edds EddsSpec EddsIO EddsExtraSpec EddsProofs.

(** ** Bytes, words and strings *)

Lemma len_firstn_skipn (l : list Z) i n :
  0 <= i -> 0 <= n -> i + n <= len l ->
  len (firstn (Z.to_nat n) (skipn (Z.to_nat i) l)) = n.
Proof.
  unfold len. intros Hi Hn Hle. rewrite length_firstn, length_skipn. lia.
Qed.

Lemma firstn_skipn_next (l : list Z) i n :
  0 <= i -> 0 <= n ->
  firstn (Z.to_nat n) (skipn (Z.to_nat i) l) ++ skipn (Z.to_nat (i + n)) l
  = skipn (Z.to_nat i) l.
Proof.
  intros Hi Hn. rewrite Z2Nat.inj_add by lia.
  rewrite (Nat.add_comm (Z.to_nat i)), <- skipn_skipn. apply firstn_skipn.
Qed.

Lemma ReadFull_app (a r : list Z) n :
  length a = n -> Dds.ReadFull n (a ++ r) = inl (a, r).
Proof.
  intros <-. unfold Dds.ReadFull. rewrite length_app.
  replace (length a <=? length a + length r)%nat with true
    by (symmetry; apply Nat.leb_le; lia).
  rewrite firstn_app, Nat.sub_diag, firstn_all, firstn_O, app_nil_r.
  rewrite skipn_app, Nat.sub_diag, skipn_all. reflexivity.
Qed.

Lemma le32_app b0 b1 b2 b3 (r : list Z) :
  le32 ([b0; b1; b2; b3] ++ r) = Dds.le32 [b0; b1; b2; b3].
Proof. reflexivity. Qed.

Lemma length_putInt32 v : length (putInt32 v) = 4%nat.
Proof. reflexivity. Qed.

Lemma le32_putInt32 v r :
  0 <= v <= maxInt32 -> le32 (putInt32 v ++ r) = v.
Proof.
  intros Hv. unfold putInt32, Dds.putLe32. rewrite le32_app.
  apply (DdsExtra.le32_putLe32 v). unfold DdsExtraSpec.isU32, maxInt32 in *. lia.
Qed.

Lemma int32_of_word_small v : 0 <= v <= maxInt32 -> int32_of_word v = v.
Proof.
  unfold int32_of_word, maxInt32. intros Hv.
  destruct (Z.ltb_spec v (2 ^ 31)); lia.
Qed.

Lemma le24_bytes cn :
  0 <= cn < 2 ^ 24 ->
  le24 (cn mod 256) (Z.shiftr cn 8 mod 256) (Z.shiftr cn 16 mod 256) = cn.
Proof.
  intros Hcn. unfold le24. apply Z.bits_inj'. intros n Hn.
  rewrite !Z.lor_spec, !DdsExtra.byte_of_word_bit by lia.
  change 256 with (2 ^ 8). rewrite Z.testbit_mod_pow2 by lia.
  assert (Hhigh : 24 <= n -> Z.testbit cn n = false).
  { intros H24. rewrite <- (Z.mod_small cn (2 ^ 24)) by lia.
    rewrite Z.testbit_mod_pow2 by lia.
    destruct (Z.ltb_spec n 24); [lia|reflexivity]. }
  destruct (Z.ltb_spec n 8), (Z.leb_spec 8 n), (Z.ltb_spec n (8 + 8)),
    (Z.leb_spec 16 n), (Z.ltb_spec n (16 + 8)); try lia; cbn [andb orb];
    rewrite ?orb_false_r; try reflexivity.
  symmetry. apply Hhigh. lia.
Qed.

Lemma stringOf_bytesOf s : stringOf (bytesOf s) = s.
Proof.
  unfold stringOf, bytesOf. rewrite map_map.
  rewrite (map_ext _ (fun a => a)), map_id.
  - apply string_of_list_ascii_of_string.
  - intros a. rewrite N2Z.id. apply ascii_N_embedding.
Qed.

Lemma length_bytesOf s : length (bytesOf s) = String.length s.
Proof.
  unfold bytesOf. rewrite length_map.
  induction s as [|a s IH]; cbn [list_ascii_of_string length String.length]; congruence.
Qed.

(** ** The blocks [compressBlock] returns *)

Lemma chunkStarts_cover n :
  0 < n ->
  let m := Z.to_nat ((n + ChunkSize - 1) / ChunkSize) in
  (m <> 0)%nat /\ n <= Z.of_nat m * ChunkSize /\ (Z.of_nat m - 1) * ChunkSize < n.
Proof.
  intros Hn. cbv zeta. unfold ChunkSize.
  change (64 * 1024) with 65536.
  pose proof (Z.div_mod (n + 65536 - 1) 65536 ltac:(lia)) as Hdm.
  pose proof (Z.mod_pos_bound (n + 65536 - 1) 65536 ltac:(lia)) as Hmod.
  assert (Hq : 1 <= (n + 65536 - 1) / 65536) by (apply Z.div_le_lower_bound; lia).
  rewrite Z2Nat.id by lia. split; [lia|]. lia.
Qed.

(** ** The block table *)

Lemma readBlockTable_loop_written : forall blocks i r hdrs,
  Forall tableEntryOk blocks ->
  readBlockTable_loop (length blocks) i
    (flat_map (fun block => bytesOf (Magic block) ++ putInt32 (Size block)) blocks ++ r)
    hdrs
  = inl (hdrs ++ map headerOf blocks, r).
Proof.
  induction blocks as [|b blocks IH]; intros i r hdrs Hok.
  - cbn [length readBlockTable_loop flat_map map app]. rewrite app_nil_r. reflexivity.
  - inversion Hok as [|? ? [Hmagic Hsize] Hok']; subst.
    cbn [length readBlockTable_loop flat_map map]. rewrite <- !app_assoc.
    rewrite ReadFull_app by (destruct Hmagic as [-> | ->]; reflexivity).
    rewrite ReadFull_app by reflexivity.
    rewrite stringOf_bytesOf.
    change (le32 (putInt32 (Size b))) with (Dds.le32 (Dds.putLe32 (Size b))).
    rewrite DdsExtra.le32_putLe32
      by (unfold DdsExtraSpec.isU32; unfold maxInt32 in Hsize; lia).
    rewrite int32_of_word_small by exact Hsize.
    assert (Hknown : negb (String.eqb (Magic b) BlockMagicCOPY)
                     && negb (String.eqb (Magic b) BlockMagicLZ4) = false)
      by (destruct Hmagic as [-> | ->]; reflexivity).
    rewrite Hknown.
    destruct (Z.ltb_spec (Size b) 0) as [|_]; [lia|].
    rewrite IH by exact Hok'. rewrite <- app_assoc. reflexivity.
Qed.

(** X23.  [readBlockTable] reads back the table [WriteEDDSWithMipmaps]
    writes: for blocks with the magic COPY or LZ4 and a size between 0 and
    the largest [int32], it returns their magics and sizes from the last
    block to the first, and leaves what follows the table. *)
Theorem readBlockTable_reads_back_written_table blocks rest :
  Forall tableEntryOk blocks ->
  readBlockTable (writeBlockTable blocks ++ rest) (Z.of_nat (length blocks))
  = inl (map headerOf (rev blocks), rest).
Proof.
  intros Hok. unfold readBlockTable, writeBlockTable.
  rewrite Nat2Z.id, <- length_rev.
  apply (readBlockTable_loop_written (rev blocks) 0 rest []).
  apply Forall_rev. exact Hok.
Qed.

Lemma readBlockTable_witness :
  readBlockTable
    (writeBlockTable [mkBlock BlockMagicLZ4 [1; 0; 0; 128; 7] 9 2000;
                      mkBlock BlockMagicCOPY sample_mip1 500 0] ++ [42])
    (Z.of_nat 2)
  = inl ([mkBlockHeader BlockMagicCOPY 500; mkBlockHeader BlockMagicLZ4 9], [42]).
Proof.
  apply (readBlockTable_reads_back_written_table
           [mkBlock BlockMagicLZ4 [1; 0; 0; 128; 7] 9 2000;
            mkBlock BlockMagicCOPY sample_mip1 500 0] [42]).
  repeat (apply Forall_cons || apply Forall_nil);
    (split; [cbn [Magic]; auto | cbn [Size]; unfold maxInt32; lia]).
Defined.

Section WithCodec.
Variable CompressBlockBound : Z -> Z.
Variable CompressBlockHC : list Z -> Z -> option (list Z).
Variable UncompressBlockWithDict : list Z -> Z -> list Z -> option (list Z).

Local Notation "'compressChunks'" :=
  (EddsIO.compressChunks CompressBlockBound CompressBlockHC).
Local Notation "'compressBlock'" :=
  (EddsIO.compressBlock CompressBlockBound CompressBlockHC).
Local Notation "'compressAll'" :=
  (EddsIO.compressAll CompressBlockBound CompressBlockHC).
Local Notation "'chunkLoop'" := (Edds.chunkLoop UncompressBlockWithDict).
Local Notation "'decompressBlock'" := (Edds.decompressBlock UncompressBlockWithDict).
Local Notation "'readLargestMipFromBlocks'" :=
  (EddsIO.readLargestMipFromBlocks UncompressBlockWithDict).
Local Notation "'largestMipLoop'" := (EddsIO.largestMipLoop UncompressBlockWithDict).

(** What [compressBlock] returns is a COPY block of the data, or an LZ4 block
    whose data is the chunk stream of the loop. *)
Lemma compressBlock_cases data block :
  compressBlock data = inl block ->
  len data <= maxInt32
  /\ (block = copyBlock data
      \/ (1024 <= len data
          /\ 4 + len (Data block) <= maxInt32
          /\ block = mkBlock BlockMagicLZ4 (Data block) (4 + len (Data block)) (len data)
          /\ compressChunks data (chunkStarts (len data)) [] = Stream (Data block))).
Proof.
  unfold EddsIO.compressBlock.
  destruct (Z.ltb_spec maxInt32 (len data)) as [|Hmax]; [discriminate|].
  destruct (Z.ltb_spec (len data) 1024) as [|Hbig].
  - intros [= <-]. auto.
  - destruct (compressChunks data (chunkStarts (len data)) []) as [s| |e] eqn:Es;
      [|intros [= <-]; auto|discriminate].
    destruct (Z.ltb_spec maxInt32 (4 + len s)) as [|Hfit]; [discriminate|].
    destruct (_ <? _)%float; intros [= <-]; [auto|].
    split; [exact Hmax|]. right. cbn [Data]. auto.
Qed.

(** One round of the chunk loop of the decoder, on a chunk as the
    compressor frames it. *)
Lemma chunkLoop_step fuel targetSize c flag rest out dict decoded :
  0 < len c < 2 ^ 24 -> flag = 0 \/ flag = 128 -> len out < targetSize ->
  UncompressBlockWithDict c
    (if targetSize - len out <? ChunkSize then targetSize - len out else ChunkSize)
    dict = Some decoded ->
  chunkLoop (S fuel) targetSize
    ([len c mod 256; Z.shiftr (len c) 8 mod 256; Z.shiftr (len c) 16 mod 256; flag]
     ++ c ++ rest) out dict
  = if flag =? 128 then inl (out ++ decoded, rest)
    else chunkLoop fuel targetSize rest (out ++ decoded) (updateDict dict decoded).
Proof.
  intros Hc Hflag Hout Hdec.
  cbn [Edds.chunkLoop].
  set (r := [_; _; _; _] ++ c ++ rest).
  assert (Hr : len r = 4 + len c + len rest).
  { unfold r. rewrite !len_app. change (len [_; _; _; flag]) with 4. lia. }
  pose proof (len_nonneg rest) as Hrest.
  destruct (Z.ltb_spec (len r) 4) as [|_]; [lia|].
  change (firstn 4 r)
    with [len c mod 256; Z.shiftr (len c) 8 mod 256; Z.shiftr (len c) 16 mod 256; flag].
  change (skipn 4 r) with (c ++ rest).
  cbn [nth]. rewrite (le24_bytes (len c)) by lia.
  assert (Hknown : Z.ldiff flag 128 = 0) by (destruct Hflag; subst flag; reflexivity).
  rewrite Hknown. cbn [Z.eqb negb].
  rewrite len_app.
  destruct (Z.leb_spec (len c) 0) as [|_]; [lia|].
  destruct (Z.ltb_spec (len c + len rest) (len c)) as [|_]; [lia|]. cbn [orb].
  assert (Hfirst : firstn (Z.to_nat (len c)) (c ++ rest) = c).
  { unfold len. rewrite Nat2Z.id, firstn_app, Nat.sub_diag, firstn_all, firstn_O.
    apply app_nil_r. }
  assert (Hskip : skipn (Z.to_nat (len c)) (c ++ rest) = rest).
  { unfold len. rewrite Nat2Z.id, skipn_app, Nat.sub_diag, skipn_all. reflexivity. }
  rewrite Hfirst, Hskip.
  destruct (Z.leb_spec (targetSize - len out) 0) as [|_]; [lia|].
  rewrite Hdec.
  destruct Hflag; subst flag; reflexivity.
Qed.


Section Contract.
Hypothesis codec_ok :
  codecContract CompressBlockBound CompressBlockHC UncompressBlockWithDict.

(** The chunk stream of the compressor starts with a chunk of sane size, and
    the chunk loop of the decoder reads it back to the data. *)
Lemma compressChunks_stream data : forall m j acc s,
  (m <> 0)%nat ->
  len data <= Z.of_nat (j + m) * ChunkSize ->
  (Z.of_nat (j + m) - 1) * ChunkSize < len data ->
  compressChunks data (map (fun k => Z.of_nat k * ChunkSize) (seq j m)) acc = Stream s ->
  exists stream,
    s = acc ++ stream
    /\ 5 <= len stream
    /\ 0 < le24 (nth 0 stream 0) (nth 1 stream 0) (nth 2 stream 0) < 2 ^ 20
    /\ forall out dict fuel,
         len out = Z.of_nat j * ChunkSize -> (length stream < fuel)%nat ->
         chunkLoop fuel (len data) stream out dict
         = inl (out ++ skipn (Z.to_nat (Z.of_nat j * ChunkSize)) data, []).
Proof.
  destruct codec_ok as (Hbound & Hfits & Hinverse).
  assert (HCS : ChunkSize = 65536) by reflexivity.
  induction m as [|m IH]; intros j acc s Hm Hhi Hlo; [contradiction|].
  cbn [seq map EddsIO.compressChunks].
  set (i := Z.of_nat j * ChunkSize).
  assert (Hi : 0 <= i < len data) by (unfold i; nia).
  set (end_ := if len data <? i + ChunkSize then len data else i + ChunkSize).
  assert (Hend : i < end_ <= len data /\ end_ - i <= ChunkSize).
  { unfold end_. destruct (Z.ltb_spec (len data) (i + ChunkSize)); lia. }
  set (srcChunk := firstn (Z.to_nat (end_ - i)) (skipn (Z.to_nat i) data)).
  assert (Hsrc : len srcChunk = end_ - i).
  { unfold srcChunk. apply len_firstn_skipn; lia. }
  destruct (CompressBlockHC srcChunk (CompressBlockBound ChunkSize)) as [c|] eqn:Ec;
    [|discriminate].
  destruct (Z.eqb_spec (len c) 0) as [|Hc0]; [discriminate|]. cbn [orb].
  destruct (_ <? _)%float; [discriminate|].
  destruct (Z.ltb_spec 8388607 (len c)) as [|Hc23]; [discriminate|].
  pose proof (len_nonneg c) as Hcpos.
  pose proof (Hfits _ _ Ec) as Hcfit.
  assert (Hdec : forall dict, UncompressBlockWithDict c (end_ - i) dict = Some srcChunk).
  { intros dict. rewrite <- Hsrc. apply (Hinverse _ _ dict Ec). lia. }
  set (flag := if end_ =? len data then 128 else 0).
  set (hdr := [len c mod 256; Z.shiftr (len c) 8 mod 256; Z.shiftr (len c) 16 mod 256;
               flag]).
  assert (Hflag : flag = 0 \/ flag = 128) by (unfold flag; destruct (end_ =? len data); auto).
  assert (Hhead : forall tail,
            5 <= len (hdr ++ c ++ tail)
            /\ 0 < le24 (nth 0 (hdr ++ c ++ tail) 0) (nth 1 (hdr ++ c ++ tail) 0)
                      (nth 2 (hdr ++ c ++ tail) 0) < 2 ^ 20).
  { intros tail. split.
    - rewrite !len_app. pose proof (len_nonneg tail). change (len hdr) with 4. lia.
    - unfold hdr. cbn [app nth]. rewrite (le24_bytes (len c)) by lia. lia. }
  destruct m as [|m'].
  - (* the last chunk *)
    cbn [seq map EddsIO.compressChunks]. intros [= <-].
    exists (hdr ++ c). split; [reflexivity|].
    pose proof (Hhead []) as Hh. rewrite app_nil_r in Hh.
    split; [apply Hh|]. split; [apply Hh|].
    intros out dict fuel Hout Hfuel.
    destruct fuel as [|fuel]; [lia|].
    assert (Eend : end_ = len data).
    { unfold end_. destruct (Z.ltb_spec (len data) (i + ChunkSize)); [reflexivity|].
      unfold i in *. lia. }
    replace (hdr ++ c) with (hdr ++ c ++ []) by (rewrite app_nil_r; reflexivity).
    unfold hdr.
    rewrite (chunkLoop_step fuel (len data) c flag [] out dict srcChunk);
      try assumption; try lia.
    + unfold flag. rewrite Eend, Z.eqb_refl. change (128 =? 128) with true. cbv iota.
      f_equal. f_equal. f_equal. unfold srcChunk. rewrite Eend.
      apply firstn_all2. rewrite length_skipn. unfold len. lia.
    + rewrite Hout. fold i.
      replace (if len data - i <? ChunkSize then len data - i else ChunkSize)
        with (end_ - i); [apply Hdec|].
      rewrite Eend. destruct (Z.ltb_spec (len data - i) ChunkSize); lia.
  - (* a chunk that is not the last *)
    intros Hs.
    assert (Hnext : i + ChunkSize < len data) by (unfold i; nia).
    assert (Eend : end_ = i + ChunkSize).
    { unfold end_. destruct (Z.ltb_spec (len data) (i + ChunkSize)); lia. }
    destruct (IH (S j) (acc ++ hdr ++ c) s) as (stream & -> & Hlen & Hcn & Hloop);
      [discriminate|lia|lia|exact Hs|].
    exists (hdr ++ c ++ stream). split; [rewrite <- !app_assoc; reflexivity|].
    split; [apply Hhead|]. split; [apply Hhead|].
    intros out dict fuel Hout Hfuel.
    destruct fuel as [|fuel]; [lia|]. unfold hdr.
    rewrite (chunkLoop_step fuel (len data) c flag stream out dict srcChunk);
      try assumption; try lia.
    + assert (Eflag : flag = 0).
      { unfold flag. destruct (Z.eqb_spec end_ (len data)); [lia|reflexivity]. }
      rewrite Eflag. change (0 =? 128) with false. cbv iota.
      rewrite Hloop.
      * f_equal. f_equal. rewrite <- app_assoc. f_equal.
        unfold srcChunk. rewrite Eend.
        replace (i + ChunkSize - i) with ChunkSize by lia.
        replace (Z.of_nat (S j) * ChunkSize) with (i + ChunkSize) by (unfold i; lia).
        apply firstn_skipn_next; lia.
      * rewrite len_app, Hout, Hsrc. unfold i. lia.
      * revert Hfuel. rewrite !length_app. change (length hdr) with 4%nat. lia.
    + rewrite Hout. fold i.
      replace (if len data - i <? ChunkSize then len data - i else ChunkSize)
        with (end_ - i); [apply Hdec|].
      rewrite Eend. destruct (Z.ltb_spec (len data - i) ChunkSize); lia.
Qed.

(** The decoder on an LZ4 block as it comes back from the file: the
    uncompressed size in front of the chunk stream, none in the block. *)
Lemma decompressBlock_read_LZ4 data stream size :
  1024 <= len data <= maxInt32 ->
  compressChunks data (chunkStarts (len data)) [] = Stream stream ->
  decompressBlock (mkBlock BlockMagicLZ4 (putInt32 (len data) ++ stream) size 0) (len data)
  = inl data.
Proof.
  intros Hdata Hstream.
  destruct (chunkStarts_cover (len data) ltac:(lia)) as (Hm & Hhi & Hlo).
  destruct (compressChunks_stream data _ 0%nat [] stream Hm Hhi Hlo Hstream)
    as (stream' & Hs & Hlen & Hcn & Hloop).
  cbn [app] in Hs. subst stream'.
  unfold Edds.decompressBlock. cbn [Magic Data UncompressedSize].
  change (String.eqb BlockMagicLZ4 BlockMagicCOPY) with false.
  change (String.eqb BlockMagicLZ4 BlockMagicLZ4) with true.
  cbn [negb]. change (0 <? 0) with false. cbv iota.
  destruct (Z.leb_spec (len data) 0) as [|_]; [lia|].
  rewrite len_app. change (len (putInt32 (len data))) with 4.
  destruct (Z.leb_spec 8 (4 + len stream)) as [_|]; [|lia].
  rewrite le32_putInt32 by lia. rewrite Z.eqb_refl. cbn [orb andb].
  change (nth 4 (putInt32 (len data) ++ stream) 0) with (nth 0 stream 0).
  change (nth 5 (putInt32 (len data) ++ stream) 0) with (nth 1 stream 0).
  change (nth 6 (putInt32 (len data) ++ stream) 0) with (nth 2 stream 0).
  destruct (Z.ltb_spec 0 (le24 (nth 0 stream 0) (nth 1 stream 0) (nth 2 stream 0)))
    as [_|]; [|lia].
  destruct (Z.ltb_spec (le24 (nth 0 stream 0) (nth 1 stream 0) (nth 2 stream 0)) (2 ^ 20))
    as [_|]; [|lia].
  cbn [orb andb]. cbv iota beta.
  change (skipn 4 (putInt32 (len data) ++ stream)) with stream.
  rewrite (Hloop [] [] (S (length stream))) by (reflexivity || lia).
  cbn [app skipn Z.to_nat Z.mul Z.of_nat]. rewrite Z.eqb_refl. reflexivity.
Qed.

Lemma compressBlock_written data block :
  compressBlock data = inl block ->
  (Magic block = BlockMagicCOPY \/ Magic block = BlockMagicLZ4)
  /\ 0 <= Size block <= maxInt32
  /\ Size block = len (writeBlockData block).
Proof.
  intros Hb. destruct (compressBlock_cases data block Hb)
    as (Hmax & [->|(Hbig & Hfit & -> & _)]).
  - pose proof (len_nonneg data). cbn [copyBlock Magic Size]. auto.
  - pose proof (len_nonneg (Data block)).
    cbn [Magic Size]. split; [auto|]. split; [lia|].
    unfold writeBlockData. cbn [Magic Data UncompressedSize].
    change (String.eqb BlockMagicLZ4 BlockMagicLZ4) with true. cbv iota.
    rewrite len_app. reflexivity.
Qed.

Lemma readBlockBody_written block rest :
  0 <= Size block -> Size block = len (writeBlockData block) ->
  readBlockBody (writeBlockData block ++ rest) (headerOf block)
  = inl (mkBlock (Magic block) (writeBlockData block) (Size block) 0, rest).
Proof.
  intros Hpos Hsize. unfold readBlockBody, headerOf. cbn [HdrSize HdrMagic].
  destruct (Z.ltb_spec (Size block) 0) as [|_]; [lia|].
  rewrite ReadFull_app; [reflexivity|].
  rewrite Hsize. unfold len. symmetry. apply Nat2Z.id.
Qed.

Lemma decompressBlock_read data block :
  compressBlock data = inl block ->
  decompressBlock (mkBlock (Magic block) (writeBlockData block) (Size block) 0) (len data)
  = inl data.
Proof.
  intros Hb. destruct (compressBlock_cases data block Hb)
    as (Hmax & [->|(Hbig & Hfit & -> & Hstream)]).
  - unfold Edds.decompressBlock, writeBlockData. cbn [copyBlock Magic Data].
    change (String.eqb BlockMagicCOPY BlockMagicLZ4) with false.
    change (String.eqb BlockMagicCOPY BlockMagicCOPY) with true.
    cbv iota. rewrite Z.eqb_refl. reflexivity.
  - unfold writeBlockData. cbn [Magic Data UncompressedSize Size].
    change (String.eqb BlockMagicLZ4 BlockMagicLZ4) with true. cbv iota.
    apply decompressBlock_read_LZ4; [lia|exact Hstream].
Qed.

End Contract.

(** X24.  A block [compressBlock] returns has the magic COPY or LZ4, a
    [Size] between 0 and the largest [int32] that is the number of bytes
    [writeBlockData] writes for it; a COPY block holds the data itself, an
    LZ4 block is only made of 1024 bytes or more and records their number as
    [UncompressedSize]. *)
Theorem compressBlock_block_shape data block :
  compressBlock data = inl block ->
  0 <= Size block <= maxInt32
  /\ Size block = len (writeBlockData block)
  /\ ((Magic block = BlockMagicCOPY /\ Data block = data /\ UncompressedSize block = 0)
      \/ (Magic block = BlockMagicLZ4 /\ 1024 <= len data
          /\ UncompressedSize block = len data)).
Proof.
  intros Hb. destruct (compressBlock_written data block Hb) as (_ & Hsize & Hlen).
  split; [exact Hsize|]. split; [exact Hlen|].
  destruct (compressBlock_cases data block Hb) as (_ & [->|(Hbig & _ & -> & _)]).
  - left. cbn [copyBlock Magic Data UncompressedSize]. auto.
  - right. cbn [Magic UncompressedSize]. auto.
Qed.

(** X25.  A block written and read back decodes to the data it was made of,
    when the LZ4 library keeps its contract: for a block [compressBlock]
    returns for [data], [readBlockBody] reads the bytes [writeBlockData]
    writes (given the entry of the block in the table) and leaves what
    follows them, and [decompressBlock] turns the block read, with the
    length of [data] as expected size, into [data]. *)
Theorem compressBlock_written_block_decodes data block rest :
  codecContract CompressBlockBound CompressBlockHC UncompressBlockWithDict ->
  compressBlock data = inl block ->
  exists read,
    readBlockBody (writeBlockData block ++ rest) (headerOf block) = inl (read, rest)
    /\ decompressBlock read (len data) = inl data.
Proof.
  intros Hcodec Hb.
  destruct (compressBlock_written data block Hb) as (_ & Hsize & Hlen).
  eexists. split.
  - apply readBlockBody_written; [lia|exact Hlen].
  - apply (decompressBlock_read Hcodec data block Hb).
Qed.

(** ** The largest mip level of a file *)

Lemma compressAll_blocks : forall mipDatas blocks,
  compressAll mipDatas = inl blocks ->
  Forall2 (fun data block => compressBlock data = inl block) mipDatas blocks.
Proof.
  induction mipDatas as [|d ds IH]; intros blocks; cbn [EddsIO.compressAll].
  - intros [= <-]. constructor.
  - destruct (compressBlock d) as [b|e] eqn:Eb; [|discriminate].
    destruct (compressAll ds) as [bs|[i e]] eqn:Ebs; [|discriminate].
    intros [= <-]. constructor; [exact Eb|apply IH; reflexivity].
Qed.

Lemma compressAll_written mipDatas blocks :
  compressAll mipDatas = inl blocks ->
  Forall (fun b => (Magic b = BlockMagicCOPY \/ Magic b = BlockMagicLZ4)
                   /\ 0 <= Size b <= maxInt32
                   /\ Size b = len (writeBlockData b)) blocks.
Proof.
  intros Hall. apply compressAll_blocks in Hall.
  induction Hall as [|d b ds bs Hd _ IH]; constructor; [|exact IH].
  apply (compressBlock_written d b Hd).
Qed.

(** The bodies of the smaller levels are skipped by their sizes. *)
Lemma largestMipLoop_skips width height format mipMapCount last rest :
  forall blocks i,
  Forall (fun block => 0 <= Size block /\ Size block = len (writeBlockData block))
    blocks ->
  mipMapCount = i + Z.of_nat (length blocks) + 1 ->
  largestMipLoop (map headerOf (blocks ++ [last])) i
    (flat_map writeBlockData blocks ++ writeBlockData last ++ rest)
    width height format mipMapCount
  = largestMipLoop [headerOf last] (mipMapCount - 1) (writeBlockData last ++ rest)
      width height format mipMapCount.
Proof.
  induction blocks as [|b blocks IH]; intros i Hok Hcount.
  - cbn [length Z.of_nat] in Hcount. cbn [app map flat_map].
    replace (mipMapCount - 1) with i by lia. reflexivity.
  - apply Forall_cons_iff in Hok as [[Hpos Hsize] Hok'].
    cbn [app map flat_map EddsIO.largestMipLoop].
    destruct (Z.eqb_spec (mipMapCount - i - 1) 0) as [Hzero|_].
    { cbn [length] in Hcount. lia. }
    cbn [negb headerOf HdrSize]. rewrite <- app_assoc.
    replace (skipn (Z.to_nat (Size b)) (writeBlockData b ++ _))
      with (flat_map writeBlockData blocks ++ writeBlockData last ++ rest).
    + apply IH; [exact Hok'|]. cbn [length] in Hcount. lia.
    + rewrite Hsize. unfold len. rewrite Nat2Z.id, skipn_app, Nat.sub_diag, skipn_all.
      reflexivity.
Qed.

(** X26.  What [readLargestMipFromBlocks] returns for a file written from
    compressed mip levels is the data of the largest level, when the LZ4
    library keeps its contract: after the table
    and the bodies written from the blocks of [compressBlock] for the levels
    (smallest level first), read with the number of levels as mip count and
    a format and size for which the data of the largest level has the
    expected length, the reader returns that data with the width and height
    of level 0. *)
Theorem readLargestMipFromBlocks_returns_largest_level
    data others blocks width height format rest :
  codecContract CompressBlockBound CompressBlockHC UncompressBlockWithDict ->
  compressAll (data :: others) = inl blocks ->
  0 < len data ->
  ExpectedDataLength format (mipDimension width 0) (mipDimension height 0) = len data ->
  readLargestMipFromBlocks
    (writeBlockTable blocks ++ writeBlockBodies blocks ++ rest)
    width height format (Z.of_nat (length blocks))
  = inl (data, mipDimension width 0, mipDimension height 0).
Proof.
  intros Hcodec Hall Hpos Hexpected.
  pose proof (compressAll_written _ _ Hall) as Hshape.
  apply compressAll_blocks in Hall.
  inversion Hall as [|? block ? smaller Hblock Hsmaller]; subst.
  unfold EddsIO.readLargestMipFromBlocks.
  set (count := Z.of_nat (length (block :: smaller))).
  assert (Hcount : count = Z.of_nat (length (rev smaller)) + 1).
  { unfold count. rewrite length_rev. cbn [length]. lia. }
  destruct (Z.eqb_spec count 0) as [|_]; [lia|].
  unfold count at 1.
  rewrite readBlockTable_reads_back_written_table
    by (eapply Forall_impl; [|exact Hshape]; cbv beta; unfold tableEntryOk; tauto).
  unfold writeBlockBodies. cbn [rev]. rewrite flat_map_app. cbn [flat_map].
  rewrite app_nil_r, <- !app_assoc.
  rewrite (largestMipLoop_skips width height format count block rest (rev smaller) 0).
  - cbn [EddsIO.largestMipLoop].
    replace (count - (count - 1) - 1) with 0 by lia. cbn [Z.eqb negb].
    destruct (compressBlock_written data block Hblock) as (_ & Hsize & Hlen).
    rewrite readBlockBody_written by (lia || exact Hlen).
    rewrite Hexpected.
    destruct (Z.leb_spec (len data) 0) as [|_]; [lia|].
    rewrite (decompressBlock_read Hcodec data block Hblock).
    rewrite Z.eqb_refl. reflexivity.
  - apply Forall_rev. inversion Hshape as [|? ? _ Hrest]; subst.
    eapply Forall_impl; [|exact Hrest]. cbv beta. intros b (_ & Hb & Hl). split; [lia|exact Hl].
  - lia.
Qed.

End WithCodec.

(** ** The codec of the examples *)

Lemma forallb_eqb_repeat b : forall l,
  forallb (Z.eqb b) l = true -> l = repeat b (length l).
Proof.
  induction l as [|x l IH]; cbn [forallb length repeat]; [reflexivity|].
  intros Hall. apply andb_prop in Hall as [Hx Hl].
  apply Z.eqb_eq in Hx. subst x. f_equal. exact (IH Hl).
Qed.

Lemma runCodec_contract : codecContract runBound runCompress runUncompress.
Proof.
  split; [reflexivity|]. split.
  - intros src c. change (runBound ChunkSize) with 65552. unfold runCompress.
    destruct src as [|b rest]; [intros [= <-]; cbn; lia|].
    destruct (forallb (Z.eqb b) rest).
    + cbn [Z.leb Z.compare Pos.compare Pos.compare_cont]. intros [= <-]. cbn. lia.
    + destruct (Z.leb_spec (len (b :: rest)) 65552); intros [= <-]; [assumption|cbn; lia].
  - intros src c dict. change (runBound ChunkSize) with 65552. unfold runCompress.
    destruct src as [|b rest]; [intros [= <-]; cbn; lia|].
    destruct (forallb (Z.eqb b) rest) eqn:Eall.
    + cbn [Z.leb Z.compare Pos.compare Pos.compare_cont]. intros [= <-] _.
      unfold runUncompress, len. rewrite Nat2Z.id. cbn [length repeat].
      rewrite <- (forallb_eqb_repeat b rest Eall). reflexivity.
    + destruct (Z.leb_spec (len (b :: rest)) 65552); intros [= <-]; [|cbn; lia].
      intros _. unfold runUncompress.
      destruct rest as [|x rest]; [discriminate Eall|].
      rewrite Z.eqb_refl. reflexivity.
Qed.

Lemma compressBlock_block_shape_witness :
  0 <= Size sample_lz4_block <= maxInt32
  /\ Size sample_lz4_block = len (writeBlockData sample_lz4_block)
  /\ ((Magic sample_lz4_block = BlockMagicCOPY /\ Data sample_lz4_block = sample_mip0
       /\ UncompressedSize sample_lz4_block = 0)
      \/ (Magic sample_lz4_block = BlockMagicLZ4 /\ 1024 <= len sample_mip0
          /\ UncompressedSize sample_lz4_block = len sample_mip0)).
Proof.
  apply (compressBlock_block_shape runBound runCompress sample_mip0 sample_lz4_block).
  vm_compute. reflexivity.
Defined.

Lemma compressBlock_written_block_witness :
  exists read,
    readBlockBody (writeBlockData sample_lz4_block ++ [42]) (headerOf sample_lz4_block)
    = inl (read, [42])
    /\ decompressBlock runUncompress read (len sample_mip0) = inl sample_mip0.
Proof.
  apply (compressBlock_written_block_decodes runBound runCompress runUncompress
           sample_mip0 sample_lz4_block [42] runCodec_contract).
  vm_compute. reflexivity.
Defined.

Lemma readLargestMipFromBlocks_witness :
  readLargestMipFromBlocks runUncompress
    (writeBlockTable [sample_lz4_block; copyBlock sample_mip1]
     ++ writeBlockBodies [sample_lz4_block; copyBlock sample_mip1] ++ [])
    50 10 FormatBGRA8 (Z.of_nat (length [sample_lz4_block; copyBlock sample_mip1]))
  = inl (sample_mip0, mipDimension 50 0, mipDimension 10 0).
Proof.
  apply (readLargestMipFromBlocks_returns_largest_level runBound runCompress runUncompress
           sample_mip0 [sample_mip1] [sample_lz4_block; copyBlock sample_mip1]
           50 10 FormatBGRA8 [] runCodec_contract).
  - vm_compute. reflexivity.
  - vm_compute. reflexivity.
  - vm_compute. reflexivity.
Defined.

End EddsExtra.

(* ===================================================================== *)
(** * Names, duplicates, mip levels and pixel order: proofs *)
(* ===================================================================== *)

Module NamesExtra.
Import Imageset ImagesetSpec MiscExtraSpec ImagesetProofs.

(** ** names.go *)

Lemma lower_of_alnum :
  forall c, implb (isAsciiAlphaNum c) (lowerAlnum (toLowerAscii c)) = true.
Proof. by_enumeration. Qed.

Lemma lowerAlnum_alnum : forall c, implb (lowerAlnum c) (isAsciiAlphaNum c) = true.
Proof. by_enumeration. Qed.

Lemma lowerAlnum_fixed :
  forall c, implb (lowerAlnum c) (Ascii.eqb (toLowerAscii c) c) = true.
Proof. by_enumeration. Qed.

Lemma lowerAlnum_snake : forall c, implb (lowerAlnum c) (snakeChar c) = true.
Proof. by_enumeration. Qed.

Lemma lowered_token buf :
  alnumStr buf -> forallb lowerAlnum (map toLowerAscii buf) = true.
Proof.
  unfold alnumStr. induction buf as [|c buf IH]; cbn [map forallb]; [reflexivity|].
  intros Hb. apply andb_prop in Hb as [Hc Hb].
  rewrite (implb_apply _ _ (lower_of_alnum c) Hc), (IH Hb). reflexivity.
Qed.

Lemma token_lowered t : forallb lowerAlnum t = true -> map toLowerAscii t = t.
Proof.
  induction t as [|c t IH]; cbn [map forallb]; [reflexivity|].
  intros Ht. apply andb_prop in Ht as [Hc Ht].
  rewrite (IH Ht). f_equal.
  apply Ascii.eqb_eq. exact (implb_apply _ _ (lowerAlnum_fixed c) Hc).
Qed.

Lemma splitStep_alnum (tokens : list str) (buf : str) r :
  isAsciiAlphaNum r = true -> splitStep (tokens, buf) r = (tokens, buf ++ [r]).
Proof. intros Hr. unfold splitStep. rewrite Hr. reflexivity. Qed.

Lemma splitStep_other (tokens : list str) (buf : str) r :
  isAsciiAlphaNum r = false -> splitStep (tokens, buf) r = flush (tokens, buf).
Proof. intros Hr. unfold splitStep. rewrite Hr. reflexivity. Qed.

Lemma flush_tokens (tokens : list str) (buf : str) :
  Forall tokenOk tokens -> alnumStr buf -> Forall tokenOk (fst (flush (tokens, buf))).
Proof.
  intros Ht Hb. unfold flush. cbn [fst snd].
  destruct buf as [|c buf]; [exact Ht|]. cbn [fst].
  apply Forall_app. split; [exact Ht|].
  constructor; [|constructor]. split; [discriminate|].
  apply lowered_token, Hb.
Qed.

Lemma splitTokens_invariant input : forall (tokens : list str) (buf : str),
  Forall tokenOk tokens -> alnumStr buf ->
  Forall tokenOk (fst (fold_left splitStep input (tokens, buf)))
  /\ alnumStr (snd (fold_left splitStep input (tokens, buf))).
Proof.
  induction input as [|r input IH]; intros tokens buf Ht Hb; [auto|].
  cbn [fold_left].
  destruct (isAsciiAlphaNum r) eqn:Er;
    [rewrite (splitStep_alnum _ _ _ Er)|rewrite (splitStep_other _ _ _ Er)].
  - apply IH; [exact Ht|]. unfold alnumStr in *.
    rewrite forallb_app, Hb. cbn [forallb]. rewrite Er. reflexivity.
  - pose proof (flush_tokens tokens buf Ht Hb) as Hf.
    destruct (flush (tokens, buf)) as [tokens' buf'] eqn:Ef.
    apply IH; [exact Hf|].
    unfold flush in Ef. cbn [fst snd] in Ef.
    destruct buf; injection Ef as <- <-; [exact Hb|reflexivity].
Qed.

Lemma splitTokens_tokens input : Forall tokenOk (splitTokens input).
Proof.
  pose proof (splitTokens_invariant input [] [] (Forall_nil _) eq_refl) as Hinv.
  unfold splitTokens.
  match goal with
  | |- Forall _ (fst (flush ?st)) =>
      change (Forall tokenOk (fst st) /\ alnumStr (snd st)) in Hinv;
      destruct st as [tokens buf]
  end.
  destruct Hinv as [Ht Hb]. apply flush_tokens; [exact Ht|exact Hb].
Qed.

(** Reading a token, and the separator after it. *)
Lemma fold_token (t : str) : forall (tokens : list str) (buf : str),
  forallb lowerAlnum t = true ->
  fold_left splitStep t (tokens, buf) = (tokens, buf ++ t).
Proof.
  induction t as [|c t IH]; intros tokens buf Ht; cbn [fold_left forallb] in *.
  - rewrite app_nil_r. reflexivity.
  - apply andb_prop in Ht as [Hc Ht].
    rewrite (splitStep_alnum _ _ _ (implb_apply _ _ (lowerAlnum_alnum c) Hc)).
    rewrite (IH _ _ Ht), <- app_assoc. reflexivity.
Qed.

Lemma splitTokens_join (t : str) : forall (ts tokens : list str),
  Forall tokenOk (t :: ts) ->
  fst (flush (fold_left splitStep (join (lit "_") (t :: ts)) (tokens, ([] : str))))
  = tokens ++ t :: ts.
Proof.
  intros ts. revert t.
  induction ts as [|t' ts IH]; intros t tokens Hok;
    apply Forall_cons_iff in Hok as [[Hne Ht] Hok].
  - cbn [join]. rewrite (fold_token t tokens [] Ht). cbn [app].
    unfold flush. cbn [fst snd]. destruct t as [|c t]; [contradiction|].
    cbn [fst]. rewrite (token_lowered (c :: t) Ht). reflexivity.
  - change (join (lit "_") (t :: t' :: ts))
      with (t ++ lit "_" ++ join (lit "_") (t' :: ts)).
    rewrite !fold_left_app, (fold_token t tokens [] Ht). cbn [app].
    change (fold_left splitStep (lit "_") (tokens, t)) with (flush (tokens, t)).
    unfold flush at 2. cbn [fst snd]. destruct t as [|c t]; [contradiction|].
    rewrite (token_lowered (c :: t) Ht).
    pose proof (IH t' (tokens ++ [c :: t]) Hok) as Erest.
    rewrite <- app_assoc in Erest. exact Erest.
Qed.

Lemma join_snake : forall ts,
  Forall tokenOk ts -> forallb snakeChar (join (lit "_") ts) = true.
Proof.
  assert (Htok : forall t, forallb lowerAlnum t = true -> forallb snakeChar t = true).
  { induction t as [|c t IH]; cbn [forallb]; [reflexivity|].
    intros Ht. apply andb_prop in Ht as [Hc Ht].
    rewrite (implb_apply _ _ (lowerAlnum_snake c) Hc), (IH Ht). reflexivity. }
  induction ts as [|t ts IH]; intros Hok; [reflexivity|].
  apply Forall_cons_iff in Hok as [[_ Ht] Hok].
  destruct ts as [|t' ts]; [exact (Htok t Ht)|].
  change (join (lit "_") (t :: t' :: ts))
    with (t ++ lit "_" ++ join (lit "_") (t' :: ts)).
  rewrite !forallb_app, (Htok t Ht), (IH Hok). reflexivity.
Qed.

Lemma no_alnum_no_token input :
  forallb (fun c => negb (isAsciiAlphaNum c)) input = true ->
  fold_left splitStep input (([], []) : list str * str) = ([], []).
Proof.
  induction input as [|c input IH]; cbn [forallb fold_left]; [reflexivity|].
  intros Hin. apply andb_prop in Hin as [Hc Hin].
  apply negb_true_iff in Hc. rewrite (splitStep_other _ _ _ Hc).
  exact (IH Hin).
Qed.

Lemma some_alnum_some_token input : forall (tokens : list str) (buf : str),
  tokens <> [] \/ buf <> [] ->
  fst (flush (fold_left splitStep input (tokens, buf))) <> [].
Proof.
  induction input as [|c input IH]; intros tokens buf Hsome.
  - cbn [fold_left]. unfold flush. cbn [fst snd].
    destruct buf as [|b buf]; cbn [fst].
    + destruct Hsome as [H1|H1]; [exact H1|contradiction].
    + intros Habs. apply app_eq_nil in Habs as [_ Habs]. discriminate.
  - cbn [fold_left].
    destruct (isAsciiAlphaNum c) eqn:Ec;
      [rewrite (splitStep_alnum _ _ _ Ec)|rewrite (splitStep_other _ _ _ Ec)].
    + apply IH. right. intros Habs. apply app_eq_nil in Habs as [_ Habs]. discriminate.
    + unfold flush at 2. cbn [fst snd]. destruct buf as [|b buf].
      * apply IH. destruct Hsome as [H1|H1]; [left; exact H1|contradiction].
      * apply IH. left. intros Habs. apply app_eq_nil in Habs as [_ Habs]. discriminate.
Qed.

Lemma splitTokens_nil_iff input :
  splitTokens input = [] <-> forallb (fun c => negb (isAsciiAlphaNum c)) input = true.
Proof.
  split.
  - induction input as [|c input IH]; [reflexivity|].
    unfold splitTokens. cbn [fold_left forallb].
    destruct (isAsciiAlphaNum c) eqn:Ec;
      [rewrite (splitStep_alnum _ _ _ Ec)|rewrite (splitStep_other _ _ _ Ec)].
    + intros Habs. exfalso. revert Habs. apply some_alnum_some_token.
      right. discriminate.
    + change (flush ([], [])) with (@pair (list str) str [] []).
      intros Hnil. cbn [negb andb]. exact (IH Hnil).
  - intros Hno. unfold splitTokens. rewrite (no_alnum_no_token input Hno). reflexivity.
Qed.

(** X27.  In snake-case mode [NormalizeName] gives a canonical name: it is
    made of lower-case letters, digits and underscores only, normalizing it
    again changes nothing, and it is empty exactly when the input holds no
    ASCII letter or digit. *)
Theorem NormalizeName_snake_case_is_canonical input :
  forallb snakeChar (NormalizeName input false) = true
  /\ NormalizeName (NormalizeName input false) false = NormalizeName input false
  /\ (NormalizeName input false = []
      <-> forallb (fun c => negb (isAsciiAlphaNum c)) input = true).
Proof.
  pose proof (splitTokens_tokens input) as Hok.
  pose proof (splitTokens_nil_iff input) as Hnil.
  unfold NormalizeName at 1 3 4 5.
  destruct (splitTokens input) as [|t ts] eqn:Et.
  - split; [reflexivity|]. split; [reflexivity|].
    split; intros _; [apply Hnil; reflexivity|reflexivity].
  - split; [apply join_snake, Hok|]. split.
    + assert (Eback : splitTokens (join (lit "_") (t :: ts)) = t :: ts)
        by exact (splitTokens_join t ts [] Hok).
      unfold NormalizeName. rewrite Eback. reflexivity.
    + split.
      * intros Hempty. exfalso.
        apply Forall_cons_iff in Hok as [[Hne _] _].
        destruct ts as [|t' ts]; [exact (Hne Hempty)|].
        change (join (lit "_") (t :: t' :: ts))
          with (t ++ lit "_" ++ join (lit "_") (t' :: ts)) in Hempty.
        apply app_eq_nil in Hempty as [Hempty _]. exact (Hne Hempty).
      * intros Hno. apply Hnil in Hno. discriminate Hno.
Qed.

End NamesExtra.

Module UnpackExtra.
Import Imageset Unpack MiscExtraSpec.

(** ** The unpack command *)

Lemma keyEqb_eq a b : keyEqb a b = true <-> a = b.
Proof.
  destruct a as [[[a0 a1] a2] a3], b as [[[b0 b1] b2] b3]. unfold keyEqb.
  rewrite !andb_true_iff, !Z.eqb_eq. split.
  - intros [[[-> ->] ->] ->]. reflexivity.
  - intros [= -> -> -> ->]. auto.
Qed.

Lemma seen_In key seen : existsb (keyEqb key) seen = true <-> In key seen.
Proof.
  rewrite existsb_exists. split.
  - intros (k & Hin & Hk). apply keyEqb_eq in Hk. subst k. exact Hin.
  - intros Hin. exists key. split; [exact Hin|]. apply keyEqb_eq. reflexivity.
Qed.

Lemma Subseq_refl {A : Type} (l : list A) : Subseq l l.
Proof. induction l; constructor; assumption. Qed.

Lemma NoDup_snoc {A : Type} (l : list A) x : NoDup l -> ~ In x l -> NoDup (l ++ [x]).
Proof.
  induction 1 as [|y l Hy Hl IH]; intros Hx; cbn [app].
  - constructor; [intros []|constructor].
  - constructor.
    + rewrite in_app_iff. cbn [In]. intros [Hin|[->|[]]]; [exact (Hy Hin)|].
      apply Hx. left. reflexivity.
    + apply IH. intros Hin. apply Hx. right. exact Hin.
Qed.

Lemma firstWithKey_head def rest : firstWithKey (def :: rest) def = Some def.
Proof.
  unfold firstWithKey. cbn [find].
  replace (keyEqb (defKey def) (defKey def)) with true; [reflexivity|].
  symmetry. apply keyEqb_eq. reflexivity.
Qed.

Lemma firstWithKey_tail def rest d :
  defKey def <> defKey d -> firstWithKey (def :: rest) d = firstWithKey rest d.
Proof.
  intros Hne. unfold firstWithKey. cbn [find].
  destruct (keyEqb (defKey def) (defKey d)) eqn:E; [|reflexivity].
  apply keyEqb_eq in E. contradiction.
Qed.

(** The loop appends to [out] the first definition of every key not seen
    yet. *)
Lemma deduplicateLoop_spec : forall defs seen out,
  (forall k, In k seen <-> In k (map defKey out)) ->
  NoDup (map defKey out) ->
  exists kept,
    deduplicateLoop defs seen out = out ++ kept
    /\ Subseq kept defs
    /\ NoDup (map defKey (out ++ kept))
    /\ (forall d, In d defs -> In (defKey d) (map defKey (out ++ kept)))
    /\ (forall d, In d kept -> ~ In (defKey d) seen /\ firstWithKey defs d = Some d).
Proof.
  induction defs as [|def rest IH]; intros seen out Hseen Hnodup.
  - exists []. cbn [deduplicateLoop]. rewrite app_nil_r.
    split; [reflexivity|]. split; [apply Subseq_nil|]. split; [exact Hnodup|].
    split; intros d [].
  - cbn [deduplicateLoop].
    destruct (existsb (keyEqb (defKey def)) seen) eqn:Eseen.
    + apply seen_In in Eseen.
      destruct (IH seen out Hseen Hnodup) as (kept & Hloop & Hsub & Hnd & Hcover & Hfirst).
      exists kept. split; [exact Hloop|]. split; [constructor; exact Hsub|].
      split; [exact Hnd|]. split.
      * intros d [<-|Hd]; [|exact (Hcover d Hd)].
        rewrite map_app. apply in_or_app. left. apply Hseen, Eseen.
      * intros d Hd. destruct (Hfirst d Hd) as [Hnew Hf]. split; [exact Hnew|].
        rewrite firstWithKey_tail; [exact Hf|]. intros Heq. apply Hnew.
        rewrite <- Heq. exact Eseen.
    + assert (Hnew : ~ In (defKey def) seen).
      { intros Hin. apply seen_In in Hin. congruence. }
      destruct (IH (defKey def :: seen) (out ++ [def])) as
        (kept & Hloop & Hsub & Hnd & Hcover & Hfirst).
      { intros k. rewrite map_app, in_app_iff. cbn [map In]. rewrite (Hseen k). tauto. }
      { rewrite map_app. cbn [map]. apply NoDup_snoc; [exact Hnodup|].
        intros Hk. apply Hnew, Hseen, Hk. }
      rewrite <- app_assoc in Hloop, Hnd, Hcover. cbn [app] in Hloop, Hnd, Hcover.
      exists (def :: kept). split; [exact Hloop|]. split; [constructor; exact Hsub|].
      split; [exact Hnd|]. split.
      * intros d [<-|Hd]; [|exact (Hcover d Hd)].
        rewrite map_app. apply in_or_app. right. left. reflexivity.
      * intros d [<-|Hd]; [split; [exact Hnew|apply firstWithKey_head]|].
        destruct (Hfirst d Hd) as [Hnot Hf]. split.
        -- intros Hin. apply Hnot. right. exact Hin.
        -- rewrite firstWithKey_tail; [exact Hf|].
           intros Heq. apply Hnot. left. exact Heq.
Qed.

(** X28.  [deduplicateDefs] keeps the first definition of every
    position-and-size key: its result lists definitions of the input in the
    order of the input, no two with the same key, every key of the input is
    still there, and each definition kept is the first of the input with its
    key. *)
Theorem deduplicateDefs_keeps_first_of_each_key defs :
  Subseq (deduplicateDefs defs) defs
  /\ NoDup (map defKey (deduplicateDefs defs))
  /\ (forall d, In d defs -> In (defKey d) (map defKey (deduplicateDefs defs)))
  /\ (forall d, In d (deduplicateDefs defs) -> firstWithKey defs d = Some d).
Proof.
  unfold deduplicateDefs.
  destruct (length defs <=? 1)%nat eqn:Eshort.
  - apply Nat.leb_le in Eshort. split; [apply Subseq_refl|].
    destruct defs as [|d [|d' defs]]; cbn [length] in Eshort; try lia.
    + split; [apply NoDup_nil|]. split; intros d [].
    + split; [repeat constructor; intros []|].
      split; [intros x Hx; apply in_map; exact Hx|].
      intros x [<-|[]]. apply firstWithKey_head.
  - destruct (deduplicateLoop_spec defs [] []) as (kept & -> & Hsub & Hnd & Hcover & Hfirst).
    + intros k. reflexivity.
    + constructor.
    + cbn [app] in *. split; [exact Hsub|]. split; [exact Hnd|].
      split; [exact Hcover|]. intros d Hd. apply (Hfirst d Hd).
Qed.

End UnpackExtra.

Module MipExtra.
Import Edds EddsIO EddsMip.

(** ** The number and the sizes of the mip levels *)

Lemma log2_half m : 2 <= m -> Z.log2 (m / 2) = Z.log2 m - 1.
Proof.
  intros Hm. change (m / 2) with (m / 2 ^ 1). rewrite <- Z.shiftr_div_pow2 by lia.
  rewrite Z.log2_shiftr by lia.
  assert (1 <= Z.log2 m) by (apply Z.log2_le_pow2; [lia|exact Hm]). lia.
Qed.

Lemma halved_max w h :
  0 <= w -> 0 <= h -> 2 <= Z.max w h ->
  Z.max (if 1 <? w then w / 2 else w) (if 1 <? h then h / 2 else h) = Z.max w h / 2.
Proof.
  intros Hw Hh Hm.
  pose proof (Z.div_mod w 2 ltac:(lia)). pose proof (Z.mod_pos_bound w 2 ltac:(lia)).
  pose proof (Z.div_mod h 2 ltac:(lia)). pose proof (Z.mod_pos_bound h 2 ltac:(lia)).
  pose proof (Z.div_mod (Z.max w h) 2 ltac:(lia)).
  pose proof (Z.mod_pos_bound (Z.max w h) 2 ltac:(lia)).
  destruct (Z.ltb_spec 1 w), (Z.ltb_spec 1 h); lia.
Qed.

Lemma mipCountLoop_value : forall fuel count w h,
  0 <= w -> 0 <= h -> 0 <= count ->
  Z.log2 (Z.max w h) < Z.of_nat fuel ->
  count + Z.log2 (Z.max w h) < 2 ^ 32 ->
  mipCountLoop fuel count w h = Some (count + Z.log2 (Z.max w h)).
Proof.
  induction fuel as [|fuel IH]; intros count w h Hw Hh Hcount Hfuel Hfit.
  - pose proof (Z.log2_nonneg (Z.max w h)). lia.
  - cbn [mipCountLoop].
    destruct ((1 <? w) || (1 <? h)) eqn:Emore.
    + assert (Hm : 2 <= Z.max w h).
      { apply orb_true_iff in Emore as [E|E]; apply Z.ltb_lt in E; lia. }
      assert (Hlog : 1 <= Z.log2 (Z.max w h)) by (apply Z.log2_le_pow2; lia).
      assert (Hcount' : Dds.u32 (count + 1) = count + 1).
      { unfold Dds.u32. apply Z.mod_small. lia. }
      rewrite Hcount'.
      assert (Hw' : 0 <= (if 1 <? w then w / 2 else w))
        by (destruct (1 <? w); [apply Z.div_pos; lia|exact Hw]).
      assert (Hh' : 0 <= (if 1 <? h then h / 2 else h))
        by (destruct (1 <? h); [apply Z.div_pos; lia|exact Hh]).
      assert (Ehalf : Z.log2 (Z.max (if 1 <? w then w / 2 else w)
                                    (if 1 <? h then h / 2 else h))
                      = Z.log2 (Z.max w h) - 1).
      { rewrite halved_max by lia. apply log2_half. exact Hm. }
      rewrite IH; rewrite ?Ehalf; try lia.
      f_equal. lia.
    + apply orb_false_iff in Emore as [Ew Eh].
      apply Z.ltb_ge in Ew, Eh.
      assert (Hlog : Z.log2 (Z.max w h) = 0).
      { assert (Hsmall : Z.max w h = 0 \/ Z.max w h = 1) by lia.
        destruct Hsmall as [-> | ->]; reflexivity. }
      rewrite Hlog, Z.add_0_r. reflexivity.
Qed.

Lemma mipDimension_value base level :
  0 <= level -> mipDimension base level = Z.max 1 (base / 2 ^ level).
Proof.
  intros Hl. unfold mipDimension. rewrite Z.shiftr_div_pow2 by exact Hl.
  destruct (Z.ltb_spec (base / 2 ^ level) 1); lia.
Qed.

(** X29.  For a width and height from 1 to 2^32 - 1 the mip chain goes down
    to 1 x 1 unless it is cut at 11 levels: [calculateMipMapCount] returns
    the smaller of 11 and [n], one more than the binary logarithm of the
    larger side; read with [mipDimension], level [n - 1] is 1 x 1 and every
    level before it has a side greater than 1. *)
Theorem calculateMipMapCount_counts_levels_to_1x1 width height :
  1 <= width < 2 ^ 32 -> 1 <= height < 2 ^ 32 ->
  let n := 1 + Z.log2 (Z.max width height) in
  calculateMipMapCount width height = Some (Z.min 11 n)
  /\ mipDimension width (n - 1) = 1 /\ mipDimension height (n - 1) = 1
  /\ forall level, 0 <= level < n - 1 ->
       1 < Z.max (mipDimension width level) (mipDimension height level).
Proof.
  intros Hw Hh n.
  set (m := Z.max width height) in *.
  assert (Hm : 1 <= m < 2 ^ 32) by (unfold m; lia).
  pose proof (Z.log2_spec m ltac:(lia)) as Hspec.
  pose proof (Z.log2_nonneg m) as Hlog.
  assert (Hlog32 : Z.log2 m < 32) by (apply Z.log2_lt_pow2; lia).
  split; [|split; [|split]].
  - unfold calculateMipMapCount, Dds.u32. rewrite !Z.mod_small by lia.
    rewrite mipCountLoop_value; fold m; try lia.
    f_equal. unfold n. destruct (Z.ltb_spec 11 (1 + Z.log2 m)); lia.
  - rewrite mipDimension_value by (unfold n; lia).
    replace (n - 1) with (Z.log2 m) by (unfold n; lia).
    assert (width / 2 ^ Z.log2 m <= 1).
    { apply Z.lt_succ_r. apply Z.div_lt_upper_bound; [lia|].
      rewrite Z.pow_succ_r in Hspec by lia. unfold m in *. lia. }
    lia.
  - rewrite mipDimension_value by (unfold n; lia).
    replace (n - 1) with (Z.log2 m) by (unfold n; lia).
    assert (height / 2 ^ Z.log2 m <= 1).
    { apply Z.lt_succ_r. apply Z.div_lt_upper_bound; [lia|].
      rewrite Z.pow_succ_r in Hspec by lia. unfold m in *. lia. }
    lia.
  - intros level Hlevel. unfold n in Hlevel.
    rewrite !mipDimension_value by lia.
    assert (Hbig : 2 <= m / 2 ^ level).
    { apply Z.div_le_lower_bound; [lia|].
      assert (Hpow : 2 ^ (level + 1) <= 2 ^ Z.log2 m) by (apply Z.pow_le_mono_r; lia).
      rewrite Z.pow_add_r in Hpow by lia. lia. }
    assert (Hmax : m / 2 ^ level = Z.max (width / 2 ^ level) (height / 2 ^ level)).
    { unfold m. destruct (Z.max_spec width height) as [[Hlt ->]|[Hle ->]].
      - assert (width / 2 ^ level <= height / 2 ^ level)
          by (apply Z.div_le_mono; lia). lia.
      - assert (height / 2 ^ level <= width / 2 ^ level)
          by (apply Z.div_le_mono; lia). lia. }
    lia.
Qed.

Lemma calculateMipMapCount_witness :
  let n := 1 + Z.log2 (Z.max 50 10) in
  calculateMipMapCount 50 10 = Some (Z.min 11 n)
  /\ mipDimension 50 (n - 1) = 1 /\ mipDimension 10 (n - 1) = 1
  /\ forall level, 0 <= level < n - 1 ->
       1 < Z.max (mipDimension 50 level) (mipDimension 10 level).
Proof.
  apply (calculateMipMapCount_counts_levels_to_1x1 50 10); lia.
Defined.

(** ** The order of the colour channels *)

Lemma list_ind4 (P : list Z -> Prop) :
  P [] -> (forall a, P [a]) -> (forall a b, P [a; b]) -> (forall a b c, P [a; b; c]) ->
  (forall a b c d rest, P rest -> P (a :: b :: c :: d :: rest)) ->
  forall l, P l.
Proof.
  intros H0 H1 H2 H3 H4 l.
  assert (Hall : forall n l', (length l' <= n)%nat -> P l').
  { induction n as [|n IH]; intros l' Hlen.
    - destruct l'; [exact H0|cbn [length] in Hlen; lia].
    - destruct l' as [|a [|b [|c [|d rest]]]]; auto.
      apply H4, IH. cbn [length] in Hlen. lia. }
  apply (Hall (length l) l). lia.
Qed.

Lemma length4_mod (a b c d : Z) rest :
  (length (a :: b :: c :: d :: rest) mod 4 = length rest mod 4)%nat.
Proof.
  cbn [length]. replace (S (S (S (S (length rest))))) with (length rest + 1 * 4)%nat by lia.
  apply Nat.Div0.mod_add.
Qed.

Lemma channel_swap_cases : forall pix,
  ((length pix mod 4 = 0)%nat ->
     exists bgra, bgraOfRgba pix = Some bgra /\ length bgra = length pix
                  /\ rgbaOfBgra bgra = Some pix)
  /\ ((length pix mod 4 <> 0)%nat -> bgraOfRgba pix = None /\ rgbaOfBgra pix = None).
Proof.
  apply list_ind4.
  - split; [intros _; exists []; auto|intros Habs; contradiction Habs; reflexivity].
  - intros a. split; [discriminate|auto].
  - intros a b. split; [discriminate|auto].
  - intros a b c. split; [discriminate|auto].
  - intros r g b a rest [IHsome IHnone]. rewrite length4_mod.
    cbn [bgraOfRgba rgbaOfBgra]. split.
    + intros Hmod. destruct (IHsome Hmod) as (out & -> & Hlen & Hback).
      exists (b :: g :: r :: a :: out). split; [reflexivity|].
      split; [cbn [length]; lia|]. cbn [rgbaOfBgra]. rewrite Hback. reflexivity.
    + intros Hmod. destruct (IHnone Hmod) as [-> ->]. auto.
Qed.

(** X30.  The reader undoes the channel swap of the writer: for pixel data
    whose length is a multiple of 4, the BGRA conversion of
    [WriteEDDSWithMipmaps] gives as many bytes, and [ConvertToRGBA] with the
    format BGRA8 turns them back into the data; on any other length both
    loops panic with an index out of range. *)
Theorem ConvertToRGBA_undoes_bgraOfRgba DecodeBC1 DecodeBC2 DecodeBC3 pix width height :
  ((length pix mod 4 = 0)%nat ->
     exists bgra,
       bgraOfRgba pix = Some bgra /\ length bgra = length pix
       /\ ConvertToRGBA DecodeBC1 DecodeBC2 DecodeBC3 bgra FormatBGRA8 width height
          = Some (inl pix))
  /\ ((length pix mod 4 <> 0)%nat ->
        bgraOfRgba pix = None
        /\ ConvertToRGBA DecodeBC1 DecodeBC2 DecodeBC3 pix FormatBGRA8 width height = None).
Proof.
  destruct (channel_swap_cases pix) as [Hsome Hnone]. split.
  - intros Hmod. destruct (Hsome Hmod) as (bgra & Hb & Hlen & Hback).
    exists bgra. split; [exact Hb|]. split; [exact Hlen|].
    unfold ConvertToRGBA. rewrite Hback. reflexivity.
  - intros Hmod. destruct (Hnone Hmod) as [Hb Hr]. split; [exact Hb|].
    unfold ConvertToRGBA. rewrite Hr. reflexivity.
Qed.

End MipExtra.
